(** * A shallow embedding of the maze game of [src/App.tsx]

    The simulation core of the game (maze generation, [initGame],
    [resetPositions], [canMove] and the per-frame [update]) is
    translated function by function.

    Numbers.  Every coordinate of the player and of the ghosts is an
    integer-valued double at all times (speeds 4, 2 and 2 * 0.5, the
    snap and the wrap produce integers), so they are modelled by [Z]:
    [Math.floor (a / TILE_SIZE)] is [a / TILE_SIZE] ([Z.div] rounds to
    minus infinity), [a % TILE_SIZE] is [Z.rem], and
    [Math.round (a / TILE_SIZE)] is [(2 * a + TILE_SIZE) / (2 * TILE_SIZE)].
    The falling witches and the wall fragments have fractional
    coordinates; they are modelled by rationals, rounding left out.

    Environment.  [Math.random], the order produced by
    [sort (() => Math.random() - 0.5)], [Math.sin] and [Math.PI] are
    supplied by an environment record; the state carries the number of
    [Math.random] calls made so far.

    React.  The updater function passed to [setLives] at a life loss
    has effects ([resetPositions], [setGameState], a sound); React runs
    it when it renders, after [update] has returned: the call queues it
    ([setLives]) and the render that follows the frame runs the queue
    ([runLives]).  The other setters ([setScore], [setGameState],
    [setPopups], ...) are given values or pure updaters that nothing in
    [update] reads back; they are applied in call order at the call.
    One [update] is one animation frame: the body [tick], then that
    render. *)

From Stdlib Require Import ZArith QArith Qround Lia Bool String.
From stdpp Require Import base list.

Local Open Scope Z_scope.

(** ** Constants *)

Definition TILE_SIZE : Z := 36.
Definition GRID_WIDTH : Z := 15.
Definition GRID_HEIGHT : Z := 21.
Definition CANVAS_WIDTH : Z := TILE_SIZE * GRID_WIDTH.
Definition CANVAS_HEIGHT : Z := TILE_SIZE * GRID_HEIGHT.

(** [COLORS.ghosts]: colour and trait of the four ghosts. *)
Definition COLORS_ghosts : list (string * string) :=
  [ ("#ff0000", "cape"); ("#9933ff", "hat");
    ("#444444", "wings"); ("#00ff00", "stitches") ]%string.

Definition STAGE_COLORS : list string :=
  [ "#ff6600"; "#9933ff"; "#00ff00"; "#ff00ff" ]%string.

(** ** The environment *)

Record Env := {
  random : nat -> Q;       (* the n-th value returned by Math.random() *)
  sortOrder : nat -> nat;  (* which order the n-th random sort produces *)
  sin : Q -> Q;            (* Math.sin *)
  PI : Q                   (* Math.PI *)
}.

(** ** The tile grid, a [number[][]]

    Tile codes as in the source: 0 empty, 1 wall, 2 pellet, 3 power
    candy, 4 ghost spawn, 5 player start, 6 tombstone, 7 fruit. *)

(** [maze[gy]?.[gx]]: [None] is JavaScript's [undefined]. *)
Definition cellAt (maze : list (list Z)) (gx gy : Z) : option Z :=
  if (gy <? 0) || (gx <? 0) then None
  else match maze !! Z.to_nat gy with
       | Some row => row !! Z.to_nat gx
       | None => None
       end.

(** [cell === v] for a cell that has been read. *)
Definition tileIs (cell : option Z) (v : Z) : bool :=
  match cell with
  | Some c => c =? v
  | None => false
  end.

(** [maze[gy]?.[gx] === v] *)
Definition cellIs (maze : list (list Z)) (gx gy v : Z) : bool :=
  tileIs (cellAt maze gx gy) v.

(** [maze[gy][gx] = v].  The source only writes cells it has just read
    or cells inside the grid; outside the grid the model writes nothing. *)
Definition setCell (maze : list (list Z)) (gx gy v : Z) : list (list Z) :=
  if (gy <? 0) || (gx <? 0) then maze
  else match maze !! Z.to_nat gy with
       | Some row => <[Z.to_nat gy := <[Z.to_nat gx := v]> row]> maze
       | None => maze
       end.

(** [Math.floor (Math.random () * n)] for the [k]-th random value. *)
Definition randomIndex (env : Env) (k : nat) (n : Z) : Z :=
  Qfloor (random env k * inject_Z n).

(** [Math.random () < p] *)
Definition randomBelow (env : Env) (k : nat) (p : Q) : bool :=
  negb (Qle_bool p (random env k)).

(** ** Maze generation *)

(** The order of a four-element array after [sort] with a random
    comparator is some permutation of it; [shuffle code] is the
    permutation numbered [code]. *)
Fixpoint shuffle {A : Type} (fuel code : nat) (l : list A) : list A :=
  match fuel with
  | O => []
  | S fuel' =>
      let n := length l in
      match l !! (code mod n)%nat with
      | Some a => a :: shuffle fuel' (code / n)%nat (delete (code mod n)%nat l)
      | None => []
      end
  end.

Definition walkDirs : list (Z * Z) := [ (0, 2); (0, -2); (2, 0); (-2, 0) ].

Section Generation.

Variable env : Env.

(** [walk (x, y)] of [generateMaze].  The pair carries the maze and the
    number of sorts done so far; [None] means the recursion budget
    [fuel] was too small. *)
Fixpoint walk (fuel : nat) (x y : Z) (st : list (list Z) * nat)
  : option (list (list Z) * nat) :=
  match fuel with
  | O => None
  | S fuel' =>
      let maze := setCell st.1 x y 0 in
      let dirs := shuffle 4 (sortOrder env st.2) walkDirs in
      fold_left
        (fun acc d =>
           match acc with
           | None => None
           | Some (maze, k) =>
               let nx := x + d.1 in
               let ny := y + d.2 in
               if (0 <? nx) && (nx <? GRID_WIDTH - 1) && (0 <? ny)
                  && (ny <? GRID_HEIGHT - 1) && cellIs maze nx ny 1
               then walk fuel' nx ny
                      (setCell maze (x + d.1 / 2) (y + d.2 / 2) 0, k)
               else Some (maze, k)
           end)
        dirs (Some (maze, S st.2))
  end.

(** The ghost house: [maze[midY + i][midX + j] = 0] for i, j in -1..1. *)
Definition carveHouse (maze : list (list Z)) : list (list Z) :=
  let midX := GRID_WIDTH / 2 in
  let midY := GRID_HEIGHT / 2 in
  fold_left
    (fun m i => fold_left (fun m j => setCell m (midX + j) (midY + i) 0)
                          [-1; 0; 1] m)
    [-1; 0; 1] maze.

(** [if (maze[y][x] === 0) maze[y][x] = 2] for every cell. *)
Definition fillPellets (maze : list (list Z)) : list (list Z) :=
  map (map (fun c => if c =? 0 then 2 else c)) maze.

Definition generateMaze (fuel : nat) : option (list (list Z)) :=
  let maze := replicate (Z.to_nat GRID_HEIGHT) (replicate (Z.to_nat GRID_WIDTH) 1) in
  match walk fuel 1 1 (maze, O) with
  | None => None
  | Some (maze, _) =>
      let midX := GRID_WIDTH / 2 in
      let midY := GRID_HEIGHT / 2 in
      let maze := carveHouse maze in
      let maze := setCell maze midX midY 4 in
      let maze := fillPellets maze in
      Some (setCell maze midX (GRID_HEIGHT - 2) 5)
  end.

End Generation.

(** ** Actors *)

Inductive Direction := UP | DOWN | LEFT | RIGHT | NONE.

Definition Direction_eqb (a b : Direction) : bool :=
  match a, b with
  | UP, UP | DOWN, DOWN | LEFT, LEFT | RIGHT, RIGHT | NONE, NONE => true
  | _, _ => false
  end.

#[global] Instance Direction_eq_dec : EqDecision Direction.
Proof. solve_decision. Defined.

Inductive GameState := START | PLAYING | GAMEOVER | WON | COUNTDOWN.

#[global] Instance GameState_eq_dec : EqDecision GameState.
Proof. solve_decision. Defined.

Definition GameState_eqb (a b : GameState) : bool :=
  match a, b with
  | START, START | PLAYING, PLAYING | GAMEOVER, GAMEOVER
  | WON, WON | COUNTDOWN, COUNTDOWN => true
  | _, _ => false
  end.

Module Entity.
Record t := mk {
  x : Z;
  y : Z;
  dir : Direction;
  nextDir : Direction;
  speed : Z
}.
End Entity.

Module GhostEntity.
Record t := mk {
  x : Z;
  y : Z;
  dir : Direction;
  nextDir : Direction;
  speed : Z;
  color : string;
  trait : string;
  isScared : bool;
  isEaten : bool;
  isDying : bool;
  deathTimer : Z
}.

Definition set_x (v : Z) (g : t) : t :=
  {| x := v; y := y g; dir := dir g; nextDir := nextDir g; speed := speed g;
     color := color g; trait := trait g; isScared := isScared g;
     isEaten := isEaten g; isDying := isDying g;
     deathTimer := deathTimer g |}.
Definition set_y (v : Z) (g : t) : t :=
  {| x := x g; y := v; dir := dir g; nextDir := nextDir g; speed := speed g;
     color := color g; trait := trait g; isScared := isScared g;
     isEaten := isEaten g; isDying := isDying g;
     deathTimer := deathTimer g |}.
Definition set_dir (v : Direction) (g : t) : t :=
  {| x := x g; y := y g; dir := v; nextDir := nextDir g; speed := speed g;
     color := color g; trait := trait g; isScared := isScared g;
     isEaten := isEaten g; isDying := isDying g;
     deathTimer := deathTimer g |}.
Definition set_nextDir (v : Direction) (g : t) : t :=
  {| x := x g; y := y g; dir := dir g; nextDir := v; speed := speed g;
     color := color g; trait := trait g; isScared := isScared g;
     isEaten := isEaten g; isDying := isDying g;
     deathTimer := deathTimer g |}.
Definition set_speed (v : Z) (g : t) : t :=
  {| x := x g; y := y g; dir := dir g; nextDir := nextDir g; speed := v;
     color := color g; trait := trait g; isScared := isScared g;
     isEaten := isEaten g; isDying := isDying g;
     deathTimer := deathTimer g |}.
Definition set_color (v : string) (g : t) : t :=
  {| x := x g; y := y g; dir := dir g; nextDir := nextDir g;
     speed := speed g; color := v; trait := trait g; isScared := isScared g;
     isEaten := isEaten g; isDying := isDying g;
     deathTimer := deathTimer g |}.
Definition set_trait (v : string) (g : t) : t :=
  {| x := x g; y := y g; dir := dir g; nextDir := nextDir g;
     speed := speed g; color := color g; trait := v; isScared := isScared g;
     isEaten := isEaten g; isDying := isDying g;
     deathTimer := deathTimer g |}.
Definition set_isScared (v : bool) (g : t) : t :=
  {| x := x g; y := y g; dir := dir g; nextDir := nextDir g;
     speed := speed g; color := color g; trait := trait g; isScared := v;
     isEaten := isEaten g; isDying := isDying g;
     deathTimer := deathTimer g |}.
Definition set_isEaten (v : bool) (g : t) : t :=
  {| x := x g; y := y g; dir := dir g; nextDir := nextDir g;
     speed := speed g; color := color g; trait := trait g;
     isScared := isScared g; isEaten := v; isDying := isDying g;
     deathTimer := deathTimer g |}.
Definition set_isDying (v : bool) (g : t) : t :=
  {| x := x g; y := y g; dir := dir g; nextDir := nextDir g;
     speed := speed g; color := color g; trait := trait g;
     isScared := isScared g; isEaten := isEaten g; isDying := v;
     deathTimer := deathTimer g |}.
Definition set_deathTimer (v : Z) (g : t) : t :=
  {| x := x g; y := y g; dir := dir g; nextDir := nextDir g;
     speed := speed g; color := color g; trait := trait g;
     isScared := isScared g; isEaten := isEaten g; isDying := isDying g;
     deathTimer := v |}.
End GhostEntity.

Module ScorePopup.
Record t := mk {
  x : Z;
  y : Z;
  score : Z;
  timer : Z
}.
End ScorePopup.

Module WallFragment.
Record t := mk {
  x : Q;
  y : Q;
  vx : Q;
  vy : Q;
  timer : Z;
  color : option string   (* [None]: an index outside STAGE_COLORS *)
}.
End WallFragment.

Module WitchEntity.
Record t := mk {
  x : Q;
  y : Q;
  speed : Q;
  active : bool;
  phase : Q
}.
End WitchEntity.

(** The four ghost states of the specification, read off the three
    flags in the order the collision code tests them. *)
Inductive GhostState := NORMAL | SCARED | DYING | EATEN.

Definition ghostState (g : GhostEntity.t) : GhostState :=
  if GhostEntity.isDying g then DYING
  else if GhostEntity.isEaten g then EATEN
  else if GhostEntity.isScared g then SCARED
  else NORMAL.

(** ** The simulation state

    The React state ([score], [lives], [gameState], [popups]) and the
    refs ([stageRef], [pacmanRef], [ghostsRef], [mazeRef],
    [powerModeRef], [wallsLeftRef], [totalPelletsRef],
    [eatenPelletsRef], [wallFragmentsRef], [witchesRef]).  [rng] counts
    the calls of [Math.random]; [trace] records, latest first, the
    sounds requested, the calls of [resetPositions] and the timers
    started.  [pendingLives] is the queue of the [lives] state: the
    number of life-loss updaters passed to [setLives] that React has
    not run yet.  Display-only mirrors ([consumptionRate], [wallsLeft]
    as React state, [highScore], the joystick) are left out. *)

Inductive Sound := CHOMP | GHOST_EATEN | DEATH | POWER_UP | WIN | WALL_BREAK | MOAN.

Inductive Event :=
  | PlaySound (snd : Sound)
  | ResetPositions
  | StartCountdown.

Record State := mkState {
  score : Z;
  lives : Z;
  gameState : GameState;
  stage : Z;
  pacman : Entity.t;
  ghosts : list GhostEntity.t;
  maze : list (list Z);
  powerMode : Z;
  wallsLeft : Z;
  totalPellets : Z;
  eatenPellets : Z;
  popups : list ScorePopup.t;
  wallFragments : list WallFragment.t;
  witches : list WitchEntity.t;
  rng : nat;
  trace : list Event;
  pendingLives : nat
}.

Definition set_score (v : Z) (s : State) : State :=
  {| score := v; lives := lives s; gameState := gameState s;
     stage := stage s; pacman := pacman s; ghosts := ghosts s;
     maze := maze s; powerMode := powerMode s; wallsLeft := wallsLeft s;
     totalPellets := totalPellets s; eatenPellets := eatenPellets s;
     popups := popups s; wallFragments := wallFragments s;
     witches := witches s; rng := rng s; trace := trace s;
     pendingLives := pendingLives s |}.
Definition set_lives (v : Z) (s : State) : State :=
  {| score := score s; lives := v; gameState := gameState s;
     stage := stage s; pacman := pacman s; ghosts := ghosts s;
     maze := maze s; powerMode := powerMode s; wallsLeft := wallsLeft s;
     totalPellets := totalPellets s; eatenPellets := eatenPellets s;
     popups := popups s; wallFragments := wallFragments s;
     witches := witches s; rng := rng s; trace := trace s;
     pendingLives := pendingLives s |}.
Definition set_gameState (v : GameState) (s : State) : State :=
  {| score := score s; lives := lives s; gameState := v; stage := stage s;
     pacman := pacman s; ghosts := ghosts s; maze := maze s;
     powerMode := powerMode s; wallsLeft := wallsLeft s;
     totalPellets := totalPellets s; eatenPellets := eatenPellets s;
     popups := popups s; wallFragments := wallFragments s;
     witches := witches s; rng := rng s; trace := trace s;
     pendingLives := pendingLives s |}.
Definition set_stage (v : Z) (s : State) : State :=
  {| score := score s; lives := lives s; gameState := gameState s;
     stage := v; pacman := pacman s; ghosts := ghosts s; maze := maze s;
     powerMode := powerMode s; wallsLeft := wallsLeft s;
     totalPellets := totalPellets s; eatenPellets := eatenPellets s;
     popups := popups s; wallFragments := wallFragments s;
     witches := witches s; rng := rng s; trace := trace s;
     pendingLives := pendingLives s |}.
Definition set_pacman (v : Entity.t) (s : State) : State :=
  {| score := score s; lives := lives s; gameState := gameState s;
     stage := stage s; pacman := v; ghosts := ghosts s; maze := maze s;
     powerMode := powerMode s; wallsLeft := wallsLeft s;
     totalPellets := totalPellets s; eatenPellets := eatenPellets s;
     popups := popups s; wallFragments := wallFragments s;
     witches := witches s; rng := rng s; trace := trace s;
     pendingLives := pendingLives s |}.
Definition set_ghosts (v : list GhostEntity.t) (s : State) : State :=
  {| score := score s; lives := lives s; gameState := gameState s;
     stage := stage s; pacman := pacman s; ghosts := v; maze := maze s;
     powerMode := powerMode s; wallsLeft := wallsLeft s;
     totalPellets := totalPellets s; eatenPellets := eatenPellets s;
     popups := popups s; wallFragments := wallFragments s;
     witches := witches s; rng := rng s; trace := trace s;
     pendingLives := pendingLives s |}.
Definition set_maze (v : list (list Z)) (s : State) : State :=
  {| score := score s; lives := lives s; gameState := gameState s;
     stage := stage s; pacman := pacman s; ghosts := ghosts s; maze := v;
     powerMode := powerMode s; wallsLeft := wallsLeft s;
     totalPellets := totalPellets s; eatenPellets := eatenPellets s;
     popups := popups s; wallFragments := wallFragments s;
     witches := witches s; rng := rng s; trace := trace s;
     pendingLives := pendingLives s |}.
Definition set_powerMode (v : Z) (s : State) : State :=
  {| score := score s; lives := lives s; gameState := gameState s;
     stage := stage s; pacman := pacman s; ghosts := ghosts s;
     maze := maze s; powerMode := v; wallsLeft := wallsLeft s;
     totalPellets := totalPellets s; eatenPellets := eatenPellets s;
     popups := popups s; wallFragments := wallFragments s;
     witches := witches s; rng := rng s; trace := trace s;
     pendingLives := pendingLives s |}.
Definition set_wallsLeft (v : Z) (s : State) : State :=
  {| score := score s; lives := lives s; gameState := gameState s;
     stage := stage s; pacman := pacman s; ghosts := ghosts s;
     maze := maze s; powerMode := powerMode s; wallsLeft := v;
     totalPellets := totalPellets s; eatenPellets := eatenPellets s;
     popups := popups s; wallFragments := wallFragments s;
     witches := witches s; rng := rng s; trace := trace s;
     pendingLives := pendingLives s |}.
Definition set_totalPellets (v : Z) (s : State) : State :=
  {| score := score s; lives := lives s; gameState := gameState s;
     stage := stage s; pacman := pacman s; ghosts := ghosts s;
     maze := maze s; powerMode := powerMode s; wallsLeft := wallsLeft s;
     totalPellets := v; eatenPellets := eatenPellets s; popups := popups s;
     wallFragments := wallFragments s; witches := witches s; rng := rng s;
     trace := trace s;
     pendingLives := pendingLives s |}.
Definition set_eatenPellets (v : Z) (s : State) : State :=
  {| score := score s; lives := lives s; gameState := gameState s;
     stage := stage s; pacman := pacman s; ghosts := ghosts s;
     maze := maze s; powerMode := powerMode s; wallsLeft := wallsLeft s;
     totalPellets := totalPellets s; eatenPellets := v; popups := popups s;
     wallFragments := wallFragments s; witches := witches s; rng := rng s;
     trace := trace s;
     pendingLives := pendingLives s |}.
Definition set_popups (v : list ScorePopup.t) (s : State) : State :=
  {| score := score s; lives := lives s; gameState := gameState s;
     stage := stage s; pacman := pacman s; ghosts := ghosts s;
     maze := maze s; powerMode := powerMode s; wallsLeft := wallsLeft s;
     totalPellets := totalPellets s; eatenPellets := eatenPellets s;
     popups := v; wallFragments := wallFragments s; witches := witches s;
     rng := rng s; trace := trace s;
     pendingLives := pendingLives s |}.
Definition set_wallFragments (v : list WallFragment.t) (s : State) : State :=
  {| score := score s; lives := lives s; gameState := gameState s;
     stage := stage s; pacman := pacman s; ghosts := ghosts s;
     maze := maze s; powerMode := powerMode s; wallsLeft := wallsLeft s;
     totalPellets := totalPellets s; eatenPellets := eatenPellets s;
     popups := popups s; wallFragments := v; witches := witches s;
     rng := rng s; trace := trace s;
     pendingLives := pendingLives s |}.
Definition set_witches (v : list WitchEntity.t) (s : State) : State :=
  {| score := score s; lives := lives s; gameState := gameState s;
     stage := stage s; pacman := pacman s; ghosts := ghosts s;
     maze := maze s; powerMode := powerMode s; wallsLeft := wallsLeft s;
     totalPellets := totalPellets s; eatenPellets := eatenPellets s;
     popups := popups s; wallFragments := wallFragments s; witches := v;
     rng := rng s; trace := trace s;
     pendingLives := pendingLives s |}.
Definition set_rng (v : nat) (s : State) : State :=
  {| score := score s; lives := lives s; gameState := gameState s;
     stage := stage s; pacman := pacman s; ghosts := ghosts s;
     maze := maze s; powerMode := powerMode s; wallsLeft := wallsLeft s;
     totalPellets := totalPellets s; eatenPellets := eatenPellets s;
     popups := popups s; wallFragments := wallFragments s;
     witches := witches s; rng := v; trace := trace s;
     pendingLives := pendingLives s |}.
Definition set_trace (v : list Event) (s : State) : State :=
  {| score := score s; lives := lives s; gameState := gameState s;
     stage := stage s; pacman := pacman s; ghosts := ghosts s;
     maze := maze s; powerMode := powerMode s; wallsLeft := wallsLeft s;
     totalPellets := totalPellets s; eatenPellets := eatenPellets s;
     popups := popups s; wallFragments := wallFragments s;
     witches := witches s; rng := rng s; trace := v;
     pendingLives := pendingLives s |}.

Definition set_pendingLives (v : nat) (s : State) : State :=
  {| score := score s; lives := lives s; gameState := gameState s;
     stage := stage s; pacman := pacman s; ghosts := ghosts s;
     maze := maze s; powerMode := powerMode s; wallsLeft := wallsLeft s;
     totalPellets := totalPellets s; eatenPellets := eatenPellets s;
     popups := popups s; wallFragments := wallFragments s;
     witches := witches s; rng := rng s; trace := trace s;
     pendingLives := v |}.

Definition emit (e : Event) (s : State) : State := set_trace (e :: trace s) s.

Definition addScore (n : Z) (s : State) : State := set_score (score s + n) s.

(** [n] more calls of [Math.random] have been made. *)
Definition drawn (n : nat) (s : State) : State := set_rng (rng s + n)%nat s.

(** ** Grid motion *)

(** The cell [canMove] looks at: the point [buffer] ahead of the
    leading edge, converted to grid coordinates. *)
Definition lookAhead (x y : Z) (dir : Direction) : Z * Z :=
  let buffer := 4 in
  let nextY := match dir with
               | UP => y - buffer
               | DOWN => y + TILE_SIZE + buffer - 1
               | _ => y
               end in
  let nextX := match dir with
               | LEFT => x - buffer
               | RIGHT => x + TILE_SIZE + buffer - 1
               | _ => x
               end in
  (nextX / TILE_SIZE, nextY / TILE_SIZE).

Definition canMove (s : State) (x y : Z) (dir : Direction) : bool :=
  let '(gridX, gridY) := lookAhead x y dir in
  if (gridX <? 0) || (GRID_WIDTH <=? gridX) then true
  else if (gridY <? 0) || (GRID_HEIGHT <=? gridY) then false
  else
    let cell := cellAt (maze s) gridX gridY in
    if tileIs cell 1 then (0 <? powerMode s) && (0 <? wallsLeft s)
    else true.

(** [if (x < -TILE_SIZE) x = CANVAS_WIDTH; if (x > CANVAS_WIDTH) x = -TILE_SIZE] *)
Definition wrapX (x : Z) : Z :=
  let x1 := if x <? - TILE_SIZE then CANVAS_WIDTH else x in
  if CANVAS_WIDTH <? x1 then - TILE_SIZE else x1.

(** [Math.round (a / TILE_SIZE)] *)
Definition roundTile (a : Z) : Z := (2 * a + TILE_SIZE) / (2 * TILE_SIZE).

Definition isAligned (x y : Z) : bool :=
  (Z.rem x TILE_SIZE =? 0) && (Z.rem y TILE_SIZE =? 0).

(** ** resetPositions and the life-loss rule *)

Definition houseX (i : nat) : Z :=
  (GRID_WIDTH / 2 + (if (i mod 2 =? 0)%nat then -1 else 1)) * TILE_SIZE.

Definition resetGhost (i : nat) (ghost : GhostEntity.t) : GhostEntity.t :=
  GhostEntity.set_isDying false
    (GhostEntity.set_isEaten false
       (GhostEntity.set_isScared false
          (GhostEntity.set_dir UP
             (GhostEntity.set_y (GRID_HEIGHT / 2 * TILE_SIZE)
                (GhostEntity.set_x (houseX i) ghost))))).

Definition resetPositions (s : State) : State :=
  let midX := GRID_WIDTH / 2 in
  let s := emit ResetPositions s in
  let s := set_pacman
             (Entity.mk (midX * TILE_SIZE) ((GRID_HEIGHT - 2) * TILE_SIZE)
                        NONE NONE 4) s in
  set_ghosts (imap resetGhost (ghosts s)) s.

(** The updater passed to [setLives] at each of the three life-loss
    sites (tombstone, ghost, witch), as React runs it. *)
Definition loseLife (s : State) : State :=
  let s := emit (PlaySound DEATH) s in
  if lives s <=? 1 then set_lives 0 (set_gameState GAMEOVER s)
  else set_lives (lives s - 1) (resetPositions s).

(** [setLives (l => ...)] with that updater: the call only queues it. *)
Definition setLives (s : State) : State :=
  set_pendingLives (S (pendingLives s)) s.

(** The render that follows [update]: React runs the queued updaters
    one after the other, each on the value the one before returned. *)
Definition runLives (s : State) : State :=
  Nat.iter (pendingLives s) loseLife (set_pendingLives 0 s).

(** ** initGame *)

(** Row-major enumeration of the grid, as the nested [for] loops do. *)
Definition gridCoords : list (Z * Z) :=
  y ← seqZ 0 GRID_HEIGHT; x ← seqZ 0 GRID_WIDTH; [(x, y)].

Definition countPellets (m : list (list Z)) : Z :=
  fold_left
    (fun total c => if cellIs m c.1 c.2 2 || cellIs m c.1 c.2 3
                    then total + 1 else total)
    gridCoords 0.

(** The scan for the player start: the last cell holding 5 wins and
    every such cell is cleared. *)
Definition findStart (m : list (list Z)) : Z * Z * list (list Z) :=
  fold_left
    (fun acc c => if cellIs acc.2 c.1 c.2 5
                  then (c.1, c.2, setCell acc.2 c.1 c.2 0) else acc)
    gridCoords (GRID_WIDTH / 2, GRID_HEIGHT - 2, m).

Definition initialGhosts : list GhostEntity.t :=
  imap (fun i g =>
          GhostEntity.mk (houseX i) (GRID_HEIGHT / 2 * TILE_SIZE) UP UP 2
                         g.1 g.2 false false false 0)
       COLORS_ghosts.

Section Simulation.

Variable env : Env.

(** [while (placed < 10)]: draw a cell, turn a pellet into a candy.
    [fuel] bounds the number of iterations of the model only: the loop
    of the source has no bound. *)
Fixpoint placeCandies (fuel : nat) (placed : Z) (m : list (list Z)) (k : nat)
  : option (list (list Z) * nat) :=
  if placed <? 10 then
    match fuel with
    | O => None
    | S fuel' =>
        let rx := randomIndex env k GRID_WIDTH in
        let ry := randomIndex env (S k) GRID_HEIGHT in
        if cellIs m rx ry 2
        then placeCandies fuel' (placed + 1) (setCell m rx ry 3) (S (S k))
        else placeCandies fuel' placed m (S (S k))
    end
  else Some (m, k).

(** [while (tombstones < 3)] *)
Fixpoint placeTombstones (fuel : nat) (tombstones : Z) (m : list (list Z)) (k : nat)
  : option (list (list Z) * nat) :=
  if tombstones <? 3 then
    match fuel with
    | O => None
    | S fuel' =>
        let rx := randomIndex env k GRID_WIDTH in
        let ry := randomIndex env (S k) GRID_HEIGHT in
        if cellIs m rx ry 2 || cellIs m rx ry 0
        then placeTombstones fuel' (tombstones + 1) (setCell m rx ry 6) (S (S k))
        else placeTombstones fuel' tombstones m (S (S k))
    end
  else Some (m, k).

(** [initGame (isNextStage)].  [None]: the budget [fuel] was too small
    for the recursion of [walk] or for one of the two placement loops. *)
Definition initGame (fuel : nat) (isNextStage : bool) (s : State) : option State :=
  let s := if isNextStage then set_stage (stage s + 1) s
           else set_lives 3 (set_score 0 (set_stage 1 s)) in
  match generateMaze env fuel with
  | None => None
  | Some newMaze =>
      let s := set_witches [] s in
      let s := set_totalPellets (countPellets newMaze) s in
      let s := set_eatenPellets 0 s in
      let '(px, py, newMaze) := findStart newMaze in
      let s := set_pacman
                 (Entity.mk (px * TILE_SIZE) (py * TILE_SIZE) NONE NONE 4) s in
      let s := set_ghosts initialGhosts s in
      match placeCandies fuel 0 newMaze (rng s) with
      | None => None
      | Some (m, k) =>
          match placeTombstones fuel 0 m k with
          | None => None
          | Some (m, k) =>
              let s := set_rng k (set_maze m s) in
              let s := set_popups [] s in
              Some (set_powerMode 0 (set_wallsLeft 0 s))
          end
      end
  end.

Definition startGame (fuel : nat) (s : State) : option State :=
  match initGame fuel false (emit (PlaySound CHOMP) s) with
  | Some s => Some (set_gameState PLAYING s)
  | None => None
  end.

Definition nextStage (fuel : nat) (s : State) : option State :=
  match initGame fuel true s with
  | Some s => Some (set_gameState PLAYING s)
  | None => None
  end.

(** ** update: the player *)

(** A queued direction is taken at an intersection where it is legal. *)
Definition acceptNextDir (isAtIntersection : bool) (s : State) : State :=
  let pacman := pacman s in
  if negb (Direction_eqb (Entity.nextDir pacman) NONE) && isAtIntersection then
    if canMove s (Entity.x pacman) (Entity.y pacman) (Entity.nextDir pacman)
    then set_pacman
           (Entity.mk (Entity.x pacman) (Entity.y pacman)
                      (Entity.nextDir pacman) NONE (Entity.speed pacman)) s
    else s
  else s.

Definition stepEntity (p : Entity.t) : Entity.t :=
  match Entity.dir p with
  | UP => Entity.mk (Entity.x p) (Entity.y p - Entity.speed p)
                    (Entity.dir p) (Entity.nextDir p) (Entity.speed p)
  | DOWN => Entity.mk (Entity.x p) (Entity.y p + Entity.speed p)
                      (Entity.dir p) (Entity.nextDir p) (Entity.speed p)
  | LEFT => Entity.mk (Entity.x p - Entity.speed p) (Entity.y p)
                      (Entity.dir p) (Entity.nextDir p) (Entity.speed p)
  | RIGHT => Entity.mk (Entity.x p + Entity.speed p) (Entity.y p)
                       (Entity.dir p) (Entity.nextDir p) (Entity.speed p)
  | NONE => p
  end.

(** [STAGE_COLORS[(stageRef.current - 1) % STAGE_COLORS.length]] *)
Definition wallColor (s : State) : option string :=
  let i := Z.rem (stage s - 1) (Z.of_nat (length STAGE_COLORS)) in
  if i <? 0 then None else STAGE_COLORS !! Z.to_nat i.

(** The eight fragments pushed when a wall shatters; fragment [i] uses
    the random values [k + 2 i] and [k + 2 i + 1]. *)
Definition newFragments (gridX gridY : Z) (col : option string) (k : nat)
  : list WallFragment.t :=
  map (fun i : nat =>
         WallFragment.mk
           (inject_Z (gridX * TILE_SIZE + TILE_SIZE / 2))
           (inject_Z (gridY * TILE_SIZE + TILE_SIZE / 2))
           ((random env (k + 2 * i)%nat - (1 # 2)) * 10)%Q
           ((random env (k + 2 * i + 1)%nat - (1 # 2)) * 10)%Q
           30 col)
      (seq 0 8).

(** The body of [if (mazeRef.current[gridY]?.[gridX] === 1)]. *)
Definition breakWall (gridX gridY : Z) (s : State) : State :=
  let s := set_maze (setCell (maze s) gridX gridY 0) s in
  let s := set_wallsLeft (wallsLeft s - 1) s in
  let s := emit (PlaySound WALL_BREAK) s in
  let s := addScore 50 s in
  let s := set_wallFragments
             (wallFragments s ++ newFragments gridX gridY (wallColor s) (rng s)) s in
  drawn 16 s.

Definition movePacman (isAtIntersection : bool) (s : State) : State :=
  let pacman := pacman s in
  if canMove s (Entity.x pacman) (Entity.y pacman) (Entity.dir pacman) then
    let pacman := stepEntity pacman in
    let s := set_pacman pacman s in
    if (0 <? powerMode s) && (0 <? wallsLeft s) then
      let gridX := (Entity.x pacman + TILE_SIZE / 2) / TILE_SIZE in
      let gridY := (Entity.y pacman + TILE_SIZE / 2) / TILE_SIZE in
      if cellIs (maze s) gridX gridY 1 then breakWall gridX gridY s else s
    else s
  else if negb isAtIntersection then
    set_pacman
      (Entity.mk (roundTile (Entity.x pacman) * TILE_SIZE)
                 (roundTile (Entity.y pacman) * TILE_SIZE)
                 (Entity.dir pacman) (Entity.nextDir pacman) (Entity.speed pacman)) s
  else s.

Definition wrapPacman (s : State) : State :=
  let pacman := pacman s in
  set_pacman
    (Entity.mk (wrapX (Entity.x pacman)) (Entity.y pacman)
               (Entity.dir pacman) (Entity.nextDir pacman) (Entity.speed pacman)) s.

Definition outOfBounds (pacman : Entity.t) : bool :=
  (Entity.x pacman <? - TILE_SIZE * 2)
  || (CANVAS_WIDTH + TILE_SIZE * 2 <? Entity.x pacman)
  || (Entity.y pacman <? - TILE_SIZE * 2)
  || (CANVAS_HEIGHT + TILE_SIZE * 2 <? Entity.y pacman).

Definition recoverLost (pacman : Entity.t) (s : State) : State :=
  if outOfBounds pacman then resetPositions s else s.

(** ** update: tile effects *)

(** The bounded respawn loop, [while (!respawned && attempts < 100)].
    [fuel] bounds the iterations of the model; 100 is always enough
    (lemma [respawnLoop_total] below).  The result carries the final
    value of [attempts]. *)
Fixpoint respawnLoop (fuel : nat) (respawned : bool) (attempts : Z)
  (m : list (list Z)) (k : nat) : option (list (list Z) * nat * Z) :=
  if negb respawned && (attempts <? 100) then
    match fuel with
    | O => None
    | S fuel' =>
        let rx := randomIndex env k GRID_WIDTH in
        let ry := randomIndex env (S k) GRID_HEIGHT in
        if cellIs m rx ry 2 || cellIs m rx ry 0
        then respawnLoop fuel' true (attempts + 1) (setCell m rx ry 3) (S (S k))
        else respawnLoop fuel' respawned (attempts + 1) m (S (S k))
    end
  else Some (m, k, attempts).

Definition respawnCandy (s : State) : State :=
  match respawnLoop 100 false 0 (maze s) (rng s) with
  | Some (m, k, _) => set_rng k (set_maze m s)
  | None => s
  end.

Definition scareGhost (g : GhostEntity.t) : GhostEntity.t :=
  if negb (GhostEntity.isEaten g) then GhostEntity.set_isScared true g else g.

(** The [if / else if] chain on the tile under the player.  [pacman] is
    the object the local constant of [update] refers to; after a
    [resetPositions] it is no longer the one in [pacmanRef]. *)
Definition tileEffect (pacman : Entity.t) (s : State) : State :=
  let gridX := roundTile (Entity.x pacman) in
  let gridY := roundTile (Entity.y pacman) in
  let cell := cellAt (maze s) gridX gridY in
  if tileIs cell 2 then
    let s := set_maze (setCell (maze s) gridX gridY 0) s in
    let s := set_eatenPellets (eatenPellets s + 1) s in
    emit (PlaySound CHOMP) (addScore 10 s)
  else if tileIs cell 3 then
    let s := set_maze (setCell (maze s) gridX gridY 0) s in
    let s := set_eatenPellets (eatenPellets s + 1) s in
    let s := emit (PlaySound POWER_UP) (addScore 50 s) in
    let s := set_wallsLeft 5 (set_powerMode 600 s) in
    let s := set_ghosts (map scareGhost (ghosts s)) s in
    respawnCandy s
  else if tileIs cell 6 then
    if powerMode s =? 0 then
      let s := setLives s in
      set_maze (setCell (maze s) gridX gridY 0) s
    else
      let s := set_maze (setCell (maze s) gridX gridY 0) s in
      let s := if 0 <? wallsLeft s then set_wallsLeft (wallsLeft s - 1) s else s in
      addScore 100 (emit (PlaySound WALL_BREAK) s)
  else if tileIs cell 7 then
    let s := set_maze (setCell (maze s) gridX gridY 0) s in
    let s := emit (PlaySound POWER_UP) (addScore 500 s) in
    set_popups
      (popups s ++ [ScorePopup.mk (Entity.x pacman) (Entity.y pacman) 500 60]) s
  else s.

(** ** update: timers *)

Definition updatePowerMode (s : State) : State :=
  if 0 <? powerMode s then
    let s := set_powerMode (powerMode s - 1) s in
    if powerMode s =? 0
    then set_ghosts (map (GhostEntity.set_isScared false) (ghosts s)) s
    else s
  else s.

Definition updatePopups (s : State) : State :=
  set_popups
    (filter (fun p => 0 < ScorePopup.timer p)
       (map (fun p => ScorePopup.mk (ScorePopup.x p) (ScorePopup.y p)
                        (ScorePopup.score p) (ScorePopup.timer p - 1))
            (popups s))) s.

Definition updateFragments (s : State) : State :=
  set_wallFragments
    (filter (fun f => 0 < WallFragment.timer f)
       (map (fun f => WallFragment.mk
                        (WallFragment.x f + WallFragment.vx f)%Q
                        (WallFragment.y f + WallFragment.vy f)%Q
                        (WallFragment.vx f) (WallFragment.vy f)
                        (WallFragment.timer f - 1) (WallFragment.color f))
            (wallFragments s))) s.

(** ** update: the ghosts *)

Definition allDirs : list Direction := [UP; DOWN; LEFT; RIGHT].

Definition isReverse (d cur : Direction) : bool :=
  match d, cur with
  | UP, DOWN | DOWN, UP | LEFT, RIGHT | RIGHT, LEFT => true
  | _, _ => false
  end.

(** [arr[i]] for a possibly out-of-range index; [undefined] behaves as
    ['NONE'] in every later test of [ghost.dir]. *)
Definition dirAt (l : list Direction) (i : Z) : Direction :=
  if i <? 0 then NONE else default NONE (l !! Z.to_nat i).

(** The direction choice at an intersection; the result carries the
    number of random values used. *)
Definition chooseDir (s : State) (ghost : GhostEntity.t) : Direction * nat :=
  let x := GhostEntity.x ghost in
  let y := GhostEntity.y ghost in
  let validDirs :=
    List.filter (fun d => negb (isReverse d (GhostEntity.dir ghost)) && canMove s x y d)
                allDirs in
  if (0 <? length validDirs)%nat then
    (dirAt validDirs (randomIndex env (rng s) (Z.of_nat (length validDirs))), 1%nat)
  else
    let anyValid := List.filter (fun d => canMove s x y d) allDirs in
    (dirAt anyValid 0, 0%nat).

Definition moveGhost (ghost : GhostEntity.t) : GhostEntity.t :=
  (* speed * 0.5; speed is 2 for every ghost the program creates *)
  let speed := if GhostEntity.isScared ghost then GhostEntity.speed ghost / 2
               else GhostEntity.speed ghost in
  let ghost :=
    match GhostEntity.dir ghost with
    | UP => GhostEntity.set_y (GhostEntity.y ghost - speed) ghost
    | DOWN => GhostEntity.set_y (GhostEntity.y ghost + speed) ghost
    | LEFT => GhostEntity.set_x (GhostEntity.x ghost - speed) ghost
    | RIGHT => GhostEntity.set_x (GhostEntity.x ghost + speed) ghost
    | NONE => ghost
    end in
  GhostEntity.set_x (wrapX (GhostEntity.x ghost)) ghost.

(** [dist < TILE_SIZE * 0.8] for integer coordinates:
    25 d^2 < 16 TILE_SIZE^2. *)
Definition ghostTouches (pacman : Entity.t) (ghost : GhostEntity.t) : bool :=
  let dx := Entity.x pacman - GhostEntity.x ghost in
  let dy := Entity.y pacman - GhostEntity.y ghost in
  25 * (dx * dx + dy * dy) <? 16 * (TILE_SIZE * TILE_SIZE).

(** The branch of a ghost in its death animation. *)
Definition dyingStep (ghost : GhostEntity.t) : GhostEntity.t :=
  let ghost := GhostEntity.set_deathTimer (GhostEntity.deathTimer ghost - 1) ghost in
  let ghost := GhostEntity.set_y (GhostEntity.y ghost - 2) ghost in
  if GhostEntity.deathTimer ghost <=? 0 then
    GhostEntity.set_y (GRID_HEIGHT / 2 * TILE_SIZE)
      (GhostEntity.set_x (GRID_WIDTH / 2 * TILE_SIZE)
         (GhostEntity.set_isEaten true (GhostEntity.set_isDying false ghost)))
  else ghost.

(** [ghost.field = v] on the [i]-th ghost object. *)
Definition setGhost (i : nat) (ghost : GhostEntity.t) (s : State) : State :=
  set_ghosts (<[i := ghost]> (ghosts s)) s.

(** The respawn test at the end of the callback; it reads the flags of
    the ghost object as they are then, after a possible reset. *)
Definition respawnGhost (i : nat) (s : State) : State :=
  match ghosts s !! i with
  | Some ghost =>
      if GhostEntity.isEaten ghost then
        let s' := drawn 1 s in
        if randomBelow env (rng s) (5 # 1000)
        then setGhost i (GhostEntity.set_isEaten false ghost) s'
        else s'
      else s
  | None => s
  end.

(** The choice of a new direction when the ghost is on an intersection. *)
Definition steerGhost (ghost : GhostEntity.t) (s : State) : GhostEntity.t * State :=
  if isAligned (GhostEntity.x ghost) (GhostEntity.y ghost) then
    let dn := chooseDir s ghost in
    (GhostEntity.set_dir dn.1 ghost, drawn dn.2 s)
  else (ghost, s).

(** The collision of the [i]-th ghost with the player. *)
Definition hitGhost (pacman : Entity.t) (i : nat) (ghost : GhostEntity.t) (s : State)
  : State :=
  if ghostTouches pacman ghost && negb (GhostEntity.isEaten ghost)
     && negb (GhostEntity.isDying ghost) then
    if GhostEntity.isScared ghost then
      let ghost :=
        GhostEntity.set_deathTimer 30
          (GhostEntity.set_isDying true (GhostEntity.set_isScared false ghost)) in
      let s := setGhost i ghost s in
      let s := addScore 200 s in
      let s := set_popups
                 (popups s ++ [ScorePopup.mk (GhostEntity.x ghost)
                                 (GhostEntity.y ghost) 200 60]) s in
      emit (PlaySound GHOST_EATEN) s
    else setLives s
  else s.

(** The callback of [ghostsRef.current.forEach], for the [i]-th ghost. *)
Definition ghostStep (pacman : Entity.t) (i : nat) (s : State) : State :=
  match ghosts s !! i with
  | None => s
  | Some ghost =>
      if GhostEntity.isDying ghost then setGhost i (dyingStep ghost) s
      else
        let gs := steerGhost ghost s in
        let ghost := moveGhost gs.1 in
        let s := setGhost i ghost gs.2 in
        let s := hitGhost pacman i ghost s in
        respawnGhost i s
  end.

Definition updateGhosts (pacman : Entity.t) (s : State) : State :=
  fold_left (fun s i => ghostStep pacman i s) (seq 0 (length (ghosts s))) s.

(** ** update: progression and spawns *)

(** [eatenPellets / totalPellets >= 0.75] on doubles: a division by
    zero gives NaN (0 eaten) or Infinity. *)
Definition winReached (eaten total : Z) : bool :=
  if 0 <? total then 3 * total <=? 4 * eaten
  else if total =? 0 then 0 <? eaten
  else 4 * eaten <=? 3 * total.

(** Inside [update] the constant [gameState] is ['PLAYING']. *)
Definition checkWin (s : State) : State :=
  if winReached (eatenPellets s) (totalPellets s) then
    emit StartCountdown (set_gameState WON (emit (PlaySound WIN) s))
  else s.

(** A bonus tile [v] on a random empty cell, with per-tick probability [p]. *)
Definition bonusSpawn (p : Q) (v : Z) (s : State) : State :=
  if randomBelow env (rng s) p then
    let rx := randomIndex env (rng s + 1) GRID_WIDTH in
    let ry := randomIndex env (rng s + 2) GRID_HEIGHT in
    let s := drawn 3 s in
    if cellIs (maze s) rx ry 0 then set_maze (setCell (maze s) rx ry v) s else s
  else drawn 1 s.

Definition witchSpawn (s : State) : State :=
  if randomBelow env (rng s) (5 # 1000) && (length (witches s) <? 2)%nat then
    let w := WitchEntity.mk
               (random env (rng s + 1) * inject_Z CANVAS_WIDTH)%Q
               (inject_Z (-50))
               (2 + random env (rng s + 2) * 2)%Q
               true
               (random env (rng s + 3) * PI env * 2)%Q in
    drawn 4 (set_witches (witches s ++ [w]) s)
  else drawn 1 s.

(** ** update: the witches *)

Definition moveWitch (w : WitchEntity.t) : WitchEntity.t :=
  let y := (WitchEntity.y w + WitchEntity.speed w)%Q in
  let x := (WitchEntity.x w + sin env (y / 30 + WitchEntity.phase w) * 3)%Q in
  WitchEntity.mk x y (WitchEntity.speed w) (WitchEntity.active w) (WitchEntity.phase w).

(** [dist < TILE_SIZE * 0.7]: 100 d^2 < 49 TILE_SIZE^2. *)
Definition witchTouches (pacman : Entity.t) (w : WitchEntity.t) : bool :=
  let dx := (inject_Z (Entity.x pacman) - WitchEntity.x w)%Q in
  let dy := (inject_Z (Entity.y pacman) - WitchEntity.y w)%Q in
  negb (Qle_bool (49 * inject_Z (TILE_SIZE * TILE_SIZE))
                 (100 * (dx * dx + dy * dy))).

Definition witchStep (pacman : Entity.t) (i : nat) (s : State) : State :=
  match witches s !! i with
  | None => s
  | Some witch =>
      let witch := moveWitch witch in
      let s := set_witches (<[i := witch]> (witches s)) s in
      if witchTouches pacman witch && WitchEntity.active witch then
        let witch := WitchEntity.mk (WitchEntity.x witch) (WitchEntity.y witch)
                       (WitchEntity.speed witch) false (WitchEntity.phase witch) in
        setLives (set_witches (<[i := witch]> (witches s)) s)
      else s
  end.

Definition witchStays (w : WitchEntity.t) : bool :=
  negb (Qle_bool (inject_Z (CANVAS_HEIGHT + 50)) (WitchEntity.y w))
  && WitchEntity.active w.

Definition updateWitches (pacman : Entity.t) (s : State) : State :=
  let s := fold_left (fun s i => witchStep pacman i s) (seq 0 (length (witches s))) s in
  set_witches (List.filter witchStays (witches s)) s.

(** ** update *)

(** The body of [update], for a game in play. *)
Definition tick (s : State) : State :=
  let isAtIntersection :=
    isAligned (Entity.x (pacman s)) (Entity.y (pacman s)) in
  let s := acceptNextDir isAtIntersection s in
  let s := movePacman isAtIntersection s in
  let s := wrapPacman s in
  let pacman := pacman s in
  let s := recoverLost pacman s in
  let s := tileEffect pacman s in
  let s := updatePowerMode s in
  let s := updatePopups s in
  let s := updateFragments s in
  let s := updateGhosts pacman s in
  let s := checkWin s in
  let s := bonusSpawn (1 # 1000) 3 s in
  let s := bonusSpawn (5 # 10000) 7 s in
  let s := witchSpawn s in
  updateWitches pacman s.

(** One animation frame: [update], then the render in which React runs
    the updaters [update] has queued. *)
Definition update (s : State) : State :=
  if negb (GameState_eqb (gameState s) PLAYING) then s
  else runLives (tick s).

(** ** What happens between ticks *)

(** [handleKeyDown], the mouse and the joystick: a new queued direction. *)
Definition steer (d : Direction) (s : State) : State :=
  set_pacman
    (Entity.mk (Entity.x (pacman s)) (Entity.y (pacman s))
               (Entity.dir (pacman s)) d (Entity.speed (pacman s))) s.

End Simulation.

(** * Predicates, relations and concrete runs used in the statements *)

Definition interior (x y : Z) : Prop :=
  0 < x < GRID_WIDTH - 1 ∧ 0 < y < GRID_HEIGHT - 1.

Definition onBorder (x y : Z) : Prop :=
  (0 ≤ x < GRID_WIDTH ∧ 0 ≤ y < GRID_HEIGHT)
  ∧ (x = 0 ∨ x = GRID_WIDTH - 1 ∨ y = 0 ∨ y = GRID_HEIGHT - 1).

Definition borderWalled (m : list (list Z)) : Prop :=
  ∀ x y, onBorder x y → cellAt m x y = Some 1.

(** The number of wall cells of the grid. *)
Definition wallCount (m : list (list Z)) : nat :=
  length (List.filter (fun c => cellIs m c.1 c.2 1) gridCoords).

(** The body of the [for] loop of [walk]. *)
Definition walkBody (env : Env) (fuel' : nat) (x y : Z)
  (acc : option (list (list Z) * nat)) (d : Z * Z) : option (list (list Z) * nat) :=
  match acc with
  | None => None
  | Some (maze, k) =>
      let nx := x + d.1 in
      let ny := y + d.2 in
      if (0 <? nx) && (nx <? GRID_WIDTH - 1) && (0 <? ny)
         && (ny <? GRID_HEIGHT - 1) && cellIs maze nx ny 1
      then walk env fuel' nx ny (setCell maze (x + d.1 / 2) (y + d.2 / 2) 0, k)
      else Some (maze, k)
  end.

(** [walk] only writes zeros, and only into interior cells. *)
Definition carved (m m' : list (list Z)) : Prop :=
  ∀ a b, cellAt m' a b = cellAt m a b ∨ (interior a b ∧ cellAt m' a b = Some 0).

(** A maze that has every wall of another. *)
Definition wallsKept (m m' : list (list Z)) : Prop :=
  ∀ a b, cellAt m a b = Some 1 → cellAt m' a b = Some 1.

(** The parts of the state only the player's own phases change. *)
Definition sameCore (s s' : State) : Prop :=
  maze s' = maze s ∧ wallsLeft s' = wallsLeft s ∧ powerMode s' = powerMode s
  ∧ eatenPellets s' = eatenPellets s ∧ totalPellets s' = totalPellets s.

(** The number of [resetPositions] calls recorded in a trace. *)
Definition resets (s : State) : nat :=
  length (List.filter (fun e => match e with ResetPositions => true | _ => false end)
                      (trace s)).

(** The phases of [tick] after the tile effect, and those after the
    player has moved and the out-of-bounds test has been made. *)
Definition afterTile (env : Env) (p : Entity.t) (s : State) : State :=
  updateWitches env p
    (witchSpawn env
       (bonusSpawn env (5 # 10000) 7
          (bonusSpawn env (1 # 1000) 3
             (checkWin
                (updateGhosts env p
                   (updateFragments (updatePopups (updatePowerMode s)))))))).

Definition tickTail (env : Env) (p : Entity.t) (s : State) : State :=
  afterTile env p (tileEffect env p s).

(** The refs and the React state when the component mounts. *)
Definition initialState : State :=
  mkState 0 3 START 1 (Entity.mk (9 * TILE_SIZE) (15 * TILE_SIZE) NONE NONE 2)
          [] [] 0 0 0 0 [] [] [] 0 [] 0.

(** The states the simulation can be in.  Every step may see any
    environment.  Between ticks the player may steer, a run or a stage
    may be started ([startGame], [nextStage]), and the game state may be
    set to anything but ['PLAYING'] (Escape, quit, the countdown
    timers): ['PLAYING'] is only entered through [initGame]. *)
Inductive reachable : State → Prop :=
  | reach_initial : reachable initialState
  | reach_start env fuel s s' :
      reachable s → startGame env fuel s = Some s' → reachable s'
  | reach_next env fuel s s' :
      reachable s → nextStage env fuel s = Some s' → reachable s'
  | reach_update env s : reachable s → reachable (update env s)
  | reach_steer d s : reachable s → reachable (steer d s)
  | reach_leave st s : reachable s → st ≠ PLAYING → reachable (set_gameState st s).

(** [eatenPellets / totalPellets] *)
Definition consumption (s : State) : Q :=
  (inject_Z (eatenPellets s) / inject_Z (totalPellets s))%Q.

Definition samePellets (s s' : State) : Prop :=
  eatenPellets s' = eatenPellets s ∧ totalPellets s' = totalPellets s.

(** A phase that never puts the game (back) into ['PLAYING']. *)
Definition noPlay (s s' : State) : Prop :=
  gameState s' = PLAYING → gameState s = PLAYING.

Definition pelletInv (s : State) : Prop :=
  eatenPellets s ≤ totalPellets s
  ∧ (gameState s = PLAYING →
     0 < totalPellets s ∧ winReached (eatenPellets s) (totalPellets s) = false).

(** No cell exists outside the 15 x 21 grid. *)
Definition mazeBounded (m : list (list Z)) : Prop :=
  ∀ x y, is_Some (cellAt m x y) → (0 ≤ x < GRID_WIDTH) ∧ (0 ≤ y < GRID_HEIGHT).

(** A change of the maze that removes no wall and adds no cell. *)
Definition mazeQuiet (m m' : list (list Z)) : Prop :=
  wallsKept m m' ∧ ∀ a b, cellAt m a b = None → cellAt m' a b = None.

(** A change of the maze that adds no cell. *)
Definition sameShape (m m' : list (list Z)) : Prop :=
  ∀ a b, cellAt m a b = None → cellAt m' a b = None.

(** ** A concrete run

    An environment whose first random values place the ten candies and
    the three tombstones on chosen cells, which lets a witch appear in
    the first tick above column 6 with speed 3, and whose later random
    values are all 1/2; and some runs of the game in it. *)

(** Random values that [Math.floor (r * GRID_WIDTH)] and
    [Math.floor (r * GRID_HEIGHT)] turn into the cell [(x, y)]. *)
Definition drawCell (c : Z * Z) : list Q :=
  [Qmake (2 * c.1 + 1) 30; Qmake (2 * c.2 + 1) 42].

Definition demoDraws : list Q :=
  (c ← [(6, 19); (1, 1); (3, 1); (5, 1); (7, 1); (9, 1); (11, 1); (13, 1);
        (1, 3); (3, 3); (1, 19); (13, 3); (13, 5)];
   drawCell c)
  ++ replicate 6 (1 # 2)%Q ++ [0%Q; (2 # 5)%Q].

Definition demoEnv : Env :=
  {| random := fun n => nth n demoDraws (1 # 2)%Q;
     sortOrder := fun n => n;
     sin := fun _ => 0%Q;
     PI := (355 # 113)%Q |}.

(** The state after [startGame]. *)
Definition demoStart : State :=
  default initialState (startGame demoEnv 80 initialState).

Definition ticks (n : nat) (s : State) : State := Nat.iter n (update demoEnv) s.

(** The player goes left and eats the candy on (6, 19). *)
Definition demoPowered : State := ticks 9 (steer LEFT demoStart).

(** Then down, through the border wall (6, 20). *)
Definition demoBorder : State := ticks 5 (steer DOWN demoPowered).

(** Then along the bottom row through (5, 20), (4, 20) and (3, 20), up
    to (3, 19) and left through the wall (2, 19), which uses the last
    charge, until just before the tombstone on (1, 19). *)
Definition demoNoCharge : State :=
  ticks 13 (steer LEFT (ticks 9 (steer UP (ticks 27 (steer LEFT (ticks 4 demoBorder)))))).

(** Or, from the candy, left along row 19 and out through the border
    wall (0, 19), then down outside the grid until the player is lost
    and the positions are reset. *)
Definition demoLost : State := ticks 37 (steer DOWN (ticks 63 demoPowered)).

(** Or, after the border wall (6, 20), the player stays on the bottom
    row under the falling witch, until the tick before they meet. *)
Definition demoWitch : State := ticks 234 demoBorder.

(** After that tick the player goes left; 345 ticks later the power
    mode still has 10 ticks to go and a ghost is about to touch the
    player. *)
Definition demoGhost : State := ticks 345 (steer LEFT (ticks 1 demoWitch)).

(** A second environment: the three tombstones lie on the player's
    start cell and on the two cells left of it.  The player loses a life
    on each; [lastLife] is the state just before the third. *)
Definition tombDraws : list Q :=
  c ← [(1, 1); (3, 1); (5, 1); (7, 1); (9, 1); (11, 1); (13, 1); (1, 3); (3, 3);
       (5, 3); (7, 19); (6, 19); (5, 19)];
  drawCell c.

Definition tombEnv : Env :=
  {| random := fun n => nth n tombDraws (1 # 2)%Q;
     sortOrder := fun n => n;
     sin := fun _ => 0%Q;
     PI := (355 # 113)%Q |}.

Definition tombStart : State :=
  default initialState (startGame tombEnv 80 initialState).

Definition tombTicks (n : nat) (s : State) : State := Nat.iter n (update tombEnv) s.

Definition lastLife : State :=
  tombTicks 13 (steer LEFT (tombTicks 5 (steer LEFT (tombTicks 1 tombStart)))).

(** A third environment: the placement draws of the first, and every
    later random value 1/2, so that no witch appears in the run below
    and [sin] is not called in it.  The player eats the candy on (6, 19), leaves the grid
    through the border wall (0, 19) and goes down until it is lost; the
    recovery resets the positions with 495 ticks of power mode to go,
    which makes every ghost normal ([ghostLost]).  Then the player goes
    left; [ghostHit] is the state 283 ticks later, the power-mode counter
    at 212, when two ghosts are about to touch the player. *)
Definition ghostDraws : list Q :=
  c ← [(6, 19); (1, 1); (3, 1); (5, 1); (7, 1); (9, 1); (11, 1); (13, 1);
       (1, 3); (3, 3); (1, 19); (13, 3); (13, 5)];
  drawCell c.

Definition ghostEnv : Env :=
  {| random := fun n => nth n ghostDraws (1 # 2)%Q;
     sortOrder := fun n => n;
     sin := fun _ => 0%Q;
     PI := (355 # 113)%Q |}.

Definition ghostStart : State :=
  default initialState (startGame ghostEnv 80 initialState).

Definition ghostTicks (n : nat) (s : State) : State := Nat.iter n (update ghostEnv) s.

Definition ghostLost : State :=
  ghostTicks 37 (steer DOWN (ghostTicks 72 (steer LEFT ghostStart))).

Definition ghostHit : State := ghostTicks 283 (steer LEFT ghostLost).

(** The number of lives after a life loss. *)
Definition afterLoss (l : Z) : Z := if l <=? 1 then 0 else l - 1.

(** A ghost in its normal state, and an eaten ghost that stands on the
    player's start cell. *)
Definition normalGhost : GhostEntity.t :=
  GhostEntity.mk 0 0 UP UP 2 "#ff0000" "cape" false false false 0.

Definition eatenGhost : GhostEntity.t :=
  GhostEntity.mk 252 684 UP UP 2 "#ff0000" "cape" false true false 0.

(** The run is over: no life left and the game state is ['GAMEOVER']. *)
Definition over (s : State) : Prop := lives s = 0 ∧ gameState s = GAMEOVER.

(** The positions after [resetPositions], in pixels: the player stands
    still on the start cell, every ghost is normal and heads up from its
    slot of the ghost house. *)
Definition placed (s : State) : Prop :=
  pacman s = Entity.mk 252 684 NONE NONE 4
  ∧ ∀ i g, ghosts s !! i = Some g →
           GhostEntity.x g = (if Nat.even i then 216 else 288)
           ∧ GhostEntity.y g = 360
           ∧ GhostEntity.dir g = UP
           ∧ ghostState g = NORMAL.

(** The player after this frame's move. *)
Definition movedPacman (env : Env) (s : State) : Entity.t :=
  let isAt := isAligned (Entity.x (pacman s)) (Entity.y (pacman s)) in
  pacman (wrapPacman (movePacman env isAt (acceptNextDir isAt s))).

(** The tile the player stands on after this tick's move is a tombstone. *)
Definition tombstoneAhead (env : Env) (s : State) : Prop :=
  let isAt := isAligned (Entity.x (pacman s)) (Entity.y (pacman s)) in
  let p := pacman (wrapPacman (movePacman env isAt (acceptNextDir isAt s))) in
  tileIs (cellAt (maze s) (roundTile (Entity.x p)) (roundTile (Entity.y p))) 6 = true.

(** A phase of [tick] that touches neither the lives nor the record of
    the resets, queues updaters only, and leaves the game state alone or
    sets it to ['WON']. *)
Definition calm (s s' : State) : Prop :=
  lives s' = lives s
  ∧ (pendingLives s ≤ pendingLives s')%nat
  ∧ (gameState s' = gameState s ∨ gameState s' = WON)
  ∧ resets s' = resets s.

(** No ghost has its [isScared] flag set. *)
Definition unscared (s : State) : Prop :=
  Forall (λ g, GhostEntity.isScared g = false) (ghosts s).

Definition scaredInv (s : State) : Prop := powerMode s = 0 → unscared s.

(** A phase that leaves the power-mode counter alone and scares no ghost. *)
Definition scareQuiet (s s' : State) : Prop :=
  powerMode s' = powerMode s ∧ (unscared s → unscared s').

(** The cell the [j]-th iteration of a placement loop draws, when the
    loop starts at the [k]-th random value. *)
Definition drawnCell (env : Env) (k j : nat) : Z * Z :=
  (randomIndex env (k + 2 * j) GRID_WIDTH, randomIndex env (S (k + 2 * j)) GRID_HEIGHT).

(** The two placement loops of [initGame] have one shape: draw a cell,
    and if its tile is eligible write [v] and count it, until [limit]
    cells are counted. *)
Fixpoint placeLoop (env : Env) (limit : Z) (eligible : Z → bool) (v : Z)
  (fuel : nat) (placed : Z) (m : list (list Z)) (k : nat)
  : option (list (list Z) * nat) :=
  if placed <? limit then
    match fuel with
    | O => None
    | S fuel' =>
        let rx := randomIndex env k GRID_WIDTH in
        let ry := randomIndex env (S k) GRID_HEIGHT in
        if match cellAt m rx ry with Some c => eligible c | None => false end
        then placeLoop env limit eligible v fuel' (placed + 1) (setCell m rx ry v) (S (S k))
        else placeLoop env limit eligible v fuel' placed m (S (S k))
    end
  else Some (m, k).

(** An environment whose random values are all 0: every draw is the
    corner cell (0, 0). *)
Definition zeroEnv : Env :=
  {| random := fun _ => 0%Q; sortOrder := fun _ => 0%nat;
     sin := fun _ => 0%Q; PI := (355 # 113)%Q |}.

(** The maze [initGame] hands to the first placement loop in the
    all-zero environment. *)
Definition zeroMaze : list (list Z) :=
  (findStart (default [] (generateMaze zeroEnv 80))).2.

(** The same in the environment of the concrete run. *)
Definition demoMaze : list (list Z) :=
  (findStart (default [] (generateMaze demoEnv 80))).2.

(** A ghost with its [isScared] flag cleared: two ghosts with the same
    image agree on everything but that flag. *)
Definition unscare (g : GhostEntity.t) : GhostEntity.t :=
  GhostEntity.set_isScared false g.

(** A phase that does not touch the [i]-th ghost, except for its
    [isScared] flag, unless it calls [resetPositions]. *)
Definition keeps (i : nat) (s s' : State) : Prop :=
  (resets s ≤ resets s')%nat
  ∧ (resets s' = resets s →
     ∀ g, ghosts s !! i = Some g →
          ∃ g', ghosts s' !! i = Some g' ∧ unscare g' = unscare g).

(** A phase that advances the death animation of the [i]-th ghost by
    one step, unless it calls [resetPositions]. *)
Definition advances (i : nat) (s s' : State) : Prop :=
  (resets s ≤ resets s')%nat
  ∧ (resets s' = resets s →
     ∀ g, ghosts s !! i = Some g → GhostEntity.isDying g = true →
          ∃ g', ghosts s' !! i = Some g' ∧ unscare g' = unscare (dyingStep g)).

(** A phase after which the [i]-th ghost is dying only if it was
    before, with the same timer. *)
Definition stays (i : nat) (s s' : State) : Prop :=
  ∀ g', ghosts s' !! i = Some g' → GhostEntity.isDying g' = true →
        ∃ g, ghosts s !! i = Some g ∧ unscare g' = unscare g.

(** A phase after which the [i]-th ghost is dying only if it was
    before or its timer is 30. *)
Definition enters (i : nat) (s s' : State) : Prop :=
  ∀ g', ghosts s' !! i = Some g' → GhostEntity.isDying g' = true →
        (∃ g, ghosts s !! i = Some g ∧ GhostEntity.isDying g = true)
        ∨ GhostEntity.deathTimer g' = 30.

(** [n] ticks, the [k]-th of them in the environment [envs k]. *)
Fixpoint run (envs : nat → Env) (n : nat) (s : State) : State :=
  match n with
  | O => s
  | S n => update (envs n) (run envs n s)
  end.

(** In the first concrete run: the player eats the candy, turns right
    and then up, and eats the first ghost in the 67th tick after that. *)
Definition demoEaten : State := ticks 67 (steer UP (ticks 9 (steer RIGHT demoPowered))).

(** A third environment: as the first, but the witch appears above
    column 7 with speed 3.9, so that it comes down on the player 14
    ticks after the player has eaten the first ghost. *)
Definition chaseDraws : list Q :=
  (c ← [(6, 19); (1, 1); (3, 1); (5, 1); (7, 1); (9, 1); (11, 1); (13, 1);
        (1, 3); (3, 3); (1, 19); (13, 3); (13, 5)];
   drawCell c)
  ++ replicate 6 (1 # 2)%Q ++ [0%Q; (7 # 15)%Q; (95 # 100)%Q].

Definition chaseEnv : Env :=
  {| random := fun n => nth n chaseDraws (1 # 2)%Q;
     sortOrder := fun n => n;
     sin := fun _ => 0%Q;
     PI := (355 # 113)%Q |}.

Definition chaseStart : State :=
  default initialState (startGame chaseEnv 80 initialState).

Definition chaseTicks (n : nat) (s : State) : State := Nat.iter n (update chaseEnv) s.

(** The tick before the player eats the first ghost, the tick after,
    and 13 ticks later. *)
Definition chaseScared : State :=
  chaseTicks 66 (steer UP (chaseTicks 9 (steer RIGHT (chaseTicks 9 (steer LEFT chaseStart))))).

Definition chaseEaten : State := chaseTicks 1 chaseScared.

Definition chaseDying : State := chaseTicks 13 chaseEaten.

(** ** The shape of a generated maze *)

(** A tile of the grid that is not a wall. *)
Definition passable (m : list (list Z)) (c : Z * Z) : Prop :=
  ∃ v, cellAt m c.1 c.2 = Some v ∧ v ≠ 1.

(** Two tiles that share an edge. *)
Definition adjacent (a b : Z * Z) : Prop :=
  (a.1 = b.1 ∧ (a.2 = b.2 + 1 ∨ b.2 = a.2 + 1))
  ∨ (a.2 = b.2 ∧ (a.1 = b.1 + 1 ∨ b.1 = a.1 + 1)).

(** [linked m a b]: a path of tiles that are not walls, each sharing an
    edge with the next, leads from [a] to [b]. *)
Inductive linked (m : list (list Z)) : Z * Z → Z * Z → Prop :=
  | linked_here a : passable m a → linked m a a
  | linked_step a b c :
      linked m a b → adjacent b c → passable m c → linked m a c.

(** The cells [walk] visits: interior cells with two odd coordinates. *)
Definition oddCell (x y : Z) : Prop :=
  interior x y ∧ Z.odd x = true ∧ Z.odd y = true.

(** The nine cells of the ghost house. *)
Definition inHouse (x y : Z) : Prop :=
  GRID_WIDTH / 2 - 1 ≤ x ≤ GRID_WIDTH / 2 + 1
  ∧ GRID_HEIGHT / 2 - 1 ≤ y ≤ GRID_HEIGHT / 2 + 1.

(** Every cell of the grid is there. *)
Definition fullGrid (m : list (list Z)) : Prop :=
  ∀ a b, 0 ≤ a < GRID_WIDTH → 0 ≤ b < GRID_HEIGHT → is_Some (cellAt m a b).

(** What a call [walk (x, y)] has achieved when it returns, in terms of
    the maze [m] before and the maze [m'] after: the cell is open; every
    cell it has opened has an odd coordinate and is linked to [(x, y)];
    every cell with two odd coordinates it has opened has all its
    neighbours two steps away open. *)
Definition walked (m : list (list Z)) (x y : Z) (m' : list (list Z)) : Prop :=
  carved m m'
  ∧ passable m' (x, y)
  ∧ (∀ a b, oddCell a b → passable m' (a, b) → ¬ passable m (a, b) →
       ∀ d, d ∈ walkDirs → interior (a + d.1) (b + d.2) →
            passable m' (a + d.1, b + d.2))
  ∧ (∀ c, passable m' c → ¬ passable m c → linked m' (x, y) c)
  ∧ (∀ c, passable m' c → ¬ passable m c → Z.odd c.1 = true ∨ Z.odd c.2 = true).

(** The state of the [for] loop of [walk (x, y)] after the directions
    [seen]. *)
Definition walking (m : list (list Z)) (x y : Z) (seen : list (Z * Z))
  (m' : list (list Z)) : Prop :=
  carved m m'
  ∧ passable m' (x, y)
  ∧ (∀ a b, oddCell a b → (a, b) ≠ (x, y) → passable m' (a, b) → ¬ passable m (a, b) →
       ∀ d, d ∈ walkDirs → interior (a + d.1) (b + d.2) →
            passable m' (a + d.1, b + d.2))
  ∧ (∀ d, d ∈ seen → interior (x + d.1) (y + d.2) → passable m' (x + d.1, y + d.2))
  ∧ (∀ c, passable m' c → ¬ passable m c → linked m' (x, y) c)
  ∧ (∀ c, passable m' c → ¬ passable m c → Z.odd c.1 = true ∨ Z.odd c.2 = true).

(** The maze before [walk]. *)
Definition allWalls : list (list Z) :=
  replicate (Z.to_nat GRID_HEIGHT) (replicate (Z.to_nat GRID_WIDTH) 1).

(** The cells [carveHouse] writes, in its order. *)
Definition houseCells : list (Z * Z) :=
  [(6, 9); (7, 9); (8, 9); (6, 10); (7, 10); (8, 10); (6, 11); (7, 11); (8, 11)].

#[local] Instance inHouse_dec a b : Decision (inHouse a b).
Proof. unfold inHouse. apply _. Defined.

(** The maze [generateMaze] returns in the first concrete run. *)
Definition demoGenerated : list (list Z) := default [] (generateMaze demoEnv 80).

(** ** The stage [initGame] sets up *)

(** The number of cells of the grid that hold the tile [v]. *)
Definition countTile (m : list (list Z)) (v : Z) : nat :=
  length (List.filter (fun c => cellIs m c.1 c.2 v) gridCoords).

(** The cells the player can eat: pellets and candies. *)
Definition edible (m : list (list Z)) : Z :=
  Z.of_nat (countTile m 2) + Z.of_nat (countTile m 3).

(** The interior cells with two odd coordinates, but for the player's
    start cell. *)
Definition pelletCells : list (Z * Z) :=
  Eval vm_compute in
    List.filter (fun c => negb ((c.1 =? 7) && (c.2 =? 19)))
      (x ← [1; 3; 5; 7; 9; 11; 13]; y ← [1; 3; 5; 7; 9; 11; 13; 15; 17; 19]; [(x, y)]).

(** The state of the candy loop of [initGame] after [p] candies, from
    the maze [m0]. *)
Definition candiesPlaced (m0 : list (list Z)) (p : Z) (m : list (list Z)) : Prop :=
  mazeBounded m
  ∧ Z.of_nat (countTile m 3) = Z.of_nat (countTile m0 3) + p
  ∧ Z.of_nat (countTile m 2) = Z.of_nat (countTile m0 2) - p
  ∧ ∀ a b, cellAt m a b = cellAt m0 a b
           ∨ (cellAt m0 a b = Some 2 ∧ cellAt m a b = Some 3).

(** The state of the tombstone loop after [p] tombstones. *)
Definition tombstonesPlaced (m0 : list (list Z)) (p : Z) (m : list (list Z)) : Prop :=
  mazeBounded m
  ∧ Z.of_nat (countTile m 6) = Z.of_nat (countTile m0 6) + p
  ∧ Z.of_nat (countTile m 3) = Z.of_nat (countTile m0 3)
  ∧ Z.of_nat (countTile m0 2) - p ≤ Z.of_nat (countTile m 2) ≤ Z.of_nat (countTile m0 2)
  ∧ ∀ a b, cellAt m a b = cellAt m0 a b
           ∨ ((cellAt m0 a b = Some 2 ∨ cellAt m0 a b = Some 0) ∧ cellAt m a b = Some 6).

(** The state [initGame] returns in the first concrete run. *)
Definition demoInit : State :=
  default initialState (initGame demoEnv 80 false initialState).

(** ** The counters of the game *)

(** What a phase of [update] may do to the counters: the score grows by
    a multiple of 10, lives are only lost, the stage stays, the game is
    over only with no life left, and the power-mode counter, the charges
    and the number of witches stay within their bounds. *)
Definition countersStep (s s' : State) : Prop :=
  (∃ k, 0 ≤ k ∧ score s' = score s + 10 * k)
  ∧ (0 ≤ lives s → 0 ≤ lives s' ≤ lives s)
  ∧ stage s' = stage s
  ∧ (0 ≤ lives s → gameState s' = GAMEOVER → gameState s = GAMEOVER ∨ lives s' = 0)
  ∧ (0 ≤ powerMode s ≤ 600 → 0 ≤ powerMode s' ≤ 600)
  ∧ (0 ≤ wallsLeft s ≤ 5 → 0 ≤ wallsLeft s' ≤ 5)
  ∧ ((length (witches s) ≤ 2)%nat → (length (witches s') ≤ 2)%nat).

Definition countersOK (s : State) : Prop :=
  (∃ k, 0 ≤ k ∧ score s = 10 * k)
  ∧ 0 ≤ lives s ≤ 3
  ∧ 1 ≤ stage s
  ∧ 0 ≤ powerMode s ≤ 600
  ∧ 0 ≤ wallsLeft s ≤ 5
  ∧ (length (witches s) ≤ 2)%nat.

(** ** The player and the maze during a game *)

(** The player [resetPositions] creates. *)
Definition startPacman : Entity.t :=
  Entity.mk (GRID_WIDTH / 2 * TILE_SIZE) ((GRID_HEIGHT - 2) * TILE_SIZE) NONE NONE 4.

(** What a tick may do to one cell: nothing, or replace a tile other
    than the ghost spawn by an empty tile, a candy or a fruit. *)
Definition tileStep (c c' : option Z) : Prop :=
  c' = c ∨ ∃ v v', c = Some v ∧ c' = Some v' ∧ v ≠ 4 ∧ (v' = 0 ∨ v' = 3 ∨ v' = 7).

Definition mazeStep (m m' : list (list Z)) : Prop :=
  ∀ a b, tileStep (cellAt m a b) (cellAt m' a b).

(** What the phases after the player's move do to the player and to the
    maze: the player is kept or put back on the start. *)
Definition tailStep (s s' : State) : Prop :=
  (pacman s' = pacman s ∨ pacman s' = startPacman)
  ∧ mazeStep (maze s) (maze s').

(** The player is on the lattice of the grid: its coordinates are
    multiples of its speed, and it leaves the line of a row or of a
    column only along the other. *)
Definition onTrack (p : Entity.t) : Prop :=
  (4 | Entity.x p) ∧ (4 | Entity.y p)
  ∧ match Entity.dir p with
    | LEFT | RIGHT => (TILE_SIZE | Entity.y p)
    | UP | DOWN => (TILE_SIZE | Entity.x p)
    | NONE => (TILE_SIZE | Entity.x p) ∧ (TILE_SIZE | Entity.y p)
    end.

(** The tile under the centre of an actor, as [update] computes it. *)
Definition tileUnder (m : list (list Z)) (p : Entity.t) : option Z :=
  cellAt m (roundTile (Entity.x p)) (roundTile (Entity.y p)).

Definition playerOK (s : State) : Prop :=
  onTrack (pacman s)
  ∧ tileIs (tileUnder (maze s) (pacman s)) 1 = false
  ∧ tileIs (tileUnder (maze s) startPacman) 1 = false
  ∧ mazeBounded (maze s)
  ∧ (Entity.speed (pacman s) = 4 ∨ gameState s ≠ PLAYING).

Definition playerInside (s : State) : Prop :=
  - TILE_SIZE ≤ Entity.x (pacman s) ≤ CANVAS_WIDTH
  ∧ - TILE_SIZE * 2 ≤ Entity.y (pacman s) ≤ CANVAS_HEIGHT + TILE_SIZE * 2.

(** What is common to the maze of every stage, at every moment of it. *)
Definition stageMaze (m : list (list Z)) : Prop :=
  (∀ a b, is_Some (cellAt m a b) ↔ 0 ≤ a < GRID_WIDTH ∧ 0 ≤ b < GRID_HEIGHT)
  ∧ (∀ a b v, cellAt m a b = Some v →
              v = 0 ∨ v = 1 ∨ v = 2 ∨ v = 3 ∨ v = 4 ∨ v = 6 ∨ v = 7)
  ∧ (∀ a b, cellAt m a b = Some 4 ↔ (a, b) = (GRID_WIDTH / 2, GRID_HEIGHT / 2)).

(** ** The ghosts *)

(** What every ghost of the program keeps: its speed, its queued
    direction (never read), an [x] inside the wrap-around range, and a
    death animation that runs from 30 down to 1 on a ghost that is not
    eaten. *)
Definition ghostOK (g : GhostEntity.t) : Prop :=
  GhostEntity.speed g = 2 ∧ GhostEntity.nextDir g = UP
  ∧ - TILE_SIZE ≤ GhostEntity.x g ≤ CANVAS_WIDTH
  ∧ (GhostEntity.isDying g = true →
     GhostEntity.isEaten g = false ∧ 1 ≤ GhostEntity.deathTimer g ≤ 30).

(** Colour and trait of the ghosts, in the order of the list. *)
Definition badge (g : GhostEntity.t) : string * string :=
  (GhostEntity.color g, GhostEntity.trait g).

Definition roster (s : State) : list (string * string) := map badge (ghosts s).

Definition rosterStep (s s' : State) : Prop :=
  roster s' = roster s ∧ (Forall ghostOK (ghosts s) → Forall ghostOK (ghosts s')).

(** A phase that leaves the [i]-th ghost as it is, unless it calls
    [resetPositions]. *)
Definition holds (i : nat) (s s' : State) : Prop :=
  (resets s ≤ resets s')%nat
  ∧ (resets s' = resets s → ghosts s' !! i = ghosts s !! i).

(** [g'] is [g] after one move straight on, made with [isScared = b]. *)
Definition glide (b : bool) (g g' : GhostEntity.t) : Prop :=
  let gm := moveGhost (GhostEntity.set_isScared b g) in
  GhostEntity.x g' = GhostEntity.x gm ∧ GhostEntity.y g' = GhostEntity.y gm
  ∧ GhostEntity.dir g' = GhostEntity.dir g
  ∧ GhostEntity.speed g' = GhostEntity.speed g
  ∧ (GhostEntity.isDying g' = false → GhostEntity.isScared g' = b).

(** The pixels a ghost of speed 2 covers in a tick in direction [d]. *)
Definition ahead (d : Direction) : Z :=
  match d with UP => -2 | DOWN => 2 | _ => 0 end.

(** A tick of the game in play that does not reset the positions and
    after which the [i]-th ghost is neither scared nor dying. *)
Definition cruising (i : nat) (s s' : State) : Prop :=
  gameState s = PLAYING ∧ resets s' = resets s
  ∧ ∀ g', ghosts s' !! i = Some g' →
          GhostEntity.isScared g' = false ∧ GhostEntity.isDying g' = false.

Definition cruisingb (i : nat) (s s' : State) : bool :=
  bool_decide (gameState s = PLAYING) && (resets s' =? resets s)%nat
  && match ghosts s' !! i with
     | Some g' => negb (GhostEntity.isScared g') && negb (GhostEntity.isDying g')
     | None => true
     end.

(** The first concrete run, 600 ticks after the candy: the power mode
    has just ended. *)
Definition demoAdrift : State := ticks 600 demoPowered.

(** ** The supply of pellets *)

(** The pellets and candies eaten so far and those still in the maze. *)
Definition supply (s : State) : Z := eatenPellets s + edible (maze s).

(** A phase that keeps [totalPellets] and does not lower the supply. *)
Definition supplyStep (s s' : State) : Prop :=
  totalPellets s' = totalPellets s
  ∧ (mazeBounded (maze s) → mazeBounded (maze s') ∧ supply s ≤ supply s').

Definition supplyOK (s : State) : Prop :=
  mazeBounded (maze s)
  ∧ totalPellets s - 3 ≤ supply s
  ∧ (gameState s = PLAYING → 69 ≤ totalPellets s).

(** * Properties *)

(** ** Reading and writing cells *)

Lemma cellAt_setCell_ne m x y v a b :
  (a, b) ≠ (x, y) → cellAt (setCell m x y v) a b = cellAt m a b.
Proof.
  intros Hne. unfold cellAt, setCell.
  destruct ((y <? 0) || (x <? 0)) eqn:Hxy; [done|].
  destruct ((b <? 0) || (a <? 0)) eqn:Hab; [done|].
  apply orb_false_elim in Hxy as [Hy Hx]. apply orb_false_elim in Hab as [Hb Ha].
  apply Z.ltb_ge in Hy, Hx, Hb, Ha.
  destruct (m !! Z.to_nat y) as [row|] eqn:Hrow; [|done].
  destruct (decide (Z.to_nat b = Z.to_nat y)) as [Heq|Hneq].
  - rewrite Heq. rewrite list_lookup_insert_eq by (by eapply lookup_lt_Some).
    rewrite Hrow. apply list_lookup_insert_ne.
    intros Heq'. apply Hne. f_equal; lia.
  - by rewrite list_lookup_insert_ne.
Qed.

Lemma cellAt_setCell_eq m x y v :
  is_Some (cellAt m x y) → cellAt (setCell m x y v) x y = Some v.
Proof.
  unfold cellAt, setCell.
  destruct ((y <? 0) || (x <? 0)) eqn:Hxy; [by intros [? ?]|].
  destruct (m !! Z.to_nat y) as [row|] eqn:Hrow; [|by intros [? ?]].
  intros [c Hc].
  rewrite list_lookup_insert_eq by (by eapply lookup_lt_Some).
  apply list_lookup_insert_eq. by eapply lookup_lt_Some.
Qed.

Lemma cellAt_setCell_None m x y v a b :
  cellAt m a b = None → cellAt (setCell m x y v) a b = None.
Proof.
  intros H. destruct (decide ((a, b) = (x, y))) as [[= -> ->]|Hne].
  - unfold setCell, cellAt in *.
    destruct ((y <? 0) || (x <? 0)) eqn:Hxy; [done|].
    destruct (m !! Z.to_nat y) as [row|] eqn:Hrow; [|by rewrite Hrow].
    rewrite list_lookup_insert_eq by (by eapply lookup_lt_Some).
    apply lookup_ge_None. rewrite length_insert. by apply lookup_ge_None.
  - by rewrite cellAt_setCell_ne.
Qed.

(** Reading any cell after a write. *)
Lemma cellAt_setCell m x y v a b :
  cellAt (setCell m x y v) a b
  = if decide ((a, b) = (x, y))
    then match cellAt m x y with Some _ => Some v | None => None end
    else cellAt m a b.
Proof.
  case_decide as Heq.
  - injection Heq as -> ->. destruct (cellAt m x y) as [c|] eqn:Hc; simpl.
    + apply cellAt_setCell_eq. by exists c.
    + by apply cellAt_setCell_None.
  - by apply cellAt_setCell_ne.
Qed.

Lemma cellIs_true m x y v : cellIs m x y v = true ↔ cellAt m x y = Some v.
Proof.
  unfold cellIs, tileIs. destruct (cellAt m x y) as [c|]; [|by split].
  rewrite Z.eqb_eq. split; [by intros ->|by intros [= ->]].
Qed.

Lemma cellIs_false m x y v : cellIs m x y v = false ↔ cellAt m x y ≠ Some v.
Proof. rewrite <- cellIs_true. by destruct (cellIs m x y v). Qed.

(** A write to a cell that is not a wall leaves every wall in place. *)
Lemma setCell_keeps_wall m x y v a b :
  cellAt m x y ≠ Some 1 →
  cellAt m a b = Some 1 → cellAt (setCell m x y v) a b = Some 1.
Proof.
  intros Hxy Hab. rewrite cellAt_setCell. case_decide as Heq; [|done].
  injection Heq as -> ->. done.
Qed.

(** A write of a non-wall value creates no wall. *)
Lemma setCell_no_new_wall m x y v a b :
  v ≠ 1 → cellAt (setCell m x y v) a b = Some 1 → cellAt m a b = Some 1.
Proof.
  intros Hv. rewrite cellAt_setCell. case_decide as Heq; [|done].
  destruct (cellAt m x y); simpl; [|done]. intros [= ->]. done.
Qed.

Lemma cellAt_in_grid x y :
  0 ≤ x < GRID_WIDTH → 0 ≤ y < GRID_HEIGHT → (x, y) ∈ gridCoords.
Proof.
  intros Hx Hy. unfold gridCoords.
  apply list_elem_of_bind. exists y. split.
  - apply list_elem_of_bind. exists x. split; [apply list_elem_of_singleton; done|].
    apply elem_of_seqZ. lia.
  - apply elem_of_seqZ. lia.
Qed.

(** ** Maze generation *)

Lemma shuffle_elem {A} fuel code (l : list A) a :
  a ∈ shuffle fuel code l → a ∈ l.
Proof.
  revert code l. induction fuel as [|fuel IH]; intros code l; simpl.
  - by intros ?%elem_of_nil.
  - destruct (l !! (code mod length l)%nat) as [b|] eqn:Hb.
    + intros [-> | Hin]%elem_of_cons.
      * by eapply list_elem_of_lookup_2.
      * eapply list_elem_of_delete_inv, IH, Hin.
    + by intros ?%elem_of_nil.
Qed.

Lemma walkDirs_cases d :
  d ∈ walkDirs → d = (0, 2) ∨ d = (0, -2) ∨ d = (2, 0) ∨ d = (-2, 0).
Proof.
  unfold walkDirs. rewrite !elem_of_cons, elem_of_nil. tauto.
Qed.

(** The cell carved between an interior cell and an interior neighbour
    two steps away is interior. *)
Lemma interior_between x y d :
  d ∈ walkDirs → interior x y → interior (x + d.1) (y + d.2) →
  interior (x + d.1 / 2) (y + d.2 / 2).
Proof.
  intros Hd. unfold interior, GRID_WIDTH, GRID_HEIGHT.
  destruct (walkDirs_cases d Hd) as [-> | [-> | [-> | ->]]]; simpl;
    change (0 / 2) with 0; change (2 / 2) with 1; change (-2 / 2) with (-1); lia.
Qed.

Lemma fold_left_None {A B} (f : option A → B → option A) (l : list B) :
  (∀ b, f None b = None) → fold_left f l None = None.
Proof. intros Hf. induction l as [|b l IH]; simpl; [done|]. by rewrite Hf. Qed.

Section Walk.

Variable env : Env.

Lemma walk_unfold fuel x y st :
  walk env (S fuel) x y st
  = fold_left (walkBody env fuel x y)
      (shuffle 4 (sortOrder env st.2) walkDirs)
      (Some (setCell st.1 x y 0, S st.2)).
Proof. reflexivity. Qed.

Lemma walkBody_guard x y d m :
  (0 <? x + d.1) && (x + d.1 <? GRID_WIDTH - 1) && (0 <? y + d.2)
     && (y + d.2 <? GRID_HEIGHT - 1) && cellIs m (x + d.1) (y + d.2) 1 = true →
  interior (x + d.1) (y + d.2) ∧ cellAt m (x + d.1) (y + d.2) = Some 1.
Proof.
  rewrite !andb_true_iff, !Z.ltb_lt, cellIs_true. unfold interior. tauto.
Qed.

Section Invariant.

(** Any transitive relation between mazes that admits
    carving an interior cell relates the maze before and after [walk]. *)
Variable R : list (list Z) → list (list Z) → Prop.
Hypothesis R_trans : ∀ m1 m2 m3, R m1 m2 → R m2 m3 → R m1 m3.
Hypothesis R_carve : ∀ m x y, interior x y → R m (setCell m x y 0).

Lemma walk_inv fuel : ∀ x y st r,
  interior x y → walk env fuel x y st = Some r → R st.1 r.1.
Proof.
  induction fuel as [|fuel IH]; intros x y [m k] r Hxy; [done|].
  rewrite walk_unfold. simpl fst; simpl snd.
  assert (Hsub : ∀ d, d ∈ shuffle 4 (sortOrder env k) walkDirs → d ∈ walkDirs)
    by (intros d; apply shuffle_elem).
  revert Hsub. generalize (shuffle 4 (sortOrder env k) walkDirs) as dirs.
  assert (Hstart : R m (setCell m x y 0)) by by apply R_carve.
  revert Hstart. generalize (setCell m x y 0) as m1. generalize (S k) as k1.
  intros k1 m1 Hm1 dirs. revert k1 m1 Hm1.
  induction dirs as [|d dirs IHd]; intros k1 m1 Hm1 Hsub; simpl.
  - by intros [= <-].
  - destruct ((0 <? x + d.1) && (x + d.1 <? GRID_WIDTH - 1) && (0 <? y + d.2)
       && (y + d.2 <? GRID_HEIGHT - 1) && cellIs m1 (x + d.1) (y + d.2) 1) eqn:Hg.
    + apply walkBody_guard in Hg as [Hn _].
      destruct (walk env fuel (x + d.1) (y + d.2)
                  (setCell m1 (x + d.1 / 2) (y + d.2 / 2) 0, k1)) as [[m2 k2]|] eqn:Hw.
      * apply IHd; [|intros d' Hd'; apply Hsub; by right].
        apply IH in Hw; [|done]. simpl in Hw.
        eapply R_trans; [exact Hm1|]. eapply R_trans; [|exact Hw].
        apply R_carve, interior_between; [apply Hsub; by left|done..].
      * rewrite fold_left_None; [done|done].
    + apply IHd; [done|]. intros d' Hd'; apply Hsub; by right.
Qed.

End Invariant.

Lemma walk_carved fuel x y st r :
  interior x y → walk env fuel x y st = Some r → carved st.1 r.1.
Proof.
  revert fuel x y st r. apply (walk_inv carved).
  - intros m1 m2 m3 H12 H23 a b.
    destruct (H23 a b) as [H|H]; [|by right].
    rewrite H. apply H12.
  - intros m x' y' Hi a b. rewrite cellAt_setCell. case_decide as Heq; [|by left].
    injection Heq as -> ->. destruct (cellAt m x' y') eqn:Hc; [right|left]; done.
Qed.

End Walk.

(** *** Termination of [walk]: every call turns a wall into a passage *)

Lemma filter_length_le {A} (P Q : A → bool) (l : list A) :
  (∀ c, c ∈ l → P c = true → Q c = true) →
  (length (List.filter P l) ≤ length (List.filter Q l))%nat.
Proof.
  induction l as [|c l IH]; intros H; simpl; [done|].
  assert (IH' : (length (List.filter P l) ≤ length (List.filter Q l))%nat).
  { apply IH. intros c' Hc'. apply H. by right. }
  destruct (P c) eqn:HP.
  - rewrite (H c) by (done || by left). simpl. lia.
  - destruct (Q c); simpl; lia.
Qed.

Lemma filter_length_lt {A} (P Q : A → bool) (l : list A) c0 :
  (∀ c, c ∈ l → P c = true → Q c = true) →
  c0 ∈ l → P c0 = false → Q c0 = true →
  (length (List.filter P l) < length (List.filter Q l))%nat.
Proof.
  induction l as [|c l IH]; intros H Hin HP HQ; [by apply elem_of_nil in Hin|].
  assert (Hle : (length (List.filter P l) ≤ length (List.filter Q l))%nat).
  { apply filter_length_le. intros c' Hc'. apply H. by right. }
  apply elem_of_cons in Hin as [<-|Hin]; simpl.
  - rewrite HP, HQ. simpl. lia.
  - assert ((length (List.filter P l) < length (List.filter Q l))%nat).
    { apply IH; [|done..]. intros c' Hc'. apply H. by right. }
    destruct (P c) eqn:HPc.
    + rewrite (H c) by (done || by left). simpl. lia.
    + destruct (Q c); simpl; lia.
Qed.

Lemma wallCount_setCell_le m x y :
  (wallCount (setCell m x y 0) ≤ wallCount m)%nat.
Proof.
  apply filter_length_le. intros c _. rewrite !cellIs_true.
  by apply setCell_no_new_wall.
Qed.

Lemma interior_in_grid x y : interior x y → (x, y) ∈ gridCoords.
Proof.
  unfold interior, GRID_WIDTH, GRID_HEIGHT. intros H.
  apply cellAt_in_grid; unfold GRID_WIDTH, GRID_HEIGHT; lia.
Qed.

Lemma wallCount_setCell_lt m x y :
  interior x y → cellAt m x y = Some 1 →
  (wallCount (setCell m x y 0) < wallCount m)%nat.
Proof.
  intros Hi Hc. apply (filter_length_lt _ _ _ (x, y)).
  - intros c _. rewrite !cellIs_true. by apply setCell_no_new_wall.
  - by apply interior_in_grid.
  - simpl. apply cellIs_false. rewrite cellAt_setCell_eq by (by exists 1). done.
  - simpl. by apply cellIs_true.
Qed.

Lemma walk_wallCount env fuel x y st r :
  interior x y → walk env fuel x y st = Some r →
  (wallCount r.1 ≤ wallCount st.1)%nat.
Proof.
  revert fuel x y st r.
  apply (walk_inv env (λ m m', (wallCount m' ≤ wallCount m)%nat)).
  - intros m1 m2 m3. lia.
  - intros m x y _. apply wallCount_setCell_le.
Qed.

Lemma between_ne x y d :
  d ∈ walkDirs → (x + d.1, y + d.2) ≠ (x + d.1 / 2, y + d.2 / 2).
Proof.
  intros Hd.
  destruct (walkDirs_cases d Hd) as [-> | [-> | [-> | ->]]]; simpl;
    change (0 / 2) with 0; change (2 / 2) with 1; change (-2 / 2) with (-1);
    intros Heq; inversion Heq; lia.
Qed.

(** A budget as large as the number of walls is enough. *)
Lemma walk_terminates env fuel : ∀ x y m k,
  interior x y → cellAt m x y = Some 1 → (wallCount m ≤ fuel)%nat →
  is_Some (walk env fuel x y (m, k)).
Proof.
  induction fuel as [|fuel IH]; intros x y m k Hxy Hc Hfuel.
  - pose proof (wallCount_setCell_lt m x y Hxy Hc). lia.
  - rewrite walk_unfold. simpl fst; simpl snd.
    assert (Hsub : ∀ d, d ∈ shuffle 4 (sortOrder env k) walkDirs → d ∈ walkDirs)
      by (intros d; apply shuffle_elem).
    revert Hsub. generalize (shuffle 4 (sortOrder env k) walkDirs) as dirs.
    assert (Hstart : (wallCount (setCell m x y 0) ≤ fuel)%nat).
    { pose proof (wallCount_setCell_lt m x y Hxy Hc). lia. }
    revert Hstart. generalize (setCell m x y 0) as m1. generalize (S k) as k1.
    intros k1 m1 Hm1 dirs. revert k1 m1 Hm1.
    induction dirs as [|d dirs IHd]; intros k1 m1 Hm1 Hsub; simpl; [by eexists|].
    destruct ((0 <? x + d.1) && (x + d.1 <? GRID_WIDTH - 1) && (0 <? y + d.2)
       && (y + d.2 <? GRID_HEIGHT - 1) && cellIs m1 (x + d.1) (y + d.2) 1) eqn:Hg.
    + apply walkBody_guard in Hg as [Hn Hwall].
      pose proof (wallCount_setCell_le m1 (x + d.1 / 2) (y + d.2 / 2)) as Hle.
      destruct (IH (x + d.1) (y + d.2)
                  (setCell m1 (x + d.1 / 2) (y + d.2 / 2) 0) k1) as [[m2 k2] Hw].
      * done.
      * rewrite cellAt_setCell_ne; [done|]. apply between_ne, Hsub. by left.
      * lia.
      * rewrite Hw. apply IHd; [|intros d' Hd'; apply Hsub; by right].
        apply walk_wallCount in Hw; [|done]. simpl in Hw. lia.
    + apply IHd; [done|]. intros d' Hd'; apply Hsub; by right.
Qed.

(** *** The generated maze *)

Lemma cellAt_allWalls x y :
  0 ≤ x < GRID_WIDTH → 0 ≤ y < GRID_HEIGHT →
  cellAt (replicate (Z.to_nat GRID_HEIGHT) (replicate (Z.to_nat GRID_WIDTH) 1)) x y
  = Some 1.
Proof.
  intros Hx Hy. unfold cellAt.
  replace ((y <? 0) || (x <? 0)) with false
    by (symmetry; apply orb_false_intro; apply Z.ltb_ge; lia).
  rewrite lookup_replicate_2 by lia. apply lookup_replicate_2. lia.
Qed.

Lemma cellAt_fillPellets m x y :
  cellAt (fillPellets m) x y
  = (λ c, if c =? 0 then 2 else c) <$> cellAt m x y.
Proof.
  unfold cellAt, fillPellets. destruct ((y <? 0) || (x <? 0)); [done|].
  change (map ?f ?l) with (f <$> l). rewrite list_lookup_fmap.
  destruct (m !! Z.to_nat y) as [row|]; simpl; [|done].
  change (map ?f ?l) with (f <$> l). by rewrite list_lookup_fmap.
Qed.

Lemma carveHouse_carved m : carved m (carveHouse m).
Proof.
  assert (Hstep : ∀ m x y, interior x y → carved m (setCell m x y 0)).
  { intros m0 x y Hi a b. rewrite cellAt_setCell. case_decide as Heq; [|by left].
    injection Heq as -> ->. destruct (cellAt m0 x y); [right|left]; done. }
  assert (Htrans : ∀ m1 m2 m3, carved m1 m2 → carved m2 m3 → carved m1 m3).
  { intros m1 m2 m3 H12 H23 a b. destruct (H23 a b) as [H|H]; [|by right].
    rewrite H. apply H12. }
  unfold carveHouse. simpl.
  repeat (eapply Htrans;
          [|apply Hstep; unfold interior, GRID_WIDTH, GRID_HEIGHT;
            repeat match goal with |- context [?a / 2] => change (a / 2) with 7
                                 | |- context [21 / 2] => change (21 / 2) with 10 end;
            vm_compute; intuition congruence]).
  intros a b. by left.
Qed.

Lemma setCell_idem m x y v : setCell (setCell m x y v) x y v = setCell m x y v.
Proof.
  unfold setCell. destruct ((y <? 0) || (x <? 0)); [done|].
  destruct (m !! Z.to_nat y) as [row|] eqn:Hrow; [|by rewrite Hrow].
  rewrite list_lookup_insert_eq by (by eapply lookup_lt_Some).
  by rewrite !list_insert_insert_eq.
Qed.

(** The cell [walk] starts from is a passage afterwards. *)
Lemma walk_start_zero env fuel x y m k r :
  interior x y → is_Some (cellAt m x y) →
  walk env fuel x y (m, k) = Some r → cellAt r.1 x y = Some 0.
Proof.
  intros Hi Hsome Hw.
  assert (Hw' : walk env fuel x y (setCell m x y 0, k) = Some r).
  { destruct fuel as [|fuel]; [done|]. rewrite walk_unfold in *.
    cbn [fst snd] in *. by rewrite setCell_idem. }
  apply walk_carved in Hw'; [|done]. cbn [fst snd] in Hw'.
  destruct (Hw' x y) as [H|[_ H]]; [|done].
  rewrite H. by apply cellAt_setCell_eq.
Qed.

(** What [generateMaze] returns, cell by cell, in terms of the maze
    [walk] has carved. *)
Lemma generateMaze_inv env fuel m :
  generateMaze env fuel = Some m →
  ∃ w, carved (replicate (Z.to_nat GRID_HEIGHT) (replicate (Z.to_nat GRID_WIDTH) 1)) w
       ∧ cellAt w 1 1 = Some 0
       ∧ m = setCell (fillPellets (setCell w (GRID_WIDTH / 2) (GRID_HEIGHT / 2) 4))
                     (GRID_WIDTH / 2) (GRID_HEIGHT - 2) 5.
Proof.
  unfold generateMaze.
  destruct (walk env fuel 1 1 _) as [[w k]|] eqn:Hw; [|done].
  intros [= <-]. exists (carveHouse w).
  assert (H11 : interior 1 1) by (unfold interior, GRID_WIDTH, GRID_HEIGHT; lia).
  pose proof (walk_carved env _ _ _ _ _ H11 Hw) as Hc. cbn [fst snd] in Hc.
  pose proof (carveHouse_carved w) as Hh.
  split; [|split; [|done]].
  - intros a b. destruct (Hh a b) as [H|H]; [|by right]. rewrite H. apply Hc.
  - apply walk_start_zero in Hw; [|done|].
    + cbn [fst] in Hw. destruct (Hh 1 1) as [H|[_ H]]; [by rewrite H|done].
    + exists 1. apply cellAt_allWalls; unfold GRID_WIDTH, GRID_HEIGHT; lia.
Qed.

Lemma generateMaze_border env fuel m :
  generateMaze env fuel = Some m → borderWalled m.
Proof.
  intros (w & Hc & _ & ->)%generateMaze_inv x y [[Hx Hy] Hb].
  assert (Hni : ¬ interior x y) by (unfold interior; lia).
  assert (Hw : cellAt w x y = Some 1).
  { destruct (Hc x y) as [H|[H _]]; [|done]. rewrite H. by apply cellAt_allWalls. }
  unfold GRID_WIDTH, GRID_HEIGHT in *.
  rewrite cellAt_setCell_ne by (change (15 / 2) with 7; intros [= -> ->]; lia).
  rewrite cellAt_fillPellets.
  rewrite cellAt_setCell_ne by (change (15 / 2) with 7; change (21 / 2) with 10;
                                intros [= -> ->]; lia).
  by rewrite Hw.
Qed.

Lemma generateMaze_pellet env fuel m :
  generateMaze env fuel = Some m → cellAt m 1 1 = Some 2.
Proof.
  intros (w & _ & H0 & ->)%generateMaze_inv.
  rewrite cellAt_setCell_ne by done. rewrite cellAt_fillPellets.
  rewrite cellAt_setCell_ne by done. by rewrite H0.
Qed.

(** The recursion of [walk] is at most as deep as there are cells. *)
Lemma generateMaze_terminates env fuel :
  (315 ≤ fuel)%nat → is_Some (generateMaze env fuel).
Proof.
  intros Hfuel. unfold generateMaze.
  destruct (walk_terminates env fuel 1 1
              (replicate (Z.to_nat GRID_HEIGHT) (replicate (Z.to_nat GRID_WIDTH) 1)) 0%nat)
    as [[w k] Hw].
  - unfold interior, GRID_WIDTH, GRID_HEIGHT; lia.
  - done.
  - transitivity 315%nat; [|done]. by vm_compute.
  - rewrite Hw. by eexists.
Qed.

(** ** initGame *)

Lemma wallsKept_refl m : wallsKept m m.
Proof. by intros a b. Qed.

Lemma wallsKept_trans m1 m2 m3 :
  wallsKept m1 m2 → wallsKept m2 m3 → wallsKept m1 m3.
Proof. intros H12 H23 a b H. by apply H23, H12. Qed.

Lemma wallsKept_setCell m x y v :
  cellAt m x y ≠ Some 1 → wallsKept m (setCell m x y v).
Proof. intros H a b. by apply setCell_keeps_wall. Qed.

Lemma wallsKept_border m m' :
  wallsKept m m' → borderWalled m → borderWalled m'.
Proof. intros Hk Hb x y Hxy. by apply Hk, Hb. Qed.

Lemma countPellets_pos m : cellAt m 1 1 = Some 2 → 0 < countPellets m.
Proof.
  intros H11. unfold countPellets.
  set (f := λ (total : Z) (c : Z * Z),
         if cellIs m c.1 c.2 2 || cellIs m c.1 c.2 3 then total + 1 else total).
  assert (Hmono : ∀ l a, a ≤ fold_left f l a).
  { induction l as [|c l IH]; intros a; simpl; [lia|].
    etransitivity; [|apply IH]. unfold f. destruct (_ || _); lia. }
  assert (Hin : (1, 1) ∈ gridCoords) by (apply cellAt_in_grid; done).
  revert Hin. generalize 0. generalize gridCoords as l.
  induction l as [|c l IH]; intros a Hin; [by apply elem_of_nil in Hin|].
  apply elem_of_cons in Hin as [<-|Hin]; simpl.
  - unfold f at 2. simpl. apply cellIs_true in H11. rewrite H11. simpl.
    pose proof (Hmono l (a + 1)). lia.
  - pose proof (IH (f a c) Hin) as H. pose proof (Hmono [c] a) as H'. simpl in H'. lia.
Qed.

Lemma findStart_wallsKept m : wallsKept m (findStart m).2.
Proof.
  unfold findStart.
  generalize (GRID_WIDTH / 2, GRID_HEIGHT - 2) as p. generalize gridCoords as l.
  intros l. revert m. induction l as [|c l IH]; intros m p; simpl.
  - apply wallsKept_refl.
  - destruct (cellIs m c.1 c.2 5) eqn:Hc; [|apply IH].
    eapply wallsKept_trans; [|apply IH].
    apply wallsKept_setCell. apply cellIs_true in Hc. by rewrite Hc.
Qed.

Lemma placeCandies_wallsKept env fuel : ∀ placed m k r,
  placeCandies env fuel placed m k = Some r → wallsKept m r.1.
Proof.
  induction fuel as [|fuel IH]; intros placed m k r; simpl.
  - destruct (placed <? 10); [done|]. intros [= <-]. apply wallsKept_refl.
  - destruct (placed <? 10); [|intros [= <-]; apply wallsKept_refl].
    destruct (cellIs m _ _ 2) eqn:Hc; [|apply IH].
    intros Hr%IH. eapply wallsKept_trans; [|exact Hr].
    apply wallsKept_setCell. apply cellIs_true in Hc. by rewrite Hc.
Qed.

Lemma placeTombstones_wallsKept env fuel : ∀ n m k r,
  placeTombstones env fuel n m k = Some r → wallsKept m r.1.
Proof.
  induction fuel as [|fuel IH]; intros n m k r; simpl.
  - destruct (n <? 3); [done|]. intros [= <-]. apply wallsKept_refl.
  - destruct (n <? 3); [|intros [= <-]; apply wallsKept_refl].
    destruct (cellIs m _ _ 2 || cellIs m _ _ 0) eqn:Hc; [|apply IH].
    intros Hr%IH. eapply wallsKept_trans; [|exact Hr].
    apply wallsKept_setCell.
    apply orb_true_iff in Hc as [Hc|Hc]; apply cellIs_true in Hc; by rewrite Hc.
Qed.

(** What [initGame] establishes. *)
Lemma initGame_inv env fuel isNextStage s s' :
  initGame env fuel isNextStage s = Some s' →
  borderWalled (maze s') ∧ 0 < totalPellets s' ∧ eatenPellets s' = 0
  ∧ powerMode s' = 0 ∧ wallsLeft s' = 0 ∧ ghosts s' = initialGhosts
  ∧ gameState s' = gameState s.
Proof.
  unfold initGame.
  destruct (generateMaze env fuel) as [newMaze|] eqn:Hgen; [|done].
  destruct (findStart newMaze) as [[px py] m0] eqn:Hfs.
  destruct (placeCandies env fuel 0 m0 _) as [[m1 k1]|] eqn:Hpc; [|done].
  destruct (placeTombstones env fuel 0 m1 k1) as [[m2 k2]|] eqn:Hpt; [|done].
  intros [= <-]. cbn.
  split; [|split; [|by destruct isNextStage]].
  - apply placeTombstones_wallsKept in Hpt. apply placeCandies_wallsKept in Hpc.
    pose proof (findStart_wallsKept newMaze) as Hf. rewrite Hfs in Hf.
    cbn [fst snd] in *.
    eapply wallsKept_border; [|by eapply generateMaze_border].
    eauto using wallsKept_trans.
  - apply countPellets_pos. by eapply generateMaze_pellet.
Qed.

(** ** Frame lemmas: which phase of [update] touches which part of the state *)

Lemma sameCore_refl s : sameCore s s.
Proof. by repeat split. Qed.

Lemma sameCore_trans s1 s2 s3 : sameCore s1 s2 → sameCore s2 s3 → sameCore s1 s3.
Proof. unfold sameCore. intros (?&?&?&?&?) (?&?&?&?&?). repeat split; congruence. Qed.

Lemma fold_left_rel {A B} (R : A → A → Prop) (f : A → B → A) :
  (∀ a, R a a) → (∀ a b c, R a b → R b c → R a c) → (∀ a b, R a (f a b)) →
  ∀ l a, R a (fold_left f l a).
Proof.
  intros Hrefl Htrans Hstep l. induction l as [|b l IH]; intros a; simpl; [done|].
  eapply Htrans; [apply Hstep|apply IH].
Qed.

Ltac core := unfold sameCore; cbn; repeat split; done.

Lemma sameCore_resetPositions s : sameCore s (resetPositions s).
Proof. core. Qed.

Lemma sameCore_loseLife s : sameCore s (loseLife s).
Proof. unfold loseLife. case_match; core. Qed.

(** A relation the queued updater respects is respected by the render
    that runs the queue. *)
Lemma runLives_rel (R : State → State → Prop) :
  (∀ a b c, R a b → R b c → R a c) →
  (∀ s, R s (set_pendingLives 0 s)) → (∀ s, R s (loseLife s)) →
  ∀ s, R s (runLives s).
Proof.
  intros Htrans Hq Hl s. unfold runLives.
  induction (pendingLives s) as [|n IH]; simpl; [apply Hq|].
  eapply Htrans; [exact IH|apply Hl].
Qed.

Lemma sameCore_runLives s : sameCore s (runLives s).
Proof.
  apply (runLives_rel sameCore sameCore_trans); [|apply sameCore_loseLife].
  intros s0. core.
Qed.

Section Frames.

Variable env : Env.

Lemma sameCore_acceptNextDir b s : sameCore s (acceptNextDir b s).
Proof. unfold acceptNextDir. repeat case_match; core. Qed.

Lemma sameCore_wrapPacman s : sameCore s (wrapPacman s).
Proof. core. Qed.

Lemma sameCore_recoverLost p s : sameCore s (recoverLost p s).
Proof. unfold recoverLost. case_match; core. Qed.

Lemma sameCore_updatePopups s : sameCore s (updatePopups s).
Proof. core. Qed.

Lemma sameCore_updateFragments s : sameCore s (updateFragments s).
Proof. core. Qed.

Lemma sameCore_respawnGhost i s : sameCore s (respawnGhost env i s).
Proof. unfold respawnGhost. repeat case_match; core. Qed.

Lemma sameCore_steerGhost g s : sameCore s (steerGhost env g s).2.
Proof. unfold steerGhost. case_match; core. Qed.

Lemma sameCore_hitGhost p i g s : sameCore s (hitGhost p i g s).
Proof.
  unfold hitGhost. repeat case_match; core.
Qed.

Lemma sameCore_ghostStep p i s : sameCore s (ghostStep env p i s).
Proof.
  unfold ghostStep. destruct (ghosts s !! i) as [ghost|]; [|apply sameCore_refl].
  destruct (GhostEntity.isDying ghost); [core|].
  eapply sameCore_trans; [|apply sameCore_respawnGhost].
  eapply sameCore_trans; [|apply sameCore_hitGhost].
  eapply sameCore_trans; [apply (sameCore_steerGhost ghost)|core].
Qed.

Lemma sameCore_updateGhosts p s : sameCore s (updateGhosts env p s).
Proof.
  unfold updateGhosts. apply fold_left_rel.
  - apply sameCore_refl.
  - apply sameCore_trans.
  - intros; apply sameCore_ghostStep.
Qed.

Lemma sameCore_checkWin s : sameCore s (checkWin s).
Proof. unfold checkWin. case_match; core. Qed.

Lemma sameCore_witchSpawn s : sameCore s (witchSpawn env s).
Proof. unfold witchSpawn. case_match; core. Qed.

Lemma sameCore_witchStep p i s : sameCore s (witchStep env p i s).
Proof.
  unfold witchStep. destruct (witches s !! i) as [w|]; [|apply sameCore_refl].
  case_match; core.
Qed.

Lemma sameCore_updateWitches p s : sameCore s (updateWitches env p s).
Proof.
  unfold updateWitches.
  eapply sameCore_trans; [|core].
  apply fold_left_rel.
  - apply sameCore_refl.
  - apply sameCore_trans.
  - intros; apply sameCore_witchStep.
Qed.

End Frames.

(** ** The phases of a frame *)

Section Phases.

Variable env : Env.
Variable R : State → State → Prop.
Hypothesis R_refl : ∀ s, R s s.
Hypothesis R_trans : ∀ s1 s2 s3, R s1 s2 → R s2 s3 → R s1 s3.
Hypothesis R_player : ∀ s,
  R s (wrapPacman
         (movePacman env (isAligned (Entity.x (pacman s)) (Entity.y (pacman s)))
            (acceptNextDir (isAligned (Entity.x (pacman s)) (Entity.y (pacman s))) s))).
Hypothesis R_recover : ∀ s, R s (recoverLost (pacman s) s).
Hypothesis R_tile : ∀ p s, R s (tileEffect env p s).
Hypothesis R_power : ∀ s, R s (updatePowerMode s).
Hypothesis R_popups : ∀ s, R s (updatePopups s).
Hypothesis R_fragments : ∀ s, R s (updateFragments s).
Hypothesis R_ghost : ∀ p i s, R s (ghostStep env p i s).
Hypothesis R_win : ∀ s, R s (checkWin s).
Hypothesis R_bonus : ∀ q v s, R s (bonusSpawn env q v s).
Hypothesis R_witchSpawn : ∀ s, R s (witchSpawn env s).
Hypothesis R_witch : ∀ p i s, R s (witchStep env p i s).
Hypothesis R_sweep : ∀ s, R s (set_witches (List.filter witchStays (witches s)) s).

(** A relation every phase respects is respected by the tail of a tick
    and by a tick. *)
Lemma afterTile_phases p s : R s (afterTile env p s).
Proof.
  unfold afterTile, updateWitches, updateGhosts.
  eapply R_trans; [|apply R_sweep].
  match goal with |- R s (fold_left ?f ?l ?a) =>
    apply (R_trans s a); [|apply (fold_left_rel R f); [apply R_refl|apply R_trans|]] end;
    [|intros; apply R_witch].
  eapply R_trans; [|apply R_witchSpawn].
  eapply R_trans; [|apply R_bonus].
  eapply R_trans; [|apply R_bonus].
  eapply R_trans; [|apply R_win].
  match goal with |- R s (fold_left ?f ?l ?a) =>
    apply (R_trans s a); [|apply (fold_left_rel R f); [apply R_refl|apply R_trans|]] end;
    [|intros; apply R_ghost].
  eapply R_trans; [|apply R_fragments].
  eapply R_trans; [|apply R_popups].
  apply R_power.
Qed.

Lemma tail_phases p s : R s (tickTail env p s).
Proof. eapply R_trans; [apply R_tile|apply afterTile_phases]. Qed.

Lemma tick_tail s :
  tick env s
  = let isAt := isAligned (Entity.x (pacman s)) (Entity.y (pacman s)) in
    let s1 := wrapPacman (movePacman env isAt (acceptNextDir isAt s)) in
    tickTail env (pacman s1) (recoverLost (pacman s1) s1).
Proof. done. Qed.

Lemma tick_phases_rel s : R s (tick env s).
Proof.
  rewrite (tick_tail s). cbv zeta.
  eapply R_trans; [|apply tail_phases].
  eapply R_trans; [|apply R_recover].
  apply R_player.
Qed.

(** With the queued updater and the emptying of the queue, by a frame. *)
Hypothesis R_queue : ∀ s, R s (set_pendingLives 0 s).
Hypothesis R_loseLife : ∀ s, R s (loseLife s).

Lemma update_phases s : R s (update env s).
Proof.
  unfold update. destruct (negb _); [apply R_refl|].
  eapply R_trans; [apply tick_phases_rel|].
  by apply (runLives_rel R).
Qed.

End Phases.

Lemma samePellets_of_core s s' : sameCore s s' → samePellets s s'.
Proof. intros (_&_&_&?&?). by split. Qed.

Lemma samePellets_trans s1 s2 s3 :
  samePellets s1 s2 → samePellets s2 s3 → samePellets s1 s3.
Proof. intros [? ?] [? ?]. split; congruence. Qed.

Lemma noPlay_refl s : noPlay s s.
Proof. by intros ?. Qed.

Lemma noPlay_trans s1 s2 s3 : noPlay s1 s2 → noPlay s2 s3 → noPlay s1 s3.
Proof. unfold noPlay. auto. Qed.

Lemma noPlay_loseLife s : noPlay s (loseLife s).
Proof. unfold noPlay, loseLife. case_match; cbn; done. Qed.

Lemma noPlay_runLives s : noPlay s (runLives s).
Proof.
  apply (runLives_rel noPlay noPlay_trans); [|apply noPlay_loseLife].
  intros s0. by unfold noPlay.
Qed.

Section Pellets.

Variable env : Env.

Lemma samePellets_movePacman b s : samePellets s (movePacman env b s).
Proof. unfold movePacman, samePellets. repeat case_match; cbn; done. Qed.

Lemma samePellets_updatePowerMode s : samePellets s (updatePowerMode s).
Proof. unfold updatePowerMode, samePellets. repeat case_match; cbn; done. Qed.

Lemma samePellets_bonusSpawn p v s : samePellets s (bonusSpawn env p v s).
Proof. unfold bonusSpawn, samePellets. repeat case_match; cbn; done. Qed.

Lemma samePellets_respawnCandy s : samePellets s (respawnCandy env s).
Proof.
  unfold respawnCandy, samePellets.
  destruct (respawnLoop _ _ _ _ _ _) as [[[m k] n]|]; cbn; done.
Qed.

(** At most one pellet or candy is eaten per tick. *)
Lemma tileEffect_pellets p s :
  totalPellets (tileEffect env p s) = totalPellets s
  ∧ (eatenPellets (tileEffect env p s) = eatenPellets s
     ∨ eatenPellets (tileEffect env p s) = eatenPellets s + 1).
Proof.
  unfold tileEffect. cbv zeta.
  destruct (tileIs _ 2); [cbn; auto|].
  destruct (tileIs _ 3).
  { match goal with |- context [respawnCandy env ?t] =>
      destruct (samePellets_respawnCandy t) as [-> ->] end.
    cbn. auto. }
  destruct (tileIs _ 6).
  { destruct (powerMode s =? 0); cbn.
    - auto.
    - destruct (0 <? wallsLeft s); cbn; auto. }
  destruct (tileIs _ 7); cbn; auto.
Qed.

Lemma noPlay_bonusSpawn p v s : noPlay s (bonusSpawn env p v s).
Proof. unfold bonusSpawn, noPlay. repeat case_match; cbn; done. Qed.

Lemma noPlay_witchSpawn s : noPlay s (witchSpawn env s).
Proof. unfold witchSpawn, noPlay. repeat case_match; cbn; done. Qed.

Lemma noPlay_witchStep p i s : noPlay s (witchStep env p i s).
Proof.
  unfold witchStep. destruct (witches s !! i) as [w|]; [|apply noPlay_refl].
  case_match; by unfold noPlay.
Qed.

Lemma noPlay_updateWitches p s : noPlay s (updateWitches env p s).
Proof.
  unfold updateWitches.
  eapply noPlay_trans; [|by unfold noPlay].
  apply fold_left_rel.
  - apply noPlay_refl.
  - apply noPlay_trans.
  - intros; apply noPlay_witchStep.
Qed.

Lemma checkWin_won s :
  gameState (checkWin s) = PLAYING →
  winReached (eatenPellets s) (totalPellets s) = false.
Proof. unfold checkWin. by destruct (winReached _ _). Qed.

(** [tick], as the composition of its phases. *)
Lemma tick_phases s :
  tick env s =
    let isAt := isAligned (Entity.x (pacman s)) (Entity.y (pacman s)) in
    let s1 := wrapPacman (movePacman env isAt (acceptNextDir isAt s)) in
    let p := pacman s1 in
    let s2 := tileEffect env p (recoverLost p s1) in
    let s3 := updateGhosts env p (updateFragments (updatePopups (updatePowerMode s2))) in
    updateWitches env p
      (witchSpawn env (bonusSpawn env (5 # 10000) 7 (bonusSpawn env (1 # 1000) 3
         (checkWin s3)))).
Proof. done. Qed.

Lemma update_playing s :
  gameState s = PLAYING → update env s = runLives (tick env s).
Proof. intros H. unfold update. by rewrite H. Qed.

Lemma update_not_playing s : gameState s ≠ PLAYING → update env s = s.
Proof. intros H. unfold update. by destruct (gameState s). Qed.

Lemma tick_pellets s :
  totalPellets (tick env s) = totalPellets s
  ∧ (eatenPellets (tick env s) = eatenPellets s
     ∨ eatenPellets (tick env s) = eatenPellets s + 1)
  ∧ (gameState (tick env s) = PLAYING →
     winReached (eatenPellets (tick env s)) (totalPellets s) = false).
Proof.
  rewrite (tick_phases s). cbv zeta.
  set (isAt := isAligned _ _).
  set (s1 := wrapPacman (movePacman env isAt (acceptNextDir isAt s))).
  set (p := pacman s1).
  set (s2 := tileEffect env p (recoverLost p s1)).
  set (s3 := updateGhosts env p (updateFragments (updatePopups (updatePowerMode s2)))).
  set (s4 := checkWin s3).
  set (s5 := witchSpawn env (bonusSpawn env (5 # 10000) 7 (bonusSpawn env (1 # 1000) 3 s4))).
  assert (H1 : samePellets s s1).
  { unfold s1.
    eapply samePellets_trans; [apply samePellets_of_core, (sameCore_acceptNextDir isAt)|].
    eapply samePellets_trans; [apply (samePellets_movePacman isAt)|].
    apply samePellets_of_core, sameCore_wrapPacman. }
  assert (H1' : samePellets s (recoverLost p s1)).
  { eapply samePellets_trans; [exact H1|]. apply samePellets_of_core, sameCore_recoverLost. }
  destruct (tileEffect_pellets p (recoverLost p s1)) as [Ht He]. fold s2 in Ht, He.
  assert (H3 : samePellets s2 s3).
  { unfold s3.
    eapply samePellets_trans; [apply samePellets_updatePowerMode|].
    eapply samePellets_trans; [apply samePellets_of_core, sameCore_updatePopups|].
    eapply samePellets_trans; [apply samePellets_of_core, sameCore_updateFragments|].
    apply samePellets_of_core, sameCore_updateGhosts. }
  assert (H4 : samePellets s3 s4) by apply samePellets_of_core, sameCore_checkWin.
  assert (H5 : samePellets s4 s5).
  { unfold s5.
    eapply samePellets_trans; [apply samePellets_bonusSpawn|].
    eapply samePellets_trans; [apply samePellets_bonusSpawn|].
    apply samePellets_of_core, sameCore_witchSpawn. }
  assert (H6 : samePellets s5 (updateWitches env p s5))
    by apply samePellets_of_core, sameCore_updateWitches.
  assert (Hall : samePellets s2 (updateWitches env p s5))
    by eauto using samePellets_trans.
  destruct Hall as [HallE HallT]. destruct H1' as [H1E H1T].
  rewrite HallE, HallT, Ht, H1T. split; [done|]. split; [rewrite H1E in He; lia|].
  intros Hfin.
  assert (Hs4 : gameState s4 = PLAYING).
  { revert Hfin. apply (noPlay_trans s4 s5); [|apply noPlay_updateWitches].
    unfold s5.
    eapply noPlay_trans; [apply noPlay_bonusSpawn|].
    eapply noPlay_trans; [apply noPlay_bonusSpawn|]. apply noPlay_witchSpawn. }
  apply checkWin_won in Hs4. destruct H3 as [H3E H3T].
  by rewrite H3E, H3T, Ht, H1T in Hs4.
Qed.

Lemma update_pellets s :
  gameState s = PLAYING →
  totalPellets (update env s) = totalPellets s
  ∧ (eatenPellets (update env s) = eatenPellets s
     ∨ eatenPellets (update env s) = eatenPellets s + 1)
  ∧ (gameState (update env s) = PLAYING →
     winReached (eatenPellets (update env s)) (totalPellets s) = false).
Proof.
  intros Hplay. rewrite (update_playing s Hplay).
  destruct (sameCore_runLives (tick env s)) as (_ & _ & _ & -> & ->).
  destruct (tick_pellets s) as (Ht & He & Hfin).
  split; [done|]. split; [done|].
  intros Hp. apply Hfin. by apply (noPlay_runLives (tick env s)).
Qed.

End Pellets.

Lemma winReached_start total : 0 < total → winReached 0 total = false.
Proof.
  intros H. unfold winReached. replace (0 <? total) with true by (symmetry; lia).
  lia.
Qed.

Lemma pelletInv_update env s : pelletInv s → pelletInv (update env s).
Proof.
  intros [Hle Hplay].
  destruct (decide (gameState s = PLAYING)) as [Hp|Hp];
    [|by rewrite update_not_playing].
  destruct (Hplay Hp) as [Hpos Hwin].
  destruct (update_pellets env s Hp) as (Ht & He & Hfin).
  unfold winReached in Hwin. replace (0 <? totalPellets s) with true in Hwin
    by (symmetry; lia).
  split.
  - rewrite Ht. destruct He as [->| ->]; lia.
  - intros Hp'. rewrite Ht. split; [done|]. by apply Hfin.
Qed.

Lemma pelletInv_initGame env fuel b s s' :
  initGame env fuel b s = Some s' → pelletInv (set_gameState PLAYING s').
Proof.
  intros (_ & Hpos & He & _)%initGame_inv. split; cbn.
  - lia.
  - intros _. split; [done|]. rewrite He. by apply winReached_start.
Qed.

Lemma reachable_pelletInv s : reachable s → pelletInv s.
Proof.
  induction 1 as [|env fuel s s' _ _ Hs|env fuel s s' _ _ Hs|env s _ IH|d s _ IH|st s _ IH Hst].
  - by split.
  - unfold startGame in Hs.
    destruct (initGame _ _ _ _) as [s1|] eqn:Hinit; [|done].
    injection Hs as <-. by eapply pelletInv_initGame.
  - unfold nextStage in Hs.
    destruct (initGame _ _ _ _) as [s1|] eqn:Hinit; [|done].
    injection Hs as <-. by eapply pelletInv_initGame.
  - by apply pelletInv_update.
  - exact IH.
  - destruct IH as [Hle _]. split; [exact Hle|]. cbn. done.
Qed.

(** ** C2 *)

(** C2.  In every reachable state the number of eaten pellets does not
    exceed the number of pellets counted when the stage was set up, and
    a tick never lowers the consumption ratio
    [eatenPellets / totalPellets] (a tick leaves [totalPellets] as it
    is). *)
Theorem C2_pellet_accounting (s : State) :
  reachable s →
  eatenPellets s ≤ totalPellets s
  ∧ ∀ env, totalPellets (update env s) = totalPellets s
           ∧ (consumption s <= consumption (update env s))%Q.
Proof.
  intros Hr. destruct (reachable_pelletInv s Hr) as [Hle Hplay].
  split; [exact Hle|]. intros env.
  destruct (decide (gameState s = PLAYING)) as [Hp|Hp].
  - destruct (Hplay Hp) as [Hpos _].
    destruct (update_pellets env s Hp) as (Ht & He & _).
    split; [exact Ht|]. unfold consumption. rewrite Ht.
    apply Qmult_le_compat_r.
    + rewrite <- Zle_Qle. destruct He as [->| ->]; lia.
    + apply Qinv_le_0_compat. change 0%Q with (inject_Z 0). rewrite <- Zle_Qle. lia.
  - rewrite update_not_playing by done. split; [done|]. apply Qle_refl.
Qed.

Lemma mazeQuiet_refl m : mazeQuiet m m.
Proof. split; [apply wallsKept_refl|done]. Qed.

Lemma mazeQuiet_trans m1 m2 m3 : mazeQuiet m1 m2 → mazeQuiet m2 m3 → mazeQuiet m1 m3.
Proof.
  intros [H1 H1'] [H2 H2']. split; [by eapply wallsKept_trans|].
  intros a b H. by apply H2', H1'.
Qed.

Lemma mazeQuiet_setCell m x y v :
  cellAt m x y ≠ Some 1 → mazeQuiet m (setCell m x y v).
Proof.
  intros H. split; [by apply wallsKept_setCell|].
  intros a b. apply cellAt_setCell_None.
Qed.

Lemma mazeQuiet_eq m m' : m' = m → mazeQuiet m m'.
Proof. intros ->. apply mazeQuiet_refl. Qed.

Lemma sameShape_bounded m m' : sameShape m m' → mazeBounded m → mazeBounded m'.
Proof.
  intros Hs Hb x y Hsome. apply Hb.
  destruct (cellAt m x y) eqn:Hc; [by eexists|].
  apply Hs in Hc. rewrite Hc in Hsome. by destruct Hsome.
Qed.

Lemma tileIs_not_wall cell v : v ≠ 1 → tileIs cell v = true → cell ≠ Some 1.
Proof.
  unfold tileIs. destruct cell as [c|]; [|done].
  intros Hv ->%Z.eqb_eq [= ->]. done.
Qed.

Section Maze.

Variable env : Env.

Lemma respawnLoop_mazeQuiet fuel : ∀ respawned attempts m k r,
  respawnLoop env fuel respawned attempts m k = Some r → mazeQuiet m r.1.1.
Proof.
  induction fuel as [|fuel IH]; intros respawned attempts m k r; simpl.
  - destruct (negb respawned && (attempts <? 100)); [done|].
    intros [= <-]. apply mazeQuiet_refl.
  - destruct (negb respawned && (attempts <? 100));
      [|intros [= <-]; apply mazeQuiet_refl].
    destruct (cellIs m _ _ 2 || cellIs m _ _ 0) eqn:Hc; [|apply IH].
    intros Hr%IH. eapply mazeQuiet_trans; [|exact Hr].
    apply mazeQuiet_setCell.
    apply orb_true_iff in Hc as [Hc|Hc]; apply cellIs_true in Hc; by rewrite Hc.
Qed.

Lemma respawnCandy_mazeQuiet s : mazeQuiet (maze s) (maze (respawnCandy env s)).
Proof.
  unfold respawnCandy.
  destruct (respawnLoop _ _ _ _ _ _) as [[[m k] n]|] eqn:Hr; [|apply mazeQuiet_refl].
  apply respawnLoop_mazeQuiet in Hr. exact Hr.
Qed.

Lemma tileEffect_mazeQuiet p s : mazeQuiet (maze s) (maze (tileEffect env p s)).
Proof.
  unfold tileEffect. cbv zeta.
  destruct (tileIs _ 2) eqn:H2.
  { cbn. by apply mazeQuiet_setCell, (tileIs_not_wall _ 2). }
  destruct (tileIs _ 3) eqn:H3.
  { eapply mazeQuiet_trans; [|apply respawnCandy_mazeQuiet].
    cbn. by apply mazeQuiet_setCell, (tileIs_not_wall _ 3). }
  destruct (tileIs _ 6) eqn:H6.
  { destruct (powerMode s =? 0); cbn.
    - by apply mazeQuiet_setCell, (tileIs_not_wall _ 6).
    - destruct (0 <? wallsLeft s); cbn;
        by apply mazeQuiet_setCell, (tileIs_not_wall _ 6). }
  destruct (tileIs _ 7) eqn:H7; [|apply mazeQuiet_refl].
  cbn. by apply mazeQuiet_setCell, (tileIs_not_wall _ 7).
Qed.

Lemma bonusSpawn_mazeQuiet p v s : mazeQuiet (maze s) (maze (bonusSpawn env p v s)).
Proof.
  unfold bonusSpawn. destruct (randomBelow _ _ _); [|apply mazeQuiet_refl].
  cbn. destruct (cellIs _ _ _ 0) eqn:Hc; [|apply mazeQuiet_refl].
  cbn. apply mazeQuiet_setCell. apply cellIs_true in Hc. by rewrite Hc.
Qed.

(** The wall break is the one place where a wall can disappear. *)
Lemma movePacman_sameShape b s : sameShape (maze s) (maze (movePacman env b s)).
Proof.
  unfold movePacman. repeat case_match; cbn; try done.
  all: intros a c Hn; first [exact Hn | by apply cellAt_setCell_None].
Qed.

Lemma movePacman_wallsKept b s :
  powerMode s ≤ 0 ∨ wallsLeft s ≤ 0 →
  maze (movePacman env b s) = maze s ∧ wallsLeft (movePacman env b s) = wallsLeft s.
Proof.
  intros H. unfold movePacman.
  destruct (canMove _ _ _ _); [|by destruct (negb b)].
  cbn. replace ((0 <? powerMode s) && (0 <? wallsLeft s)) with false; [done|].
  symmetry. apply andb_false_iff. rewrite !Z.ltb_ge. done.
Qed.

Lemma movePacman_wallsLeft b s :
  0 ≤ wallsLeft s → 0 ≤ wallsLeft (movePacman env b s) ≤ wallsLeft s.
Proof.
  intros H. unfold movePacman.
  destruct (canMove _ _ _ _); [|by destruct (negb b); cbn; lia].
  cbn. destruct ((0 <? powerMode s) && (0 <? wallsLeft s)) eqn:Hpw; [|cbn; lia].
  apply andb_true_iff in Hpw as [_ Hw%Z.ltb_lt].
  destruct (cellIs _ _ _ 1); cbn; lia.
Qed.

Lemma movePacman_powerMode b s : powerMode (movePacman env b s) = powerMode s.
Proof. unfold movePacman. repeat case_match; cbn; done. Qed.

Lemma respawnCandy_wallsLeft s : wallsLeft (respawnCandy env s) = wallsLeft s.
Proof.
  unfold respawnCandy. by destruct (respawnLoop _ _ _ _ _ _) as [[[m k] n]|].
Qed.

Lemma tileEffect_wallsLeft p s :
  0 ≤ wallsLeft s → 0 ≤ wallsLeft (tileEffect env p s).
Proof.
  intros H. unfold tileEffect. cbv zeta.
  destruct (tileIs _ 2); [done|].
  destruct (tileIs _ 3); [by rewrite respawnCandy_wallsLeft|].
  destruct (tileIs _ 6).
  { destruct (powerMode s =? 0); cbn.
    - done.
    - destruct (0 <? wallsLeft s) eqn:Hw; cbn; lia. }
  destruct (tileIs _ 7); done.
Qed.

Lemma updatePowerMode_frame s :
  maze (updatePowerMode s) = maze s ∧ wallsLeft (updatePowerMode s) = wallsLeft s.
Proof. unfold updatePowerMode. repeat case_match; cbn; done. Qed.

Lemma bonusSpawn_wallsLeft p v s : wallsLeft (bonusSpawn env p v s) = wallsLeft s.
Proof. unfold bonusSpawn. repeat case_match; cbn; done. Qed.

(** The maze and the charges over a whole tick. *)
Lemma update_maze s :
  gameState s = PLAYING →
  let isAt := isAligned (Entity.x (pacman s)) (Entity.y (pacman s)) in
  let s0 := movePacman env isAt (acceptNextDir isAt s) in
  mazeQuiet (maze s0) (maze (update env s))
  ∧ (0 ≤ wallsLeft s0 → 0 ≤ wallsLeft (update env s)).
Proof.
  intros Hplay. rewrite (update_playing env s Hplay).
  destruct (sameCore_runLives (tick env s)) as (-> & -> & _).
  rewrite tick_phases. cbv zeta.
  set (isAt := isAligned _ _).
  set (s0 := movePacman env isAt (acceptNextDir isAt s)).
  set (p := pacman (wrapPacman s0)).
  set (s1 := recoverLost p (wrapPacman s0)).
  set (s2 := tileEffect env p s1).
  set (s2' := updatePowerMode s2).
  set (s3 := updateGhosts env p (updateFragments (updatePopups s2'))).
  set (s4 := checkWin s3).
  set (s5 := bonusSpawn env (1 # 1000) 3 s4).
  set (s6 := bonusSpawn env (5 # 10000) 7 s5).
  assert (H1 : sameCore s0 s1).
  { eapply sameCore_trans; [apply sameCore_wrapPacman|apply sameCore_recoverLost]. }
  assert (H3 : sameCore s2' s4).
  { unfold s4, s3.
    eapply sameCore_trans; [apply sameCore_updatePopups|].
    eapply sameCore_trans; [apply sameCore_updateFragments|].
    eapply sameCore_trans; [apply sameCore_updateGhosts|apply sameCore_checkWin]. }
  assert (H7 : sameCore s6 (updateWitches env p (witchSpawn env s6))).
  { eapply sameCore_trans; [apply sameCore_witchSpawn|apply sameCore_updateWitches]. }
  destruct H1 as (H1m & H1w & _). destruct H3 as (H3m & H3w & _).
  destruct H7 as (H7m & H7w & _).
  destruct (updatePowerMode_frame s2) as [Hpm Hpw]. fold s2' in Hpm, Hpw.
  split.
  - rewrite H7m.
    eapply mazeQuiet_trans; [|apply bonusSpawn_mazeQuiet]. fold s5.
    eapply mazeQuiet_trans; [|apply bonusSpawn_mazeQuiet]. fold s4.
    rewrite H3m, Hpm, <- H1m. apply tileEffect_mazeQuiet.
  - intros H0. rewrite H7w. unfold s6, s5. rewrite !bonusSpawn_wallsLeft.
    rewrite H3w, Hpw. apply tileEffect_wallsLeft. by rewrite H1w.
Qed.

Lemma acceptNextDir_frame b s :
  maze (acceptNextDir b s) = maze s ∧ wallsLeft (acceptNextDir b s) = wallsLeft s
  ∧ powerMode (acceptNextDir b s) = powerMode s.
Proof. destruct (sameCore_acceptNextDir b s) as (?&?&?&_). done. Qed.

Lemma update_sameShape s : sameShape (maze s) (maze (update env s)).
Proof.
  destruct (decide (gameState s = PLAYING)) as [Hp|Hp];
    [|rewrite update_not_playing by done; by intros a b H].
  destruct (update_maze s Hp) as [[_ Hq] _]. intros a b H. apply Hq.
  apply movePacman_sameShape. by destruct (acceptNextDir_frame
    (isAligned (Entity.x (pacman s)) (Entity.y (pacman s))) s) as (-> & _).
Qed.

Lemma update_wallsLeft s : 0 ≤ wallsLeft s → 0 ≤ wallsLeft (update env s).
Proof.
  intros H. destruct (decide (gameState s = PLAYING)) as [Hp|Hp];
    [|by rewrite update_not_playing].
  destruct (update_maze s Hp) as [_ Hw]. apply Hw.
  apply movePacman_wallsLeft.
  by destruct (acceptNextDir_frame
    (isAligned (Entity.x (pacman s)) (Entity.y (pacman s))) s) as (_ & -> & _).
Qed.

(** Without power mode or without a charge, a tick removes no wall. *)
Lemma update_wallsKept s :
  powerMode s ≤ 0 ∨ wallsLeft s ≤ 0 → wallsKept (maze s) (maze (update env s)).
Proof.
  intros H. destruct (decide (gameState s = PLAYING)) as [Hp|Hp];
    [|rewrite update_not_playing by done; apply wallsKept_refl].
  destruct (update_maze s Hp) as [[Hq _] _].
  set (isAt := isAligned _ _) in *.
  destruct (acceptNextDir_frame isAt s) as (Hm & Hw & Hpm).
  destruct (movePacman_wallsKept isAt (acceptNextDir isAt s)) as [Hm' _].
  { by rewrite Hw, Hpm. }
  by rewrite Hm', Hm in Hq.
Qed.

End Maze.

(** ** Shape of the maze in reachable states *)

Lemma sameShape_refl m : sameShape m m.
Proof. by intros a b. Qed.

Lemma sameShape_trans m1 m2 m3 : sameShape m1 m2 → sameShape m2 m3 → sameShape m1 m3.
Proof. intros H1 H2 a b H. by apply H2, H1. Qed.

Lemma sameShape_setCell m x y v : sameShape m (setCell m x y v).
Proof. intros a b. apply cellAt_setCell_None. Qed.

Lemma findStart_sameShape m : sameShape m (findStart m).2.
Proof.
  unfold findStart.
  generalize (GRID_WIDTH / 2, GRID_HEIGHT - 2) as p. generalize gridCoords as l.
  intros l. revert m. induction l as [|c l IH]; intros m p; simpl.
  - apply sameShape_refl.
  - destruct (cellIs m c.1 c.2 5); [|apply IH].
    eapply sameShape_trans; [apply sameShape_setCell|apply IH].
Qed.

Lemma placeCandies_sameShape env fuel : ∀ placed m k r,
  placeCandies env fuel placed m k = Some r → sameShape m r.1.
Proof.
  induction fuel as [|fuel IH]; intros placed m k r; simpl.
  - destruct (placed <? 10); [done|]. intros [= <-]. apply sameShape_refl.
  - destruct (placed <? 10); [|intros [= <-]; apply sameShape_refl].
    destruct (cellIs m _ _ 2); [|apply IH].
    intros Hr%IH. eapply sameShape_trans; [apply sameShape_setCell|exact Hr].
Qed.

Lemma placeTombstones_sameShape env fuel : ∀ n m k r,
  placeTombstones env fuel n m k = Some r → sameShape m r.1.
Proof.
  induction fuel as [|fuel IH]; intros n m k r; simpl.
  - destruct (n <? 3); [done|]. intros [= <-]. apply sameShape_refl.
  - destruct (n <? 3); [|intros [= <-]; apply sameShape_refl].
    destruct (cellIs m _ _ 2 || cellIs m _ _ 0); [|apply IH].
    intros Hr%IH. eapply sameShape_trans; [apply sameShape_setCell|exact Hr].
Qed.

Lemma allWalls_bounded :
  mazeBounded (replicate (Z.to_nat GRID_HEIGHT) (replicate (Z.to_nat GRID_WIDTH) 1)).
Proof.
  intros x y [c Hc]. unfold cellAt in Hc.
  destruct ((y <? 0) || (x <? 0)) eqn:Hxy; [done|].
  apply orb_false_elim in Hxy as [Hy%Z.ltb_ge Hx%Z.ltb_ge].
  destruct (replicate _ _ !! Z.to_nat y) as [row|] eqn:Hrow; [|done].
  apply lookup_replicate in Hrow as [-> Hylt].
  apply lookup_replicate in Hc as [_ Hxlt].
  unfold GRID_WIDTH, GRID_HEIGHT in *. lia.
Qed.

Lemma generateMaze_bounded env fuel m :
  generateMaze env fuel = Some m → mazeBounded m.
Proof.
  intros (w & Hc & _ & ->)%generateMaze_inv.
  assert (Hw : mazeBounded w).
  { intros x y Hs. destruct (Hc x y) as [H|[[? ?] _]].
    - apply allWalls_bounded. by rewrite <- H.
    - unfold GRID_WIDTH, GRID_HEIGHT in *. lia. }
  eapply sameShape_bounded; [apply sameShape_setCell|].
  intros x y [c Hs]. rewrite cellAt_fillPellets in Hs.
  apply (sameShape_bounded w _
           (sameShape_setCell w (GRID_WIDTH / 2) (GRID_HEIGHT / 2) 4) Hw).
  destruct (cellAt (setCell w _ _ 4) x y); [by eexists|done].
Qed.

Lemma initGame_bounded env fuel b s s' :
  initGame env fuel b s = Some s' → mazeBounded (maze s').
Proof.
  unfold initGame.
  destruct (generateMaze env fuel) as [newMaze|] eqn:Hgen; [|done].
  destruct (findStart newMaze) as [[px py] m0] eqn:Hfs.
  destruct (placeCandies env fuel 0 m0 _) as [[m1 k1]|] eqn:Hpc; [|done].
  destruct (placeTombstones env fuel 0 m1 k1) as [[m2 k2]|] eqn:Hpt; [|done].
  intros [= <-]. cbn.
  apply placeTombstones_sameShape in Hpt. apply placeCandies_sameShape in Hpc.
  pose proof (findStart_sameShape newMaze) as Hf. rewrite Hfs in Hf.
  cbn [fst snd] in *.
  eapply sameShape_bounded; [|by eapply generateMaze_bounded].
  eauto using sameShape_trans.
Qed.

(** The charge counter is never negative and the maze never grows. *)
Lemma reachable_charges_shape s :
  reachable s → 0 ≤ wallsLeft s ∧ mazeBounded (maze s).
Proof.
  induction 1 as [|env fuel s s' _ _ Hs|env fuel s s' _ _ Hs
                  |env s _ [IHw IHm]|d s _ IH|st s _ IH Hst].
  - split; [done|]. intros x y [c Hc]. unfold cellAt in Hc. cbn in Hc.
    by destruct (_ || _).
  - unfold startGame in Hs.
    destruct (initGame _ _ _ _) as [s1|] eqn:Hinit; [|done].
    injection Hs as <-. cbn. split.
    + apply initGame_inv in Hinit as (_&_&_&_&->&_). done.
    + by eapply initGame_bounded.
  - unfold nextStage in Hs.
    destruct (initGame _ _ _ _) as [s1|] eqn:Hinit; [|done].
    injection Hs as <-. cbn. split.
    + apply initGame_inv in Hinit as (_&_&_&_&->&_). done.
    + by eapply initGame_bounded.
  - split; [by apply update_wallsLeft|].
    eapply sameShape_bounded; [apply update_sameShape|done].
  - exact IH.
  - exact IH.
Qed.

Lemma demoStart_eq : startGame demoEnv 80 initialState = Some demoStart.
Proof. vm_compute. reflexivity. Qed.

Lemma reachable_ticks n s : reachable s → reachable (ticks n s).
Proof.
  intros H. induction n as [|n IH]; [exact H|]. simpl. by apply reach_update.
Qed.

Lemma reachable_demoStart : reachable demoStart.
Proof. eapply reach_start; [apply reach_initial|apply demoStart_eq]. Qed.

Lemma C2_witness :
  eatenPellets demoStart ≤ totalPellets demoStart
  ∧ ∀ env, totalPellets (update env demoStart) = totalPellets demoStart
           ∧ (consumption demoStart <= consumption (update env demoStart))%Q.
Proof. apply (C2_pellet_accounting demoStart). exact reachable_demoStart. Defined.

Lemma reachable_demoPowered : reachable demoPowered.
Proof.
  unfold demoPowered. apply (reachable_ticks 9). apply reach_steer.
  exact reachable_demoStart.
Qed.

Lemma reachable_demoBorder : reachable demoBorder.
Proof.
  unfold demoBorder. apply (reachable_ticks 5). apply reach_steer.
  exact reachable_demoPowered.
Qed.

Lemma reachable_demoNoCharge : reachable demoNoCharge.
Proof.
  unfold demoNoCharge.
  apply (reachable_ticks 13). apply reach_steer.
  apply (reachable_ticks 9). apply reach_steer.
  apply (reachable_ticks 27). apply reach_steer.
  apply (reachable_ticks 4). exact reachable_demoBorder.
Qed.

Lemma reachable_demoLost : reachable demoLost.
Proof.
  unfold demoLost.
  apply (reachable_ticks 37). apply reach_steer.
  apply (reachable_ticks 63). exact reachable_demoPowered.
Qed.

Lemma reachable_demoWitch : reachable demoWitch.
Proof. unfold demoWitch. apply (reachable_ticks 234). exact reachable_demoBorder. Qed.

Lemma reachable_demoGhost : reachable demoGhost.
Proof.
  unfold demoGhost. apply (reachable_ticks 345). apply reach_steer.
  apply (reachable_ticks 1). exact reachable_demoWitch.
Qed.

Lemma tombStart_eq : startGame tombEnv 80 initialState = Some tombStart.
Proof. vm_compute. reflexivity. Qed.

Lemma reachable_tombTicks n s : reachable s → reachable (tombTicks n s).
Proof.
  intros H. induction n as [|n IH]; [exact H|]. simpl. by apply reach_update.
Qed.

Lemma reachable_lastLife : reachable lastLife.
Proof.
  unfold lastLife.
  apply (reachable_tombTicks 13). apply reach_steer.
  apply (reachable_tombTicks 5). apply reach_steer.
  apply (reachable_tombTicks 1).
  eapply reach_start; [apply reach_initial|apply tombStart_eq].
Qed.

Lemma ghostStart_eq : startGame ghostEnv 80 initialState = Some ghostStart.
Proof. vm_compute. reflexivity. Qed.

Lemma reachable_ghostTicks n s : reachable s → reachable (ghostTicks n s).
Proof.
  intros H. induction n as [|n IH]; [exact H|]. simpl. by apply reach_update.
Qed.

Lemma reachable_ghostHit : reachable ghostHit.
Proof.
  unfold ghostHit, ghostLost.
  apply (reachable_ghostTicks 283). apply reach_steer.
  apply (reachable_ghostTicks 37). apply reach_steer.
  apply (reachable_ghostTicks 72). apply reach_steer.
  eapply reach_start; [apply reach_initial|apply ghostStart_eq].
Qed.

(** ** C8: canMove at the edges of the grid *)

(** C8, counterexample.  An actor in the side tunnel ([x = -36]) on the
    top row heading up: the look-ahead cell lies above the grid, yet
    [canMove] permits the move, because the cell also lies left of the
    grid and the horizontal test comes first. *)
Lemma C8_counterexample :
  (lookAhead (-36) 0 UP).2 < 0 ∧ canMove demoStart (-36) 0 UP = true.
Proof. split; [by vm_compute|by vm_compute]. Qed.

Lemma wrapX_left x : x < - TILE_SIZE → wrapX x = CANVAS_WIDTH.
Proof.
  intros H. unfold wrapX. destruct (Z.ltb_spec x (- TILE_SIZE)); [|lia].
  by rewrite Z.ltb_irrefl.
Qed.

Lemma wrapX_right x : CANVAS_WIDTH < x → wrapX x = - TILE_SIZE.
Proof.
  intros H. unfold wrapX. destruct (Z.ltb_spec x (- TILE_SIZE)) as [Hlt|Hge].
  - unfold CANVAS_WIDTH, TILE_SIZE, GRID_WIDTH in *. lia.
  - destruct (Z.ltb_spec CANVAS_WIDTH x); [done|lia].
Qed.

(** C8, amended.  [canMove] permits the move whenever the look-ahead
    cell lies horizontally outside the grid; it blocks the move whenever
    the cell lies vertically outside the grid and horizontally inside
    it.  An actor that has passed the left edge by more than a tile is
    put on the right edge and the other way round; the player and the
    ghosts are wrapped this way on every step: the player's x after the
    wrap is [wrapX] of its x, and a ghost's x after its move is [wrapX]
    of the x its step has reached (half its speed to the left or to the
    right when it is scared, its speed otherwise, no change when it
    moves up or down). *)
Theorem C8_canMove_edges (s : State) (x y : Z) (d : Direction) (g : GhostEntity.t) :
  ((lookAhead x y d).1 < 0 ∨ GRID_WIDTH ≤ (lookAhead x y d).1 →
     canMove s x y d = true)
  ∧ (0 ≤ (lookAhead x y d).1 < GRID_WIDTH →
     (lookAhead x y d).2 < 0 ∨ GRID_HEIGHT ≤ (lookAhead x y d).2 →
     canMove s x y d = false)
  ∧ (x < - TILE_SIZE → wrapX x = CANVAS_WIDTH)
  ∧ (CANVAS_WIDTH < x → wrapX x = - TILE_SIZE)
  ∧ Entity.x (pacman (wrapPacman s)) = wrapX (Entity.x (pacman s))
  ∧ GhostEntity.x (moveGhost g)
    = wrapX (let v := if GhostEntity.isScared g then GhostEntity.speed g / 2
                      else GhostEntity.speed g in
             match GhostEntity.dir g with
             | LEFT => GhostEntity.x g - v
             | RIGHT => GhostEntity.x g + v
             | _ => GhostEntity.x g
             end).
Proof.
  unfold canMove. destruct (lookAhead x y d) as [gx gy]. cbn [fst snd].
  repeat split.
  - intros H. replace ((gx <? 0) || (GRID_WIDTH <=? gx)) with true; [done|].
    symmetry. apply orb_true_iff. rewrite Z.ltb_lt, Z.leb_le. done.
  - intros Hx Hy.
    replace ((gx <? 0) || (GRID_WIDTH <=? gx)) with false
      by (symmetry; apply orb_false_iff; rewrite Z.ltb_ge, Z.leb_gt; lia).
    replace ((gy <? 0) || (GRID_HEIGHT <=? gy)) with true; [done|].
    symmetry. apply orb_true_iff. rewrite Z.ltb_lt, Z.leb_le. done.
  - apply wrapX_left.
  - apply wrapX_right.
  - unfold moveGhost. cbv zeta. by destruct (GhostEntity.dir g).
Qed.

Lemma C8_witness :
  canMove demoStart (-4) 36 LEFT = true ∧ canMove demoStart 36 0 UP = false
  ∧ wrapX (-40) = CANVAS_WIDTH ∧ wrapX 544 = - TILE_SIZE.
Proof.
  pose proof (C8_canMove_edges demoStart (-4) 36 LEFT normalGhost) as (H1 & _).
  pose proof (C8_canMove_edges demoStart 36 0 UP normalGhost) as (_ & H2 & _).
  pose proof (C8_canMove_edges demoStart (-40) 0 UP normalGhost) as (_ & _ & H3 & _).
  pose proof (C8_canMove_edges demoStart 544 0 UP normalGhost) as (_ & _ & _ & H4 & _).
  split; [apply H1; left; by vm_compute|].
  split; [apply H2; [by vm_compute|left; by vm_compute]|].
  split; [apply H3; by vm_compute|apply H4; by vm_compute].
Defined.

(** ** The life-loss rule *)

Lemma loseLife_lives s : lives (loseLife s) = afterLoss (lives s).
Proof. unfold loseLife, afterLoss. cbn. by destruct (lives s <=? 1). Qed.

Lemma loseLife_last s :
  lives s ≤ 1 →
  loseLife s = set_lives 0 (set_gameState GAMEOVER (emit (PlaySound DEATH) s)).
Proof. intros H. unfold loseLife. cbn. by replace (lives s <=? 1) with true by (symmetry; lia). Qed.

Lemma loseLife_more s :
  1 < lives s →
  loseLife s = set_lives (lives s - 1) (resetPositions (emit (PlaySound DEATH) s)).
Proof. intros H. unfold loseLife. cbn. by replace (lives s <=? 1) with false by (symmetry; lia). Qed.

(** ** The ghost callback *)

Lemma moveGhost_flags g :
  GhostEntity.isEaten (moveGhost g) = GhostEntity.isEaten g
  ∧ GhostEntity.isDying (moveGhost g) = GhostEntity.isDying g
  ∧ GhostEntity.isScared (moveGhost g) = GhostEntity.isScared g
  ∧ GhostEntity.deathTimer (moveGhost g) = GhostEntity.deathTimer g.
Proof. unfold moveGhost. by destruct (GhostEntity.dir g). Qed.

Section Ghosts.

Variable env : Env.

Lemma steerGhost_flags g s :
  GhostEntity.isEaten (steerGhost env g s).1 = GhostEntity.isEaten g
  ∧ GhostEntity.isDying (steerGhost env g s).1 = GhostEntity.isDying g
  ∧ GhostEntity.isScared (steerGhost env g s).1 = GhostEntity.isScared g
  ∧ GhostEntity.deathTimer (steerGhost env g s).1 = GhostEntity.deathTimer g.
Proof. unfold steerGhost. by destruct (isAligned _ _). Qed.

(** [steerGhost] only consumes random values. *)
Lemma steerGhost_state g s :
  ∃ n, (steerGhost env g s).2 = drawn n s.
Proof.
  unfold steerGhost. destruct (isAligned _ _); cbn; [by eexists|].
  exists 0%nat. unfold drawn. destruct s; cbn. by rewrite Nat.add_0_r.
Qed.

Lemma ghostStep_dying p i s ghost :
  ghosts s !! i = Some ghost → GhostEntity.isDying ghost = true →
  ghostStep env p i s = setGhost i (dyingStep ghost) s.
Proof. intros Hi Hd. unfold ghostStep. by rewrite Hi, Hd. Qed.

Lemma ghostStep_alive p i s ghost :
  ghosts s !! i = Some ghost → GhostEntity.isDying ghost = false →
  ghostStep env p i s =
    let gs := steerGhost env ghost s in
    respawnGhost env i
      (hitGhost p i (moveGhost gs.1) (setGhost i (moveGhost gs.1) gs.2)).
Proof. intros Hi Hd. unfold ghostStep. by rewrite Hi, Hd. Qed.

Lemma respawnGhost_quiet i s :
  lives (respawnGhost env i s) = lives s
  ∧ gameState (respawnGhost env i s) = gameState s
  ∧ score (respawnGhost env i s) = score s
  ∧ popups (respawnGhost env i s) = popups s
  ∧ trace (respawnGhost env i s) = trace s.
Proof. unfold respawnGhost. repeat case_match; cbn; done. Qed.

Lemma respawnGhost_pending i s : pendingLives (respawnGhost env i s) = pendingLives s.
Proof. unfold respawnGhost. repeat case_match; cbn; done. Qed.

(** ** C10 *)

(** C10.  When the callback of the ghost loop runs for a ghost whose
    [isEaten] or [isDying] flag is set, the collision with the player
    has no effect: no life is lost and no life-loss updater is queued,
    the game state, the score, the popups and the trace of sounds and
    resets are unchanged.  A dying
    ghost only advances its animation ([deathTimer] goes down by one, it
    is not set back to 30), so it cannot be eaten a second time. *)
Theorem C10_eaten_or_dying_no_collision
  (pacman : Entity.t) (i : nat) (s : State) (ghost : GhostEntity.t) :
  ghosts s !! i = Some ghost →
  GhostEntity.isEaten ghost = true ∨ GhostEntity.isDying ghost = true →
  lives (ghostStep env pacman i s) = lives s
  ∧ pendingLives (ghostStep env pacman i s) = pendingLives s
  ∧ gameState (ghostStep env pacman i s) = gameState s
  ∧ score (ghostStep env pacman i s) = score s
  ∧ popups (ghostStep env pacman i s) = popups s
  ∧ trace (ghostStep env pacman i s) = trace s
  ∧ (GhostEntity.isDying ghost = true →
     ghosts (ghostStep env pacman i s) !! i = Some (dyingStep ghost)
     ∧ GhostEntity.deathTimer (dyingStep ghost) = GhostEntity.deathTimer ghost - 1).
Proof.
  intros Hi Hflag.
  destruct (GhostEntity.isDying ghost) eqn:Hd.
  - rewrite (ghostStep_dying _ _ _ _ Hi Hd). cbn. repeat split; try done.
    + apply list_lookup_insert_eq. by eapply lookup_lt_Some.
    + unfold dyingStep. cbn. by destruct (_ <=? 0).
  - destruct Hflag as [He|?]; [|done].
    rewrite (ghostStep_alive _ _ _ _ Hi Hd). cbv zeta.
    destruct (steerGhost_state ghost s) as [n Hn].
    destruct (steerGhost_flags ghost s) as (He' & _).
    destruct (moveGhost_flags (steerGhost env ghost s).1) as (He'' & _).
    destruct (respawnGhost_quiet i
      (hitGhost pacman i (moveGhost (steerGhost env ghost s).1)
         (setGhost i (moveGhost (steerGhost env ghost s).1)
            (steerGhost env ghost s).2))) as (-> & -> & -> & -> & ->).
    rewrite respawnGhost_pending.
    unfold hitGhost. rewrite He'', He', He, andb_false_r. cbn.
    rewrite Hn. cbn. done.
Qed.

End Ghosts.

Lemma C10_witness :
  lives (ghostStep demoEnv (pacman demoStart) 0
           (setGhost 0 eatenGhost demoStart))
  = 3.
Proof.
  apply (C10_eaten_or_dying_no_collision demoEnv (pacman demoStart) 0
           (setGhost 0 eatenGhost demoStart)
           eatenGhost).
  - reflexivity.
  - left. reflexivity.
Defined.

(** ** C1: life loss and power mode *)

Lemma tileIs_eq cell v : tileIs cell v = true → cell = Some v.
Proof.
  unfold tileIs. destruct cell as [c|]; [|done]. by intros ->%Z.eqb_eq.
Qed.

Section LifeLoss.

Variable env : Env.

(** The tile effect on a tombstone. *)
Lemma tileEffect_tombstone p s :
  tileIs (cellAt (maze s) (roundTile (Entity.x p)) (roundTile (Entity.y p))) 6 = true →
  tileEffect env p s =
    let gridX := roundTile (Entity.x p) in
    let gridY := roundTile (Entity.y p) in
    if powerMode s =? 0 then
      set_maze (setCell (maze s) gridX gridY 0) (setLives s)
    else
      let s1 := set_maze (setCell (maze s) gridX gridY 0) s in
      let s2 := if 0 <? wallsLeft s1 then set_wallsLeft (wallsLeft s1 - 1) s1 else s1 in
      addScore 100 (emit (PlaySound WALL_BREAK) s2).
Proof.
  intros H. unfold tileEffect. cbv zeta. rewrite H.
  apply tileIs_eq in H. rewrite H. reflexivity.
Qed.

(** The three places where a life-loss updater is queued, and when. *)
Lemma tileEffect_pending p s :
  pendingLives (tileEffect env p s)
  = if tileIs (cellAt (maze s) (roundTile (Entity.x p)) (roundTile (Entity.y p))) 6
       && (powerMode s =? 0)
    then S (pendingLives s) else pendingLives s.
Proof.
  unfold tileEffect. cbv zeta.
  destruct (cellAt (maze s) _ _) as [c|]; [|done]. unfold tileIs.
  destruct (Z.eqb_spec c 2) as [->|H2]; [done|].
  destruct (Z.eqb_spec c 3) as [->|H3].
  { cbn. unfold respawnCandy. by destruct (respawnLoop _ _ _ _ _ _) as [[[m k] n]|]. }
  destruct (Z.eqb_spec c 6) as [->|H6].
  { cbn. destruct (powerMode s =? 0); [done|]. cbn. by destruct (0 <? wallsLeft s). }
  by destruct (c =? 7).
Qed.

Lemma hitGhost_pending p i g s :
  pendingLives (hitGhost p i g s)
  = if ghostTouches p g && negb (GhostEntity.isEaten g)
       && negb (GhostEntity.isDying g) && negb (GhostEntity.isScared g)
    then S (pendingLives s) else pendingLives s.
Proof.
  unfold hitGhost.
  destruct (ghostTouches p g && negb (GhostEntity.isEaten g)
            && negb (GhostEntity.isDying g)); cbn; [|done].
  by destruct (GhostEntity.isScared g).
Qed.

Lemma witchStep_pending p i w s :
  witches s !! i = Some w →
  pendingLives (witchStep env p i s)
  = if witchTouches p (moveWitch env w) && WitchEntity.active w
    then S (pendingLives s) else pendingLives s.
Proof.
  intros Hi. unfold witchStep. rewrite Hi. cbn.
  by destruct (witchTouches p (moveWitch env w) && WitchEntity.active w).
Qed.

End LifeLoss.

(** C1, failing inputs.  Power mode does not protect the player from a
    ghost that is not scared, nor from a falling witch: the tombstone
    test reads the power-mode counter ([powerModeRef.current === 0]),
    the ghost test and the witch test do not, although the source calls
    power mode invincible (the comment of the tombstone branch, the help
    text of the candy).  [ghostHit] is a reachable state of a run
    without witches: the game is in play, the power-mode counter is
    212, the player has 3 lives, and two ghosts that [resetPositions]
    has made normal are about to touch it.  The frame that follows
    queues two life-loss updaters and ends with 1 life, the counter at
    211.  [demoWitch] is a reachable state of the first concrete run:
    the counter is 356, the player has 3 lives and stands on the bottom
    row, and a witch is about to reach it.  The frame that follows
    queues one life-loss updater and ends with 2 lives, the counter at
    355.  [demoGhost] is a later state of that run: the counter is 10,
    no witch is around, the player has 2 lives, and two normal ghosts
    touch the player in the same frame; each queues an updater, and the
    frame ends with no life and the game over, the counter at 9. *)
Theorem C1_power_mode_no_protection :
  (reachable ghostHit ∧ gameState ghostHit = PLAYING
   ∧ powerMode ghostHit = 212 ∧ witches ghostHit = []
   ∧ lives ghostHit = 3
   ∧ pendingLives (tick ghostEnv ghostHit) = 2%nat
   ∧ powerMode (update ghostEnv ghostHit) = 211
   ∧ lives (update ghostEnv ghostHit) = 1)
  ∧ (reachable demoWitch ∧ gameState demoWitch = PLAYING
     ∧ powerMode demoWitch = 356 ∧ length (witches demoWitch) = 1%nat
     ∧ lives demoWitch = 3
     ∧ pendingLives (tick demoEnv demoWitch) = 1%nat
     ∧ powerMode (update demoEnv demoWitch) = 355
     ∧ lives (update demoEnv demoWitch) = 2)
  ∧ (reachable demoGhost ∧ gameState demoGhost = PLAYING
     ∧ powerMode demoGhost = 10 ∧ witches demoGhost = []
     ∧ lives demoGhost = 2
     ∧ pendingLives (tick demoEnv demoGhost) = 2%nat
     ∧ powerMode (update demoEnv demoGhost) = 9
     ∧ lives (update demoEnv demoGhost) = 0
     ∧ gameState (update demoEnv demoGhost) = GAMEOVER).
Proof.
  split; [|split].
  - split; [exact reachable_ghostHit|]. vm_compute. tauto.
  - split; [exact reachable_demoWitch|]. vm_compute. tauto.
  - split; [exact reachable_demoGhost|]. vm_compute. tauto.
Qed.

(** ** C9: the last life *)

Lemma calm_refl s : calm s s.
Proof. unfold calm. auto. Qed.

Lemma calm_trans s1 s2 s3 : calm s1 s2 → calm s2 s3 → calm s1 s3.
Proof.
  intros (Hl1 & Hp1 & Hg1 & Hr1) (Hl2 & Hp2 & Hg2 & Hr2).
  split; [congruence|]. split; [lia|]. split; [|congruence].
  destruct Hg2 as [Hg2|Hg2]; [|by right]. rewrite Hg2. exact Hg1.
Qed.

Lemma calm_quiet s s' :
  lives s' = lives s → pendingLives s' = pendingLives s →
  gameState s' = gameState s → resets s' = resets s → calm s s'.
Proof.
  intros Hl Hp Hg Ht. unfold calm. rewrite Hl, Hp, Hg, Ht. auto.
Qed.

(** *** What one updater does *)

Lemma mod2_even i : (i mod 2 =? 0)%nat = Nat.even i.
Proof.
  destruct (Nat.even i) eqn:He.
  - apply Nat.even_spec in He as [k ->]. apply Nat.eqb_eq.
    by rewrite Nat.mul_comm, Nat.Div0.mod_mul.
  - apply Nat.eqb_neq. intros Hm. apply Nat.Div0.mod_divides in Hm as [k ->].
    by rewrite Nat.even_mul in He.
Qed.

Lemma resetPositions_placed s : placed (resetPositions s).
Proof.
  split; [reflexivity|]. intros i g.
  change (ghosts (resetPositions s)) with (imap resetGhost (ghosts s)).
  rewrite list_lookup_imap.
  destruct (ghosts s !! i) as [g0|]; [|done]. intros [= <-].
  unfold resetGhost, ghostState, houseX. rewrite mod2_even.
  by destruct (Nat.even i).
Qed.

Lemma loseLife_pending s : pendingLives (loseLife s) = pendingLives s.
Proof. unfold loseLife. by destruct (_ <=? 1). Qed.

(** With at most one life the updater ends the run and moves nothing;
    with more it takes one life, resets the positions and leaves the
    game state alone. *)
Lemma loseLife_event s :
  (lives s ≤ 1 →
   over (loseLife s) ∧ resets (loseLife s) = resets s
   ∧ pacman (loseLife s) = pacman s ∧ ghosts (loseLife s) = ghosts s)
  ∧ (1 < lives s →
     lives (loseLife s) = lives s - 1 ∧ gameState (loseLife s) = gameState s
     ∧ resets (loseLife s) = S (resets s) ∧ placed (loseLife s)).
Proof.
  split; intros H.
  - rewrite loseLife_last by done. done.
  - rewrite loseLife_more by done. split; [done|]. split; [done|]. split; [done|].
    apply (resetPositions_placed (emit (PlaySound DEATH) s)).
Qed.

(** *** What the queue of a frame does *)

Lemma iter_loseLife_pending n s :
  pendingLives (Nat.iter n loseLife s) = pendingLives s.
Proof. induction n as [|n IH]; [done|]. simpl. by rewrite loseLife_pending. Qed.

Lemma runLives_pending s : pendingLives (runLives s) = 0%nat.
Proof. unfold runLives. by rewrite iter_loseLife_pending. Qed.

Lemma runLives_none s : pendingLives s = 0%nat → runLives s = s.
Proof. intros H. unfold runLives. rewrite H. destruct s. cbn in *. by subst. Qed.

(** With at most one life: the run is over, nothing was reset. *)
Lemma iter_loseLife_last n s :
  lives s ≤ 1 →
  over (Nat.iter (S n) loseLife s)
  ∧ resets (Nat.iter (S n) loseLife s) = resets s
  ∧ pacman (Nat.iter (S n) loseLife s) = pacman s
  ∧ ghosts (Nat.iter (S n) loseLife s) = ghosts s.
Proof.
  intros Hl. induction n as [|n IH].
  - by apply loseLife_event.
  - destruct IH as ([Hl' Hg'] & Hr & Hp & Hgh).
    change (Nat.iter (S (S n)) loseLife s) with (loseLife (Nat.iter (S n) loseLife s)).
    destruct (loseLife_event (Nat.iter (S n) loseLife s)) as [H _].
    destruct H as (Ho & Hr2 & Hp2 & Hgh2); [lia|].
    split; [done|]. split; [congruence|]. split; congruence.
Qed.

(** With more lives: one life and one reset per updater as long as more
    than one life is left, then the end of the run. *)
Lemma iter_loseLife_more n s :
  1 < lives s →
  let r := Nat.iter (S n) loseLife s in
  lives r = Z.max 0 (lives s - Z.of_nat (S n))
  ∧ gameState r = (if lives s <=? Z.of_nat (S n) then GAMEOVER else gameState s)
  ∧ resets r = (resets s + Z.to_nat (Z.min (Z.of_nat (S n)) (lives s - 1)))%nat
  ∧ placed r.
Proof.
  intros Hl. cbv zeta. induction n as [|n IH].
  - destruct (loseLife_event s) as [_ H]. destruct (H Hl) as (Hl1 & Hg1 & Hr1 & Hp1).
    change (Nat.iter 1 loseLife s) with (loseLife s). rewrite Hl1, Hg1, Hr1.
    split; [lia|]. split; [by destruct (Z.leb_spec (lives s) (Z.of_nat 1)); [lia|]|].
    split; [|done]. rewrite Z.min_l by lia. cbn. lia.
  - destruct IH as (Hl' & Hg' & Hr' & Hp').
    change (Nat.iter (S (S n)) loseLife s) with (loseLife (Nat.iter (S n) loseLife s)).
    set (r := Nat.iter (S n) loseLife s) in *.
    destruct (loseLife_event r) as [Hlast Hmore].
    destruct (Z.le_gt_cases (lives r) 1) as [H1|H1].
    + destruct (Hlast H1) as ([Hl2 Hg2] & Hr2 & Hp2 & Hgh2).
      rewrite Hl2, Hg2, Hr2, Hr'.
      split; [lia|].
      split; [by destruct (Z.leb_spec (lives s) (Z.of_nat (S (S n)))); [|lia]|].
      split; [f_equal; f_equal; lia|].
      destruct Hp' as [Hpp Hpg]. split; [congruence|]. by rewrite Hgh2.
    + destruct (Hmore H1) as (Hl2 & Hg2 & Hr2 & Hp2).
      rewrite Hl2, Hg2, Hr2, Hr', Hl', Hg'.
      split; [lia|].
      split.
      { destruct (Z.leb_spec (lives s) (Z.of_nat (S n))); [lia|].
        by destruct (Z.leb_spec (lives s) (Z.of_nat (S (S n)))); [lia|]. }
      split; [|done]. lia.
Qed.

(** *** What the body of a frame does *)

Section LastLife.

Variable env : Env.

Lemma calm_hitGhost p i g s : calm s (hitGhost p i g s).
Proof.
  unfold hitGhost. destruct (_ && _); [|apply calm_refl].
  destruct (GhostEntity.isScared g); [by apply calm_quiet|].
  unfold calm, setLives. cbn. repeat split; auto.
Qed.

Lemma calm_ghostStep p i s : calm s (ghostStep env p i s).
Proof.
  unfold ghostStep. destruct (ghosts s !! i) as [g|]; [|apply calm_refl].
  destruct (GhostEntity.isDying g); [by apply calm_quiet|].
  cbv zeta. destruct (steerGhost_state env g s) as [n Hn]. rewrite Hn.
  set (gm := moveGhost (steerGhost env g s).1).
  apply (calm_trans _ (hitGhost p i gm (setGhost i gm (drawn n s)))).
  - apply (calm_trans _ (setGhost i gm (drawn n s))); [by apply calm_quiet|].
    apply calm_hitGhost.
  - set (t := hitGhost p i gm (setGhost i gm (drawn n s))).
    destruct (respawnGhost_quiet env i t) as (Hl & Hg & _ & _ & Ht).
    pose proof (respawnGhost_pending env i t) as Hp.
    apply calm_quiet; [done|done|done|]. unfold resets. by rewrite Ht.
Qed.

Lemma calm_witchStep p i s : calm s (witchStep env p i s).
Proof.
  unfold witchStep. destruct (witches s !! i) as [w|]; [|apply calm_refl].
  case_match; [|by apply calm_quiet].
  unfold calm, setLives. cbn. repeat split; auto.
Qed.

Lemma calm_afterTile p s : calm s (afterTile env p s).
Proof.
  apply (afterTile_phases env calm calm_refl calm_trans).
  - intros s0. unfold updatePowerMode. repeat case_match; by apply calm_quiet.
  - intros s0. by apply calm_quiet.
  - intros s0. by apply calm_quiet.
  - apply calm_ghostStep.
  - intros s0. unfold checkWin. destruct (winReached _ _); [|apply calm_refl].
    unfold calm. cbn. repeat split; auto.
  - intros q v s0. unfold bonusSpawn. repeat case_match; by apply calm_quiet.
  - intros s0. unfold witchSpawn. repeat case_match; by apply calm_quiet.
  - apply calm_witchStep.
  - intros s0. by apply calm_quiet.
Qed.

Lemma calm_tileEffect p s : calm s (tileEffect env p s).
Proof.
  unfold tileEffect. cbv zeta.
  destruct (tileIs _ 2); [by apply calm_quiet|].
  destruct (tileIs _ 3).
  { match goal with |- calm s (respawnCandy env ?t) =>
      apply (calm_trans s t); [by apply calm_quiet|] end.
    unfold respawnCandy. destruct (respawnLoop _ _ _ _ _ _) as [[[m k] n]|];
      by apply calm_quiet. }
  destruct (tileIs _ 6).
  { destruct (powerMode s =? 0).
    - unfold calm, setLives. cbn. repeat split; auto.
    - cbn. destruct (0 <? wallsLeft s); by apply calm_quiet. }
  destruct (tileIs _ 7); [by apply calm_quiet|apply calm_refl].
Qed.

Lemma calm_player s :
  let isAt := isAligned (Entity.x (pacman s)) (Entity.y (pacman s)) in
  calm s (wrapPacman (movePacman env isAt (acceptNextDir isAt s))).
Proof.
  cbv zeta. set (isAt := isAligned _ _).
  apply (calm_trans _ (movePacman env isAt (acceptNextDir isAt s))); [|by apply calm_quiet].
  apply (calm_trans _ (acceptNextDir isAt s)).
  - unfold acceptNextDir. repeat case_match; by apply calm_quiet.
  - unfold movePacman. repeat case_match; by apply calm_quiet.
Qed.

(** The body of a frame takes no life and does not end the run; it
    queues updaters, and it resets the positions only when the player
    has left the field. *)
Lemma tick_calm s :
  lives (tick env s) = lives s
  ∧ (pendingLives s ≤ pendingLives (tick env s))%nat
  ∧ (gameState (tick env s) = gameState s ∨ gameState (tick env s) = WON)
  ∧ resets (tick env s)
    = (if outOfBounds (movedPacman env s) then S (resets s) else resets s).
Proof.
  rewrite (tick_tail env s). cbv zeta. unfold movedPacman.
  destruct (calm_player s) as (Hl1 & Hp1 & Hg1 & Hr1). cbv zeta in Hl1, Hp1, Hg1, Hr1.
  set (s1 := wrapPacman _) in *.
  assert (H2 : calm (recoverLost (pacman s1) s1) (tickTail env (pacman s1)
                                                    (recoverLost (pacman s1) s1))).
  { eapply calm_trans; [apply calm_tileEffect|apply calm_afterTile]. }
  destruct H2 as (Hl2 & Hp2 & Hg2 & Hr2). rewrite Hl2, Hr2.
  unfold recoverLost in *. destruct (outOfBounds (pacman s1)).
  - change (lives (resetPositions s1)) with (lives s1).
    change (pendingLives (resetPositions s1)) with (pendingLives s1) in Hp2.
    change (gameState (resetPositions s1)) with (gameState s1) in Hg2.
    change (resets (resetPositions s1)) with (S (resets s1)).
    split; [done|]. split; [lia|]. split; [|by rewrite Hr1].
    destruct Hg2 as [->| ->]; [|by right]. exact Hg1.
  - split; [done|]. split; [lia|]. split; [|done].
    destruct Hg2 as [->| ->]; [|by right]. exact Hg1.
Qed.

(** The player's own phases when no wall can be broken: only the
    player object changes. *)
Lemma player_phases_unpowered s :
  powerMode s ≤ 0 ∨ wallsLeft s ≤ 0 →
  let isAt := isAligned (Entity.x (pacman s)) (Entity.y (pacman s)) in
  let s1 := wrapPacman (movePacman env isAt (acceptNextDir isAt s)) in
  s1 = set_pacman (pacman s1) s.
Proof.
  intros H. cbv zeta. set (isAt := isAligned _ _).
  assert (Ha : acceptNextDir isAt s = set_pacman (pacman (acceptNextDir isAt s)) s).
  { unfold acceptNextDir. repeat case_match; cbn; try done; by destruct s. }
  assert (Hm : ∀ t, powerMode t ≤ 0 ∨ wallsLeft t ≤ 0 →
                    movePacman env isAt t = set_pacman (pacman (movePacman env isAt t)) t).
  { intros t Ht. unfold movePacman.
    destruct (canMove _ _ _ _); cbn.
    - replace ((0 <? powerMode t) && (0 <? wallsLeft t)) with false; [done|].
      symmetry. apply andb_false_iff. rewrite !Z.ltb_ge. done.
    - destruct (negb isAt); cbn; [done|by destruct t]. }
  destruct (acceptNextDir_frame isAt s) as (_ & Hw & Hp).
  rewrite (Hm (acceptNextDir isAt s)) at 1 by (by rewrite Hw, Hp).
  rewrite Ha at 2. unfold wrapPacman. cbn. done.
Qed.

Lemma roundTile_bounds a n :
  0 < n → 0 ≤ roundTile a < n → - TILE_SIZE * 2 ≤ a ∧ a ≤ TILE_SIZE * n + TILE_SIZE * 2.
Proof.
  unfold roundTile, TILE_SIZE. intros Hn [H0 H1].
  pose proof (Z.div_mod (2 * a + 36) (2 * 36) ltac:(lia)) as Hdm.
  pose proof (Z.mod_pos_bound (2 * a + 36) (2 * 36) ltac:(lia)) as Hmod.
  lia.
Qed.

(** The frame in which the player walks onto a tombstone without
    power: an updater is queued, and the player is inside the field, so
    that nothing is reset. *)
Lemma tick_tombstone s :
  reachable s → powerMode s = 0 → tombstoneAhead env s →
  (pendingLives s < pendingLives (tick env s))%nat ∧ resets (tick env s) = resets s.
Proof.
  intros Hr Hpow Htomb.
  destruct (tick_calm s) as (_ & _ & _ & Hres).
  rewrite (tick_tail env s). rewrite (tick_tail env s) in Hres.
  unfold tombstoneAhead in Htomb. unfold movedPacman in Hres.
  cbv zeta in *. set (isAt := isAligned _ _) in *.
  pose proof (player_phases_unpowered s (or_introl (Z.eq_le_incl _ _ Hpow))) as Hs1.
  cbv zeta in Hs1. fold isAt in Hs1.
  set (s1 := wrapPacman (movePacman env isAt (acceptNextDir isAt s))) in *.
  clearbody s1. clear isAt.
  pose proof (f_equal maze Hs1) as Hmaze. pose proof (f_equal powerMode Hs1) as Hp1.
  pose proof (f_equal pendingLives Hs1) as Hq1.
  cbn in Hmaze, Hp1, Hq1. clear Hs1.
  set (p := pacman s1) in *.
  assert (Hin : outOfBounds p = false).
  { destruct (reachable_charges_shape s Hr) as [_ Hb].
    destruct (Hb (roundTile (Entity.x p)) (roundTile (Entity.y p))) as [Hx Hy].
    { apply tileIs_eq in Htomb. by eexists. }
    apply roundTile_bounds in Hx; [|done]. apply roundTile_bounds in Hy; [|done].
    unfold outOfBounds, CANVAS_WIDTH, CANVAS_HEIGHT.
    repeat (apply orb_false_intro); apply Z.ltb_ge; lia. }
  rewrite Hin in Hres. split; [|exact Hres].
  unfold recoverLost. rewrite Hin. unfold tickTail.
  destruct (calm_afterTile p (tileEffect env p s1)) as (_ & Hle & _).
  pose proof (tileEffect_pending env p s1) as Hq.
  rewrite Hmaze, Htomb, Hp1, Hpow in Hq. cbn in Hq. lia.
Qed.

End LastLife.

Lemma reachable_pending s : reachable s → pendingLives s = 0%nat.
Proof.
  induction 1 as [|env fuel s s' _ IH Hs|env fuel s s' _ IH Hs
                  |env s _ IH|d s _ IH|st s _ IH Hst]; try done.
  - unfold startGame in Hs. destruct (initGame env fuel false _) as [s1|] eqn:Hi; [|done].
    injection Hs as <-. cbn. unfold initGame in Hi.
    destruct (generateMaze env fuel); [|done]. destruct (findStart _) as [[px py] m0].
    destruct (placeCandies _ _ _ _ _) as [[m1 k1]|]; [|done].
    destruct (placeTombstones _ _ _ _ _) as [[m2 k2]|]; [|done].
    injection Hi as <-. exact IH.
  - unfold nextStage in Hs. destruct (initGame env fuel true _) as [s1|] eqn:Hi; [|done].
    injection Hs as <-. cbn. unfold initGame in Hi.
    destruct (generateMaze env fuel); [|done]. destruct (findStart _) as [[px py] m0].
    destruct (placeCandies _ _ _ _ _) as [[m1 k1]|]; [|done].
    destruct (placeTombstones _ _ _ _ _) as [[m2 k2]|]; [|done].
    injection Hi as <-. exact IH.
  - unfold update. destruct (negb _); [done|]. apply runLives_pending.
Qed.

(** ** C9 *)

(** C9.  A life loss is an updater queued by [setLives]; React runs the
    queue of a frame after [update] has returned, one updater after the
    other.  An updater that finds at most one life sets [lives] to 0
    and the game state to ['GAMEOVER'] and calls no [resetPositions]:
    the player and the ghosts stay where they are.  An updater that
    finds more lives takes one, leaves the game state alone and resets
    the positions: the player stands still on the start cell (252, 684)
    and every ghost is normal and heads up from its slot (216 or 288,
    360).  Hence, for a frame of a reachable game in play in which [n]
    life losses occur: the body of [update] itself takes no life, does
    not end the run and resets the positions only if the player has
    left the field; with [n = 0] nothing more happens; with [n > 0] and
    at most one life, the frame ends with no life and ['GAMEOVER'], also
    if the win threshold was reached in it, and the updaters reset
    nothing; with [n > 0] and more lives, [lives] goes down by [n], not
    below 0, the positions are reset, and the game is over exactly if
    no life is left.  In the scenario of the specification, a player
    that walks onto a tombstone without power, a life loss occurs and
    no position reset happens in the frame. *)
Theorem C9_last_life (env : Env) (s : State) :
  reachable s → gameState s = PLAYING →
  let t := tick env s in
  let n := pendingLives t in
  (∀ u, lives u ≤ 1 →
        over (loseLife u) ∧ resets (loseLife u) = resets u
        ∧ pacman (loseLife u) = pacman u ∧ ghosts (loseLife u) = ghosts u)
  ∧ (∀ u, 1 < lives u →
          lives (loseLife u) = lives u - 1 ∧ gameState (loseLife u) = gameState u
          ∧ resets (loseLife u) = S (resets u) ∧ placed (loseLife u))
  ∧ lives t = lives s
  ∧ (gameState t = PLAYING ∨ gameState t = WON)
  ∧ resets t = (if outOfBounds (movedPacman env s) then S (resets s) else resets s)
  ∧ (n = 0%nat → update env s = t)
  ∧ ((0 < n)%nat → lives s ≤ 1 →
     over (update env s) ∧ resets (update env s) = resets t
     ∧ pacman (update env s) = pacman t ∧ ghosts (update env s) = ghosts t)
  ∧ ((0 < n)%nat → 1 < lives s →
     lives (update env s) = Z.max 0 (lives s - Z.of_nat n)
     ∧ gameState (update env s)
       = (if lives s <=? Z.of_nat n then GAMEOVER else gameState t)
     ∧ resets (update env s)
       = (resets t + Z.to_nat (Z.min (Z.of_nat n) (lives s - 1)))%nat
     ∧ placed (update env s))
  ∧ (powerMode s = 0 → tombstoneAhead env s → (0 < n)%nat ∧ resets t = resets s).
Proof.
  intros Hr Hplay. cbv zeta.
  destruct (tick_calm env s) as (Hl & Hq & Hg & Hres).
  pose proof (reachable_pending s Hr) as H0.
  rewrite (update_playing env s Hplay).
  set (t := tick env s) in *.
  split; [intros u; apply loseLife_event|].
  split; [intros u; apply loseLife_event|].
  split; [exact Hl|]. split; [by rewrite Hplay in Hg|]. split; [exact Hres|].
  split; [apply runLives_none|].
  assert (Hrun : ∀ k, pendingLives t = S k →
            runLives t = Nat.iter (S k) loseLife (set_pendingLives 0 t)).
  { intros k Hk. unfold runLives. by rewrite Hk. }
  split; [|split].
  - intros Hn Hlast. destruct (pendingLives t) as [|k] eqn:Hk; [lia|].
    rewrite (Hrun k eq_refl).
    apply (iter_loseLife_last k (set_pendingLives 0 t)).
    change (lives (set_pendingLives 0 t)) with (lives t). lia.
  - intros Hn Hmore. destruct (pendingLives t) as [|k] eqn:Hk; [lia|].
    rewrite (Hrun k eq_refl).
    assert (Hl0 : 1 < lives (set_pendingLives 0 t)).
    { change (lives (set_pendingLives 0 t)) with (lives t). lia. }
    pose proof (iter_loseLife_more k (set_pendingLives 0 t) Hl0) as H.
    cbv zeta in H.
    change (lives (set_pendingLives 0 t)) with (lives t) in H.
    change (gameState (set_pendingLives 0 t)) with (gameState t) in H.
    change (resets (set_pendingLives 0 t)) with (resets t) in H.
    by rewrite Hl in H.
  - intros Hp Ht. destruct (tick_tombstone env s Hr Hp Ht) as [Hlt Hre].
    fold t in Hlt, Hre. split; [lia|exact Hre].
Qed.

(** Three frames of the concrete runs.  The last tombstone of the second
    run: one life, no power; the frame ends the run and resets nothing.
    The witch of the first run: three lives, one life loss; the frame
    takes a life and resets the positions.  The two ghosts of the first
    run: two lives, two life losses; the first resets the positions, the
    second ends the run. *)
Lemma C9_witness :
  (over (update tombEnv lastLife)
   ∧ resets (update tombEnv lastLife) = resets lastLife
   ∧ pacman (update tombEnv lastLife) = pacman (tick tombEnv lastLife)
   ∧ ghosts (update tombEnv lastLife) = ghosts (tick tombEnv lastLife))
  ∧ (lives demoWitch = 3 ∧ pendingLives (tick demoEnv demoWitch) = 1%nat
     ∧ lives (update demoEnv demoWitch) = 2
     ∧ gameState (update demoEnv demoWitch) = PLAYING
     ∧ resets (update demoEnv demoWitch) = S (resets demoWitch)
     ∧ placed (update demoEnv demoWitch))
  ∧ (lives demoGhost = 2 ∧ pendingLives (tick demoEnv demoGhost) = 2%nat
     ∧ lives (update demoEnv demoGhost) = 0
     ∧ gameState (update demoEnv demoGhost) = GAMEOVER
     ∧ resets (update demoEnv demoGhost) = S (resets demoGhost)
     ∧ placed (update demoEnv demoGhost)).
Proof.
  split; [|split].
  - assert (Hplay : gameState lastLife = PLAYING) by (vm_compute; reflexivity).
    assert (Hpow : powerMode lastLife = 0) by (vm_compute; reflexivity).
    assert (Hl : lives lastLife ≤ 1) by (vm_compute; discriminate).
    assert (Ht : tombstoneAhead tombEnv lastLife) by (vm_compute; reflexivity).
    pose proof (C9_last_life tombEnv lastLife reachable_lastLife Hplay) as H.
    cbv zeta in H. destruct H as (_ & _ & _ & _ & _ & _ & Hlast & _ & Htomb).
    destruct (Htomb Hpow Ht) as [Hn Hre].
    destruct (Hlast Hn Hl) as (Ho & Hr & Hp & Hg).
    split; [exact Ho|]. split; [exact (eq_trans Hr Hre)|]. exact (conj Hp Hg).
  - assert (Hplay : gameState demoWitch = PLAYING) by (vm_compute; reflexivity).
    assert (Hl : lives demoWitch = 3) by (vm_compute; reflexivity).
    assert (Hn : pendingLives (tick demoEnv demoWitch) = 1%nat) by (vm_compute; reflexivity).
    assert (Hg : gameState (tick demoEnv demoWitch) = PLAYING) by (vm_compute; reflexivity).
    assert (Hout : outOfBounds (movedPacman demoEnv demoWitch) = false)
      by (vm_compute; reflexivity).
    pose proof (C9_last_life demoEnv demoWitch reachable_demoWitch Hplay) as H.
    cbv zeta in H. destruct H as (_ & _ & _ & _ & Hre & _ & _ & Hmore & _).
    rewrite Hn, Hl, Hg in Hmore. rewrite Hout in Hre. rewrite Hre in Hmore.
    destruct (Hmore ltac:(lia) ltac:(lia)) as (H1 & H2 & H3 & H4).
    split; [exact Hl|]. split; [exact Hn|]. split; [exact H1|]. split; [exact H2|].
    split; [|exact H4]. rewrite H3. apply Nat.add_1_r.
  - assert (Hplay : gameState demoGhost = PLAYING) by (vm_compute; reflexivity).
    assert (Hl : lives demoGhost = 2) by (vm_compute; reflexivity).
    assert (Hn : pendingLives (tick demoEnv demoGhost) = 2%nat) by (vm_compute; reflexivity).
    assert (Hout : outOfBounds (movedPacman demoEnv demoGhost) = false)
      by (vm_compute; reflexivity).
    pose proof (C9_last_life demoEnv demoGhost reachable_demoGhost Hplay) as H.
    cbv zeta in H. destruct H as (_ & _ & _ & _ & Hre & _ & _ & Hmore & _).
    rewrite Hn, Hl in Hmore. rewrite Hout in Hre. rewrite Hre in Hmore.
    destruct (Hmore ltac:(lia) ltac:(lia)) as (H1 & H2 & H3 & H4).
    split; [exact Hl|]. split; [exact Hn|]. split; [exact H1|]. split; [exact H2|].
    split; [|exact H4]. rewrite H3. apply Nat.add_1_r.
Defined.

(** ** C3: the wall-break charges *)

(** C3, counterexample.  In the concrete run the player has used the
    five charges on the walls (6, 20), (5, 20), (4, 20), (3, 20) and
    (2, 19); power mode is still active.  In the reachable state
    [demoNoCharge] the charge counter is 0 and the next tick destroys the
    tombstone on (1, 19): the tile becomes empty, 100 points are awarded
    and the wall-break sound is played. *)
Lemma C3_counterexample :
  reachable demoNoCharge
  ∧ wallsLeft demoNoCharge = 0 ∧ 0 < powerMode demoNoCharge
  ∧ cellAt (maze demoNoCharge) 1 19 = Some 6
  ∧ cellAt (maze (update demoEnv demoNoCharge)) 1 19 = Some 0
  ∧ score (update demoEnv demoNoCharge) = score demoNoCharge + 100
  ∧ head (trace (update demoEnv demoNoCharge)) = Some (PlaySound WALL_BREAK)
  ∧ wallsLeft (update demoEnv demoNoCharge) = 0.
Proof. split; [exact reachable_demoNoCharge|]. vm_compute. tauto. Qed.

(** C3, amended.  In every reachable state the charge counter is not
    negative.  A tick removes a wall only if, before the tick, power
    mode is active and the counter is positive.  A tombstone under the
    player in power mode is destroyed whatever the counter is: the tile
    becomes empty, 100 points are awarded, and the counter goes down by
    one if it is positive and stays 0 otherwise. *)
Theorem C3_charges (env : Env) (s : State) :
  reachable s →
  0 ≤ wallsLeft s
  ∧ (∀ x y, cellAt (maze s) x y = Some 1 →
            cellAt (maze (update env s)) x y ≠ Some 1 →
            0 < powerMode s ∧ 0 < wallsLeft s)
  ∧ (∀ p, tileIs (cellAt (maze s) (roundTile (Entity.x p))
                         (roundTile (Entity.y p))) 6 = true →
          powerMode s ≠ 0 →
          cellAt (maze (tileEffect env p s)) (roundTile (Entity.x p))
                 (roundTile (Entity.y p)) = Some 0
          ∧ wallsLeft (tileEffect env p s) = Z.max 0 (wallsLeft s - 1)
          ∧ score (tileEffect env p s) = score s + 100).
Proof.
  intros Hr. destruct (reachable_charges_shape s Hr) as [Hw _].
  split; [exact Hw|]. split.
  - intros x y H1 Hgone.
    destruct (Z.lt_ge_cases 0 (powerMode s)) as [Hp|Hp];
      [destruct (Z.lt_ge_cases 0 (wallsLeft s)) as [Hc|Hc]; [done|]|].
    + exfalso. apply Hgone. by apply (update_wallsKept env s (or_intror Hc)).
    + exfalso. apply Hgone. by apply (update_wallsKept env s (or_introl Hp)).
  - intros p Ht Hp. rewrite (tileEffect_tombstone env p s Ht). cbv zeta.
    replace (powerMode s =? 0) with false by (symmetry; by apply Z.eqb_neq).
    cbn. split; [|split].
    + pose proof (tileIs_eq _ _ Ht) as Hc.
      destruct (0 <? wallsLeft s); cbn; apply cellAt_setCell_eq; by exists 6.
    + destruct (Z.ltb_spec 0 (wallsLeft s)); cbn; lia.
    + by destruct (0 <? wallsLeft s).
Qed.

Lemma C3_witness :
  (0 ≤ wallsLeft demoNoCharge
   ∧ movedPacman demoEnv demoNoCharge = Entity.mk 52 684 LEFT NONE 4
   ∧ cellAt (maze demoNoCharge) 1 19 = Some 6
   ∧ powerMode demoNoCharge = 537 ∧ wallsLeft demoNoCharge = 0
   ∧ cellAt (maze (tileEffect demoEnv (Entity.mk 52 684 LEFT NONE 4) demoNoCharge)) 1 19
     = Some 0
   ∧ wallsLeft (tileEffect demoEnv (Entity.mk 52 684 LEFT NONE 4) demoNoCharge) = 0
   ∧ score (tileEffect demoEnv (Entity.mk 52 684 LEFT NONE 4) demoNoCharge)
     = score demoNoCharge + 100)
  ∧ (cellAt (maze (ticks 4 (steer DOWN demoPowered))) 6 20 = Some 1
     ∧ cellAt (maze (update demoEnv (ticks 4 (steer DOWN demoPowered)))) 6 20 = Some 0
     ∧ 0 < powerMode (ticks 4 (steer DOWN demoPowered))
     ∧ 0 < wallsLeft (ticks 4 (steer DOWN demoPowered))).
Proof.
  assert (Hm : movedPacman demoEnv demoNoCharge = Entity.mk 52 684 LEFT NONE 4)
    by (vm_compute; reflexivity).
  assert (Hc : cellAt (maze demoNoCharge) 1 19 = Some 6) by (vm_compute; reflexivity).
  assert (Hp : powerMode demoNoCharge = 537) by (vm_compute; reflexivity).
  assert (Hw : wallsLeft demoNoCharge = 0) by (vm_compute; reflexivity).
  assert (H1 : cellAt (maze (ticks 4 (steer DOWN demoPowered))) 6 20 = Some 1)
    by (vm_compute; reflexivity).
  assert (H0 : cellAt (maze (update demoEnv (ticks 4 (steer DOWN demoPowered)))) 6 20
               = Some 0) by (vm_compute; reflexivity).
  split.
  - pose proof (C3_charges demoEnv demoNoCharge reachable_demoNoCharge) as (Hge & _ & H3).
    specialize (H3 (Entity.mk 52 684 LEFT NONE 4)).
    change (roundTile (Entity.x (Entity.mk 52 684 LEFT NONE 4))) with 1 in H3.
    change (roundTile (Entity.y (Entity.mk 52 684 LEFT NONE 4))) with 19 in H3.
    rewrite Hc, Hp, Hw in H3.
    destruct (H3 eq_refl ltac:(lia)) as (Ha & Hb & Hs).
    split; [exact Hge|]. split; [exact Hm|]. split; [exact Hc|]. split; [exact Hp|].
    split; [exact Hw|]. split; [exact Ha|]. split; [exact Hb|exact Hs].
  - assert (Hr : reachable (ticks 4 (steer DOWN demoPowered))).
    { apply (reachable_ticks 4). apply reach_steer. exact reachable_demoPowered. }
    pose proof (C3_charges demoEnv _ Hr) as (_ & H2 & _).
    split; [exact H1|]. split; [exact H0|].
    apply (H2 6 20 H1). rewrite H0. discriminate.
Defined.

(** ** C5: the border of the maze *)

(** C5, counterexample.  In the concrete run the player eats the candy
    on (6, 19) and walks down into the bottom border: in the reachable
    state [demoBorder] the border cell (6, 20) is empty. *)
Lemma C5_counterexample :
  reachable demoBorder ∧ onBorder 6 20 ∧ cellAt (maze demoBorder) 6 20 = Some 0.
Proof.
  split; [exact reachable_demoBorder|]. split; [|by vm_compute].
  unfold onBorder, GRID_WIDTH, GRID_HEIGHT. lia.
Qed.

(** C5, amended.  Every border cell is a wall in the maze
    [generateMaze] returns, and [generateMaze] returns for every random
    order once the recursion is allowed 315 levels; every border cell is
    still a wall after [initGame] has placed the candies and the
    tombstones.  A tick in which power mode is inactive or no charge is
    left keeps every wall (every cell that holds a wall before the tick
    holds one after it), so it keeps the border.  The wall break itself
    is not restricted to interior cells. *)
Theorem C5_border (env : Env) :
  (∀ fuel m, generateMaze env fuel = Some m → borderWalled m)
  ∧ (∀ fuel, (315 ≤ fuel)%nat → is_Some (generateMaze env fuel))
  ∧ (∀ fuel b s s', initGame env fuel b s = Some s' → borderWalled (maze s'))
  ∧ (∀ s, powerMode s ≤ 0 ∨ wallsLeft s ≤ 0 →
          borderWalled (maze s) → borderWalled (maze (update env s)))
  ∧ (∀ s, powerMode s ≤ 0 ∨ wallsLeft s ≤ 0 →
          wallsKept (maze s) (maze (update env s))).
Proof.
  split; [|split; [|split; [|split]]].
  - intros fuel m. apply generateMaze_border.
  - intros fuel. apply generateMaze_terminates.
  - intros fuel b s s' H. by apply initGame_inv in H as (H & _).
  - intros s H Hb. eapply wallsKept_border; [|exact Hb]. by apply update_wallsKept.
  - intros s H. by apply update_wallsKept.
Qed.

Lemma startGame_border env fuel s s' :
  startGame env fuel s = Some s' → borderWalled (maze s').
Proof.
  unfold startGame. destruct (initGame _ _ _ _) as [s1|] eqn:Hi; [|done].
  intros [= <-]. by apply initGame_inv in Hi as (H & _).
Qed.

Lemma C5_witness :
  borderWalled (maze demoStart) ∧ borderWalled (maze (update demoEnv demoStart))
  ∧ wallsKept (maze demoStart) (maze (update demoEnv demoStart)).
Proof.
  pose proof (C5_border demoEnv) as (_ & _ & _ & Htick & Hkept).
  pose proof (startGame_border _ _ _ _ demoStart_eq) as H.
  assert (Hp : powerMode demoStart = 0) by (vm_compute; reflexivity).
  split; [exact H|].
  split; [apply Htick; [|exact H]|apply Hkept]; left; rewrite Hp; lia.
Defined.

(** ** C4: power mode and scared ghosts *)

Lemma scareQuiet_refl s : scareQuiet s s.
Proof. by split. Qed.

Lemma scareQuiet_trans s1 s2 s3 : scareQuiet s1 s2 → scareQuiet s2 s3 → scareQuiet s1 s3.
Proof. intros [H1 H1'] [H2 H2']. split; [congruence|auto]. Qed.

Lemma scareQuiet_same s s' :
  powerMode s' = powerMode s → ghosts s' = ghosts s → scareQuiet s s'.
Proof. intros Hp Hg. split; [done|]. unfold unscared. by rewrite Hg. Qed.

Lemma scaredInv_quiet s s' : scareQuiet s s' → scaredInv s → scaredInv s'.
Proof. intros [Hp Hu] Hi H0. apply Hu, Hi. congruence. Qed.

Lemma unscared_resetPositions s : unscared (resetPositions s).
Proof.
  unfold unscared, resetPositions. cbn.
  apply Forall_forall. intros g Hg.
  apply list_elem_of_lookup in Hg as [i Hi].
  rewrite list_lookup_imap in Hi.
  destruct (ghosts s !! i) as [g0|]; [|done]. by injection Hi as <-.
Qed.

Lemma scareQuiet_loseLife s : scareQuiet s (loseLife s).
Proof.
  unfold loseLife. destruct (_ <=? 1).
  - by apply scareQuiet_same.
  - split; [done|]. intros _. apply (unscared_resetPositions (emit (PlaySound DEATH) s)).
Qed.

Lemma scareQuiet_runLives s : scareQuiet s (runLives s).
Proof.
  apply (runLives_rel scareQuiet scareQuiet_trans); [|apply scareQuiet_loseLife].
  intros s0. by apply scareQuiet_same.
Qed.

Lemma unscared_setGhost i g s :
  GhostEntity.isScared g = false → unscared s → unscared (setGhost i g s).
Proof.
  intros Hg Hu. unfold unscared, setGhost in *. cbn.
  apply Forall_insert; done.
Qed.

Lemma unscared_lookup i g s :
  unscared s → ghosts s !! i = Some g → GhostEntity.isScared g = false.
Proof. intros Hu Hi. by eapply (Forall_lookup_1 _ _ _ _ Hu). Qed.

Section Scared.

Variable env : Env.

Lemma scareQuiet_hitGhost p i g s :
  GhostEntity.isScared g = false ∨ True → scareQuiet s (hitGhost p i g s).
Proof.
  intros _. unfold hitGhost.
  destruct (_ && _); [|apply scareQuiet_refl].
  destruct (GhostEntity.isScared g); [|by apply scareQuiet_same].
  split; [done|]. intros Hu. cbn.
  apply (unscared_setGhost i _ s); done.
Qed.

Lemma scareQuiet_respawnGhost i s : scareQuiet s (respawnGhost env i s).
Proof.
  unfold respawnGhost. destruct (ghosts s !! i) as [g|] eqn:Hi; [|apply scareQuiet_refl].
  destruct (GhostEntity.isEaten g); [|apply scareQuiet_refl].
  destruct (randomBelow _ _ _); [|by apply scareQuiet_same].
  split; [done|]. intros Hu.
  apply (unscared_setGhost i _ (drawn 1 s)); [|done].
  cbn. by eapply unscared_lookup.
Qed.

Lemma dyingStep_scared g :
  GhostEntity.isScared (dyingStep g) = GhostEntity.isScared g.
Proof. unfold dyingStep. cbn. by destruct (_ <=? 0). Qed.

Lemma scareQuiet_ghostStep p i s : scareQuiet s (ghostStep env p i s).
Proof.
  unfold ghostStep. destruct (ghosts s !! i) as [g|] eqn:Hi; [|apply scareQuiet_refl].
  destruct (GhostEntity.isDying g).
  - split; [done|]. intros Hu. apply unscared_setGhost; [|done].
    rewrite dyingStep_scared. by eapply unscared_lookup.
  - cbv zeta. destruct (steerGhost_state env g s) as [n Hn].
    destruct (steerGhost_flags env g s) as (_ & _ & Hs & _).
    destruct (moveGhost_flags (steerGhost env g s).1) as (_ & _ & Hs' & _).
    eapply scareQuiet_trans; [|apply scareQuiet_respawnGhost].
    eapply scareQuiet_trans; [|apply scareQuiet_hitGhost; by right].
    rewrite Hn. split; [done|]. intros Hu.
    apply (unscared_setGhost i _ (drawn n s)); [|done].
    rewrite Hs', Hs. by eapply unscared_lookup.
Qed.

Lemma scareQuiet_updateGhosts p s : scareQuiet s (updateGhosts env p s).
Proof.
  unfold updateGhosts. apply fold_left_rel.
  - apply scareQuiet_refl.
  - apply scareQuiet_trans.
  - intros; apply scareQuiet_ghostStep.
Qed.

Lemma scareQuiet_witchStep p i s : scareQuiet s (witchStep env p i s).
Proof.
  unfold witchStep. destruct (witches s !! i) as [w|]; [|apply scareQuiet_refl].
  destruct (_ && _); by apply scareQuiet_same.
Qed.

Lemma scareQuiet_updateWitches p s : scareQuiet s (updateWitches env p s).
Proof.
  unfold updateWitches.
  eapply scareQuiet_trans; [|by apply scareQuiet_same].
  apply fold_left_rel.
  - apply scareQuiet_refl.
  - apply scareQuiet_trans.
  - intros; apply scareQuiet_witchStep.
Qed.

Lemma scareQuiet_recoverLost p s : scareQuiet s (recoverLost p s).
Proof.
  unfold recoverLost. destruct (outOfBounds p); [|apply scareQuiet_refl].
  split; [done|]. intros _. apply unscared_resetPositions.
Qed.

Lemma scareQuiet_player s :
  let isAt := isAligned (Entity.x (pacman s)) (Entity.y (pacman s)) in
  scareQuiet s (wrapPacman (movePacman env isAt (acceptNextDir isAt s))).
Proof.
  cbv zeta. set (isAt := isAligned _ _).
  apply scareQuiet_same.
  - cbn. rewrite movePacman_powerMode.
    by destruct (acceptNextDir_frame isAt s) as (_ & _ & ->).
  - cbn. transitivity (ghosts (acceptNextDir isAt s)).
    + unfold movePacman. repeat case_match; cbn; done.
    + unfold acceptNextDir. repeat case_match; cbn; done.
Qed.

Lemma respawnCandy_frame s :
  powerMode (respawnCandy env s) = powerMode s ∧ ghosts (respawnCandy env s) = ghosts s.
Proof.
  unfold respawnCandy. by destruct (respawnLoop _ _ _ _ _ _) as [[[m k] n]|].
Qed.

(** Eating a candy starts the countdown and scares every ghost that is
    not eaten. *)
Lemma tileEffect_candy p s :
  tileIs (cellAt (maze s) (roundTile (Entity.x p)) (roundTile (Entity.y p))) 3 = true →
  powerMode (tileEffect env p s) = 600
  ∧ wallsLeft (tileEffect env p s) = 5
  ∧ ghosts (tileEffect env p s) = map scareGhost (ghosts s).
Proof.
  intros H. unfold tileEffect. cbv zeta. rewrite H.
  apply tileIs_eq in H. rewrite H. cbn [tileIs Z.eqb Pos.eqb].
  match goal with |- context [respawnCandy env ?t] =>
    destruct (respawnCandy_frame t) as [-> ->];
    rewrite (respawnCandy_wallsLeft env t) end.
  done.
Qed.

Lemma scaredInv_tileEffect p s : scaredInv s → scaredInv (tileEffect env p s).
Proof.
  intros Hi. unfold tileEffect. cbv zeta.
  destruct (tileIs _ 2);
    [apply (scaredInv_quiet s); [by apply scareQuiet_same|done]|].
  destruct (tileIs _ 3).
  { intros H0. exfalso.
    match type of H0 with context [respawnCandy env ?t] =>
      destruct (respawnCandy_frame t) as [Hp _]; rewrite Hp in H0 end.
    done. }
  destruct (tileIs _ 6).
  { destruct (powerMode s =? 0).
    - apply (scaredInv_quiet s); [|done]. by apply scareQuiet_same.
    - apply (scaredInv_quiet s); [|done]. cbn.
      destruct (0 <? wallsLeft s); by apply scareQuiet_same. }
  destruct (tileIs _ 7); [|done].
  apply (scaredInv_quiet s); [by apply scareQuiet_same|done].
Qed.

Lemma scaredInv_updatePowerMode s : scaredInv s → scaredInv (updatePowerMode s).
Proof.
  intros Hi. unfold updatePowerMode.
  destruct (0 <? powerMode s); [|done]. cbn.
  destruct (Z.eqb_spec (powerMode s - 1) 0) as [H0|H0].
  - intros _. unfold unscared. cbn. apply Forall_forall.
    intros g (g0 & -> & _)%list_elem_of_fmap. done.
  - intros H. cbn in H. done.
Qed.

Lemma scaredInv_update s : scaredInv s → scaredInv (update env s).
Proof.
  intros Hi. destruct (decide (gameState s = PLAYING)) as [Hp|Hp];
    [|by rewrite update_not_playing].
  rewrite (update_playing env s Hp).
  apply (scaredInv_quiet (tick env s)); [apply scareQuiet_runLives|].
  rewrite tick_phases. cbv zeta.
  set (isAt := isAligned _ _).
  set (s1 := wrapPacman (movePacman env isAt (acceptNextDir isAt s))).
  set (p := pacman s1).
  assert (H1 : scaredInv (recoverLost p s1)).
  { apply (scaredInv_quiet s); [|done].
    eapply scareQuiet_trans; [apply scareQuiet_player|apply scareQuiet_recoverLost]. }
  apply scaredInv_tileEffect with (p := p) in H1.
  apply scaredInv_updatePowerMode in H1.
  set (s2 := updatePowerMode (tileEffect env p (recoverLost p s1))) in *.
  set (s3 := updateGhosts env p (updateFragments (updatePopups s2))).
  set (s4 := checkWin s3).
  set (s5 := bonusSpawn env (1 # 1000) 3 s4).
  set (s6 := bonusSpawn env (5 # 10000) 7 s5).
  set (s7 := witchSpawn env s6).
  revert H1. apply scaredInv_quiet.
  assert (H23 : scareQuiet s2 s3).
  { eapply scareQuiet_trans; [|apply scareQuiet_updateGhosts].
    by apply scareQuiet_same. }
  assert (H34 : scareQuiet s3 s4).
  { apply scareQuiet_same; unfold s4, checkWin; by destruct (winReached _ _). }
  assert (H45 : scareQuiet s4 s5).
  { apply scareQuiet_same; unfold s5, bonusSpawn; repeat case_match; done. }
  assert (H56 : scareQuiet s5 s6).
  { apply scareQuiet_same; unfold s6, bonusSpawn; repeat case_match; done. }
  assert (H67 : scareQuiet s6 s7).
  { apply scareQuiet_same; unfold s7, witchSpawn; repeat case_match; done. }
  pose proof (scareQuiet_updateWitches p s7) as H78.
  eapply scareQuiet_trans; [exact H23|]. eapply scareQuiet_trans; [exact H34|].
  eapply scareQuiet_trans; [exact H45|]. eapply scareQuiet_trans; [exact H56|].
  eapply scareQuiet_trans; [exact H67|exact H78].
Qed.

End Scared.

Lemma unscared_initialGhosts s : ghosts s = initialGhosts → unscared s.
Proof.
  intros H. unfold unscared. rewrite H. unfold initialGhosts, COLORS_ghosts. cbn.
  repeat constructor.
Qed.

Lemma reachable_scaredInv s : reachable s → scaredInv s.
Proof.
  induction 1 as [|env fuel s s' _ _ Hs|env fuel s s' _ _ Hs|env s _ IH|d s _ IH|st s _ IH Hst].
  - intros _. constructor.
  - unfold startGame in Hs.
    destruct (initGame _ _ _ _) as [s1|] eqn:Hinit; [|done].
    injection Hs as <-. intros _.
    apply initGame_inv in Hinit as (_&_&_&_&_&Hg&_).
    by apply (unscared_initialGhosts (set_gameState PLAYING s1)).
  - unfold nextStage in Hs.
    destruct (initGame _ _ _ _) as [s1|] eqn:Hinit; [|done].
    injection Hs as <-. intros _.
    apply initGame_inv in Hinit as (_&_&_&_&_&Hg&_).
    by apply (unscared_initialGhosts (set_gameState PLAYING s1)).
  - by apply scaredInv_update.
  - exact IH.
  - exact IH.
Qed.

(** C4, counterexample.  In the concrete run the player, in power mode,
    leaves the grid through the broken border and is recovered by
    [resetPositions], which also resets the ghosts: in the reachable
    state [demoLost] the power-mode counter is 495 and all four ghosts
    are normal. *)
Lemma C4_counterexample :
  reachable demoLost ∧ powerMode demoLost = 495
  ∧ map ghostState (ghosts demoLost) = [NORMAL; NORMAL; NORMAL; NORMAL].
Proof. split; [exact reachable_demoLost|]. vm_compute. tauto. Qed.

(** C4, amended.  In every reachable state in which the power-mode
    counter is 0 no ghost is scared: every ghost is normal, eaten or
    dying; so the tick in which the countdown reaches 0 turns every
    scared ghost into a normal one.  Eating a candy sets the counter to
    600 and sets the scared flag of every ghost that is not eaten.
    While the counter is positive a ghost that is neither eaten nor dying
    may be normal. *)
Theorem C4_power_and_scared (s : State) :
  reachable s →
  (powerMode s = 0 →
   ∀ g, g ∈ ghosts s → GhostEntity.isScared g = false ∧ ghostState g ≠ SCARED)
  ∧ (∀ env p,
       tileIs (cellAt (maze s) (roundTile (Entity.x p)) (roundTile (Entity.y p))) 3 = true →
       powerMode (tileEffect env p s) = 600
       ∧ ∀ g, g ∈ ghosts (tileEffect env p s) →
              GhostEntity.isEaten g = false → GhostEntity.isScared g = true).
Proof.
  intros Hr. split.
  - intros H0 g Hg. pose proof (reachable_scaredInv s Hr H0) as Hu.
    unfold unscared in Hu. rewrite Forall_forall in Hu.
    pose proof (Hu g Hg) as Hs. split; [done|].
    unfold ghostState. rewrite Hs. by repeat case_match.
  - intros env p Ht. destruct (tileEffect_candy env p s Ht) as (Hp & _ & Hg).
    split; [done|]. rewrite Hg. intros g (g0 & -> & _)%list_elem_of_fmap.
    unfold scareGhost. destruct (GhostEntity.isEaten g0) eqn:He; cbn;
      [intros ?; congruence|done].
Qed.

Lemma C4_witness :
  powerMode demoStart = 0
  ∧ ∀ g, g ∈ ghosts demoStart →
         GhostEntity.isScared g = false ∧ ghostState g ≠ SCARED.
Proof.
  pose proof (C4_power_and_scared demoStart reachable_demoStart) as (H & _).
  split; [by vm_compute|]. apply H. by vm_compute.
Defined.

(** ** C6: the placement loops *)

Lemma placeCandies_placeLoop env fuel : ∀ placed m k,
  placeCandies env fuel placed m k
  = placeLoop env 10 (λ c, c =? 2) 3 fuel placed m k.
Proof.
  induction fuel as [|fuel IH]; intros placed m k; simpl; [done|].
  destruct (placed <? 10); [|done]. unfold cellIs, tileIs.
  destruct (cellAt m _ _) as [c|]; [|apply IH].
  destruct (c =? 2); apply IH.
Qed.

Lemma placeTombstones_placeLoop env fuel : ∀ placed m k,
  placeTombstones env fuel placed m k
  = placeLoop env 3 (λ c, (c =? 2) || (c =? 0)) 6 fuel placed m k.
Proof.
  induction fuel as [|fuel IH]; intros placed m k; simpl; [done|].
  destruct (placed <? 3); [|done]. unfold cellIs, tileIs.
  destruct (cellAt m _ _) as [c|]; [|apply IH].
  destruct ((c =? 2) || (c =? 0)); apply IH.
Qed.

Lemma drawnCell_shift env k j : drawnCell env (S (S k)) j = drawnCell env k (S j).
Proof. unfold drawnCell. by replace (S (S k) + 2 * j)%nat with (k + 2 * S j)%nat by lia. Qed.

Lemma drawnCell_0 env k :
  drawnCell env k 0 = (randomIndex env k GRID_WIDTH, randomIndex env (S k) GRID_HEIGHT).
Proof. unfold drawnCell. by rewrite Nat.add_0_r. Qed.

Lemma filter_all {A} (P : A → Prop) `{∀ x, Decision (P x)} (l : list A) :
  Forall P l → filter P l = l.
Proof.
  induction 1 as [|a l Ha _ IH]; [done|]. rewrite filter_cons_True by done.
  by rewrite IH.
Qed.

(** Among indices with pairwise distinct images at most one is mapped
    to a given value. *)
Lemma filter_ne_length {A B} `{EqDecision B} (f : A → B) (b : B) (l : list A) :
  NoDup (f <$> l) → (length l ≤ S (length (filter (λ a, f a ≠ b) l)))%nat.
Proof.
  induction l as [|a l IH]; intros Hnd; [simpl; lia|].
  rewrite fmap_cons in Hnd. apply NoDup_cons in Hnd as [Hnotin Hnd].
  destruct (decide (f a = b)) as [Heq|Hne].
  - rewrite filter_cons_False by (intros H; by apply H).
    assert (Hall : filter (λ a0, f a0 ≠ b) l = l).
    { apply filter_all. apply Forall_forall. intros a' Ha' Heq'.
      apply Hnotin. rewrite Heq, <- Heq'. by apply list_elem_of_fmap_2. }
    rewrite Hall. simpl. lia.
  - rewrite filter_cons_True by done. simpl. specialize (IH Hnd). lia.
Qed.

Section Placement.

Variable env : Env.

(** A placement loop ends once enough draws hit pairwise distinct
    eligible cells, provided writing [v] into one cell does not change
    the eligibility of another, which holds as eligibility looks at the
    tile only. *)
Lemma placeLoop_terminates limit eligible v fuel : ∀ placed m k (js : list nat),
  NoDup (drawnCell env k <$> js) →
  limit - placed ≤ Z.of_nat (length js) →
  Forall (λ j, (j < fuel)%nat
               ∧ ∃ c, cellAt m (drawnCell env k j).1 (drawnCell env k j).2 = Some c
                      ∧ eligible c = true) js →
  is_Some (placeLoop env limit eligible v fuel placed m k).
Proof.
  induction fuel as [|fuel IH]; intros placed m k js Hnd Hlen Hall.
  - simpl. destruct (Z.ltb_spec placed limit) as [Hlt|Hge]; [|by eexists].
    destruct js as [|j js]; [simpl in Hlen; lia|].
    apply Forall_cons in Hall as [[Hj _] _]. lia.
  - simpl. destruct (Z.ltb_spec placed limit) as [Hlt|Hge]; [|by eexists].
    set (c0 := drawnCell env k 0).
    set (js' := Nat.pred <$> filter (λ j, drawnCell env k j ≠ c0) js).
    assert (Hpos : ∀ j, j ∈ filter (λ j, drawnCell env k j ≠ c0) js → j ≠ 0%nat).
    { intros j [Hne _]%list_elem_of_filter ->. by apply Hne. }
    assert (Himg : drawnCell env (S (S k)) <$> js'
                   = drawnCell env k <$> filter (λ j, drawnCell env k j ≠ c0) js).
    { unfold js'. rewrite <- list_fmap_compose. apply Forall_fmap_ext_1.
      apply Forall_forall. intros j Hj. simpl. rewrite drawnCell_shift.
      f_equal. apply Hpos in Hj. lia. }
    assert (Hnd' : NoDup (drawnCell env (S (S k)) <$> js')).
    { rewrite Himg. eapply sublist_NoDup; [exact Hnd|].
      apply fmap_sublist, sublist_filter. }
    assert (Hlen' : (length js ≤ S (length js'))%nat).
    { unfold js'. rewrite length_fmap. by apply filter_ne_length. }
    assert (Hall' : ∀ m', (∀ c, c ≠ c0 → cellAt m' c.1 c.2 = cellAt m c.1 c.2) →
       Forall (λ j, (j < fuel)%nat
                    ∧ ∃ c, cellAt m' (drawnCell env (S (S k)) j).1
                                  (drawnCell env (S (S k)) j).2 = Some c
                           ∧ eligible c = true) js').
    { intros m' Hm'. apply Forall_forall. intros j' Hj'.
      unfold js' in Hj'. apply list_elem_of_fmap in Hj' as (j & -> & Hj).
      pose proof (Hpos j Hj) as Hj0.
      apply list_elem_of_filter in Hj as [Hne Hj].
      rewrite Forall_forall in Hall. destruct (Hall j Hj) as [Hlt' (c & Hc & He)].
      rewrite drawnCell_shift. replace (S (Nat.pred j)) with j by lia.
      split; [lia|]. exists c. by rewrite Hm'. }
    assert (Hc0 : c0 = (randomIndex env k GRID_WIDTH, randomIndex env (S k) GRID_HEIGHT))
      by apply drawnCell_0.
    replace (randomIndex env k GRID_WIDTH) with (c0.1) by (by rewrite Hc0).
    replace (randomIndex env (S k) GRID_HEIGHT) with (c0.2) by (by rewrite Hc0).
    destruct (match cellAt m c0.1 c0.2 with Some c => eligible c | None => false end)
      eqn:Hhit.
    + apply (IH _ _ _ js'); [done|lia|].
      apply Hall'. intros c Hc. apply cellAt_setCell_ne.
      intros Heq. apply Hc. by destruct c, c0; cbn in *; congruence.
    + assert (Hfull : filter (λ j, drawnCell env k j ≠ c0) js = js).
      { apply filter_all. rewrite Forall_forall in Hall |- *.
        intros j Hj Heq. destruct (Hall j Hj) as [_ (c & Hc & He)].
        rewrite Heq in Hc. rewrite Hc in Hhit. congruence. }
      apply (IH _ _ _ js'); [done| |by apply Hall'].
      unfold js'. rewrite length_fmap, Hfull. lia.
Qed.

(** A draw that never hits an eligible cell keeps the loop going for
    ever: no budget is enough. *)
Lemma placeLoop_diverges limit eligible v m fuel : ∀ placed k,
  placed < limit →
  (∀ j, match cellAt m (drawnCell env k j).1 (drawnCell env k j).2 with
        | Some c => eligible c | None => false end = false) →
  placeLoop env limit eligible v fuel placed m k = None.
Proof.
  induction fuel as [|fuel IH]; intros placed k Hlt Hmiss; simpl.
  - by replace (placed <? limit) with true by (symmetry; lia).
  - replace (placed <? limit) with true by (symmetry; lia).
    pose proof (Hmiss 0%nat) as H0. rewrite drawnCell_0 in H0. cbn [fst snd] in H0.
    rewrite H0. apply IH; [done|]. intros j. rewrite drawnCell_shift. apply Hmiss.
Qed.

(** Conversely, a loop that ends has counted [limit - placed] draws on
    pairwise distinct cells that are eligible in the maze it started
    with: a cell it has written [v] into is not eligible again. *)
Lemma placeLoop_hits limit eligible v fuel :
  eligible v = false → ∀ placed m k r,
  placed ≤ limit →
  placeLoop env limit eligible v fuel placed m k = Some r →
  ∃ js : list nat,
    length js = Z.to_nat (limit - placed)
    ∧ NoDup (drawnCell env k <$> js)
    ∧ Forall (λ j, (j < fuel)%nat
                   ∧ ∃ c, cellAt m (drawnCell env k j).1 (drawnCell env k j).2 = Some c
                          ∧ eligible c = true) js.
Proof.
  intros Hv. induction fuel as [|fuel IH]; intros placed m k r Hle; cbn [placeLoop].
  - destruct (Z.ltb_spec placed limit) as [Hlt|Hge]; [done|]. intros _.
    exists []. replace (limit - placed) with 0 by lia.
    split; [done|]. split; [constructor|constructor].
  - destruct (Z.ltb_spec placed limit) as [Hlt|Hge].
    2:{ intros _. exists []. replace (limit - placed) with 0 by lia.
        split; [done|]. split; [constructor|constructor]. }
    set (rx := randomIndex env k GRID_WIDTH). set (ry := randomIndex env (S k) GRID_HEIGHT).
    assert (Hc0 : drawnCell env k 0 = (rx, ry)) by apply drawnCell_0.
    assert (Hshift : ∀ js' : list nat, drawnCell env k <$> (S <$> js')
                                       = drawnCell env (S (S k)) <$> js').
    { intros js'. rewrite <- list_fmap_compose. apply list_fmap_ext.
      intros i j _. simpl. by rewrite drawnCell_shift. }
    destruct (cellAt m rx ry) as [c|] eqn:Hc; [destruct (eligible c) eqn:He|].
    + intros Hr.
      assert (Hle' : placed + 1 ≤ limit) by lia.
      destruct (IH _ _ _ _ Hle' Hr) as (js' & Hlen & Hnd & Hall).
      assert (Hne : ∀ j, j ∈ js' → drawnCell env (S (S k)) j ≠ (rx, ry)).
      { intros j Hj Heq. rewrite Forall_forall in Hall.
        destruct (Hall j Hj) as [_ (c' & Hc' & He')].
        rewrite Heq in Hc'. cbn [fst snd] in Hc'.
        rewrite cellAt_setCell_eq in Hc' by by eexists.
        injection Hc' as <-. by rewrite Hv in He'. }
      exists (0%nat :: (S <$> js')). split; [|split].
      * simpl. rewrite length_fmap, Hlen. lia.
      * rewrite fmap_cons, Hshift, Hc0. apply NoDup_cons. split; [|done].
        intros Hin. apply list_elem_of_fmap in Hin as (j & Heq & Hj).
        by apply (Hne j Hj).
      * apply Forall_cons. split.
        { cbv beta. split; [lia|]. exists c. by rewrite Hc0. }
        apply Forall_fmap. rewrite Forall_forall in Hall. apply Forall_forall.
        intros j Hj. destruct (Hall j Hj) as [Hlt' (c' & Hc' & He')].
        unfold compose. cbv beta. rewrite <- drawnCell_shift.
        split; [lia|]. exists c'. split; [|done].
        rewrite <- Hc'. symmetry. apply cellAt_setCell_ne.
        rewrite <- surjective_pairing. by apply Hne.
    + intros Hr. destruct (IH _ _ _ _ Hle Hr) as (js' & Hlen & Hnd & Hall).
      exists (S <$> js'). split; [by rewrite length_fmap|].
      split; [by rewrite Hshift|].
      apply Forall_fmap. eapply Forall_impl; [exact Hall|].
      intros j [Hlt' H]. unfold compose. cbv beta. rewrite <- drawnCell_shift.
      split; [lia|done].
    + intros Hr. destruct (IH _ _ _ _ Hle Hr) as (js' & Hlen & Hnd & Hall).
      exists (S <$> js'). split; [by rewrite length_fmap|].
      split; [by rewrite Hshift|].
      apply Forall_fmap. eapply Forall_impl; [exact Hall|].
      intros j [Hlt' H]. unfold compose. cbv beta. rewrite <- drawnCell_shift.
      split; [lia|done].
Qed.

(** The respawn loop. *)
Lemma respawnLoop_total fuel : ∀ respawned attempts m k,
  0 ≤ attempts ≤ 100 → 100 - attempts ≤ Z.of_nat fuel →
  ∃ m' k' n, respawnLoop env fuel respawned attempts m k = Some (m', k', n)
             ∧ attempts ≤ n ≤ 100
             ∧ k' = (k + 2 * Z.to_nat (n - attempts))%nat.
Proof.
  induction fuel as [|fuel IH]; intros respawned attempts m k Ha Hf; simpl.
  - replace (attempts <? 100) with false by (symmetry; lia).
    rewrite andb_false_r. exists m, k, attempts. split; [done|]. split; [lia|].
    rewrite Z.sub_diag. simpl. lia.
  - destruct (negb respawned && (attempts <? 100)) eqn:Hgo.
    + apply andb_true_iff in Hgo as [_ Hlt%Z.ltb_lt].
      destruct (cellIs m _ _ 2 || cellIs m _ _ 0).
      * destruct (IH true (attempts + 1) (setCell m (randomIndex env k GRID_WIDTH)
                    (randomIndex env (S k) GRID_HEIGHT) 3) (S (S k)))
          as (m' & k' & n & Hr & Hn & Hk); [lia|lia|].
        exists m', k', n. split; [done|]. split; [lia|]. rewrite Hk.
        replace (n - attempts) with (Z.succ (n - (attempts + 1))) by lia.
        rewrite Z2Nat.inj_succ by lia. lia.
      * destruct (IH respawned (attempts + 1) m (S (S k)))
          as (m' & k' & n & Hr & Hn & Hk); [lia|lia|].
        exists m', k', n. split; [done|]. split; [lia|]. rewrite Hk.
        replace (n - attempts) with (Z.succ (n - (attempts + 1))) by lia.
        rewrite Z2Nat.inj_succ by lia. lia.
    + exists m, k, attempts. split; [done|]. split; [lia|].
      rewrite Z.sub_diag. simpl. lia.
Qed.

(** The give-up path: 100 misses leave the maze as it was. *)
Lemma respawnLoop_gives_up fuel : ∀ attempts m k r,
  (∀ j, (cellIs m (drawnCell env k j).1 (drawnCell env k j).2 2
         || cellIs m (drawnCell env k j).1 (drawnCell env k j).2 0) = false) →
  respawnLoop env fuel false attempts m k = Some r → r.1.1 = m.
Proof.
  induction fuel as [|fuel IH]; intros attempts m k r Hmiss; simpl.
  - destruct (attempts <? 100); [done|]. by intros [= <-].
  - destruct (attempts <? 100); [|by intros [= <-]]. simpl.
    pose proof (Hmiss 0%nat) as H0. rewrite drawnCell_0 in H0. cbn [fst snd] in H0.
    rewrite H0. apply IH. intros j. rewrite drawnCell_shift. apply Hmiss.
Qed.

End Placement.

Lemma initGame_zeroEnv fuel b s : initGame zeroEnv fuel b s = None.
Proof.
  unfold initGame.
  destruct (generateMaze zeroEnv fuel) as [m|] eqn:Hgen; [|done].
  destruct (findStart m) as [[px py] m0] eqn:Hfs.
  rewrite placeCandies_placeLoop.
  rewrite (placeLoop_diverges zeroEnv); [done|done|].
  intros j.
  assert (H00 : cellAt m0 0 0 = Some 1).
  { pose proof (findStart_wallsKept m) as Hk. rewrite Hfs in Hk. apply Hk.
    apply (generateMaze_border _ _ _ Hgen).
    unfold onBorder, GRID_WIDTH, GRID_HEIGHT. lia. }
  change (drawnCell zeroEnv _ j) with (0, 0). cbn [fst snd]. by rewrite H00.
Qed.

(** C6, counterexample.  The two placement loops of [initGame] have no
    bound on the number of attempts and no give-up path.  With a random
    source that always returns 0 every draw is the corner cell (0, 0), a
    wall: the maze is generated, but the candy loop never places its
    first candy, whatever number of iterations it is given, so
    [startGame] does not return. *)
Lemma C6_counterexample :
  is_Some (generateMaze zeroEnv 80)
  ∧ ¬ (∃ fuel r, placeCandies zeroEnv fuel 0 zeroMaze 0 = Some r)
  ∧ ¬ (∃ fuel s, startGame zeroEnv fuel initialState = Some s).
Proof.
  split; [|split].
  - vm_compute. by eexists.
  - intros (fuel & r & H). rewrite placeCandies_placeLoop in H.
    rewrite (placeLoop_diverges zeroEnv) in H; [done|done|].
    intros j. change (drawnCell zeroEnv 0 j) with (0, 0). by vm_compute.
  - intros (fuel & s & H). unfold startGame in H.
    by rewrite initGame_zeroEnv in H.
Qed.

(** C6, amended.  The respawn of a power candy makes at most 100
    attempts, two random values each, and always ends; when all its
    draws miss it gives up and leaves the maze as it was.  The two
    placement loops of [initGame] retry without a bound: the candy loop
    ends within [fuel] iterations if, and only if, ten of its first
    [fuel] draws hit pairwise distinct pellet cells, and the tombstone
    loop if, and only if, three of them hit pairwise distinct pellet or
    empty cells. *)
Theorem C6_placement_loops (env : Env) :
  (∀ m k, ∃ m' k' n,
      respawnLoop env 100 false 0 m k = Some (m', k', n)
      ∧ 0 ≤ n ≤ 100 ∧ k' = (k + 2 * Z.to_nat n)%nat
      ∧ ((∀ j, cellIs m (drawnCell env k j).1 (drawnCell env k j).2 2
               || cellIs m (drawnCell env k j).1 (drawnCell env k j).2 0 = false) →
         m' = m))
  ∧ (∀ fuel m k (js : list nat),
       NoDup (drawnCell env k <$> js) → length js = 10%nat →
       Forall (λ j, (j < fuel)%nat
                    ∧ cellIs m (drawnCell env k j).1 (drawnCell env k j).2 2 = true) js →
       is_Some (placeCandies env fuel 0 m k))
  ∧ (∀ fuel m k (js : list nat),
       NoDup (drawnCell env k <$> js) → length js = 3%nat →
       Forall (λ j, (j < fuel)%nat
                    ∧ cellIs m (drawnCell env k j).1 (drawnCell env k j).2 2
                      || cellIs m (drawnCell env k j).1 (drawnCell env k j).2 0 = true) js →
       is_Some (placeTombstones env fuel 0 m k))
  ∧ (∀ fuel m k, is_Some (placeCandies env fuel 0 m k) →
       ∃ js : list nat,
         NoDup (drawnCell env k <$> js) ∧ length js = 10%nat
         ∧ Forall (λ j, (j < fuel)%nat
                        ∧ cellIs m (drawnCell env k j).1 (drawnCell env k j).2 2 = true) js)
  ∧ (∀ fuel m k, is_Some (placeTombstones env fuel 0 m k) →
       ∃ js : list nat,
         NoDup (drawnCell env k <$> js) ∧ length js = 3%nat
         ∧ Forall (λ j, (j < fuel)%nat
                        ∧ cellIs m (drawnCell env k j).1 (drawnCell env k j).2 2
                          || cellIs m (drawnCell env k j).1 (drawnCell env k j).2 0 = true) js).
Proof.
  split; [|split; [|split; [|split]]].
  - intros m k.
    destruct (respawnLoop_total env 100 false 0 m k) as (m' & k' & n & Hr & Hn & Hk);
      [lia|lia|].
    exists m', k', n. split; [done|]. split; [lia|].
    split; [by rewrite Z.sub_0_r in Hk|].
    intros Hmiss. by apply (respawnLoop_gives_up env _ _ _ _ _ Hmiss) in Hr.
  - intros fuel m k js Hnd Hlen Hall. rewrite placeCandies_placeLoop.
    apply (placeLoop_terminates env _ _ _ _ _ _ _ js); [done|lia|].
    eapply Forall_impl; [exact Hall|]. intros j [Hj Hc]. split; [done|].
    apply cellIs_true in Hc. exists 2. by rewrite Hc.
  - intros fuel m k js Hnd Hlen Hall. rewrite placeTombstones_placeLoop.
    apply (placeLoop_terminates env _ _ _ _ _ _ _ js); [done|lia|].
    eapply Forall_impl; [exact Hall|]. intros j [Hj Hc]. split; [done|].
    apply orb_true_iff in Hc as [Hc|Hc]; apply cellIs_true in Hc;
      [exists 2|exists 0]; by rewrite Hc.
  - intros fuel m k [r Hr]. rewrite placeCandies_placeLoop in Hr.
    destruct (placeLoop_hits env 10 (λ c, c =? 2) 3 fuel eq_refl 0 m k r ltac:(lia) Hr)
      as (js & Hlen & Hnd & Hall).
    exists js. split; [done|]. split; [by rewrite Hlen|].
    eapply Forall_impl; [exact Hall|]. intros j [Hj (c & Hc & He)]. split; [done|].
    unfold cellIs. by rewrite Hc.
  - intros fuel m k [r Hr]. rewrite placeTombstones_placeLoop in Hr.
    destruct (placeLoop_hits env 3 (λ c, (c =? 2) || (c =? 0)) 6 fuel eq_refl 0 m k r
                ltac:(lia) Hr) as (js & Hlen & Hnd & Hall).
    exists js. split; [done|]. split; [by rewrite Hlen|].
    eapply Forall_impl; [exact Hall|]. intros j [Hj (c & Hc & He)]. split; [done|].
    unfold cellIs. by rewrite Hc.
Qed.

Lemma C6_witness : is_Some (placeCandies demoEnv 10 0 demoMaze 0).
Proof.
  pose proof (C6_placement_loops demoEnv) as (_ & H & _).
  apply (H 10%nat demoMaze 0%nat (seq 0 10)).
  - apply (bool_decide_unpack _). by vm_compute.
  - reflexivity.
  - repeat (constructor; [split; [lia|by vm_compute]|]). constructor.
Defined.

(** ** C7: the death animation *)

(** *** Phases that leave a ghost alone *)

Section Frame.

Variable env : Env.
Variable R : nat → State → State → Prop.
Hypothesis R_trans : ∀ i s1 s2 s3, R i s1 s2 → R i s2 s3 → R i s1 s3.
Hypothesis R_quiet : ∀ i s s', ghosts s' = ghosts s → resets s' = resets s → R i s s'.
Hypothesis R_map : ∀ i (f : GhostEntity.t → GhostEntity.t) s s',
  (∀ g, unscare (f g) = unscare g) →
  ghosts s' = map f (ghosts s) → resets s' = resets s → R i s s'.
Hypothesis R_insert : ∀ i j g s s',
  j ≠ i → ghosts s' = <[j := g]> (ghosts s) → resets s' = resets s → R i s s'.
Hypothesis R_reset : ∀ i s, R i s (resetPositions s).

Lemma frame_refl i s : R i s s.
Proof. by apply R_quiet. Qed.

Lemma frame_loseLife i s : R i s (loseLife s).
Proof.
  unfold loseLife. destruct (_ <=? 1).
  - by apply R_quiet.
  - apply (R_trans i s (emit (PlaySound DEATH) s)); [by apply R_quiet|].
    apply (R_trans i _ (resetPositions (emit (PlaySound DEATH) s))); [apply R_reset|].
    by apply R_quiet.
Qed.

Lemma frame_runLives i s : R i s (runLives s).
Proof.
  apply (runLives_rel (R i) (R_trans i)); [|apply frame_loseLife].
  intros s0. by apply R_quiet.
Qed.

Lemma frame_hitGhost i p j g s : j ≠ i → R i s (hitGhost p j g s).
Proof.
  intros Hne. unfold hitGhost.
  destruct (_ && _); [|apply frame_refl].
  destruct (GhostEntity.isScared g); [|by apply R_quiet].
  by eapply (R_insert i j).
Qed.

Lemma frame_respawnGhost i j s : j ≠ i → R i s (respawnGhost env j s).
Proof.
  intros Hne. unfold respawnGhost.
  destruct (ghosts s !! j) as [g|]; [|apply frame_refl].
  destruct (GhostEntity.isEaten g); [|apply frame_refl].
  destruct (randomBelow _ _ _); [|by apply R_quiet].
  by eapply (R_insert i j).
Qed.

Lemma frame_ghostStep i p j s : j ≠ i → R i s (ghostStep env p j s).
Proof.
  intros Hne. unfold ghostStep.
  destruct (ghosts s !! j) as [g|]; [|apply frame_refl].
  destruct (GhostEntity.isDying g); [by eapply (R_insert i j)|].
  cbv zeta. destruct (steerGhost_state env g s) as [n Hn].
  eapply R_trans; [|by apply frame_respawnGhost].
  eapply R_trans; [|by apply frame_hitGhost].
  rewrite Hn. by eapply (R_insert i j).
Qed.

Lemma frame_ghostSteps i p (l : list nat) : ∀ s,
  i ∉ l → R i s (fold_left (λ s j, ghostStep env p j s) l s).
Proof.
  induction l as [|j l IH]; intros s Hi; simpl; [apply frame_refl|].
  apply not_elem_of_cons in Hi as [Hne Hi].
  eapply R_trans; [apply (frame_ghostStep i p j s); congruence|by apply IH].
Qed.

Lemma frame_witchStep i p j s : R i s (witchStep env p j s).
Proof.
  unfold witchStep. destruct (witches s !! j) as [w|]; [|apply frame_refl].
  destruct (_ && _); by apply R_quiet.
Qed.

Lemma frame_updateWitches i p s : R i s (updateWitches env p s).
Proof.
  unfold updateWitches.
  match goal with |- R i s (set_witches _ ?t) => apply (R_trans i s t) end;
    [|by apply R_quiet].
  apply (fold_left_rel (R i)).
  - apply frame_refl.
  - apply R_trans.
  - intros; apply frame_witchStep.
Qed.

Lemma frame_player i s :
  let isAt := isAligned (Entity.x (pacman s)) (Entity.y (pacman s)) in
  R i s (wrapPacman (movePacman env isAt (acceptNextDir isAt s))).
Proof.
  cbv zeta. set (isAt := isAligned _ _).
  apply (R_trans i s (movePacman env isAt (acceptNextDir isAt s))); [|by apply R_quiet].
  apply (R_trans _ _ (acceptNextDir isAt s)).
  - unfold acceptNextDir. repeat case_match; by apply R_quiet.
  - unfold movePacman. repeat case_match; by apply R_quiet.
Qed.

Lemma frame_recoverLost i p s : R i s (recoverLost p s).
Proof.
  unfold recoverLost. destruct (outOfBounds p); [apply R_reset|apply frame_refl].
Qed.

Lemma frame_tileEffect i p s : R i s (tileEffect env p s).
Proof.
  unfold tileEffect. cbv zeta.
  destruct (tileIs _ 2); [by apply R_quiet|].
  destruct (tileIs _ 3).
  { match goal with |- R i s (respawnCandy env ?t) =>
      apply (R_trans _ _ t);
        [|apply R_quiet;
          [by destruct (respawnCandy_frame env t) as [_ Hg]|
           unfold respawnCandy; by destruct (respawnLoop _ _ _ _ _ _) as [[[m k] n]|]]]
    end.
    apply (R_map i scareGhost); [|done|done].
    intros g. unfold scareGhost, unscare. by destruct (negb _). }
  destruct (tileIs _ 6).
  { destruct (powerMode s =? 0).
    - by apply R_quiet.
    - cbn. destruct (0 <? wallsLeft s); by apply R_quiet. }
  destruct (tileIs _ 7); [by apply R_quiet|apply frame_refl].
Qed.

Lemma frame_updatePowerMode i s : R i s (updatePowerMode s).
Proof.
  unfold updatePowerMode. destruct (0 <? powerMode s); [|apply frame_refl].
  cbn. destruct (_ =? 0); [|by apply R_quiet].
  by apply (R_map i (GhostEntity.set_isScared false)).
Qed.

Lemma frame_updatePopups i s : R i s (updatePopups s).
Proof. by apply R_quiet. Qed.

Lemma frame_updateFragments i s : R i s (updateFragments s).
Proof. by apply R_quiet. Qed.

Lemma frame_checkWin i s : R i s (checkWin s).
Proof. unfold checkWin. destruct (winReached _ _); by apply R_quiet. Qed.

Lemma frame_bonusSpawn i q v s : R i s (bonusSpawn env q v s).
Proof. unfold bonusSpawn. repeat case_match; by apply R_quiet. Qed.

Lemma frame_witchSpawn i s : R i s (witchSpawn env s).
Proof. unfold witchSpawn. repeat case_match; by apply R_quiet. Qed.

(** The phases of [update] before the loop over the ghosts. *)
Lemma frame_before i s :
  let isAt := isAligned (Entity.x (pacman s)) (Entity.y (pacman s)) in
  let s1 := wrapPacman (movePacman env isAt (acceptNextDir isAt s)) in
  let p := pacman s1 in
  R i s (updateFragments (updatePopups (updatePowerMode
           (tileEffect env p (recoverLost p s1))))).
Proof.
  cbv zeta.
  eapply R_trans; [|apply frame_updateFragments].
  eapply R_trans; [|apply frame_updatePopups].
  eapply R_trans; [|apply frame_updatePowerMode].
  eapply R_trans; [|apply frame_tileEffect].
  eapply R_trans; [|apply frame_recoverLost].
  apply frame_player.
Qed.

(** The phases of [update] after the loop over the ghosts. *)
Lemma frame_after i p s :
  R i s (updateWitches env p
           (witchSpawn env (bonusSpawn env (5 # 10000) 7
              (bonusSpawn env (1 # 1000) 3 (checkWin s))))).
Proof.
  eapply R_trans; [|apply frame_updateWitches].
  eapply R_trans; [|apply frame_witchSpawn].
  eapply R_trans; [|apply frame_bonusSpawn].
  eapply R_trans; [|apply frame_bonusSpawn].
  apply frame_checkWin.
Qed.

(** The loop over the ghosts, split at the [i]-th. *)
Lemma updateGhosts_split i p s :
  (i < length (ghosts s))%nat →
  let step := λ s j, ghostStep env p j s in
  let s1 := fold_left step (seq 0 i) s in
  updateGhosts env p s
  = fold_left step (seq (S i) (length (ghosts s) - S i)) (ghostStep env p i s1)
    ∧ R i s s1
    ∧ R i (ghostStep env p i s1) (updateGhosts env p s).
Proof.
  intros Hi. cbv zeta. unfold updateGhosts.
  replace (length (ghosts s)) with (i + S (length (ghosts s) - S i))%nat at 1 3 by lia.
  rewrite seq_app, fold_left_app. cbn [seq fold_left Nat.add].
  split; [done|]. split.
  - apply frame_ghostSteps. rewrite list_elem_of_In, in_seq. lia.
  - apply frame_ghostSteps. rewrite list_elem_of_In, in_seq. lia.
Qed.

Lemma updateGhosts_beyond i p s :
  ¬ (i < length (ghosts s))%nat → R i s (updateGhosts env p s).
Proof.
  intros Hi. apply frame_ghostSteps. rewrite list_elem_of_In, in_seq. lia.
Qed.

End Frame.

(** *** The two instances *)

Lemma unscare_dyingStep g : unscare (dyingStep g) = dyingStep (unscare g).
Proof. unfold dyingStep, unscare. cbn. by destruct (_ <=? 0). Qed.

Lemma unscare_isDying g g' :
  unscare g' = unscare g → GhostEntity.isDying g' = GhostEntity.isDying g.
Proof. intros H. by apply (f_equal GhostEntity.isDying) in H. Qed.

Lemma unscare_deathTimer g g' :
  unscare g' = unscare g → GhostEntity.deathTimer g' = GhostEntity.deathTimer g.
Proof. intros H. by apply (f_equal GhostEntity.deathTimer) in H. Qed.

Lemma unscare_place g g' :
  unscare g' = unscare g →
  GhostEntity.x g' = GhostEntity.x g ∧ GhostEntity.y g' = GhostEntity.y g.
Proof.
  intros H. split.
  - by apply (f_equal GhostEntity.x) in H.
  - by apply (f_equal GhostEntity.y) in H.
Qed.

Lemma keeps_trans i s1 s2 s3 : keeps i s1 s2 → keeps i s2 s3 → keeps i s1 s3.
Proof.
  intros [Hle1 H1] [Hle2 H2]. split; [lia|]. intros Heq g Hg.
  destruct (H1 ltac:(lia) g Hg) as (g1 & Hg1 & Hu1).
  destruct (H2 ltac:(lia) g1 Hg1) as (g2 & Hg2 & Hu2).
  exists g2. split; [done|congruence].
Qed.

Lemma keeps_quiet i s s' :
  ghosts s' = ghosts s → resets s' = resets s → keeps i s s'.
Proof.
  intros Hg Hr. split; [lia|]. intros _ g Hi. exists g. by rewrite Hg.
Qed.

Lemma keeps_map i (f : GhostEntity.t → GhostEntity.t) s s' :
  (∀ g, unscare (f g) = unscare g) →
  ghosts s' = map f (ghosts s) → resets s' = resets s → keeps i s s'.
Proof.
  intros Hf Hg Hr. split; [lia|]. intros _ g Hi. exists (f g). split; [|done].
  rewrite Hg. change (map f ?l) with (f <$> l). by rewrite list_lookup_fmap, Hi.
Qed.

Lemma keeps_insert i j g s s' :
  j ≠ i → ghosts s' = <[j := g]> (ghosts s) → resets s' = resets s → keeps i s s'.
Proof.
  intros Hne Hg Hr. split; [lia|]. intros _ g0 Hg0. exists g0. split; [|done].
  rewrite Hg. by rewrite list_lookup_insert_ne.
Qed.

Lemma keeps_resetPositions i s : keeps i s (resetPositions s).
Proof.
  assert (Hr : resets (resetPositions s) = S (resets s)) by reflexivity.
  split; [lia|]. intros Heq. lia.
Qed.

Lemma stays_trans i s1 s2 s3 : stays i s1 s2 → stays i s2 s3 → stays i s1 s3.
Proof.
  intros H1 H2 g3 Hg3 Hd3.
  destruct (H2 g3 Hg3 Hd3) as (g2 & Hg2 & Hu2).
  destruct (H1 g2 Hg2) as (g1 & Hg1 & Hu1).
  { by rewrite <- (unscare_isDying _ _ Hu2). }
  exists g1. split; [done|congruence].
Qed.

Lemma stays_quiet i s s' :
  ghosts s' = ghosts s → resets s' = resets s → stays i s s'.
Proof. intros Hg _ g' Hi _. exists g'. by rewrite <- Hg. Qed.

Lemma stays_map i (f : GhostEntity.t → GhostEntity.t) s s' :
  (∀ g, unscare (f g) = unscare g) →
  ghosts s' = map f (ghosts s) → resets s' = resets s → stays i s s'.
Proof.
  intros Hf Hg _ g' Hi _. rewrite Hg in Hi. change (map f ?l) with (f <$> l) in Hi.
  rewrite list_lookup_fmap in Hi. destruct (ghosts s !! i) as [g|]; [|done].
  injection Hi as <-. by exists g.
Qed.

Lemma stays_insert i j g s s' :
  j ≠ i → ghosts s' = <[j := g]> (ghosts s) → resets s' = resets s → stays i s s'.
Proof.
  intros Hne Hg _ g' Hi _. rewrite Hg, list_lookup_insert_ne in Hi by done.
  by exists g'.
Qed.

Lemma resetPositions_alive i s g :
  ghosts (resetPositions s) !! i = Some g → GhostEntity.isDying g = false.
Proof.
  cbn. rewrite list_lookup_imap. destruct (ghosts s !! i) as [g0|]; [|done].
  by intros [= <-].
Qed.

Lemma stays_resetPositions i s : stays i s (resetPositions s).
Proof. intros g' Hi Hd. apply resetPositions_alive in Hi. congruence. Qed.

Lemma advances_keeps_l i s1 s2 s3 : keeps i s1 s2 → advances i s2 s3 → advances i s1 s3.
Proof.
  intros [Hle1 H1] [Hle2 H2]. split; [lia|]. intros Heq g Hg Hd.
  destruct (H1 ltac:(lia) g Hg) as (g1 & Hg1 & Hu1).
  destruct (H2 ltac:(lia) g1 Hg1) as (g2 & Hg2 & Hu2).
  { by rewrite (unscare_isDying _ _ Hu1). }
  exists g2. split; [done|]. by rewrite Hu2, !unscare_dyingStep, Hu1.
Qed.

Lemma advances_keeps_r i s1 s2 s3 : advances i s1 s2 → keeps i s2 s3 → advances i s1 s3.
Proof.
  intros [Hle1 H1] [Hle2 H2]. split; [lia|]. intros Heq g Hg Hd.
  destruct (H1 ltac:(lia) g Hg Hd) as (g1 & Hg1 & Hu1).
  destruct (H2 ltac:(lia) g1 Hg1) as (g2 & Hg2 & Hu2).
  exists g2. split; [done|congruence].
Qed.

Lemma enters_stays_l i s1 s2 s3 : stays i s1 s2 → enters i s2 s3 → enters i s1 s3.
Proof.
  intros H1 H2 g3 Hg3 Hd3. destruct (H2 g3 Hg3 Hd3) as [(g2 & Hg2 & Hd2)|Ht]; [|by right].
  left. destruct (H1 g2 Hg2 Hd2) as (g1 & Hg1 & Hu1). exists g1. split; [done|].
  by rewrite <- (unscare_isDying _ _ Hu1).
Qed.

Lemma enters_stays_r i s1 s2 s3 : enters i s1 s2 → stays i s2 s3 → enters i s1 s3.
Proof.
  intros H1 H2 g3 Hg3 Hd3. destruct (H2 g3 Hg3 Hd3) as (g2 & Hg2 & Hu2).
  destruct (H1 g2 Hg2) as [Hl|Ht].
  - by rewrite <- (unscare_isDying _ _ Hu2).
  - by left.
  - right. by rewrite (unscare_deathTimer _ _ Hu2).
Qed.

Lemma stays_enters i s s' : stays i s s' → enters i s s'.
Proof.
  intros H g' Hg' Hd'. left. destruct (H g' Hg' Hd') as (g & Hg & Hu).
  exists g. split; [done|]. by rewrite <- (unscare_isDying _ _ Hu).
Qed.

Section Dying.

Variable env : Env.

Lemma resets_ghostStep p i s : (resets s ≤ resets (ghostStep env p i s))%nat.
Proof.
  unfold ghostStep. destruct (ghosts s !! i) as [g|]; [|done].
  destruct (GhostEntity.isDying g); [done|].
  cbv zeta. destruct (steerGhost_state env g s) as [n Hn].
  match goal with |- (_ ≤ resets (respawnGhost env i ?t))%nat =>
    destruct (respawnGhost_quiet env i t) as (_ & _ & _ & _ & Ht);
    unfold resets at 2; rewrite Ht end.
  unfold hitGhost. rewrite Hn.
  destruct (_ && _); [|done].
  by destruct (GhostEntity.isScared _).
Qed.

Lemma advances_ghostStep i p s : advances i s (ghostStep env p i s).
Proof.
  split; [apply resets_ghostStep|].
  intros _ g Hg Hd. rewrite (ghostStep_dying env p i s g Hg Hd).
  exists (dyingStep g). split; [|done]. cbn.
  apply list_lookup_insert_eq. by eapply lookup_lt_Some.
Qed.

Lemma keeps_frame_before i s :
  let isAt := isAligned (Entity.x (pacman s)) (Entity.y (pacman s)) in
  let s1 := wrapPacman (movePacman env isAt (acceptNextDir isAt s)) in
  let p := pacman s1 in
  keeps i s (updateFragments (updatePopups (updatePowerMode
               (tileEffect env p (recoverLost p s1))))).
Proof.
  apply (frame_before env keeps keeps_trans keeps_quiet keeps_map
           keeps_resetPositions).
Qed.

Lemma stays_frame_before i s :
  let isAt := isAligned (Entity.x (pacman s)) (Entity.y (pacman s)) in
  let s1 := wrapPacman (movePacman env isAt (acceptNextDir isAt s)) in
  let p := pacman s1 in
  stays i s (updateFragments (updatePopups (updatePowerMode
               (tileEffect env p (recoverLost p s1))))).
Proof.
  apply (frame_before env stays stays_trans stays_quiet stays_map
           stays_resetPositions).
Qed.

Lemma advances_updateGhosts i p s : advances i s (updateGhosts env p s).
Proof.
  destruct (decide (i < length (ghosts s))%nat) as [Hi|Hi].
  - destruct (updateGhosts_split env keeps keeps_trans keeps_quiet keeps_insert
               i p s Hi) as (_ & H1 & H2).
    eapply advances_keeps_l; [exact H1|].
    eapply advances_keeps_r; [apply advances_ghostStep|exact H2].
  - destruct (updateGhosts_beyond env keeps keeps_trans keeps_quiet keeps_insert
               i p s Hi) as [Hle _].
    split; [exact Hle|]. intros _ g Hg. apply lookup_lt_Some in Hg. lia.
Qed.

(** A tick advances the animation of a dying ghost, unless it resets
    the positions. *)
Lemma update_advances i s : gameState s = PLAYING → advances i s (update env s).
Proof.
  intros Hplay. rewrite (update_playing env s Hplay).
  eapply advances_keeps_r;
    [|apply (frame_runLives keeps keeps_trans keeps_quiet keeps_resetPositions)].
  rewrite tick_phases. cbv zeta.
  eapply advances_keeps_r;
    [|apply (frame_after env keeps keeps_trans keeps_quiet)].
  eapply advances_keeps_l; [|apply advances_updateGhosts].
  apply keeps_frame_before.
Qed.

Lemma update_dying i s g :
  gameState s = PLAYING → ghosts s !! i = Some g → GhostEntity.isDying g = true →
  resets (update env s) = resets s →
  ∃ g', ghosts (update env s) !! i = Some g' ∧ unscare g' = unscare (dyingStep g).
Proof.
  intros Hplay Hg Hd Hr. exact (proj2 (update_advances i s Hplay) Hr g Hg Hd).
Qed.

(** The callback of the loop is the only place where a ghost starts
    dying, with its timer at 30. *)
Lemma enters_ghostStep i p s : enters i s (ghostStep env p i s).
Proof.
  intros g' Hg' Hd'. unfold ghostStep in Hg'.
  destruct (ghosts s !! i) as [g|] eqn:Hg; [|by rewrite Hg in Hg'].
  destruct (GhostEntity.isDying g) eqn:Hd; [left; by exists g|]. right.
  cbv zeta in Hg'. destruct (steerGhost_state env g s) as [n Hn].
  destruct (steerGhost_flags env g s) as (_ & Hd1 & _).
  destruct (moveGhost_flags (steerGhost env g s).1) as (_ & Hd2 & _).
  rewrite Hn in Hg'. set (g1 := moveGhost (steerGhost env g s).1) in *.
  assert (Hi : (i < length (ghosts s))%nat) by by eapply lookup_lt_Some.
  assert (Hhit : ∀ g2, ghosts (hitGhost p i g1 (setGhost i g1 (drawn n s))) !! i = Some g2 →
                       GhostEntity.isDying g2 = true → GhostEntity.deathTimer g2 = 30).
  { intros g2. unfold hitGhost. destruct (_ && _).
    - destruct (GhostEntity.isScared g1).
      + cbn. rewrite list_lookup_insert_eq by by rewrite length_insert.
        by intros [= <-].
      + cbn. rewrite list_lookup_insert_eq by done. intros [= <-]. congruence.
    - cbn. rewrite list_lookup_insert_eq by done. intros [= <-]. congruence. }
  revert Hg'. unfold respawnGhost.
  destruct (ghosts (hitGhost p i g1 (setGhost i g1 (drawn n s))) !! i) as [g2|] eqn:H2.
  - destruct (GhostEntity.isEaten g2).
    + destruct (randomBelow _ _ _).
      * cbn. rewrite list_lookup_insert_eq by by eapply lookup_lt_Some.
        intros [= <-]. cbn in Hd'. cbn. by apply Hhit.
      * change (ghosts (drawn 1 ?t)) with (ghosts t). rewrite H2. intros [= <-].
        by apply Hhit.
    + rewrite H2. intros [= <-]. by apply Hhit.
  - by rewrite H2.
Qed.

Lemma enters_updateGhosts i p s : enters i s (updateGhosts env p s).
Proof.
  destruct (decide (i < length (ghosts s))%nat) as [Hi|Hi].
  - destruct (updateGhosts_split env stays stays_trans stays_quiet stays_insert
               i p s Hi) as (_ & H1 & H2).
    eapply enters_stays_l; [exact H1|].
    eapply enters_stays_r; [apply enters_ghostStep|exact H2].
  - apply stays_enters.
    apply (updateGhosts_beyond env stays stays_trans stays_quiet stays_insert
             i p s Hi).
Qed.

Lemma update_enters i s : enters i s (update env s).
Proof.
  destruct (decide (gameState s = PLAYING)) as [Hplay|Hplay].
  2:{ rewrite update_not_playing by done. apply stays_enters. by apply stays_quiet. }
  rewrite (update_playing env s Hplay).
  eapply enters_stays_r;
    [|apply (frame_runLives stays stays_trans stays_quiet stays_resetPositions)].
  rewrite tick_phases. cbv zeta.
  eapply enters_stays_r;
    [|apply (frame_after env stays stays_trans stays_quiet)].
  eapply enters_stays_l; [|apply enters_updateGhosts].
  apply stays_frame_before.
Qed.

End Dying.

(** *** Thirty ticks *)

Lemma dyingStep_more g :
  1 < GhostEntity.deathTimer g →
  GhostEntity.isDying (dyingStep g) = GhostEntity.isDying g
  ∧ GhostEntity.deathTimer (dyingStep g) = GhostEntity.deathTimer g - 1.
Proof.
  intros H. unfold dyingStep. cbn.
  by destruct (Z.leb_spec (GhostEntity.deathTimer g - 1) 0) as [Hle|Hgt]; [lia|].
Qed.

Lemma dyingStep_end g :
  GhostEntity.deathTimer g ≤ 1 →
  ghostState (dyingStep g) = EATEN
  ∧ GhostEntity.x (dyingStep g) = GRID_WIDTH / 2 * TILE_SIZE
  ∧ GhostEntity.y (dyingStep g) = GRID_HEIGHT / 2 * TILE_SIZE.
Proof.
  intros H. unfold dyingStep. cbn.
  by destruct (Z.leb_spec (GhostEntity.deathTimer g - 1) 0) as [Hle|Hgt]; [|lia].
Qed.

Lemma dyingStep_iter g k :
  GhostEntity.isDying g = true → GhostEntity.deathTimer g = 30 → (k < 30)%nat →
  GhostEntity.isDying (Nat.iter k dyingStep g) = true
  ∧ GhostEntity.deathTimer (Nat.iter k dyingStep g) = 30 - Z.of_nat k.
Proof.
  intros Hd Ht. induction k as [|k IH]; intros Hk; [split; [done|exact Ht]|].
  destruct IH as [IHd IHt]; [lia|].
  rewrite Nat.iter_succ.
  destruct (dyingStep_more (Nat.iter k dyingStep g)) as [-> ->]; [lia|].
  split; [done|lia].
Qed.

Lemma dyingStep_last g :
  GhostEntity.isDying g = true → GhostEntity.deathTimer g = 30 →
  ghostState (Nat.iter 30 dyingStep g) = EATEN
  ∧ GhostEntity.x (Nat.iter 30 dyingStep g) = GRID_WIDTH / 2 * TILE_SIZE
  ∧ GhostEntity.y (Nat.iter 30 dyingStep g) = GRID_HEIGHT / 2 * TILE_SIZE.
Proof.
  intros Hd Ht. destruct (dyingStep_iter g 29 Hd Ht) as [_ Ht29]; [lia|].
  rewrite (Nat.iter_succ 29).
  apply dyingStep_end. lia.
Qed.

Lemma ghostState_unscare g g' :
  unscare g' = unscare g →
  GhostEntity.isDying g = true ∨ GhostEntity.isEaten g = true →
  ghostState g' = ghostState g.
Proof.
  intros Hu H. unfold ghostState. rewrite (unscare_isDying _ _ Hu).
  apply (f_equal GhostEntity.isEaten) in Hu. cbn in Hu. rewrite Hu.
  destruct (GhostEntity.isDying g); [done|]. destruct H as [? | ->]; done.
Qed.

Lemma ghostState_dying g : ghostState g = DYING ↔ GhostEntity.isDying g = true.
Proof. unfold ghostState. repeat case_match; split; done. Qed.

Lemma run_dying envs i s g :
  ghosts s !! i = Some g → GhostEntity.isDying g = true → GhostEntity.deathTimer g = 30 →
  ∀ n, (n ≤ 30)%nat →
    (∀ k, (k < n)%nat →
       gameState (run envs k s) = PLAYING
       ∧ resets (run envs (S k) s) = resets (run envs k s)) →
    ∃ g', ghosts (run envs n s) !! i = Some g'
          ∧ unscare g' = unscare (Nat.iter n dyingStep g).
Proof.
  intros Hg Hd Ht. induction n as [|n IH]; intros Hn Hrun; [by exists g|].
  destruct IH as (g1 & Hg1 & Hu1); [lia|intros k Hk; apply Hrun; lia|].
  destruct (Hrun n ltac:(lia)) as [Hplay Hres].
  destruct (dyingStep_iter g n Hd Ht ltac:(lia)) as [Hdn _].
  destruct (update_dying (envs n) i (run envs n s) g1 Hplay Hg1) as (g2 & Hg2 & Hu2).
  { by rewrite (unscare_isDying _ _ Hu1). }
  { exact Hres. }
  exists g2. split; [exact Hg2|].
  rewrite Nat.iter_succ.
  by rewrite Hu2, !unscare_dyingStep, Hu1.
Qed.

Lemma chaseStart_eq : startGame chaseEnv 80 initialState = Some chaseStart.
Proof. vm_compute. reflexivity. Qed.

Lemma reachable_chaseTicks n s : reachable s → reachable (chaseTicks n s).
Proof.
  intros H. induction n as [|n IH]; [exact H|]. simpl. by apply reach_update.
Qed.

Lemma reachable_chaseDying : reachable chaseDying.
Proof.
  unfold chaseDying, chaseEaten, chaseScared.
  apply (reachable_chaseTicks 13). apply (reachable_chaseTicks 1).
  apply (reachable_chaseTicks 66). apply reach_steer.
  apply (reachable_chaseTicks 9). apply reach_steer.
  apply (reachable_chaseTicks 9). apply reach_steer.
  eapply reach_start; [apply reach_initial|apply chaseStart_eq].
Qed.

(** C7, counterexample.  In the third concrete run the player, in power
    mode, eats the first ghost: the ghost is scared in [chaseScared] and
    dying with its timer at 30 one tick later.  After 13 more ticks, in
    the reachable state [chaseDying], it is still dying, with 17 ticks
    to go.  In the next tick the witch reaches the player, a life is
    lost and [resetPositions] puts every ghost back into the house with
    its flags cleared: the ghost is in its normal state, left of the
    centre of the house, and it has never been in the eaten state. *)
Lemma C7_counterexample :
  reachable chaseDying
  ∧ gameState chaseDying = PLAYING
  ∧ (ghostState <$> ghosts chaseScared !! 0%nat) = Some SCARED
  ∧ ((λ g, (ghostState g, GhostEntity.deathTimer g)) <$> ghosts chaseEaten !! 0%nat)
    = Some (DYING, 30)
  ∧ ((λ g, (ghostState g, GhostEntity.deathTimer g)) <$> ghosts chaseDying !! 0%nat)
    = Some (DYING, 17)
  ∧ ((λ g, (ghostState g, GhostEntity.x g, GhostEntity.y g))
       <$> ghosts (update chaseEnv chaseDying) !! 0%nat)
    = Some (NORMAL, 216, 360)
  ∧ GRID_WIDTH / 2 * TILE_SIZE = 252
  ∧ lives (update chaseEnv chaseDying) = lives chaseDying - 1.
Proof. split; [exact reachable_chaseDying|]. vm_compute. tauto. Qed.

(** C7, amended.  A ghost starts dying only with its timer at 30: if
    it is not dying before a tick and dying after it, its [deathTimer]
    is 30.  From a state in which it is dying with its timer at 30, and
    as long as the game is playing and no tick calls [resetPositions]:
    after [k < 30] ticks it is dying with its timer at [30 - k], and
    after 30 ticks it is eaten and stands on the centre of the ghost
    house.  A reset of the positions during the animation ends it. *)
Theorem C7_death_animation (envs : nat → Env) (i : nat) (s : State) (g : GhostEntity.t) :
  ghosts s !! i = Some g →
  (∀ env g', ghostState g ≠ DYING →
             ghosts (update env s) !! i = Some g' → ghostState g' = DYING →
             GhostEntity.deathTimer g' = 30)
  ∧ (ghostState g = DYING → GhostEntity.deathTimer g = 30 →
     (∀ k, (k < 30)%nat →
        gameState (run envs k s) = PLAYING
        ∧ resets (run envs (S k) s) = resets (run envs k s)) →
     (∀ k, (k < 30)%nat →
        ∃ g', ghosts (run envs k s) !! i = Some g'
              ∧ ghostState g' = DYING
              ∧ GhostEntity.deathTimer g' = 30 - Z.of_nat k)
     ∧ ∃ g', ghosts (run envs 30 s) !! i = Some g'
             ∧ ghostState g' = EATEN
             ∧ GhostEntity.x g' = GRID_WIDTH / 2 * TILE_SIZE
             ∧ GhostEntity.y g' = GRID_HEIGHT / 2 * TILE_SIZE).
Proof.
  intros Hg. split.
  - intros env g' Hnd Hg' Hd'. apply ghostState_dying in Hd'.
    destruct (update_enters env i s g' Hg' Hd') as [(g0 & Hg0 & Hd0)|Ht]; [|exact Ht].
    exfalso. apply Hnd. apply ghostState_dying. congruence.
  - intros Hd Ht Hrun. apply ghostState_dying in Hd. split.
    + intros k Hk.
      destruct (run_dying envs i s g Hg Hd Ht k) as (g' & Hg' & Hu); [lia| |].
      { intros j Hj. apply Hrun. lia. }
      destruct (dyingStep_iter g k Hd Ht Hk) as [Hdk Htk].
      exists g'. split; [exact Hg'|]. split.
      * apply ghostState_dying. by rewrite (unscare_isDying _ _ Hu).
      * by rewrite (unscare_deathTimer _ _ Hu).
    + destruct (run_dying envs i s g Hg Hd Ht 30) as (g' & Hg' & Hu); [lia|exact Hrun|].
      destruct (dyingStep_last g Hd Ht) as (He & Hx & Hy).
      exists g'. split; [exact Hg'|]. split; [|split].
      * rewrite (ghostState_unscare _ _ Hu); [exact He|]. right.
        revert He. generalize (Nat.iter 30 dyingStep g). intros g0.
        unfold ghostState. by repeat case_match.
      * rewrite (proj1 (unscare_place _ _ Hu)). exact Hx.
      * rewrite (proj2 (unscare_place _ _ Hu)). exact Hy.
Qed.

Lemma C7_witness :
  (∀ k, (k < 30)%nat →
     ∃ g', ghosts (run (λ _, demoEnv) k demoEaten) !! 0%nat = Some g'
           ∧ ghostState g' = DYING
           ∧ GhostEntity.deathTimer g' = 30 - Z.of_nat k)
  ∧ ∃ g', ghosts (run (λ _, demoEnv) 30 demoEaten) !! 0%nat = Some g'
          ∧ ghostState g' = EATEN
          ∧ GhostEntity.x g' = GRID_WIDTH / 2 * TILE_SIZE
          ∧ GhostEntity.y g' = GRID_HEIGHT / 2 * TILE_SIZE.
Proof.
  apply (C7_death_animation (λ _, demoEnv) 0 demoEaten
           (GhostEntity.mk 235 396 LEFT UP 2 "#ff0000" "cape" false false true 30)).
  - by vm_compute.
  - reflexivity.
  - reflexivity.
  - intros k Hk.
    do 30 (destruct k as [|k]; [split; vm_compute; reflexivity|]). lia.
Defined.

(** ** Paths *)

Lemma passable_dec m c : passable m c ∨ ¬ passable m c.
Proof.
  unfold passable. destruct (cellAt m c.1 c.2) as [v|]; [|right; by intros (v & ? & _)].
  destruct (decide (v = 1)) as [->|Hv]; [right|left; by exists v].
  intros (v & [= <-] & Hv). done.
Qed.

Lemma linked_mono m m' a b :
  (∀ c, passable m c → passable m' c) → linked m a b → linked m' a b.
Proof.
  intros Hm. induction 1 as [a Ha|a b c _ IH Hadj Hc].
  - apply linked_here, Hm, Ha.
  - eapply linked_step; [exact IH|exact Hadj|apply Hm, Hc].
Qed.

Lemma linked_trans m a b c : linked m a b → linked m b c → linked m a c.
Proof.
  intros Hab. induction 1 as [b Hb|b c e _ IH Hadj He]; [done|].
  eapply linked_step; [by apply IH|exact Hadj|exact He].
Qed.

Lemma linked_ends m a b : linked m a b → passable m a ∧ passable m b.
Proof. induction 1 as [a Ha|a b c _ [IHa _] _ Hc]; done. Qed.

Lemma adjacent_sym a b : adjacent a b → adjacent b a.
Proof. unfold adjacent. intuition lia. Qed.

Lemma linked_edge m a b : passable m a → passable m b → adjacent a b → linked m a b.
Proof. intros Ha Hb Hadj. eapply linked_step; [by apply linked_here|done..]. Qed.

Lemma linked_sym m a b : linked m a b → linked m b a.
Proof.
  induction 1 as [a Ha|a b c Hab IH Hadj Hc]; [by apply linked_here|].
  eapply linked_trans; [|exact IH].
  apply linked_edge; [done| |by apply adjacent_sym].
  by destruct (linked_ends _ _ _ Hab).
Qed.

(** ** The random order is a permutation *)

Lemma shuffle_Permutation {A} fuel : ∀ code (l : list A),
  (length l ≤ fuel)%nat → shuffle fuel code l ≡ₚ l.
Proof.
  induction fuel as [|fuel IH]; intros code l Hlen.
  - destruct l; [done|simpl in Hlen; lia].
  - simpl. destruct l as [|a0 l0] eqn:Hl; [done|]. rewrite <- Hl in *.
    assert (Hn : (0 < length l)%nat) by (rewrite Hl; simpl; lia).
    destruct (lookup_lt_is_Some_2 l (code mod length l)%nat) as [a Ha].
    { apply Nat.mod_upper_bound. lia. }
    rewrite Ha. etransitivity; [|symmetry; apply (delete_Permutation l _ a Ha)].
    apply perm_skip. apply IH.
    pose proof (length_delete l _ (mk_is_Some _ _ Ha)). lia.
Qed.

Lemma shuffle_walkDirs code d : d ∈ walkDirs → d ∈ shuffle 4 code walkDirs.
Proof.
  intros Hd. by rewrite (shuffle_Permutation 4 code walkDirs) by (simpl; lia).
Qed.

(** ** What [walk] achieves *)

Lemma carved_refl m : carved m m.
Proof. intros a b. by left. Qed.

Lemma carved_trans m1 m2 m3 : carved m1 m2 → carved m2 m3 → carved m1 m3.
Proof.
  intros H12 H23 a b. destruct (H23 a b) as [H|H]; [|by right].
  rewrite H. apply H12.
Qed.

Lemma carved_setCell m x y : interior x y → carved m (setCell m x y 0).
Proof.
  intros Hi a b. rewrite cellAt_setCell. case_decide as Heq; [|by left].
  injection Heq as -> ->. destruct (cellAt m x y); [right|left]; done.
Qed.

Lemma carved_passable m m' c : carved m m' → passable m c → passable m' c.
Proof.
  intros Hc (v & Hv & Hne). destruct (Hc c.1 c.2) as [H|[_ H]].
  - exists v. by rewrite H.
  - by exists 0.
Qed.

Lemma carved_fullGrid m m' : carved m m' → fullGrid m → fullGrid m'.
Proof.
  intros Hc Hg a b Ha Hb. destruct (Hc a b) as [H|[_ H]]; rewrite H; [by apply Hg|done].
Qed.

Lemma interior_range x y :
  interior x y → 0 ≤ x < GRID_WIDTH ∧ 0 ≤ y < GRID_HEIGHT.
Proof. unfold interior, GRID_WIDTH, GRID_HEIGHT. lia. Qed.

Lemma fullGrid_interior m x y : fullGrid m → interior x y → is_Some (cellAt m x y).
Proof. intros Hg Hi. apply interior_range in Hi as [? ?]. by apply Hg. Qed.

Lemma passable_setCell m x y :
  is_Some (cellAt m x y) → passable (setCell m x y 0) (x, y).
Proof. intros H. exists 0. split; [|done]. by apply cellAt_setCell_eq. Qed.

Lemma passable_setCell_inv m x y c :
  passable (setCell m x y 0) c → passable m c ∨ c = (x, y).
Proof.
  intros (v & Hv & Hne). rewrite cellAt_setCell in Hv. case_decide as Heq.
  - right. by destruct c.
  - left. by exists v.
Qed.

Lemma odd_shift x d :
  Z.odd x = true → d = 0 ∨ d = 2 ∨ d = -2 → Z.odd (x + d) = true.
Proof.
  rewrite !Z.odd_spec. intros [k ->] [-> | [-> | ->]];
    [exists k|exists (k + 1)|exists (k - 1)]; lia.
Qed.

Lemma odd_not_shift x d :
  Z.odd x = true → d = 1 ∨ d = -1 → Z.odd (x + d) = false.
Proof.
  intros Hx Hd. destruct (Z.odd (x + d)) eqn:Ho; [|done]. exfalso.
  apply Z.odd_spec in Hx as [k ->]. apply Z.odd_spec in Ho as [j Hj]. lia.
Qed.

(** The geometry of one step of [walk]. *)
Lemma walk_step_geometry x y d :
  d ∈ walkDirs → oddCell x y →
  adjacent (x, y) (x + d.1 / 2, y + d.2 / 2)
  ∧ adjacent (x + d.1 / 2, y + d.2 / 2) (x + d.1, y + d.2)
  ∧ (Z.odd (x + d.1 / 2) = true ∨ Z.odd (y + d.2 / 2) = true)
  ∧ (Z.odd (x + d.1 / 2) = false ∨ Z.odd (y + d.2 / 2) = false)
  ∧ Z.odd (x + d.1) = true ∧ Z.odd (y + d.2) = true.
Proof.
  intros Hd (_ & Hx & Hy). unfold adjacent.
  destruct (walkDirs_cases d Hd) as [-> | [-> | [-> | ->]]]; cbn [fst snd];
    change (0 / 2) with 0; change (2 / 2) with 1; change (-2 / 2) with (-1);
    rewrite ?Z.add_0_r;
    (split; [lia|]); (split; [lia|]);
    (split; [by (left + right)|]);
    (split; [first [left; apply odd_not_shift; [done|lia]
                   |right; apply odd_not_shift; [done|lia]]|]);
    split; first [done|apply odd_shift; [done|lia]].
Qed.

Section Carving.

Variable env : Env.

Lemma walk_loop fuel x y m :
  (∀ x y m k r, oddCell x y → fullGrid m →
                walk env fuel x y (m, k) = Some r → walked m x y r.1) →
  oddCell x y → fullGrid m →
  ∀ dirs seen m1 k1 r,
    (∀ d, d ∈ dirs → d ∈ walkDirs) →
    walking m x y seen m1 →
    fold_left (walkBody env fuel x y) dirs (Some (m1, k1)) = Some r →
    walking m x y (seen ++ dirs) r.1.
Proof.
  intros IH Hxy Hgrid. induction dirs as [|d dirs IHd]; intros seen m1 k1 r Hsub Hinv; simpl.
  - intros [= <-]. by rewrite app_nil_r.
  - assert (Hd : d ∈ walkDirs) by (apply Hsub; by left).
    assert (Hsub' : ∀ d', d' ∈ dirs → d' ∈ walkDirs) by (intros d' ?; apply Hsub; by right).
    replace (seen ++ d :: dirs) with ((seen ++ [d]) ++ dirs) by (by rewrite <- app_assoc).
    destruct Hinv as (Hcarved & Hhere & Hclosed & Hseen & Hlink & Hparity).
    assert (Hgrid1 : fullGrid m1) by by eapply carved_fullGrid.
    destruct (walk_step_geometry x y d Hd Hxy) as (Hadj1 & Hadj2 & Hbo & Hbe & Hnx & Hny).
    destruct ((0 <? x + d.1) && (x + d.1 <? GRID_WIDTH - 1) && (0 <? y + d.2)
       && (y + d.2 <? GRID_HEIGHT - 1) && cellIs m1 (x + d.1) (y + d.2) 1) eqn:Hg.
    + apply walkBody_guard in Hg as [Hn Hwall].
      assert (Hb : interior (x + d.1 / 2) (y + d.2 / 2)).
      { apply interior_between; [done|apply Hxy|done]. }
      set (m2 := setCell m1 (x + d.1 / 2) (y + d.2 / 2) 0) in *.
      assert (H12 : carved m1 m2) by by apply carved_setCell.
      assert (Hgrid2 : fullGrid m2) by by eapply carved_fullGrid.
      destruct (walk env fuel (x + d.1) (y + d.2) (m2, k1)) as [[m3 k3]|] eqn:Hw;
        [|by rewrite fold_left_None].
      apply IH in Hw; [|exact (conj Hn (conj Hnx Hny))|done]. cbn [fst] in Hw.
      destruct Hw as (H23 & Hn3 & Hclosed3 & Hlink3 & Hparity3).
      assert (H13 : carved m1 m3) by by eapply carved_trans.
      assert (Hb2 : passable m2 (x + d.1 / 2, y + d.2 / 2)).
      { apply passable_setCell. by apply fullGrid_interior. }
      assert (Hhere3 : passable m3 (x, y)) by exact (carved_passable _ _ _ H13 Hhere).
      assert (Hb3 : passable m3 (x + d.1 / 2, y + d.2 / 2))
        by exact (carved_passable _ _ _ H23 Hb2).
      assert (Hxn : linked m3 (x, y) (x + d.1, y + d.2)).
      { eapply linked_step; [by apply linked_edge|done|done]. }
      apply (IHd (seen ++ [d]) m3 k3 r Hsub'). repeat split.
      * by eapply carved_trans.
      * done.
      * intros a b Hab Hne Hp3 Hnp d' Hd' Hi'.
        destruct (passable_dec m2 (a, b)) as [Hp2|Hnp2].
        -- apply passable_setCell_inv in Hp2 as [Hp1|[= -> ->]].
           ++ eapply carved_passable; [exact H13|]. by eapply Hclosed.
           ++ destruct Hab as (_ & Ha & Hb'). destruct Hbe; congruence.
        -- by eapply Hclosed3.
      * intros d' [Hd'|Hd']%elem_of_app Hi'.
        -- eapply carved_passable; [exact H13|]. by apply Hseen.
        -- apply list_elem_of_singleton in Hd' as ->. done.
      * intros c Hp3 Hnp.
        destruct (passable_dec m2 c) as [Hp2|Hnp2].
        -- apply passable_setCell_inv in Hp2 as [Hp1| ->].
           ++ eapply linked_mono; [|by apply Hlink].
              intros c'. by apply carved_passable.
           ++ by apply linked_edge.
        -- eapply linked_trans; [exact Hxn|]. by apply Hlink3.
      * intros c Hp3 Hnp.
        destruct (passable_dec m2 c) as [Hp2|Hnp2].
        -- apply passable_setCell_inv in Hp2 as [Hp1| ->]; [by apply Hparity|done].
        -- by apply Hparity3.
    + apply (IHd (seen ++ [d]) m1 k1 r Hsub'). repeat split; try done.
      intros d' [Hd'|Hd']%elem_of_app Hi'; [by apply Hseen|].
      apply list_elem_of_singleton in Hd' as ->.
      destruct (fullGrid_interior m1 (x + d.1) (y + d.2) Hgrid1 Hi') as [v Hv].
      exists v. split; [done|]. intros ->.
      apply cellIs_true in Hv. rewrite Hv, andb_true_r in Hg.
      unfold interior in Hi'.
      rewrite !andb_false_iff, !Z.ltb_ge in Hg. lia.
Qed.

Lemma walk_walked fuel : ∀ x y m k r,
  oddCell x y → fullGrid m → walk env fuel x y (m, k) = Some r → walked m x y r.1.
Proof.
  induction fuel as [|fuel IH]; intros x y m k r Hxy Hgrid; [done|].
  rewrite walk_unfold. cbn [fst snd]. intros Hfold.
  assert (Hi : interior x y) by apply Hxy.
  assert (Hsome : is_Some (cellAt m x y)) by by apply fullGrid_interior.
  pose proof (walk_loop fuel x y m IH Hxy Hgrid
                (shuffle 4 (sortOrder env k) walkDirs) [] (setCell m x y 0) (S k) r) as Hloop.
  destruct Hloop as (Hcarved & Hhere & Hclosed & Hseen & Hlink & Hparity).
  - intros d. apply shuffle_elem.
  - repeat split.
    + by apply carved_setCell.
    + by apply passable_setCell.
    + intros a b Hab Hne Hp Hnp. by apply passable_setCell_inv in Hp as [?|[= -> ->]].
    + intros d Hd. by apply elem_of_nil in Hd.
    + intros c Hp Hnp. apply passable_setCell_inv in Hp as [?| ->]; [done|].
      apply linked_here. by apply passable_setCell.
    + intros c Hp Hnp. apply passable_setCell_inv in Hp as [?| ->]; [done|].
      left. apply Hxy.
  - exact Hfold.
  - repeat split; try done.
    intros a b Hab Hp Hnp d Hd Hi'.
    destruct (decide ((a, b) = (x, y))) as [[= -> ->]|Hne]; [|by eapply Hclosed].
    apply Hseen; [|done]. simpl. by apply shuffle_walkDirs.
Qed.

End Carving.

(** ** The maze [generateMaze] returns *)

Lemma cellAt_allWalls_cases a b :
  cellAt allWalls a b
  = if decide (0 ≤ a < GRID_WIDTH ∧ 0 ≤ b < GRID_HEIGHT) then Some 1 else None.
Proof.
  case_decide as Hr.
  - destruct Hr. by apply cellAt_allWalls.
  - destruct (cellAt allWalls a b) eqn:Hc; [|done].
    exfalso. apply Hr. apply allWalls_bounded. by eexists.
Qed.

Lemma fullGrid_allWalls : fullGrid allWalls.
Proof. intros a b Ha Hb. rewrite cellAt_allWalls_cases, decide_True by done. done. Qed.

Lemma allWalls_blocked c : ¬ passable allWalls c.
Proof.
  intros (v & Hv & Hne). rewrite cellAt_allWalls_cases in Hv.
  case_decide; [|done]. by injection Hv as <-.
Qed.

(** A maze carved out of the block of walls holds 0 and 1 only. *)
Lemma carved_cells w a b :
  carved allWalls w →
  cellAt w a b
  = if decide (0 ≤ a < GRID_WIDTH ∧ 0 ≤ b < GRID_HEIGHT)
    then (if cellIs w a b 0 then Some 0 else Some 1)
    else None.
Proof.
  intros Hc. unfold cellIs. destruct (Hc a b) as [H|[Hi H]].
  - rewrite H, cellAt_allWalls_cases. by case_decide.
  - apply interior_range in Hi. rewrite decide_True by done. by rewrite H.
Qed.

Lemma carved_passable_iff w c :
  carved allWalls w → passable w c ↔ cellIs w c.1 c.2 0 = true.
Proof.
  intros Hc. rewrite cellIs_true. split.
  - intros (v & Hv & Hne). rewrite (carved_cells w _ _ Hc) in Hv.
    case_decide; [|done]. destruct (cellIs w c.1 c.2 0) eqn:H0.
    + by apply cellIs_true.
    + by injection Hv as <-.
  - intros H. by exists 0.
Qed.

Lemma cellAt_setCells (cells : list (Z * Z)) v : ∀ m a b,
  cellAt (fold_left (λ m c, setCell m c.1 c.2 v) cells m) a b
  = if decide ((a, b) ∈ cells)
    then match cellAt m a b with Some _ => Some v | None => None end
    else cellAt m a b.
Proof.
  induction cells as [|c cells IH]; intros m a b; cbn [fold_left].
  - rewrite decide_False; [done|]. apply not_elem_of_nil.
  - rewrite IH. rewrite cellAt_setCell.
    destruct (decide ((a, b) = (c.1, c.2))) as [Heq|Hne].
    + assert (Hc : c = (a, b)) by (destruct c; cbn in Heq; congruence).
      subst c. cbn [fst snd].
      rewrite (decide_True (P := (a, b) ∈ (a, b) :: cells)) by (by left).
      destruct (cellAt m a b); by case_decide.
    + assert (Hc : c ≠ (a, b)) by (intros ->; done).
      destruct (decide ((a, b) ∈ cells)) as [Hin|Hnin].
      * rewrite decide_True by (by right). done.
      * rewrite decide_False; [done|]. intros [?|?]%elem_of_cons; done.
Qed.

Lemma carveHouse_cells w : carveHouse w = fold_left (λ m c, setCell m c.1 c.2 0) houseCells w.
Proof. reflexivity. Qed.

Lemma inHouse_cells a b : inHouse a b ↔ (a, b) ∈ houseCells.
Proof.
  unfold inHouse, houseCells, GRID_WIDTH, GRID_HEIGHT.
  change (15 / 2) with 7. change (21 / 2) with 10.
  rewrite !elem_of_cons, elem_of_nil. split.
  - intros [Ha Hb].
    assert (Ha' : a = 6 ∨ a = 7 ∨ a = 8) by lia.
    assert (Hb' : b = 9 ∨ b = 10 ∨ b = 11) by lia.
    destruct Ha' as [-> | [-> | ->]], Hb' as [-> | [-> | ->]]; tauto.
  - intros H. repeat (destruct H as [[= -> ->]|H]; [lia|]). done.
Qed.

Lemma cellAt_carveHouse w a b :
  cellAt (carveHouse w) a b
  = if decide (inHouse a b)
    then match cellAt w a b with Some _ => Some 0 | None => None end
    else cellAt w a b.
Proof.
  rewrite carveHouse_cells, cellAt_setCells.
  destruct (decide ((a, b) ∈ houseCells)) as [Hin|Hnin].
  - rewrite decide_True by (by apply inHouse_cells). done.
  - rewrite decide_False; [done|]. by rewrite inHouse_cells.
Qed.

Section Generated.

Variable env : Env.

(** The result of [generateMaze] cell by cell, in terms of the maze
    [walk] has carved. *)
Lemma generateMaze_cells fuel m :
  generateMaze env fuel = Some m →
  ∃ w k, walk env fuel 1 1 (allWalls, 0%nat) = Some (w, k)
    ∧ ∀ a b,
        cellAt m a b
        = if decide (0 ≤ a < GRID_WIDTH ∧ 0 ≤ b < GRID_HEIGHT) then
            if decide ((a, b) = (7, 19)) then Some 5
            else if decide ((a, b) = (7, 10)) then Some 4
            else if decide (inHouse a b) then Some 2
            else if cellIs w a b 0 then Some 2 else Some 1
          else None.
Proof.
  unfold generateMaze. fold allWalls.
  destruct (walk env fuel 1 1 (allWalls, 0%nat)) as [[w k]|] eqn:Hw; [|done].
  intros [= <-]. exists w, k. split; [done|]. intros a b.
  assert (Hc : carved allWalls w).
  { apply (walk_carved env fuel 1 1 (allWalls, 0%nat) (w, k)); [|done].
    unfold interior, GRID_WIDTH, GRID_HEIGHT. lia. }
  change (GRID_WIDTH / 2) with 7. change (GRID_HEIGHT / 2) with 10.
  change (GRID_HEIGHT - 2) with 19.
  repeat first [rewrite cellAt_setCell|rewrite cellAt_fillPellets
               |rewrite cellAt_carveHouse].
  rewrite !(carved_cells w _ _ Hc).
  rewrite (decide_True (P := 0 ≤ 7 < GRID_WIDTH ∧ 0 ≤ 19 < GRID_HEIGHT)) by done.
  rewrite (decide_True (P := 0 ≤ 7 < GRID_WIDTH ∧ 0 ≤ 10 < GRID_HEIGHT)) by done.
  rewrite (decide_True (P := inHouse 7 10))
    by (unfold inHouse, GRID_WIDTH, GRID_HEIGHT; done).
  rewrite (decide_False (P := inHouse 7 19))
    by (unfold inHouse, GRID_WIDTH, GRID_HEIGHT; change (21 / 2) with 10; lia).
  destruct (decide (0 ≤ a < GRID_WIDTH ∧ 0 ≤ b < GRID_HEIGHT)) as [Hr|Hr].
  - destruct (decide ((a, b) = (7, 19))) as [Heq|Hne].
    { by repeat case_match. }
    destruct (decide ((a, b) = (7, 10))); [by repeat case_match|].
    destruct (decide (inHouse a b)); [by repeat case_match|].
    by destruct (cellIs w a b 0).
  - destruct (decide ((a, b) = (7, 19))) as [[= -> ->]|Hne].
    { exfalso. apply Hr. done. }
    destruct (decide ((a, b) = (7, 10))) as [[= -> ->]|Hne'].
    { exfalso. apply Hr. done. }
    by destruct (decide (inHouse a b)).
Qed.

End Generated.

(** Every cell with two odd coordinates has been visited. *)
Lemma walked_all_odd w :
  walked allWalls 1 1 w → ∀ a b, oddCell a b → passable w (a, b).
Proof.
  intros (_ & H11 & Hclosed & _ & _).
  assert (Hstep : ∀ a b d, oddCell a b → passable w (a, b) → d ∈ walkDirs →
                           interior (a + d.1) (b + d.2) → passable w (a + d.1, b + d.2)).
  { intros a b d Hab Hp Hd Hi. eapply Hclosed; try done. apply allWalls_blocked. }
  assert (Hodd : ∀ n : nat, Z.odd (1 + 2 * Z.of_nat n) = true).
  { intros n. apply Z.odd_spec. exists (Z.of_nat n). lia. }
  assert (Hcol : ∀ j : nat, (j ≤ 9)%nat → passable w (1, 1 + 2 * Z.of_nat j)).
  { induction j as [|j IH]; intros Hj; [exact H11|].
    pose proof (Hstep 1 (1 + 2 * Z.of_nat j) (0, 2)) as H. cbn [fst snd] in H.
    replace (1 + 2 * Z.of_nat j + 2) with (1 + 2 * Z.of_nat (S j)) in H by lia.
    apply H.
    - split; [unfold interior, GRID_WIDTH, GRID_HEIGHT; lia|]. split; [done|apply Hodd].
    - apply IH. lia.
    - unfold walkDirs. by left.
    - unfold interior, GRID_WIDTH, GRID_HEIGHT. lia. }
  assert (Hall : ∀ i j : nat, (i ≤ 6)%nat → (j ≤ 9)%nat →
                              passable w (1 + 2 * Z.of_nat i, 1 + 2 * Z.of_nat j)).
  { induction i as [|i IH]; intros j Hi Hj; [by apply Hcol|].
    pose proof (Hstep (1 + 2 * Z.of_nat i) (1 + 2 * Z.of_nat j) (2, 0)) as H.
    cbn [fst snd] in H. rewrite Z.add_0_r in H.
    replace (1 + 2 * Z.of_nat i + 2) with (1 + 2 * Z.of_nat (S i)) in H by lia.
    apply H.
    - split; [unfold interior, GRID_WIDTH, GRID_HEIGHT; lia|]. split; apply Hodd.
    - apply IH; lia.
    - unfold walkDirs. right. right. by left.
    - unfold interior, GRID_WIDTH, GRID_HEIGHT. lia. }
  intros a b ([Ha Hb] & [i ->]%Z.odd_spec & [j ->]%Z.odd_spec).
  unfold GRID_WIDTH, GRID_HEIGHT in *.
  replace (2 * i + 1) with (1 + 2 * Z.of_nat (Z.to_nat i)) by lia.
  replace (2 * j + 1) with (1 + 2 * Z.of_nat (Z.to_nat j)) by lia.
  apply Hall; lia.
Qed.

(** Within the ghost house every cell is linked to its top centre. *)
Lemma house_linked m :
  (∀ a b, inHouse a b → passable m (a, b)) →
  ∀ a b, inHouse a b → linked m (7, 9) (a, b).
Proof.
  intros Hp.
  assert (Hin : ∀ a b, 6 ≤ a ≤ 8 → 9 ≤ b ≤ 11 → inHouse a b).
  { intros a b Ha Hb. unfold inHouse, GRID_WIDTH, GRID_HEIGHT.
    change (15 / 2) with 7. change (21 / 2) with 10. lia. }
  assert (L9 : linked m (7, 9) (7, 9)) by (apply linked_here, Hp, Hin; lia).
  assert (L10 : linked m (7, 9) (7, 10)).
  { eapply linked_step; [exact L9| |apply Hp, Hin; lia]. unfold adjacent. cbn. lia. }
  assert (L11 : linked m (7, 9) (7, 11)).
  { eapply linked_step; [exact L10| |apply Hp, Hin; lia]. unfold adjacent. cbn. lia. }
  intros a b Hab. pose proof Hab as Hab'.
  unfold inHouse, GRID_WIDTH, GRID_HEIGHT in Hab'.
  change (15 / 2) with 7 in Hab'. change (21 / 2) with 10 in Hab'.
  assert (Lb : linked m (7, 9) (7, b)).
  { assert (Hb : b = 9 ∨ b = 10 ∨ b = 11) by lia.
    destruct Hb as [-> | [-> | ->]]; done. }
  destruct (decide (a = 7)) as [->|Hne]; [done|].
  eapply linked_step; [exact Lb| |by apply Hp].
  unfold adjacent. cbn. lia.
Qed.

Section Structure.

Variable env : Env.

(** The tiles of a generated maze. *)
Lemma generated_tiles fuel m :
  generateMaze env fuel = Some m →
  (∀ a b, is_Some (cellAt m a b) ↔ 0 ≤ a < GRID_WIDTH ∧ 0 ≤ b < GRID_HEIGHT)
  ∧ (∀ a b v, cellAt m a b = Some v → v = 1 ∨ v = 2 ∨ v = 4 ∨ v = 5)
  ∧ (∀ a b, cellAt m a b = Some 4 ↔ (a, b) = (GRID_WIDTH / 2, GRID_HEIGHT / 2))
  ∧ (∀ a b, cellAt m a b = Some 5 ↔ (a, b) = (GRID_WIDTH / 2, GRID_HEIGHT - 2))
  ∧ (∀ a b, inHouse a b → passable m (a, b)).
Proof.
  intros (w & k & Hw & Hcells)%generateMaze_cells.
  change (GRID_WIDTH / 2) with 7. change (GRID_HEIGHT / 2) with 10.
  change (GRID_HEIGHT - 2) with 19.
  assert (Hrange : ∀ a b, inHouse a b → 0 ≤ a < GRID_WIDTH ∧ 0 ≤ b < GRID_HEIGHT).
  { intros a b. unfold inHouse, GRID_WIDTH, GRID_HEIGHT.
    change (15 / 2) with 7. change (21 / 2) with 10. lia. }
  split; [|split; [|split; [|split]]].
  - intros a b. split.
    + intros [v Hv]. rewrite Hcells in Hv. by case_decide.
    + intros Hr. rewrite Hcells. case_decide; [|done]. repeat case_match; by eexists.
  - intros a b v. rewrite Hcells. repeat case_match; intros [= <-]; tauto.
  - intros a b. split.
    + rewrite Hcells. repeat case_match; done.
    + intros [= -> ->]. rewrite Hcells. done.
  - intros a b. split.
    + rewrite Hcells. repeat case_match; done.
    + intros [= -> ->]. rewrite Hcells. done.
  - intros a b Hh. unfold passable. cbn [fst snd]. rewrite Hcells.
    apply Hrange in Hh as Hr. case_decide; [|done].
    repeat case_match; try done; by eexists.
Qed.

(** The lattice of a generated maze. *)
Lemma generated_lattice fuel m :
  generateMaze env fuel = Some m →
  (∀ a b, oddCell a b → passable m (a, b))
  ∧ (∀ a b, 0 ≤ a < GRID_WIDTH → 0 ≤ b < GRID_HEIGHT →
            Z.even a = true → Z.even b = true → ¬ inHouse a b →
            cellAt m a b = Some 1).
Proof.
  intros (w & k & Hw & Hcells)%generateMaze_cells.
  assert (H11 : oddCell 1 1).
  { split; [unfold interior, GRID_WIDTH, GRID_HEIGHT; lia|done]. }
  pose proof (walk_walked env fuel 1 1 allWalls 0%nat (w, k) H11 fullGrid_allWalls Hw)
    as Hwalked. cbn [fst] in Hwalked.
  assert (Hc : carved allWalls w) by apply Hwalked.
  split.
  - intros a b Hab. pose proof (walked_all_odd w Hwalked a b Hab) as Hp.
    apply (carved_passable_iff w (a, b) Hc) in Hp. cbn [fst snd] in Hp.
    unfold passable. cbn [fst snd]. rewrite Hcells, Hp.
    destruct Hab as (Hi%interior_range & _). case_decide; [|done].
    repeat case_match; by eexists.
  - intros a b Ha Hb Hea Heb Hh. rewrite Hcells.
    rewrite decide_True by done.
    destruct (cellIs w a b 0) eqn:H0.
    + exfalso. destruct Hwalked as (_ & _ & _ & _ & Hparity).
      destruct (Hparity (a, b)) as [Ho|Ho].
      * by apply (carved_passable_iff w (a, b) Hc).
      * apply allWalls_blocked.
      * cbn in Ho. rewrite <- Z.negb_even, Hea in Ho. done.
      * cbn in Ho. rewrite <- Z.negb_even, Heb in Ho. done.
    + repeat case_decide; try done; simplify_eq; done.
Qed.

(** Every open cell of a generated maze is linked to the start cell. *)
Lemma generated_connected fuel m :
  generateMaze env fuel = Some m →
  ∀ c, passable m c → linked m (GRID_WIDTH / 2, GRID_HEIGHT - 2) c.
Proof.
  intros Hgen c Hpc.
  pose proof (generated_tiles fuel m Hgen) as (_ & _ & _ & _ & Hhouse).
  pose proof (generated_lattice fuel m Hgen) as (Hodd & _).
  destruct (generateMaze_cells env fuel m Hgen) as (w & k & Hw & Hcells).
  change (GRID_WIDTH / 2) with 7. change (GRID_HEIGHT - 2) with 19.
  assert (H11 : oddCell 1 1).
  { split; [unfold interior, GRID_WIDTH, GRID_HEIGHT; lia|done]. }
  pose proof (walk_walked env fuel 1 1 allWalls 0%nat (w, k) H11 fullGrid_allWalls Hw)
    as Hwalked. cbn [fst] in Hwalked.
  assert (Hc : carved allWalls w) by apply Hwalked.
  assert (Hmono : ∀ c, passable w c → passable m c).
  { intros [a b] Hp. apply (carved_passable_iff w (a, b) Hc) in Hp as H0.
    cbn [fst snd] in H0. unfold passable. cbn [fst snd]. rewrite Hcells, H0.
    destruct Hp as (v & Hv & _). cbn [fst snd] in Hv.
    rewrite decide_True by (apply (generateMaze_bounded env fuel m Hgen);
                            rewrite Hcells; rewrite (carved_cells w a b Hc) in Hv;
                            by repeat case_match).
    repeat case_match; by eexists. }
  assert (Hfrom : ∀ c, passable w c → linked m (1, 1) c).
  { intros c' Hp. eapply linked_mono; [exact Hmono|].
    destruct Hwalked as (_ & _ & _ & Hlink & _). apply Hlink; [done|].
    apply allWalls_blocked. }
  assert (Hall : linked m (1, 1) c).
  { destruct c as [a b].
    destruct (decide (inHouse a b)) as [Hh|Hh].
    - eapply linked_trans; [|by apply house_linked].
      apply Hfrom. apply (walked_all_odd w Hwalked).
      split; [unfold interior, GRID_WIDTH, GRID_HEIGHT; lia|done].
    - destruct (decide ((a, b) = (7, 19))) as [[= -> ->]|Hne].
      { apply Hfrom. apply (walked_all_odd w Hwalked).
        split; [unfold interior, GRID_WIDTH, GRID_HEIGHT; lia|done]. }
      apply Hfrom. apply (carved_passable_iff w (a, b) Hc). cbn [fst snd].
      destruct Hpc as (v & Hv & Hne1). cbn [fst snd] in Hv. rewrite Hcells in Hv.
      assert (Hne10 : (a, b) ≠ (7, 10)).
      { intros [= -> ->]. apply Hh. unfold inHouse, GRID_WIDTH, GRID_HEIGHT.
        change (15 / 2) with 7. change (21 / 2) with 10. lia. }
      destruct (cellIs w a b 0); [done|].
      repeat case_decide; simplify_eq; done. }
  eapply linked_trans; [|exact Hall].
  apply linked_sym. apply Hfrom. apply (walked_all_odd w Hwalked).
  split; [unfold interior, GRID_WIDTH, GRID_HEIGHT; lia|done].
Qed.

End Structure.

Lemma demoGenerated_eq : generateMaze demoEnv 80 = Some demoGenerated.
Proof. vm_compute. reflexivity. Qed.

(** X1.  The maze [generateMaze] returns has [GRID_HEIGHT] rows of
    [GRID_WIDTH] cells; every cell is a wall (1), a pellet (2), the
    ghost spawn (4) or the player's start (5); the ghost spawn is the
    cell in the middle of the grid and nowhere else, the start is the
    cell in the middle of the last row but one and nowhere else; and no
    cell of the 3 x 3 ghost house is a wall. *)
Theorem generateMaze_tiles (env : Env) (fuel : nat) (m : list (list Z)) :
  generateMaze env fuel = Some m →
  (∀ a b, is_Some (cellAt m a b) ↔ 0 ≤ a < GRID_WIDTH ∧ 0 ≤ b < GRID_HEIGHT)
  ∧ (∀ a b v, cellAt m a b = Some v → v = 1 ∨ v = 2 ∨ v = 4 ∨ v = 5)
  ∧ (∀ a b, cellAt m a b = Some 4 ↔ (a, b) = (GRID_WIDTH / 2, GRID_HEIGHT / 2))
  ∧ (∀ a b, cellAt m a b = Some 5 ↔ (a, b) = (GRID_WIDTH / 2, GRID_HEIGHT - 2))
  ∧ (∀ a b, inHouse a b → passable m (a, b)).
Proof. exact (generated_tiles env fuel m). Qed.

Lemma generateMaze_tiles_witness :
  (∀ a b, is_Some (cellAt demoGenerated a b) ↔ 0 ≤ a < GRID_WIDTH ∧ 0 ≤ b < GRID_HEIGHT)
  ∧ (∀ a b v, cellAt demoGenerated a b = Some v → v = 1 ∨ v = 2 ∨ v = 4 ∨ v = 5)
  ∧ (∀ a b, cellAt demoGenerated a b = Some 4
            ↔ (a, b) = (GRID_WIDTH / 2, GRID_HEIGHT / 2))
  ∧ (∀ a b, cellAt demoGenerated a b = Some 5
            ↔ (a, b) = (GRID_WIDTH / 2, GRID_HEIGHT - 2))
  ∧ (∀ a b, inHouse a b → passable demoGenerated (a, b)).
Proof. exact (generateMaze_tiles demoEnv 80 demoGenerated demoGenerated_eq). Defined.

(** X2.  In the maze [generateMaze] returns every interior cell with
    two odd coordinates is open (the depth-first walk visits all of
    them), and every cell with two even coordinates outside the ghost
    house is a wall. *)
Theorem generateMaze_lattice (env : Env) (fuel : nat) (m : list (list Z)) :
  generateMaze env fuel = Some m →
  (∀ a b, oddCell a b → passable m (a, b))
  ∧ (∀ a b, 0 ≤ a < GRID_WIDTH → 0 ≤ b < GRID_HEIGHT →
            Z.even a = true → Z.even b = true → ¬ inHouse a b →
            cellAt m a b = Some 1).
Proof. exact (generated_lattice env fuel m). Qed.

Lemma generateMaze_lattice_witness :
  (∀ a b, oddCell a b → passable demoGenerated (a, b))
  ∧ (∀ a b, 0 ≤ a < GRID_WIDTH → 0 ≤ b < GRID_HEIGHT →
            Z.even a = true → Z.even b = true → ¬ inHouse a b →
            cellAt demoGenerated a b = Some 1).
Proof. exact (generateMaze_lattice demoEnv 80 demoGenerated demoGenerated_eq). Defined.

(** X3.  The maze [generateMaze] returns is connected: every cell that
    is not a wall is linked to the player's start cell by a path of
    horizontally or vertically adjacent cells that are not walls. *)
Theorem generateMaze_connected (env : Env) (fuel : nat) (m : list (list Z)) :
  generateMaze env fuel = Some m →
  ∀ c, passable m c → linked m (GRID_WIDTH / 2, GRID_HEIGHT - 2) c.
Proof. exact (generated_connected env fuel m). Qed.

Lemma generateMaze_connected_witness :
  passable demoGenerated (1, 1)
  ∧ linked demoGenerated (GRID_WIDTH / 2, GRID_HEIGHT - 2) (1, 1).
Proof.
  assert (H : passable demoGenerated (1, 1)).
  { exists 2. split; [by vm_compute|done]. }
  split; [exact H|].
  exact (generateMaze_connected demoEnv 80 demoGenerated demoGenerated_eq (1, 1) H).
Defined.

(** ** Counting tiles *)

Lemma NoDup_gridCoords : NoDup gridCoords.
Proof. apply (bool_decide_unpack _). by vm_compute. Qed.

Lemma gridCoords_range a b :
  (a, b) ∈ gridCoords ↔ 0 ≤ a < GRID_WIDTH ∧ 0 ≤ b < GRID_HEIGHT.
Proof.
  split; [|intros [? ?]; by apply cellAt_in_grid].
  unfold gridCoords. intros (y & Hin & Hy)%list_elem_of_bind.
  apply list_elem_of_bind in Hin as (x & Hin & Hx).
  apply list_elem_of_singleton in Hin as [= -> ->].
  apply elem_of_seqZ in Hx, Hy. lia.
Qed.

Lemma filter_length_ext {A} (P Q : A → bool) (l : list A) :
  (∀ c, c ∈ l → P c = Q c) → length (List.filter P l) = length (List.filter Q l).
Proof.
  induction l as [|c l IH]; intros H; simpl; [done|].
  rewrite (H c) by (by left).
  assert (IH' : length (List.filter P l) = length (List.filter Q l))
    by (apply IH; intros c' ?; apply H; by right).
  destruct (Q c); simpl; by rewrite IH'.
Qed.

(** Two tests that differ on one element of a list without duplicates. *)
Lemma filter_length_flip {A} (P Q : A → bool) (l : list A) c0 :
  NoDup l → c0 ∈ l → (∀ c, c ∈ l → c ≠ c0 → Q c = P c) →
  Z.of_nat (length (List.filter Q l))
  = Z.of_nat (length (List.filter P l)) + Z.b2z (Q c0) - Z.b2z (P c0).
Proof.
  induction l as [|c l IH]; intros Hnd Hin Hext; [by apply elem_of_nil in Hin|].
  apply NoDup_cons in Hnd as [Hnotin Hnd]. simpl.
  apply elem_of_cons in Hin as [->|Hin].
  - assert (He : length (List.filter Q l) = length (List.filter P l)).
    { apply filter_length_ext. intros c' Hc'. apply Hext; [by right|]. intros ->. done. }
    destruct (Q c), (P c); simpl; lia.
  - assert (Hne : c ≠ c0) by (intros ->; done).
    rewrite (Hext c) by (by left || done).
    specialize (IH Hnd Hin (λ c' Hc', Hext c' (list_elem_of_further _ _ _ Hc'))).
    destruct (P c); simpl; lia.
Qed.

(** Writing a tile changes the counts of the old and of the new tile. *)
Lemma countTile_setCell m x y c v u :
  mazeBounded m → cellAt m x y = Some c →
  Z.of_nat (countTile (setCell m x y v) u)
  = Z.of_nat (countTile m u) + Z.b2z (v =? u) - Z.b2z (c =? u).
Proof.
  intros Hb Hc. unfold countTile.
  rewrite (filter_length_flip (λ c, cellIs m c.1 c.2 u)
             (λ c, cellIs (setCell m x y v) c.1 c.2 u) gridCoords (x, y)).
  - cbn [fst snd]. unfold cellIs. rewrite cellAt_setCell_eq by (by eexists).
    rewrite Hc. done.
  - apply NoDup_gridCoords.
  - apply gridCoords_range. apply Hb. by eexists.
  - intros [a b] _ Hne. cbn [fst snd]. unfold cellIs. by rewrite cellAt_setCell_ne.
Qed.

Lemma countTile_zero m v :
  (∀ a b, cellAt m a b ≠ Some v) → countTile m v = 0%nat.
Proof.
  intros H. unfold countTile.
  rewrite (filter_length_ext _ (λ _, false)).
  - induction gridCoords as [|c l IH]; [done|]. simpl. exact IH.
  - intros c _. by apply cellIs_false.
Qed.

Lemma countTile_pos m v a b : cellAt m a b = Some v → mazeBounded m → (0 < countTile m v)%nat.
Proof.
  intros Hc Hb. unfold countTile.
  assert (Hin : (a, b) ∈ List.filter (λ c, cellIs m c.1 c.2 v) gridCoords).
  { apply list_elem_of_In, filter_In. split.
    - apply list_elem_of_In, gridCoords_range, Hb. by eexists.
    - by apply cellIs_true. }
  destruct (List.filter _ gridCoords); [by apply elem_of_nil in Hin|simpl; lia].
Qed.

Lemma mazeBounded_setCell m x y v : mazeBounded m → mazeBounded (setCell m x y v).
Proof. intros Hb. eapply sameShape_bounded; [apply sameShape_setCell|done]. Qed.

Section Stage.

Variable env : Env.

(** A placement loop keeps what each of its writes keeps. *)
Lemma placeLoop_inv limit eligible v (Inv : Z → list (list Z) → Prop) :
  (∀ p m x y c, p < limit → cellAt m x y = Some c → eligible c = true →
                Inv p m → Inv (p + 1) (setCell m x y v)) →
  ∀ fuel placed m k r,
    placed ≤ limit → Inv placed m →
    placeLoop env limit eligible v fuel placed m k = Some r → Inv limit r.1.
Proof.
  intros Hstep. induction fuel as [|fuel IH]; intros placed m k r Hle Hinv; simpl.
  - destruct (Z.ltb_spec placed limit) as [Hlt|Hge]; [done|].
    intros [= <-]. by replace limit with placed by lia.
  - destruct (Z.ltb_spec placed limit) as [Hlt|Hge].
    2:{ intros [= <-]. by replace limit with placed by lia. }
    destruct (cellAt m _ _) as [c|] eqn:Hc; [|by apply IH].
    destruct (eligible c) eqn:He; [|by apply IH].
    apply IH; [lia|]. by eapply Hstep.
Qed.

Lemma candiesPlaced_start m0 : mazeBounded m0 → candiesPlaced m0 0 m0.
Proof.
  intros Hb. split; [done|]. split; [lia|]. split; [lia|]. intros a b. by left.
Qed.

Lemma candiesPlaced_step m0 p m x y c :
  cellAt m x y = Some c → (c =? 2) = true →
  candiesPlaced m0 p m → candiesPlaced m0 (p + 1) (setCell m x y 3).
Proof.
  intros Hc ->%Z.eqb_eq (Hb & H3 & H2 & Hcells).
  split; [by apply mazeBounded_setCell|].
  rewrite !(countTile_setCell m x y 2) by done. cbn.
  split; [lia|]. split; [lia|].
  intros a b. rewrite cellAt_setCell. case_decide as Heq; [|apply Hcells].
  injection Heq as -> ->. rewrite Hc. right. split; [|done].
  destruct (Hcells x y) as [H|[_ H]]; congruence.
Qed.

Lemma tombstonesPlaced_start m0 : mazeBounded m0 → tombstonesPlaced m0 0 m0.
Proof.
  intros Hb. split; [done|]. split; [lia|]. split; [lia|]. split; [lia|].
  intros a b. by left.
Qed.

Lemma tombstonesPlaced_step m0 p m x y c :
  cellAt m x y = Some c → (c =? 2) || (c =? 0) = true →
  tombstonesPlaced m0 p m → tombstonesPlaced m0 (p + 1) (setCell m x y 6).
Proof.
  intros Hc He (Hb & H6 & H3 & H2 & Hcells).
  split; [by apply mazeBounded_setCell|].
  rewrite !(countTile_setCell m x y c) by done.
  assert (Hcases : c = 2 ∨ c = 0).
  { apply orb_true_iff in He as [->%Z.eqb_eq| ->%Z.eqb_eq]; tauto. }
  split; [destruct Hcases as [-> | ->]; cbn; lia|].
  split; [destruct Hcases as [-> | ->]; cbn; lia|].
  split; [destruct Hcases as [-> | ->]; cbn; lia|].
  intros a b. rewrite cellAt_setCell. case_decide as Heq; [|apply Hcells].
  injection Heq as -> ->. rewrite Hc. right. split; [|done].
  destruct (Hcells x y) as [H|[_ H]].
  - rewrite <- H, Hc. destruct Hcases as [-> | ->]; tauto.
  - rewrite Hc in H. injection H as ->. destruct Hcases; done.
Qed.

Lemma placeCandies_placed fuel m k r :
  mazeBounded m → placeCandies env fuel 0 m k = Some r → candiesPlaced m 10 r.1.
Proof.
  intros Hb. rewrite placeCandies_placeLoop.
  apply (placeLoop_inv 10 (λ c, c =? 2) 3 (candiesPlaced m)); [|lia|].
  - intros p m' x y c _. apply candiesPlaced_step.
  - by apply candiesPlaced_start.
Qed.

Lemma placeTombstones_placed fuel m k r :
  mazeBounded m → placeTombstones env fuel 0 m k = Some r → tombstonesPlaced m 3 r.1.
Proof.
  intros Hb. rewrite placeTombstones_placeLoop.
  apply (placeLoop_inv 3 (λ c, (c =? 2) || (c =? 0)) 6 (tombstonesPlaced m)); [|lia|].
  - intros p m' x y c _. apply tombstonesPlaced_step.
  - by apply tombstonesPlaced_start.
Qed.

End Stage.

(** ** The player's start *)

Lemma findStart_generated m :
  (∀ a b, cellAt m a b = Some 5 ↔ (a, b) = (7, 19)) →
  findStart m = (7, 19, setCell m 7 19 0).
Proof.
  intros H5. unfold findStart.
  change (GRID_WIDTH / 2) with 7. change (GRID_HEIGHT - 2) with 19.
  set (f := λ (acc : Z * Z * list (list Z)) (c : Z * Z),
         if cellIs acc.2 c.1 c.2 5 then (c.1, c.2, setCell acc.2 c.1 c.2 0) else acc).
  assert (H19 : cellAt m 7 19 = Some 5) by by apply H5.
  assert (Hstable : ∀ l, fold_left f l (7, 19, setCell m 7 19 0) = (7, 19, setCell m 7 19 0)).
  { induction l as [|c l IH]; [done|]. simpl. unfold f at 2. cbn [fst snd].
    replace (cellIs (setCell m 7 19 0) c.1 c.2 5) with false; [done|].
    symmetry. apply cellIs_false. rewrite cellAt_setCell. case_decide as Heq.
    - by rewrite H19.
    - intros Hc. apply H5 in Hc. by destruct c. }
  assert (Hin : (7, 19) ∈ gridCoords) by (by apply gridCoords_range).
  revert Hin. generalize gridCoords as l.
  induction l as [|c l IH]; intros Hin; [by apply elem_of_nil in Hin|].
  simpl. unfold f at 2. cbn [fst snd].
  destruct (cellIs m c.1 c.2 5) eqn:Hc.
  - apply cellIs_true, H5 in Hc. injection Hc as -> ->. apply Hstable.
  - apply IH. apply elem_of_cons in Hin as [<-|Hin]; [|done].
    cbn in Hc. apply cellIs_false in Hc. done.
Qed.

Lemma countPellets_count m :
  countPellets m = Z.of_nat (countTile m 2) + Z.of_nat (countTile m 3).
Proof.
  unfold countPellets, countTile.
  assert (H : ∀ l a,
    fold_left (λ total c, if cellIs m c.1 c.2 2 || cellIs m c.1 c.2 3
                          then total + 1 else total) l a
    = a + Z.of_nat (length (List.filter (λ c, cellIs m c.1 c.2 2) l))
        + Z.of_nat (length (List.filter (λ c, cellIs m c.1 c.2 3) l))).
  { induction l as [|c l IH]; intros a; simpl; [lia|]. rewrite IH.
    destruct (cellIs m c.1 c.2 2) eqn:H2, (cellIs m c.1 c.2 3) eqn:H3; simpl; try lia.
    apply cellIs_true in H2, H3. congruence. }
  rewrite H. lia.
Qed.

Lemma pelletCells_odd : Forall (λ c, oddCell c.1 c.2 ∧ c ≠ (7, 19)) pelletCells.
Proof.
  unfold pelletCells.
  repeat (apply Forall_cons; split;
          [split; [split; [unfold interior, GRID_WIDTH, GRID_HEIGHT; cbn; lia|done]|done]|]).
  constructor.
Qed.

Lemma NoDup_pelletCells : NoDup pelletCells.
Proof. apply (bool_decide_unpack _). by vm_compute. Qed.

(** A maze whose cells with two odd coordinates all hold a pellet, but
    for the start cell, has at least 69 pellets. *)
Lemma countTile_pellets m :
  (∀ c, c ∈ pelletCells → cellAt m c.1 c.2 = Some 2) → (69 ≤ countTile m 2)%nat.
Proof.
  intros H. change 69%nat with (length pelletCells). unfold countTile.
  apply submseteq_length, NoDup_submseteq; [apply NoDup_pelletCells|].
  intros c Hc. apply list_elem_of_In, filter_In. split.
  - apply list_elem_of_In. pose proof pelletCells_odd as Hodd.
    rewrite Forall_forall in Hodd.
    destruct (Hodd _ Hc) as [(Hi & _) _]. destruct c as [a b].
    apply gridCoords_range. by apply interior_range.
  - apply cellIs_true. by apply H.
Qed.

Section Init.

Variable env : Env.

(** The steps of [initGame] once the maze is generated. *)
Lemma initGame_steps fuel isNextStage s s' :
  initGame env fuel isNextStage s = Some s' →
  ∃ gen m1 k1 k2,
    generateMaze env fuel = Some gen
    ∧ placeCandies env fuel 0 (setCell gen 7 19 0) (rng s) = Some (m1, k1)
    ∧ placeTombstones env fuel 0 m1 k1 = Some (maze s', k2)
    ∧ totalPellets s' = countPellets gen
    ∧ pacman s' = Entity.mk (7 * TILE_SIZE) (19 * TILE_SIZE) NONE NONE 4
    ∧ ghosts s' = initialGhosts ∧ witches s' = [] ∧ popups s' = []
    ∧ powerMode s' = 0 ∧ wallsLeft s' = 0 ∧ eatenPellets s' = 0
    ∧ gameState s' = gameState s ∧ wallFragments s' = wallFragments s
    ∧ trace s' = trace s
    ∧ (if isNextStage
       then stage s' = stage s + 1 ∧ score s' = score s ∧ lives s' = lives s
       else stage s' = 1 ∧ score s' = 0 ∧ lives s' = 3).
Proof.
  unfold initGame.
  destruct (generateMaze env fuel) as [gen|] eqn:Hgen; [|done].
  pose proof (generated_tiles env fuel gen Hgen) as (_ & _ & _ & H5 & _).
  rewrite (findStart_generated gen H5).
  destruct (placeCandies env fuel 0 (setCell gen 7 19 0) _) as [[m1 k1]|] eqn:Hpc; [|done].
  destruct (placeTombstones env fuel 0 m1 k1) as [[m2 k2]|] eqn:Hpt; [|done].
  intros [= <-]. exists gen, m1, k1, k2. cbn.
  replace (rng (if isNextStage then set_stage (stage s + 1) s
                else set_lives 3 (set_score 0 (set_stage 1 s)))) with (rng s) in Hpc
    by (by destruct isNextStage).
  repeat split; try done; by destruct isNextStage.
Qed.

(** The tiles of the maze after [initGame], cell by cell. *)
Lemma initGame_cells fuel isNextStage s s' :
  initGame env fuel isNextStage s = Some s' →
  ∃ gen, generateMaze env fuel = Some gen
    ∧ totalPellets s' = Z.of_nat (countTile gen 2)
    ∧ mazeBounded (maze s')
    ∧ countTile (maze s') 3 = 10%nat
    ∧ countTile (maze s') 6 = 3%nat
    ∧ Z.of_nat (countTile gen 2) - 13 ≤ Z.of_nat (countTile (maze s') 2)
      ≤ Z.of_nat (countTile gen 2) - 10
    ∧ ∀ a b,
        (a, b) ≠ (7, 19) ∧ cellAt (maze s') a b = cellAt gen a b
        ∨ (a, b) = (7, 19) ∧ cellAt (maze s') a b = Some 0
        ∨ cellAt gen a b = Some 2 ∧ cellAt (maze s') a b = Some 3
        ∨ (cellAt gen a b = Some 2 ∨ (a, b) = (7, 19)) ∧ cellAt (maze s') a b = Some 6.
Proof.
  intros (gen & m1 & k1 & k2 & Hgen & Hpc & Hpt & Htotal & _)%initGame_steps.
  exists gen. split; [done|].
  pose proof (generated_tiles env fuel gen Hgen) as (Hshape & Hvals & H4 & H5 & _).
  change (GRID_WIDTH / 2) with 7 in *. change (GRID_HEIGHT / 2) with 10 in *.
  change (GRID_HEIGHT - 2) with 19 in *.
  assert (Hbgen : mazeBounded gen) by by eapply generateMaze_bounded.
  assert (H19 : cellAt gen 7 19 = Some 5) by by apply H5.
  set (m0 := setCell gen 7 19 0) in *.
  assert (Hb0 : mazeBounded m0) by by apply mazeBounded_setCell.
  assert (Hm0 : ∀ a b, cellAt m0 a b
                       = if decide ((a, b) = (7, 19)) then Some 0 else cellAt gen a b).
  { intros a b. unfold m0. rewrite cellAt_setCell. by rewrite H19. }
  assert (Hno3 : ∀ a b, cellAt gen a b ≠ Some 3).
  { intros a b H. apply Hvals in H. lia. }
  assert (Hno6 : ∀ a b, cellAt gen a b ≠ Some 6).
  { intros a b H. apply Hvals in H. lia. }
  assert (H30 : countTile m0 3 = 0%nat).
  { apply countTile_zero. intros a b. rewrite Hm0. case_decide; [done|apply Hno3]. }
  assert (H60 : countTile m0 6 = 0%nat).
  { apply countTile_zero. intros a b. rewrite Hm0. case_decide; [done|apply Hno6]. }
  assert (H20 : Z.of_nat (countTile m0 2) = Z.of_nat (countTile gen 2)).
  { unfold m0. rewrite (countTile_setCell gen 7 19 5) by done. cbn. lia. }
  apply placeCandies_placed in Hpc as (Hb1 & H31 & H21 & Hc1); [|done].
  cbn [fst] in *.
  assert (H61 : countTile m1 6 = 0%nat).
  { apply countTile_zero. intros a b. destruct (Hc1 a b) as [H|[_ H]]; rewrite H; [|done].
    rewrite Hm0. case_decide; [done|apply Hno6]. }
  apply placeTombstones_placed in Hpt as (Hb2 & H62 & H32 & H22 & Hc2); [|done].
  cbn [fst] in *.
  split; [rewrite Htotal, countPellets_count, (countTile_zero gen 3) by done; lia|].
  split; [done|]. split; [lia|]. split; [lia|]. split; [lia|].
  intros a b. specialize (Hc1 a b). specialize (Hc2 a b). specialize (Hm0 a b).
  destruct (decide ((a, b) = (7, 19))) as [Heq|Hne].
  - right. destruct Hc2 as [H2|[H2 H2']].
    + left. split; [done|]. destruct Hc1 as [H1|[H1 _]]; congruence.
    + right. right. split; [by right|done].
  - destruct Hc2 as [H2|[H2 H2']].
    + destruct Hc1 as [H1|[H1 H1']].
      * left. split; [done|]. congruence.
      * right. right. left. split; congruence.
    + right. right. right. split; [|done]. left.
      destruct Hc1 as [H1|[H1 H1']]; [|destruct H2; congruence].
      rewrite H1, Hm0 in H2. destruct H2 as [H2|H2]; [done|].
      apply Hvals in H2. lia.
Qed.

End Init.

Section InitTheorems.

Variable env : Env.

(** The tiles of the maze of a new stage. *)
Lemma initialised_tiles fuel isNextStage s s' :
  initGame env fuel isNextStage s = Some s' →
  (∀ a b, is_Some (cellAt (maze s') a b) ↔ 0 ≤ a < GRID_WIDTH ∧ 0 ≤ b < GRID_HEIGHT)
  ∧ countTile (maze s') 3 = 10%nat
  ∧ countTile (maze s') 6 = 3%nat
  ∧ (∀ a b v, cellAt (maze s') a b = Some v →
              v = 0 ∨ v = 1 ∨ v = 2 ∨ v = 3 ∨ v = 4 ∨ v = 6)
  ∧ (∀ a b, cellAt (maze s') a b = Some 4 ↔ (a, b) = (GRID_WIDTH / 2, GRID_HEIGHT / 2))
  ∧ (∀ a b, cellAt (maze s') a b = Some 0 → (a, b) = (GRID_WIDTH / 2, GRID_HEIGHT - 2))
  ∧ (cellAt (maze s') (GRID_WIDTH / 2) (GRID_HEIGHT - 2) = Some 0
     ∨ cellAt (maze s') (GRID_WIDTH / 2) (GRID_HEIGHT - 2) = Some 6).
Proof.
  intros (gen & Hgen & _ & Hb & H3 & H6 & _ & Hcells)%initGame_cells.
  pose proof (generated_tiles env fuel gen Hgen) as (Hshape & Hvals & H4 & H5 & _).
  change (GRID_WIDTH / 2) with 7 in *. change (GRID_HEIGHT / 2) with 10 in *.
  change (GRID_HEIGHT - 2) with 19 in *.
  assert (H19 : cellAt gen 7 19 = Some 5) by by apply H5.
  split; [|split; [done|split; [done|split; [|split; [|split]]]]].
  - intros a b. rewrite <- Hshape.
    destruct (Hcells a b) as [[_ H]|[[[= -> ->] H]|[[Hg H]|[[Hg|[= -> ->]] H]]]];
      rewrite H; rewrite ?Hg, ?H19; done.
  - intros a b v Hv.
    destruct (Hcells a b) as [[Hne H]|[[_ H]|[[_ H]|[_ H]]]]; rewrite H in Hv.
    + pose proof Hv as Hv'. apply Hvals in Hv' as [-> | [-> | [-> | ->]]]; try lia.
      apply H5 in Hv. done.
    + injection Hv as <-. lia.
    + injection Hv as <-. lia.
    + injection Hv as <-. lia.
  - intros a b. rewrite <- H4.
    destruct (Hcells a b) as [[_ H]|[[[= -> ->] H]|[[Hg H]|[[Hg|[= -> ->]] H]]]];
      rewrite H; rewrite ?Hg, ?H19; done.
  - intros a b H0.
    destruct (Hcells a b) as [[_ H]|[[Heq _]|[[_ H]|[_ H]]]]; [|done|congruence..].
    rewrite H in H0. apply Hvals in H0. lia.
  - destruct (Hcells 7 19) as [[Hne _]|[[_ H]|[[Hg _]|[_ H]]]];
      [done|by left|congruence|by right].
Qed.

(** The pellets of a new stage. *)
Lemma initialised_pellets fuel isNextStage s s' :
  initGame env fuel isNextStage s = Some s' →
  69 ≤ totalPellets s'
  ∧ eatenPellets s' = 0
  ∧ totalPellets s' - 3 ≤ edible (maze s') ≤ totalPellets s'
  ∧ 3 * totalPellets s' ≤ 4 * edible (maze s').
Proof.
  intros Hinit.
  pose proof (initGame_steps env _ _ _ _ Hinit) as (_&_&_&_&_&_&_&_&_&_&_&_&_&_&He&_).
  destruct (initGame_cells env _ _ _ _ Hinit)
    as (gen & Hgen & Htotal & Hb & H3 & H6 & H2 & Hcells).
  assert (H69 : (69 ≤ countTile gen 2)%nat).
  { apply countTile_pellets. intros [a b] Hc. cbn [fst snd].
    pose proof pelletCells_odd as Hodd. rewrite Forall_forall in Hodd.
    destruct (Hodd _ Hc) as [Hoc Hne]. cbn [fst snd] in Hoc.
    pose proof (generated_tiles env fuel gen Hgen) as (_ & Hvals & H4 & H5 & _).
    pose proof (generated_lattice env fuel gen Hgen) as (Hopen & _).
    destruct (Hopen a b Hoc) as (v & Hv & Hv1). cbn [fst snd] in Hv.
    destruct (Hvals a b v Hv) as [-> | [-> | [-> | ->]]]; [done|done| |].
    - apply H4 in Hv. injection Hv as -> ->. by destruct Hoc as (_ & _ & ?).
    - apply H5 in Hv. done. }
  unfold edible. rewrite H3. lia.
Qed.

(** What [startGame] and [nextStage] reset and what they keep. *)
Lemma started_frame fuel s s' :
  (startGame env fuel s = Some s' →
   gameState s' = PLAYING ∧ stage s' = 1 ∧ score s' = 0 ∧ lives s' = 3)
  ∧ (nextStage env fuel s = Some s' →
     gameState s' = PLAYING ∧ stage s' = stage s + 1
     ∧ score s' = score s ∧ lives s' = lives s)
  ∧ (startGame env fuel s = Some s' ∨ nextStage env fuel s = Some s' →
     pacman s' = Entity.mk 252 684 NONE NONE 4
     ∧ map (λ g, (GhostEntity.x g, GhostEntity.y g, ghostState g)) (ghosts s')
       = [(216, 360, NORMAL); (288, 360, NORMAL); (216, 360, NORMAL); (288, 360, NORMAL)]
     ∧ witches s' = [] ∧ popups s' = []
     ∧ powerMode s' = 0 ∧ wallsLeft s' = 0 ∧ eatenPellets s' = 0
     ∧ wallFragments s' = wallFragments s).
Proof.
  unfold startGame, nextStage. split; [|split].
  - destruct (initGame env fuel false _) as [s1|] eqn:Hi; [|done]. intros [= <-].
    apply initGame_steps in Hi as (_&_&_&_&_&_&_&_&_&_&_&_&_&_&_&_&_&_& Hs & Hsc & Hl).
    done.
  - destruct (initGame env fuel true _) as [s1|] eqn:Hi; [|done]. intros [= <-].
    apply initGame_steps in Hi as (_&_&_&_&_&_&_&_&_&_&_&_&_&_&_&_&_&_& Hs & Hsc & Hl).
    done.
  - intros [H|H].
    + destruct (initGame env fuel false _) as [s1|] eqn:Hi; [|done].
      injection H as <-.
      apply initGame_steps in Hi
        as (_&_&_&_&_&_&_&_& Hp & Hg & Hw & Hpop & Hpm & Hwl & He & _ & Hf & _).
      cbn. rewrite Hp, Hg, Hw, Hpop, Hpm, Hwl, He, Hf. done.
    + destruct (initGame env fuel true _) as [s1|] eqn:Hi; [|done].
      injection H as <-.
      apply initGame_steps in Hi
        as (_&_&_&_&_&_&_&_& Hp & Hg & Hw & Hpop & Hpm & Hwl & He & _ & Hf & _).
      cbn. rewrite Hp, Hg, Hw, Hpop, Hpm, Hwl, He, Hf. done.
Qed.

End InitTheorems.

Lemma demoInit_eq : initGame demoEnv 80 false initialState = Some demoInit.
Proof. vm_compute. reflexivity. Qed.

(** X4.  The maze [initGame] installs has [GRID_HEIGHT] rows of
    [GRID_WIDTH] cells, exactly 10 candies (3) and exactly 3 tombstones
    (6); its cells are empty (0), walls, pellets, candies, the ghost
    spawn (4, in the middle of the grid and nowhere else) or
    tombstones.  Only the player's start cell can be empty, and it is
    empty or holds a tombstone. *)
Theorem initGame_tiles (env : Env) (fuel : nat) (isNextStage : bool) (s s' : State) :
  initGame env fuel isNextStage s = Some s' →
  (∀ a b, is_Some (cellAt (maze s') a b) ↔ 0 ≤ a < GRID_WIDTH ∧ 0 ≤ b < GRID_HEIGHT)
  ∧ countTile (maze s') 3 = 10%nat
  ∧ countTile (maze s') 6 = 3%nat
  ∧ (∀ a b v, cellAt (maze s') a b = Some v →
              v = 0 ∨ v = 1 ∨ v = 2 ∨ v = 3 ∨ v = 4 ∨ v = 6)
  ∧ (∀ a b, cellAt (maze s') a b = Some 4 ↔ (a, b) = (GRID_WIDTH / 2, GRID_HEIGHT / 2))
  ∧ (∀ a b, cellAt (maze s') a b = Some 0 → (a, b) = (GRID_WIDTH / 2, GRID_HEIGHT - 2))
  ∧ (cellAt (maze s') (GRID_WIDTH / 2) (GRID_HEIGHT - 2) = Some 0
     ∨ cellAt (maze s') (GRID_WIDTH / 2) (GRID_HEIGHT - 2) = Some 6).
Proof. exact (initialised_tiles env fuel isNextStage s s'). Qed.

Lemma initGame_tiles_witness :
  (∀ a b, is_Some (cellAt (maze demoInit) a b)
          ↔ 0 ≤ a < GRID_WIDTH ∧ 0 ≤ b < GRID_HEIGHT)
  ∧ countTile (maze demoInit) 3 = 10%nat
  ∧ countTile (maze demoInit) 6 = 3%nat
  ∧ (∀ a b v, cellAt (maze demoInit) a b = Some v →
              v = 0 ∨ v = 1 ∨ v = 2 ∨ v = 3 ∨ v = 4 ∨ v = 6)
  ∧ (∀ a b, cellAt (maze demoInit) a b = Some 4
            ↔ (a, b) = (GRID_WIDTH / 2, GRID_HEIGHT / 2))
  ∧ (∀ a b, cellAt (maze demoInit) a b = Some 0
            → (a, b) = (GRID_WIDTH / 2, GRID_HEIGHT - 2))
  ∧ (cellAt (maze demoInit) (GRID_WIDTH / 2) (GRID_HEIGHT - 2) = Some 0
     ∨ cellAt (maze demoInit) (GRID_WIDTH / 2) (GRID_HEIGHT - 2) = Some 6).
Proof. exact (initGame_tiles demoEnv 80 false initialState demoInit demoInit_eq). Defined.

(** X5.  After [initGame] at least 69 pellets are counted in
    [totalPellets] and none is eaten.  The count is taken before the
    tombstones are placed and a tombstone may replace a pellet, so the
    maze holds between [totalPellets - 3] and [totalPellets] pellets and
    candies; that is always at least the 75% the win test asks for. *)
Theorem initGame_pellets (env : Env) (fuel : nat) (isNextStage : bool) (s s' : State) :
  initGame env fuel isNextStage s = Some s' →
  69 ≤ totalPellets s'
  ∧ eatenPellets s' = 0
  ∧ totalPellets s' - 3 ≤ edible (maze s') ≤ totalPellets s'
  ∧ 3 * totalPellets s' ≤ 4 * edible (maze s').
Proof. exact (initialised_pellets env fuel isNextStage s s'). Qed.

Lemma initGame_pellets_witness :
  69 ≤ totalPellets demoInit
  ∧ eatenPellets demoInit = 0
  ∧ totalPellets demoInit - 3 ≤ edible (maze demoInit) ≤ totalPellets demoInit
  ∧ 3 * totalPellets demoInit ≤ 4 * edible (maze demoInit).
Proof. exact (initGame_pellets demoEnv 80 false initialState demoInit demoInit_eq). Defined.

(** X6.  [startGame] puts the game in play on stage 1 with score 0 and
    3 lives; [nextStage] puts it in play on the next stage and keeps
    score and lives.  Both put the player on the start cell, standing
    still with speed 4, create four normal ghosts of which the first
    and third share one pixel position and the second and fourth the
    other, remove the witches and the popups, clear the power mode, the
    charges and the count of eaten pellets, and leave the wall
    fragments as they are. *)
Theorem startGame_frame (env : Env) (fuel : nat) (s s' : State) :
  (startGame env fuel s = Some s' →
   gameState s' = PLAYING ∧ stage s' = 1 ∧ score s' = 0 ∧ lives s' = 3)
  ∧ (nextStage env fuel s = Some s' →
     gameState s' = PLAYING ∧ stage s' = stage s + 1
     ∧ score s' = score s ∧ lives s' = lives s)
  ∧ (startGame env fuel s = Some s' ∨ nextStage env fuel s = Some s' →
     pacman s' = Entity.mk 252 684 NONE NONE 4
     ∧ map (λ g, (GhostEntity.x g, GhostEntity.y g, ghostState g)) (ghosts s')
       = [(216, 360, NORMAL); (288, 360, NORMAL); (216, 360, NORMAL); (288, 360, NORMAL)]
     ∧ witches s' = [] ∧ popups s' = []
     ∧ powerMode s' = 0 ∧ wallsLeft s' = 0 ∧ eatenPellets s' = 0
     ∧ wallFragments s' = wallFragments s).
Proof. exact (started_frame env fuel s s'). Qed.

Lemma startGame_frame_witness :
  gameState demoStart = PLAYING ∧ stage demoStart = 1
  ∧ score demoStart = 0 ∧ lives demoStart = 3.
Proof.
  exact (proj1 (startGame_frame demoEnv 80 initialState demoStart) demoStart_eq).
Defined.

(** ** Score, lives, stage, power mode, charges, witches *)

Ltac counters k :=
  unfold countersStep; cbn; (split; [exists k; lia|]);
  repeat split; try done; try lia; try tauto.

Lemma countersStep_refl s : countersStep s s.
Proof. counters 0. Qed.

Lemma countersStep_trans s1 s2 s3 :
  countersStep s1 s2 → countersStep s2 s3 → countersStep s1 s3.
Proof.
  intros ((k1 & Hk1 & Hs1) & Hl1 & Hst1 & Hg1 & Hp1 & Hw1 & Hwi1)
         ((k2 & Hk2 & Hs2) & Hl2 & Hst2 & Hg2 & Hp2 & Hw2 & Hwi2).
  unfold countersStep. split; [exists (k1 + k2); lia|].
  repeat split; try lia; try tauto.
  intros H0 H3. destruct (Hg2 ltac:(lia) H3) as [H2|H2]; [|right; lia].
  destruct (Hg1 H0 H2) as [H1|H1]; [by left|right; lia].
Qed.

(** A phase that adds [10 k] to the score and leaves the other counters
    and the game state alone. *)
Lemma countersStep_score k s s' :
  0 ≤ k → score s' = score s + 10 * k → lives s' = lives s → stage s' = stage s →
  gameState s' = gameState s → powerMode s' = powerMode s →
  wallsLeft s' = wallsLeft s → witches s' = witches s →
  countersStep s s'.
Proof.
  intros Hk Hs Hl Hst Hg Hp Hw Hwi. unfold countersStep.
  rewrite Hl, Hst, Hg, Hp, Hw, Hwi. split; [by exists k|].
  repeat split; try done; try lia; try tauto.
Qed.

Lemma countersStep_quiet s s' :
  score s' = score s → lives s' = lives s → stage s' = stage s →
  gameState s' = gameState s → powerMode s' = powerMode s →
  wallsLeft s' = wallsLeft s → witches s' = witches s →
  countersStep s s'.
Proof. intros Hs. apply (countersStep_score 0); [done|lia]. Qed.

Lemma countersStep_resetPositions s : countersStep s (resetPositions s).
Proof. by apply countersStep_quiet. Qed.

Lemma countersStep_loseLife s : countersStep s (loseLife s).
Proof.
  unfold loseLife. cbn. destruct (Z.leb_spec (lives s) 1) as [Hle|Hgt].
  - counters 0.
  - counters 0.
Qed.

Lemma runLives_witches s : witches (runLives s) = witches s.
Proof.
  apply (runLives_rel (λ s s', witches s' = witches s)).
  - intros a b c H1 H2. congruence.
  - done.
  - intros s0. unfold loseLife. by destruct (_ <=? 1).
Qed.

Section Counters.

Variable env : Env.

Lemma countersStep_player s :
  countersStep s
    (wrapPacman
       (movePacman env (isAligned (Entity.x (pacman s)) (Entity.y (pacman s)))
          (acceptNextDir (isAligned (Entity.x (pacman s)) (Entity.y (pacman s))) s))).
Proof.
  set (b := isAligned _ _).
  eapply countersStep_trans; [|by apply countersStep_quiet].
  apply (countersStep_trans _ (acceptNextDir b s)).
  { unfold acceptNextDir. repeat case_match; by apply countersStep_quiet. }
  generalize (acceptNextDir b s) as s1. intros s1.
  unfold movePacman.
  destruct (canMove s1 _ _ _); [|destruct (negb b); by apply countersStep_quiet].
  cbn. destruct ((0 <? powerMode s1) && (0 <? wallsLeft s1)) eqn:Hg;
    [|by apply countersStep_quiet].
  destruct (cellIs _ _ _ 1); [|by apply countersStep_quiet].
  apply andb_true_iff in Hg as [Hp%Z.ltb_lt Hw%Z.ltb_lt].
  unfold breakWall. counters 5.
Qed.

Lemma countersStep_recoverLost p s : countersStep s (recoverLost p s).
Proof.
  unfold recoverLost. destruct (outOfBounds p);
    [apply countersStep_resetPositions|apply countersStep_refl].
Qed.

Lemma respawnCandy_counters s :
  score (respawnCandy env s) = score s ∧ lives (respawnCandy env s) = lives s
  ∧ stage (respawnCandy env s) = stage s
  ∧ gameState (respawnCandy env s) = gameState s
  ∧ powerMode (respawnCandy env s) = powerMode s
  ∧ wallsLeft (respawnCandy env s) = wallsLeft s
  ∧ witches (respawnCandy env s) = witches s.
Proof. unfold respawnCandy. by destruct (respawnLoop _ _ _ _ _ _) as [[[m k] n]|]. Qed.

Lemma countersStep_tileEffect p s : countersStep s (tileEffect env p s).
Proof.
  unfold tileEffect. cbv zeta.
  destruct (tileIs _ 2); [by apply (countersStep_score 1)|].
  destruct (tileIs _ 3).
  { match goal with |- countersStep s (respawnCandy env ?t) =>
      destruct (respawnCandy_counters t) as (Hs & Hl & Hst & Hg & Hp & Hw & Hwi) end.
    unfold countersStep. rewrite Hs, Hl, Hst, Hg, Hp, Hw, Hwi. counters 5. }
  destruct (tileIs _ 6).
  { destruct (powerMode s =? 0).
    - by apply countersStep_quiet.
    - cbn. destruct (Z.ltb_spec 0 (wallsLeft s)).
      + counters 10.
      + by apply (countersStep_score 10). }
  destruct (tileIs _ 7); [by apply (countersStep_score 50)|apply countersStep_refl].
Qed.

Lemma countersStep_updatePowerMode s : countersStep s (updatePowerMode s).
Proof.
  unfold updatePowerMode. destruct (Z.ltb_spec 0 (powerMode s)); [|apply countersStep_refl].
  cbn. destruct (_ =? 0); counters 0.
Qed.

Lemma countersStep_hitGhost p i g s : countersStep s (hitGhost p i g s).
Proof.
  unfold hitGhost. destruct (_ && _); [|apply countersStep_refl].
  destruct (GhostEntity.isScared _); [by apply (countersStep_score 20)|].
  by apply countersStep_quiet.
Qed.

Lemma countersStep_respawnGhost i s : countersStep s (respawnGhost env i s).
Proof. unfold respawnGhost. repeat case_match; by apply countersStep_quiet. Qed.

Lemma countersStep_ghostStep p i s : countersStep s (ghostStep env p i s).
Proof.
  unfold ghostStep. destruct (ghosts s !! i) as [g|]; [|apply countersStep_refl].
  destruct (GhostEntity.isDying g); [by apply countersStep_quiet|].
  cbv zeta. destruct (steerGhost_state env g s) as [n Hn]. rewrite Hn.
  eapply countersStep_trans; [|apply countersStep_respawnGhost].
  eapply countersStep_trans; [|apply countersStep_hitGhost].
  by apply countersStep_quiet.
Qed.

Lemma countersStep_checkWin s : countersStep s (checkWin s).
Proof.
  unfold checkWin. destruct (winReached _ _); [|apply countersStep_refl].
  counters 0.
Qed.

Lemma countersStep_bonusSpawn q v s : countersStep s (bonusSpawn env q v s).
Proof. unfold bonusSpawn. repeat case_match; by apply countersStep_quiet. Qed.

Lemma countersStep_witchSpawn s : countersStep s (witchSpawn env s).
Proof.
  unfold witchSpawn. destruct (_ && _) eqn:Hg; [|by apply countersStep_quiet].
  apply andb_true_iff in Hg as [_ Hlen%Nat.ltb_lt].
  unfold countersStep. cbn. rewrite length_app. counters 0.
Qed.

Lemma countersStep_witchStep p i s : countersStep s (witchStep env p i s).
Proof.
  unfold witchStep. destruct (witches s !! i) as [w|]; [|apply countersStep_refl].
  assert (Hins : ∀ w' s0, length (witches s0) = length (witches s) →
            score s0 = score s → lives s0 = lives s → stage s0 = stage s →
            gameState s0 = gameState s → powerMode s0 = powerMode s →
            wallsLeft s0 = wallsLeft s →
            countersStep s (set_witches (<[i := w']> (witches s0)) s0)).
  { intros w' s0 Hw Hs Hl Hst Hg Hp Hwl. unfold countersStep. cbn.
    rewrite length_insert, Hw, Hs, Hl, Hst, Hg, Hp, Hwl. counters 0. }
  cbv zeta. destruct (_ && _); [|by apply Hins].
  unfold countersStep, setLives. cbn. rewrite !length_insert. counters 0.
Qed.

Lemma countersStep_sweep s :
  countersStep s (set_witches (List.filter witchStays (witches s)) s).
Proof.
  counters 0.
  intros H. etransitivity; [|exact H]. clear. induction (witches s) as [|w l IH]; simpl; [done|]. destruct (witchStays w); simpl; lia.
Qed.

Lemma countersStep_update s : countersStep s (update env s).
Proof.
  apply (update_phases env countersStep).
  - apply countersStep_refl.
  - apply countersStep_trans.
  - apply countersStep_player.
  - intros; apply countersStep_recoverLost.
  - apply countersStep_tileEffect.
  - apply countersStep_updatePowerMode.
  - intros; by apply countersStep_quiet.
  - intros; by apply countersStep_quiet.
  - apply countersStep_ghostStep.
  - apply countersStep_checkWin.
  - apply countersStep_bonusSpawn.
  - apply countersStep_witchSpawn.
  - apply countersStep_witchStep.
  - apply countersStep_sweep.
  - intros; by apply countersStep_quiet.
  - apply countersStep_loseLife.
Qed.

End Counters.

Lemma reachable_countersOK s : reachable s → countersOK s.
Proof.
  induction 1 as [|env fuel s s' _ IH Hs|env fuel s s' _ IH Hs
                  |env s _ IH|d s _ IH|st s _ IH Hst].
  - unfold countersOK. cbn. split; [exists 0; lia|]. repeat split; lia.
  - destruct (started_frame env fuel s s') as (Hstart & _ & Hboth).
    destruct (Hstart Hs) as (_ & Hstage & Hscore & Hlives).
    destruct (Hboth (or_introl Hs)) as (_ & _ & Hw & _ & Hp & Hwl & _).
    unfold countersOK. rewrite Hstage, Hscore, Hlives, Hw, Hp, Hwl. cbn.
    split; [exists 0; lia|]. repeat split; lia.
  - destruct (started_frame env fuel s s') as (_ & Hnext & Hboth).
    destruct (Hnext Hs) as (_ & Hstage & Hscore & Hlives).
    destruct (Hboth (or_intror Hs)) as (_ & _ & Hw & _ & Hp & Hwl & _).
    destruct IH as (Hsc & Hl & Hst & _).
    unfold countersOK. rewrite Hstage, Hscore, Hlives, Hw, Hp, Hwl. cbn.
    split; [done|]. repeat split; lia.
  - destruct (countersStep_update env s)
      as ((k & Hk & Hs) & Hl & Hst & _ & Hp & Hw & Hwi).
    destruct IH as ((k0 & Hk0 & Hs0) & Hl0 & Hst0 & Hp0 & Hw0 & Hwi0).
    unfold countersOK. split; [exists (k0 + k); lia|].
    repeat split; try lia; tauto.
  - exact IH.
  - exact IH.
Qed.

(** X7.  In every reachable state the score is a non-negative
    multiple of 10, and no tick lowers it. *)
Theorem score_grows s :
  reachable s →
  0 ≤ score s ∧ (10 | score s) ∧ ∀ env, score s ≤ score (update env s).
Proof.
  intros Hr. destruct (reachable_countersOK s Hr) as ((k & Hk & Hs) & _).
  split; [lia|]. split; [exists k; lia|].
  intros env. destruct (countersStep_update env s) as ((k' & Hk' & Hs') & _). lia.
Qed.

Lemma score_grows_witness :
  0 ≤ score demoPowered ∧ (10 | score demoPowered)
  ∧ ∀ env, score demoPowered ≤ score (update env demoPowered).
Proof. exact (score_grows demoPowered reachable_demoPowered). Defined.

(** X8.  In every reachable state the player has between 0 and 3
    lives; no tick adds a life, and a tick ends in GAMEOVER only if the
    game was over before or no life is left after it. *)
Theorem lives_only_lost s :
  reachable s →
  0 ≤ lives s ≤ 3
  ∧ ∀ env, lives (update env s) ≤ lives s
           ∧ (gameState (update env s) = GAMEOVER →
              gameState s = GAMEOVER ∨ lives (update env s) = 0).
Proof.
  intros Hr. destruct (reachable_countersOK s Hr) as (_ & Hl & _).
  split; [done|]. intros env.
  destruct (countersStep_update env s) as (_ & Hl' & _ & Hg & _).
  split; [lia|]. apply Hg. lia.
Qed.

Section PowerTick.

Variable env : Env.

(** The power-mode counter after a tick. *)
Lemma update_powerMode s :
  gameState s = PLAYING →
  let p := pacman (wrapPacman
             (movePacman env (isAligned (Entity.x (pacman s)) (Entity.y (pacman s)))
                (acceptNextDir (isAligned (Entity.x (pacman s)) (Entity.y (pacman s))) s))) in
  let p1 := if tileIs (cellAt (maze (movePacman env
                                       (isAligned (Entity.x (pacman s)) (Entity.y (pacman s)))
                                       (acceptNextDir
                                          (isAligned (Entity.x (pacman s))
                                                     (Entity.y (pacman s))) s)))
                              (roundTile (Entity.x p)) (roundTile (Entity.y p))) 3
            then 600 else powerMode s in
  powerMode (update env s) = if 0 <? p1 then p1 - 1 else p1.
Proof.
  intros Hplay. rewrite (update_playing env s Hplay).
  destruct (sameCore_runLives (tick env s)) as (_ & _ & -> & _).
  rewrite tick_phases. cbv zeta.
  set (isAt := isAligned _ _).
  set (s0 := movePacman env isAt (acceptNextDir isAt s)).
  set (s1 := wrapPacman s0). set (p := pacman s1).
  assert (Hb : ∀ q v t, powerMode (bonusSpawn env q v t) = powerMode t).
  { intros q v t. unfold bonusSpawn. by repeat case_match. }
  assert (Hcore : ∀ t t', sameCore t t' → powerMode t' = powerMode t).
  { by intros t t' (_ & _ & -> & _). }
  rewrite (Hcore _ _ (sameCore_updateWitches env p _)).
  rewrite (Hcore _ _ (sameCore_witchSpawn env _)).
  rewrite !Hb.
  rewrite (Hcore _ _ (sameCore_checkWin _)).
  rewrite (Hcore _ _ (sameCore_updateGhosts env p _)).
  assert (Hf : ∀ t, powerMode (updateFragments t) = powerMode t) by done.
  assert (Hpop : ∀ t, powerMode (updatePopups t) = powerMode t) by done.
  assert (Hpm : ∀ t, powerMode (updatePowerMode t)
                     = if 0 <? powerMode t then powerMode t - 1 else powerMode t).
  { intros t. unfold updatePowerMode. destruct (0 <? powerMode t); [|done].
    cbn. by destruct (_ =? 0). }
  rewrite Hf, Hpop, Hpm.
  assert (Ht : powerMode (tileEffect env p (recoverLost p s1))
               = if tileIs (cellAt (maze s0) (roundTile (Entity.x p)) (roundTile (Entity.y p))) 3
                 then 600 else powerMode s).
  { assert (Hm : maze (recoverLost p s1) = maze s0).
    { unfold recoverLost. by destruct (outOfBounds p). }
    assert (Hp : powerMode (recoverLost p s1) = powerMode s).
    { transitivity (powerMode s0).
      - unfold recoverLost. by destruct (outOfBounds p).
      - unfold s0. rewrite movePacman_powerMode.
        by destruct (acceptNextDir_frame isAt s) as (_ & _ & ->). }
    unfold tileEffect. cbv zeta. rewrite Hm.
    destruct (tileIs _ 2) eqn:H2.
    { replace (tileIs (cellAt (maze s0) (roundTile (Entity.x p)) (roundTile (Entity.y p))) 3)
        with false; [done|].
      apply tileIs_eq in H2. rewrite H2. done. }
    destruct (tileIs _ 3).
    { match goal with |- powerMode (respawnCandy env ?t) = _ =>
        destruct (respawnCandy_frame env t) as [-> _] end. done. }
    destruct (tileIs _ 6).
    { destruct (powerMode (recoverLost p s1) =? 0).
      - exact Hp.
      - cbv zeta. destruct (0 <? wallsLeft _); exact Hp. }
    destruct (tileIs _ 7); exact Hp. }
  by rewrite Ht.
Qed.

End PowerTick.

Lemma lives_only_lost_witness :
  0 ≤ lives demoLost ≤ 3
  ∧ ∀ env, lives (update env demoLost) ≤ lives demoLost
           ∧ (gameState (update env demoLost) = GAMEOVER →
              gameState demoLost = GAMEOVER ∨ lives (update env demoLost) = 0).
Proof. exact (lives_only_lost demoLost reachable_demoLost). Defined.

(** X9.  In every reachable state the power-mode counter lies between
    0 and 600 and the wall-break charges between 0 and 5.  A tick of
    the game in play either leaves the counter at 599 (a candy sets it
    to 600 and the same tick counts it down once) or lowers it by one,
    not below 0. *)
Theorem power_bounded s :
  reachable s →
  0 ≤ powerMode s ≤ 600 ∧ 0 ≤ wallsLeft s ≤ 5
  ∧ ∀ env, gameState s = PLAYING →
           powerMode (update env s) = 599
           ∨ powerMode (update env s) = Z.max 0 (powerMode s - 1).
Proof.
  intros Hr. destruct (reachable_countersOK s Hr) as (_ & _ & _ & Hp & Hw & _).
  split; [done|]. split; [done|]. intros env Hplay.
  rewrite (update_powerMode env s Hplay). cbv zeta.
  destruct (tileIs _ 3); [by left|]. right.
  destruct (Z.ltb_spec 0 (powerMode s)); lia.
Qed.

Lemma power_bounded_witness :
  0 ≤ powerMode demoBorder ≤ 600 ∧ 0 ≤ wallsLeft demoBorder ≤ 5
  ∧ ∀ env, gameState demoBorder = PLAYING →
           powerMode (update env demoBorder) = 599
           ∨ powerMode (update env demoBorder) = Z.max 0 (powerMode demoBorder - 1).
Proof. exact (power_bounded demoBorder reachable_demoBorder). Defined.

(** X10.  In every reachable state there are at most two witches, each
    of them active and above the line 50 pixels below the canvas: a
    witch that has struck the player or has fallen below that line is
    removed in the same tick. *)
Theorem witches_bounded s :
  reachable s →
  (length (witches s) ≤ 2)%nat
  ∧ Forall (λ w, WitchEntity.active w = true
                 ∧ (WitchEntity.y w < inject_Z (CANVAS_HEIGHT + 50))%Q) (witches s).
Proof.
  intros Hr. split; [by apply reachable_countersOK|].
  assert (Hstay : ∀ w, witchStays w = true →
            WitchEntity.active w = true
            ∧ (WitchEntity.y w < inject_Z (CANVAS_HEIGHT + 50))%Q).
  { intros w [Hy Ha]%andb_true_iff. split; [done|].
    apply negb_true_iff in Hy. apply Qnot_le_lt. intros Hle.
    apply Qle_bool_iff in Hle. congruence. }
  induction Hr as [|env fuel s s' _ IH Hs|env fuel s s' _ IH Hs
                   |env s _ IH|d s _ IH|st s _ IH Hst].
  - constructor.
  - destruct (started_frame env fuel s s') as (_ & _ & Hboth).
    destruct (Hboth (or_introl Hs)) as (_ & _ & -> & _). constructor.
  - destruct (started_frame env fuel s s') as (_ & _ & Hboth).
    destruct (Hboth (or_intror Hs)) as (_ & _ & -> & _). constructor.
  - destruct (decide (gameState s = PLAYING)) as [Hplay|Hplay];
      [|by rewrite update_not_playing].
    rewrite (update_playing env s Hplay), runLives_witches.
    rewrite tick_phases. cbv zeta. unfold updateWitches. cbn.
    apply Forall_forall. intros w Hw. apply Hstay.
    apply list_elem_of_In, filter_In in Hw. apply Hw.
  - exact IH.
  - exact IH.
Qed.

Lemma witches_bounded_witness :
  (length (witches demoWitch) ≤ 2)%nat
  ∧ Forall (λ w, WitchEntity.active w = true
                 ∧ (WitchEntity.y w < inject_Z (CANVAS_HEIGHT + 50))%Q)
           (witches demoWitch).
Proof. exact (witches_bounded demoWitch reachable_demoWitch). Defined.

(** X11.  In every reachable state the stage number is at least 1, so
    the index [(stage - 1) % 4] into [STAGE_COLORS] is in range and the
    wall colour is defined; the colour repeats every four stages. *)
Theorem stage_colour s :
  reachable s →
  1 ≤ stage s ∧ is_Some (wallColor s)
  ∧ wallColor (set_stage (stage s + 4) s) = wallColor s.
Proof.
  intros Hr. destruct (reachable_countersOK s Hr) as (_ & _ & Hst & _).
  split; [done|]. unfold wallColor. cbn [stage set_stage].
  change (Z.of_nat (length STAGE_COLORS)) with 4.
  replace (stage s + 4 - 1) with (stage s - 1 + 1 * 4) by lia.
  rewrite Z.rem_add by lia.
  pose proof (Z.rem_bound_pos (stage s - 1) 4 ltac:(lia) ltac:(lia)) as Hb.
  destruct (Z.ltb_spec (Z.rem (stage s - 1) 4) 0); [lia|]. split; [|done].
  apply lookup_lt_is_Some. cbn. lia.
Qed.

Lemma stage_colour_witness :
  1 ≤ stage demoStart ∧ is_Some (wallColor demoStart)
  ∧ wallColor (set_stage (stage demoStart + 4) demoStart) = wallColor demoStart.
Proof. exact (stage_colour demoStart reachable_demoStart). Defined.

(** ** Tiles and pixels *)

Lemma roundTile_centre a : roundTile a = (a + TILE_SIZE / 2) / TILE_SIZE.
Proof.
  unfold roundTile, TILE_SIZE. change (36 / 2) with 18.
  replace (2 * a + 36) with (2 * (a + 18)) by lia.
  change (2 * 36) with (2 * 36). by rewrite Z.div_mul_cancel_l.
Qed.

Lemma roundTile_aligned a : (TILE_SIZE | a) → roundTile a = a / TILE_SIZE.
Proof.
  unfold roundTile, TILE_SIZE. intros [k ->].
  rewrite Z.div_mul by done.
  replace (2 * (k * 36) + 36) with (36 + k * (2 * 36)) by lia.
  rewrite Z.div_add by done. change (36 / (2 * 36)) with 0. lia.
Qed.

Lemma roundTile_snap a : roundTile (roundTile a * TILE_SIZE) = roundTile a.
Proof.
  rewrite roundTile_aligned by (by exists (roundTile a)).
  by rewrite Z.div_mul.
Qed.

(** A step of 4 pixels keeps the tile under the centre or enters the
    tile [canMove] has looked at. *)
Lemma roundTile_forward a :
  (4 | a) → roundTile (a + 4) = roundTile a
            ∨ roundTile (a + 4) = (a + TILE_SIZE + 4 - 1) / TILE_SIZE.
Proof.
  intros [k ->]. rewrite !roundTile_centre. unfold TILE_SIZE. change (36 / 2) with 18.
  Z.div_mod_to_equations. lia.
Qed.

Lemma roundTile_backward a :
  (4 | a) → roundTile (a - 4) = roundTile a ∨ roundTile (a - 4) = (a - 4) / TILE_SIZE.
Proof.
  intros [k ->]. rewrite !roundTile_centre. unfold TILE_SIZE. change (36 / 2) with 18.
  Z.div_mod_to_equations. lia.
Qed.

Lemma isAligned_divide x y :
  isAligned x y = true ↔ (TILE_SIZE | x) ∧ (TILE_SIZE | y).
Proof.
  unfold isAligned. rewrite andb_true_iff, !Z.eqb_eq.
  rewrite <- !Z.rem_divide by done. done.
Qed.

Lemma divide_4_36 a : (TILE_SIZE | a) → (4 | a).
Proof. intros [k ->]. exists (k * 9). unfold TILE_SIZE. lia. Qed.

Lemma wrapX_range x : - TILE_SIZE ≤ wrapX x ≤ CANVAS_WIDTH.
Proof.
  unfold wrapX, CANVAS_WIDTH, TILE_SIZE, GRID_WIDTH.
  destruct (Z.ltb_spec x (- (36))).
  - destruct (Z.ltb_spec (36 * 15) (36 * 15)); lia.
  - destruct (Z.ltb_spec (36 * 15) x); lia.
Qed.

Lemma wrapX_cases x :
  wrapX x = x ∨ wrapX x = CANVAS_WIDTH ∨ wrapX x = - TILE_SIZE.
Proof.
  unfold wrapX. destruct (x <? - TILE_SIZE); destruct (CANVAS_WIDTH <? _); tauto.
Qed.

(** ** What a tick does to the maze *)

Lemma tileStep_refl c : tileStep c c.
Proof. by left. Qed.

Lemma tileStep_trans c1 c2 c3 : tileStep c1 c2 → tileStep c2 c3 → tileStep c1 c3.
Proof.
  intros [->|(v & v' & -> & -> & Hv & Hv')] [->|(w & w' & Hw & -> & Hw4 & Hw')].
  - by left.
  - right. by exists w, w'.
  - right. by exists v, v'.
  - right. by exists v, w'.
Qed.

Lemma mazeStep_refl m : mazeStep m m.
Proof. intros a b. apply tileStep_refl. Qed.

Lemma mazeStep_trans m1 m2 m3 : mazeStep m1 m2 → mazeStep m2 m3 → mazeStep m1 m3.
Proof. intros H1 H2 a b. eapply tileStep_trans; [apply H1|apply H2]. Qed.

Lemma mazeStep_setCell m x y v :
  cellAt m x y ≠ Some 4 → v = 0 ∨ v = 3 ∨ v = 7 → mazeStep m (setCell m x y v).
Proof.
  intros H4 Hv a b. rewrite cellAt_setCell. case_decide as Heq; [|by left].
  injection Heq as -> ->. destruct (cellAt m x y) as [c|]; [|by left].
  right. exists c, v. repeat split; try done. by intros ->.
Qed.

Lemma mazeStep_tile m x y k v :
  tileIs (cellAt m x y) k = true → k ≠ 4 → v = 0 ∨ v = 3 ∨ v = 7 →
  mazeStep m (setCell m x y v).
Proof.
  intros Hk%tileIs_eq Hk4 Hv. apply mazeStep_setCell; [|done]. rewrite Hk. by intros [= ->].
Qed.

Lemma mazeStep_sameShape m m' : mazeStep m m' → sameShape m m'.
Proof.
  intros H a b Hn. destruct (H a b) as [->|(v & v' & Hv & _)]; [done|congruence].
Qed.

Lemma mazeStep_no_wall m m' a b :
  mazeStep m m' → tileIs (cellAt m a b) 1 = false → tileIs (cellAt m' a b) 1 = false.
Proof.
  intros H Hc. destruct (H a b) as [->|(v & v' & _ & -> & _ & Hv')]; [done|].
  cbn. destruct Hv' as [-> | [-> | ->]]; done.
Qed.

Lemma tailStep_refl s : tailStep s s.
Proof. split; [by left|apply mazeStep_refl]. Qed.

Lemma tailStep_trans s1 s2 s3 : tailStep s1 s2 → tailStep s2 s3 → tailStep s1 s3.
Proof.
  intros [Hp1 Hm1] [Hp2 Hm2]. split; [|by eapply mazeStep_trans].
  destruct Hp2 as [->|Hp2]; [done|by right].
Qed.

Lemma tailStep_quiet s s' : pacman s' = pacman s → maze s' = maze s → tailStep s s'.
Proof. intros Hp Hm. split; [by left|]. rewrite Hm. apply mazeStep_refl. Qed.

Lemma tailStep_maze s s' :
  pacman s' = pacman s → mazeStep (maze s) (maze s') → tailStep s s'.
Proof. intros Hp Hm. split; [by left|done]. Qed.

Lemma tailStep_resetPositions s : tailStep s (resetPositions s).
Proof. split; [by right|apply mazeStep_refl]. Qed.

Lemma tailStep_loseLife s : tailStep s (loseLife s).
Proof.
  unfold loseLife. destruct (_ <=? 1); [by apply tailStep_quiet|].
  split; [by right|apply mazeStep_refl].
Qed.

Lemma tailStep_runLives s : tailStep s (runLives s).
Proof.
  apply (runLives_rel tailStep tailStep_trans); [|apply tailStep_loseLife].
  intros s0. by apply tailStep_quiet.
Qed.

Section Tail.

Variable env : Env.

Lemma respawnLoop_mazeStep fuel : ∀ respawned attempts m k r,
  respawnLoop env fuel respawned attempts m k = Some r → mazeStep m r.1.1.
Proof.
  induction fuel as [|fuel IH]; intros respawned attempts m k r; simpl.
  - destruct (_ && _); [done|]. intros [= <-]. apply mazeStep_refl.
  - destruct (_ && _); [|intros [= <-]; apply mazeStep_refl].
    destruct (cellIs m _ _ 2 || cellIs m _ _ 0) eqn:Hc; [|apply IH].
    intros Hr. apply IH in Hr. eapply mazeStep_trans; [|exact Hr].
    apply orb_true_iff in Hc as [Hc|Hc].
    + by apply (mazeStep_tile _ _ _ 2); [|done|right; left].
    + by apply (mazeStep_tile _ _ _ 0); [|done|right; left].
Qed.

Lemma tailStep_respawnCandy s : tailStep s (respawnCandy env s).
Proof.
  unfold respawnCandy.
  destruct (respawnLoop env 100 false 0 (maze s) (rng s)) as [[[m k] n]|] eqn:Hr;
    [|apply tailStep_refl].
  apply tailStep_maze; [done|]. apply respawnLoop_mazeStep in Hr. exact Hr.
Qed.

Lemma tailStep_tileEffect p s : tailStep s (tileEffect env p s).
Proof.
  unfold tileEffect. cbv zeta.
  destruct (tileIs _ 2) eqn:H2.
  { apply tailStep_maze; [done|]. cbn. by apply (mazeStep_tile _ _ _ 2); [|done|left]. }
  destruct (tileIs _ 3) eqn:H3.
  { eapply tailStep_trans; [|apply tailStep_respawnCandy].
    apply tailStep_maze; [done|]. cbn. by apply (mazeStep_tile _ _ _ 3); [|done|left]. }
  destruct (tileIs _ 6) eqn:H6.
  { destruct (powerMode s =? 0).
    - apply tailStep_maze; [done|]. cbn.
      by apply (mazeStep_tile _ _ _ 6); [|done|left].
    - destruct (0 <? wallsLeft _); (apply tailStep_maze; [done|]); cbn;
        by apply (mazeStep_tile _ _ _ 6); [|done|left]. }
  destruct (tileIs _ 7) eqn:H7; [|apply tailStep_refl].
  apply tailStep_maze; [done|]. cbn. by apply (mazeStep_tile _ _ _ 7); [|done|left].
Qed.

Lemma tailStep_updatePowerMode s : tailStep s (updatePowerMode s).
Proof. unfold updatePowerMode. repeat case_match; by apply tailStep_quiet. Qed.

Lemma tailStep_hitGhost p i g s : tailStep s (hitGhost p i g s).
Proof.
  unfold hitGhost. destruct (_ && _); [|apply tailStep_refl].
  destruct (GhostEntity.isScared g); by apply tailStep_quiet.
Qed.

Lemma tailStep_respawnGhost i s : tailStep s (respawnGhost env i s).
Proof. unfold respawnGhost. repeat case_match; by apply tailStep_quiet. Qed.

Lemma tailStep_ghostStep p i s : tailStep s (ghostStep env p i s).
Proof.
  unfold ghostStep. destruct (ghosts s !! i) as [g|]; [|apply tailStep_refl].
  destruct (GhostEntity.isDying g); [by apply tailStep_quiet|].
  cbv zeta. destruct (steerGhost_state env g s) as [n Hn]. rewrite Hn.
  eapply tailStep_trans; [|apply tailStep_respawnGhost].
  eapply tailStep_trans; [|apply tailStep_hitGhost].
  by apply tailStep_quiet.
Qed.

Lemma tailStep_checkWin s : tailStep s (checkWin s).
Proof. unfold checkWin. destruct (winReached _ _); by apply tailStep_quiet. Qed.

Lemma tailStep_bonusSpawn q v s :
  v = 3 ∨ v = 7 → tailStep s (bonusSpawn env q v s).
Proof.
  intros Hv. unfold bonusSpawn. destruct (randomBelow _ _ _); [|by apply tailStep_quiet].
  cbv zeta. destruct (cellIs _ _ _ 0) eqn:H0; [|by apply tailStep_quiet].
  apply tailStep_maze; [done|]. cbn. cbn in H0.
  apply (mazeStep_tile _ _ _ 0); [exact H0|done|tauto].
Qed.

Lemma tailStep_witchSpawn s : tailStep s (witchSpawn env s).
Proof. unfold witchSpawn. destruct (_ && _); by apply tailStep_quiet. Qed.

Lemma tailStep_witchStep p i s : tailStep s (witchStep env p i s).
Proof.
  unfold witchStep. destruct (witches s !! i) as [w|]; [|apply tailStep_refl].
  cbv zeta. destruct (_ && _); by apply tailStep_quiet.
Qed.

(** The phases after the player's move keep the player or put it back
    on the start, and change tiles only by [tileStep]. *)
Lemma tailStep_tickTail p s : tailStep s (tickTail env p s).
Proof.
  unfold tickTail, afterTile, updateWitches, updateGhosts.
  match goal with |- tailStep s (set_witches _ ?t) =>
    apply (tailStep_trans s t); [|by apply tailStep_quiet] end.
  match goal with |- tailStep s (fold_left ?f ?l ?a) =>
    apply (tailStep_trans s a);
      [|apply (fold_left_rel tailStep f); [apply tailStep_refl|apply tailStep_trans|]] end;
    [|intros; apply tailStep_witchStep].
  eapply tailStep_trans; [|apply tailStep_witchSpawn].
  eapply tailStep_trans; [|apply tailStep_bonusSpawn; by right].
  eapply tailStep_trans; [|apply tailStep_bonusSpawn; by left].
  eapply tailStep_trans; [|apply tailStep_checkWin].
  match goal with |- tailStep s (fold_left ?f ?l ?a) =>
    apply (tailStep_trans s a);
      [|apply (fold_left_rel tailStep f); [apply tailStep_refl|apply tailStep_trans|]] end;
    [|intros; apply tailStep_ghostStep].
  match goal with |- tailStep s (updateFragments ?t) =>
    apply (tailStep_trans s t); [|by apply tailStep_quiet] end.
  match goal with |- tailStep s (updatePopups ?t) =>
    apply (tailStep_trans s t); [|by apply tailStep_quiet] end.
  eapply tailStep_trans; [|apply tailStep_updatePowerMode].
  apply tailStep_tileEffect.
Qed.

End Tail.

(** ** The player's move *)

Lemma canMove_ahead s x y d :
  mazeBounded (maze s) → canMove s x y d = true →
  tileIs (cellAt (maze s) (lookAhead x y d).1 (lookAhead x y d).2) 1 = false
  ∨ (0 <? powerMode s) && (0 <? wallsLeft s) = true.
Proof.
  intros Hb. unfold canMove. destruct (lookAhead x y d) as [gx gy]. cbn [fst snd].
  destruct ((gx <? 0) || (GRID_WIDTH <=? gx)) eqn:Hx.
  - intros _. left. destruct (cellAt (maze s) gx gy) eqn:Hc; [|done].
    exfalso. destruct (Hb gx gy) as [Hgx _]; [by eexists|].
    apply orb_true_iff in Hx as [Hx%Z.ltb_lt|Hx%Z.leb_le]; lia.
  - destruct ((gy <? 0) || (GRID_HEIGHT <=? gy)); [done|].
    destruct (tileIs _ 1); [by right|by left].
Qed.

(** The tile under the player after a step is the one it was on or the
    one [canMove] has looked at. *)
Lemma step_tile x y d n :
  onTrack (Entity.mk x y d n 4) →
  let p' := stepEntity (Entity.mk x y d n 4) in
  (roundTile (Entity.x p') = roundTile x ∧ roundTile (Entity.y p') = roundTile y)
  ∨ (roundTile (Entity.x p'), roundTile (Entity.y p')) = lookAhead x y d.
Proof.
  intros (Hx & Hy & Hd). cbn in Hx, Hy, Hd. unfold stepEntity, lookAhead. cbn.
  destruct d; cbn.
  - rewrite (roundTile_aligned x Hd).
    destruct (roundTile_backward y Hy) as [H|H]; rewrite H; [by left|by right].
  - rewrite (roundTile_aligned x Hd).
    destruct (roundTile_forward y Hy) as [H|H]; rewrite H; [by left|by right].
  - rewrite (roundTile_aligned y Hd).
    destruct (roundTile_backward x Hx) as [H|H]; rewrite H; [by left|by right].
  - rewrite (roundTile_aligned y Hd).
    destruct (roundTile_forward x Hx) as [H|H]; rewrite H; [by left|by right].
  - by left.
Qed.

Lemma onTrack_step x y d n : onTrack (Entity.mk x y d n 4) → onTrack (stepEntity (Entity.mk x y d n 4)).
Proof.
  intros (Hx & Hy & Hd). cbn in Hx, Hy, Hd. unfold stepEntity, onTrack.
  destruct d; cbn; (split; [|split]); try done;
    try (apply Z.divide_sub_r; [done|by exists 1]);
    try (apply Z.divide_add_r; [done|by exists 1]).
Qed.

Lemma onTrack_aligned x y d n v :
  (TILE_SIZE | x) → (TILE_SIZE | y) → onTrack (Entity.mk x y d n v).
Proof.
  intros Hx Hy. unfold onTrack. cbn.
  split; [by apply divide_4_36|]. split; [by apply divide_4_36|]. by destruct d.
Qed.

Section Player.

Variable env : Env.

Lemma player_phases s :
  onTrack (pacman s) → Entity.speed (pacman s) = 4 →
  tileIs (tileUnder (maze s) (pacman s)) 1 = false → mazeBounded (maze s) →
  let isAt := isAligned (Entity.x (pacman s)) (Entity.y (pacman s)) in
  let s1 := wrapPacman (movePacman env isAt (acceptNextDir isAt s)) in
  onTrack (pacman s1) ∧ Entity.speed (pacman s1) = 4
  ∧ tileIs (tileUnder (maze s1) (pacman s1)) 1 = false
  ∧ mazeStep (maze s) (maze s1)
  ∧ - TILE_SIZE ≤ Entity.x (pacman s1) ≤ CANVAS_WIDTH.
Proof.
  intros Hon Hsp Hclear Hb isAt s1. subst s1.
  (* the queued direction *)
  set (s0 := acceptNextDir isAt s).
  assert (H0 : onTrack (pacman s0) ∧ Entity.speed (pacman s0) = 4
               ∧ Entity.x (pacman s0) = Entity.x (pacman s)
               ∧ Entity.y (pacman s0) = Entity.y (pacman s)
               ∧ maze s0 = maze s).
  { unfold s0, acceptNextDir.
    destruct (negb _ && isAt) eqn:Hacc; [|done].
    destruct (canMove s _ _ _); [|done]. cbn.
    apply andb_true_iff in Hacc as [_ Hal]. unfold isAt in Hal.
    apply isAligned_divide in Hal as [Hx Hy].
    split; [by apply onTrack_aligned|done]. }
  destruct H0 as (Hon0 & Hsp0 & Hx0 & Hy0 & Hm0).
  assert (Hclear0 : tileIs (tileUnder (maze s0) (pacman s0)) 1 = false).
  { unfold tileUnder. by rewrite Hm0, Hx0, Hy0. }
  assert (Hb0 : mazeBounded (maze s0)) by by rewrite Hm0.
  clearbody s0. clear Hon Hsp Hclear Hx0 Hy0.
  (* the move *)
  set (s2 := movePacman env isAt s0).
  assert (H2 : onTrack (pacman s2) ∧ Entity.speed (pacman s2) = 4
               ∧ tileIs (tileUnder (maze s2) (pacman s2)) 1 = false
               ∧ mazeStep (maze s0) (maze s2)).
  { unfold s2, movePacman.
    destruct (pacman s0) as [x y d n v] eqn:Hp. cbn in Hsp0. subst v. cbn [Entity.x Entity.y Entity.dir].
    destruct (canMove s0 x y d) eqn:Hcan.
    - pose proof (onTrack_step x y d n Hon0) as Hon'.
      pose proof (step_tile x y d n Hon0) as Htile. cbv zeta in Htile.
      apply (canMove_ahead s0 x y d Hb0) in Hcan.
      set (p' := stepEntity (Entity.mk x y d n 4)) in *.
      assert (Hsp' : Entity.speed p' = 4) by (unfold p', stepEntity; by destruct d).
      cbn [powerMode wallsLeft set_pacman maze].
      rewrite <- !roundTile_centre.
      destruct ((0 <? powerMode s0) && (0 <? wallsLeft s0)) eqn:Hpow.
      + destruct (cellIs (maze s0) (roundTile (Entity.x p')) (roundTile (Entity.y p')) 1) eqn:Hw.
        * unfold breakWall. cbn. split; [done|]. split; [done|]. split.
          -- unfold tileUnder. cbn. rewrite cellAt_setCell_eq; [done|].
             apply cellIs_true in Hw. by eexists.
          -- apply (mazeStep_tile _ _ _ 1); [exact Hw|done|by left].
        * cbn. split; [done|]. split; [done|]. split; [exact Hw|apply mazeStep_refl].
      + cbn. split; [done|]. split; [done|]. split; [|apply mazeStep_refl].
        destruct Hcan as [Hcan|Hcan]; [|done].
        unfold tileUnder. destruct Htile as [[-> ->]|Heq].
        * exact Hclear0.
        * injection Heq as -> ->. exact Hcan.
    - destruct (negb isAt); cbn.
      + split; [apply onTrack_aligned; eexists; reflexivity|].
        split; [done|]. split; [|apply mazeStep_refl].
        unfold tileUnder. cbn. rewrite !roundTile_snap. exact Hclear0.
      + rewrite Hp. split; [done|]. split; [done|]. split; [done|apply mazeStep_refl]. }
  destruct H2 as (Hon2 & Hsp2 & Hclear2 & Hstep2).
  assert (Hb2 : mazeBounded (maze s2)).
  { eapply sameShape_bounded; [|exact Hb0]. by apply mazeStep_sameShape. }
  rewrite Hm0 in Hstep2. clearbody s2.
  (* the wrap *)
  unfold wrapPacman. cbn.
  destruct Hon2 as (Hx2 & Hy2 & Hd2).
  split; [|split; [done|split; [|split; [done|apply wrapX_range]]]].
  - unfold onTrack. cbn.
    destruct (wrapX_cases (Entity.x (pacman s2))) as [-> | [-> | ->]]; [done| |].
    + split; [by exists 135|]. split; [done|].
      destruct (Entity.dir (pacman s2)); try done; try (by exists 15).
      split; [by exists 15|]. apply Hd2.
    + split; [by exists (-9)|]. split; [done|].
      destruct (Entity.dir (pacman s2)); try done; try (by exists (-1)).
      split; [by exists (-1)|]. apply Hd2.
  - unfold tileUnder. cbn.
    destruct (wrapX_cases (Entity.x (pacman s2))) as [-> | [-> | ->]]; [done| |].
    + destruct (cellAt (maze s2) (roundTile CANVAS_WIDTH) _) eqn:Hc; [|done].
      exfalso. destruct (Hb2 _ _ (mk_is_Some _ _ Hc)) as [Hr _].
      change (roundTile CANVAS_WIDTH) with 15 in Hr. unfold GRID_WIDTH in Hr. lia.
    + change (roundTile (- TILE_SIZE)) with (-1). unfold cellAt.
      by destruct (roundTile (Entity.y (pacman s2)) <? 0).
Qed.

End Player.

(** ** Invariants of the player and of the maze *)

Lemma mazeStep_movePacman env b s : mazeStep (maze s) (maze (movePacman env b s)).
Proof.
  unfold movePacman. destruct (canMove s _ _ _); [|destruct (negb b); apply mazeStep_refl].
  cbn. destruct (_ && _); [|apply mazeStep_refl].
  destruct (cellIs _ _ _ 1) eqn:Hw; [|apply mazeStep_refl].
  unfold breakWall. cbn. apply (mazeStep_tile _ _ _ 1); [exact Hw|done|by left].
Qed.

Lemma mazeStep_update env s : mazeStep (maze s) (maze (update env s)).
Proof.
  destruct (decide (gameState s = PLAYING)) as [Hplay|Hplay];
    [|rewrite update_not_playing by done; apply mazeStep_refl].
  rewrite (update_playing env s Hplay).
  eapply mazeStep_trans; [|apply tailStep_runLives].
  rewrite (tick_tail env s). cbv zeta.
  set (isAt := isAligned _ _).
  set (s1 := wrapPacman (movePacman env isAt (acceptNextDir isAt s))).
  eapply mazeStep_trans; [|apply (tailStep_tickTail env (pacman s1))].
  assert (H1 : mazeStep (maze s) (maze s1)).
  { unfold s1. cbn. eapply mazeStep_trans; [|apply mazeStep_movePacman].
    destruct (acceptNextDir_frame isAt s) as (-> & _). apply mazeStep_refl. }
  eapply mazeStep_trans; [exact H1|].
  unfold recoverLost. destruct (outOfBounds _); apply mazeStep_refl.
Qed.

Lemma playerOK_start s :
  pacman s = startPacman → tileIs (tileUnder (maze s) startPacman) 1 = false →
  mazeBounded (maze s) → playerOK s ∧ playerInside s.
Proof.
  intros Hp Hc Hb. unfold playerOK, playerInside. rewrite Hp.
  split; [|by vm_compute].
  split; [apply onTrack_aligned; [by exists 7|by exists 19]|].
  split; [done|]. split; [done|]. split; [done|]. by left.
Qed.

Lemma reachable_playerOK s : reachable s → playerOK s ∧ playerInside s.
Proof.
  induction 1 as [|env fuel s s' _ IH Hs|env fuel s s' _ IH Hs
                  |env s _ IH|d s _ IH|st s _ IH Hst].
  - split; [|by vm_compute]. unfold playerOK. cbn.
    split; [apply onTrack_aligned; [by exists 9|by exists 15]|].
    split; [done|]. split; [done|]. split; [|by right].
    intros x y [c Hc]. unfold cellAt in Hc. cbn in Hc. by destruct (_ || _).
  - destruct (started_frame env fuel s s') as (_ & _ & Hboth).
    destruct (Hboth (or_introl Hs)) as (Hp & _).
    unfold startGame in Hs. destruct (initGame env fuel false _) as [s1|] eqn:Hi; [|done].
    injection Hs as <-.
    apply playerOK_start; [done| |by apply (initGame_bounded _ _ _ _ _ Hi)].
    destruct (initialised_tiles env _ _ _ _ Hi) as (_ & _ & _ & _ & _ & _ & [H|H]);
      unfold tileUnder;
      change (roundTile (Entity.x startPacman)) with (GRID_WIDTH / 2);
      change (roundTile (Entity.y startPacman)) with (GRID_HEIGHT - 2);
      cbn [maze set_gameState]; by rewrite H.
  - destruct (started_frame env fuel s s') as (_ & _ & Hboth).
    destruct (Hboth (or_intror Hs)) as (Hp & _).
    unfold nextStage in Hs. destruct (initGame env fuel true _) as [s1|] eqn:Hi; [|done].
    injection Hs as <-.
    apply playerOK_start; [done| |by apply (initGame_bounded _ _ _ _ _ Hi)].
    destruct (initialised_tiles env _ _ _ _ Hi) as (_ & _ & _ & _ & _ & _ & [H|H]);
      unfold tileUnder;
      change (roundTile (Entity.x startPacman)) with (GRID_WIDTH / 2);
      change (roundTile (Entity.y startPacman)) with (GRID_HEIGHT - 2);
      cbn [maze set_gameState]; by rewrite H.
  - destruct (decide (gameState s = PLAYING)) as [Hplay|Hplay];
      [|by rewrite update_not_playing].
    destruct IH as [(Hon & Hclear & Hstart & Hb & Hsp) Hin].
    destruct Hsp as [Hsp|Hsp]; [|done].
    rewrite (update_playing env s Hplay), (tick_tail env s). cbv zeta.
    pose proof (player_phases env s Hon Hsp Hclear Hb) as H1. cbv zeta in H1.
    set (s1 := wrapPacman _) in *.
    destruct H1 as (Hon1 & Hsp1 & Hclear1 & Hstep1 & Hx1).
    assert (Hb1 : mazeBounded (maze s1)).
    { eapply sameShape_bounded; [|exact Hb]. by apply mazeStep_sameShape. }
    assert (Hstart1 : tileIs (tileUnder (maze s1) startPacman) 1 = false).
    { by eapply mazeStep_no_wall. }
    set (s2 := recoverLost (pacman s1) s1).
    assert (H2 : (playerOK s2 ∧ playerInside s2) ∧ Entity.speed (pacman s2) = 4).
    { unfold s2, recoverLost. destruct (outOfBounds (pacman s1)) eqn:Hout.
      - split; [|done]. by apply playerOK_start.
      - split; [|done]. split; [by (split; [|split; [|split; [|split; [|left]]]])|].
        split; [done|].
        unfold outOfBounds in Hout. rewrite !orb_false_iff, !Z.ltb_ge in Hout. lia. }
    destruct H2 as [[(Hon2 & Hclear2 & Hstart2 & Hb2 & _) Hin2] Hsp2].
    destruct (tailStep_trans _ _ _ (tailStep_tickTail env (pacman s1) s2)
                (tailStep_runLives (tickTail env (pacman s1) s2))) as [Hp3 Hstep3].
    assert (Hb3 : mazeBounded (maze (runLives (tickTail env (pacman s1) s2)))).
    { eapply sameShape_bounded; [|exact Hb2]. by apply mazeStep_sameShape. }
    assert (Hstart3 : tileIs (tileUnder (maze (runLives (tickTail env (pacman s1) s2)))
                                startPacman) 1 = false).
    { by eapply mazeStep_no_wall. }
    destruct Hp3 as [Hp3|Hp3].
    + unfold playerOK, playerInside. rewrite Hp3.
      split; [|done]. split; [done|]. split; [by eapply mazeStep_no_wall|].
      split; [done|]. split; [done|]. by left.
    + by apply playerOK_start.
  - exact IH.
  - destruct IH as [(Hon & Hclear & Hstart & Hb & Hsp) Hin].
    split; [|done]. split; [done|]. split; [done|]. split; [done|]. split; [done|].
    by right.
Qed.

Lemma stageMaze_initGame env fuel isNextStage s s' :
  initGame env fuel isNextStage s = Some s' → stageMaze (maze s').
Proof.
  intros Hi.
  destruct (initialised_tiles env _ _ _ _ Hi) as (Hshape & _ & _ & Hvals & H4 & _).
  split; [exact Hshape|]. split; [|exact H4].
  intros a b v Hv. destruct (Hvals a b v Hv) as [?|[?|[?|[?|[?|?]]]]]; tauto.
Qed.

Lemma stageMaze_mazeStep m m' : mazeStep m m' → stageMaze m → stageMaze m'.
Proof.
  intros Hstep (Hshape & Hvals & H4). split; [|split].
  - intros a b. rewrite <- Hshape.
    destruct (Hstep a b) as [->|(v & v' & -> & -> & _)]; [done|].
    split; intros _; by eexists.
  - intros a b v Hv. destruct (Hstep a b) as [Hc|(v0 & v' & _ & Hc & _ & Hv')].
    + rewrite Hc in Hv. by apply (Hvals a b).
    + rewrite Hc in Hv. injection Hv as <-. tauto.
  - intros a b. rewrite <- H4.
    destruct (Hstep a b) as [->|(v0 & v' & -> & -> & Hne & Hv')]; [done|].
    split; intros [= ->]; [lia|done].
Qed.

Lemma reachable_stageMaze s :
  reachable s → (maze s = [] ∧ gameState s ≠ PLAYING) ∨ stageMaze (maze s).
Proof.
  induction 1 as [|env fuel s s' _ IH Hs|env fuel s s' _ IH Hs
                  |env s _ IH|d s _ IH|st s _ IH Hst].
  - by left.
  - right. unfold startGame in Hs.
    destruct (initGame env fuel false _) as [s1|] eqn:Hi; [|done].
    injection Hs as <-. exact (stageMaze_initGame _ _ _ _ _ Hi).
  - right. unfold nextStage in Hs.
    destruct (initGame env fuel true _) as [s1|] eqn:Hi; [|done].
    injection Hs as <-. exact (stageMaze_initGame _ _ _ _ _ Hi).
  - destruct IH as [[Hm Hg]|IH].
    + left. by rewrite update_not_playing.
    + right. exact (stageMaze_mazeStep _ _ (mazeStep_update env s) IH).
  - exact IH.
  - destruct IH as [[Hm Hg]|IH]; [left|right]; done.
Qed.

(** X12.  In every reachable state the player's coordinates are
    multiples of 4 and the player is on the tile grid across its
    direction of travel (on a tile corner when it stands still); the
    tile under its centre is not a wall; and it is at most one tile
    left or right of the canvas and at most two tiles above or below
    it. *)
Theorem player_on_track s :
  reachable s →
  onTrack (pacman s)
  ∧ tileIs (tileUnder (maze s) (pacman s)) 1 = false
  ∧ playerInside s.
Proof.
  intros Hr. destruct (reachable_playerOK s Hr) as [(Hon & Hclear & _) Hin]. done.
Qed.

Lemma player_on_track_witness :
  onTrack (pacman demoBorder)
  ∧ tileIs (tileUnder (maze demoBorder) (pacman demoBorder)) 1 = false
  ∧ playerInside demoBorder.
Proof. exact (player_on_track demoBorder reachable_demoBorder). Defined.

(** X13.  A tick never adds or removes a cell of the maze, never
    creates a wall, a pellet, a ghost spawn, a start cell or a
    tombstone (a cell that holds one of them after the tick held it
    before), and never overwrites the ghost spawn. *)
Theorem update_tiles env s a b :
  let c := cellAt (maze s) a b in
  let c' := cellAt (maze (update env s)) a b in
  (is_Some c' ↔ is_Some c)
  ∧ (c' = Some 1 ∨ c' = Some 2 ∨ c' = Some 4 ∨ c' = Some 5 ∨ c' = Some 6 → c' = c)
  ∧ (c = Some 4 → c' = Some 4).
Proof.
  cbv zeta. destruct (mazeStep_update env s a b) as [->|(v & v' & -> & -> & Hne & Hv')].
  - done.
  - split; [split; intros _; by eexists|].
    split; [|intros [= ->]; done].
    intros [H|[H|[H|[H|H]]]]; injection H as ->; lia.
Qed.

(** X14.  In every reachable state the maze is either still empty
    (no game was started, and the game is not in play) or a full grid
    of [GRID_HEIGHT] rows of [GRID_WIDTH] cells holding only the tiles
    0, 1, 2, 3, 4, 6 and 7, with the ghost spawn (4) in the middle of
    the grid and nowhere else. *)
Theorem maze_in_play s :
  reachable s →
  (maze s = [] ∧ gameState s ≠ PLAYING) ∨ stageMaze (maze s).
Proof. exact (reachable_stageMaze s). Qed.

Lemma maze_in_play_witness :
  (maze demoBorder = [] ∧ gameState demoBorder ≠ PLAYING) ∨ stageMaze (maze demoBorder).
Proof. exact (maze_in_play demoBorder reachable_demoBorder). Defined.

Lemma rosterStep_refl s : rosterStep s s.
Proof. done. Qed.

Lemma rosterStep_trans s1 s2 s3 : rosterStep s1 s2 → rosterStep s2 s3 → rosterStep s1 s3.
Proof. intros [H1 H1'] [H2 H2']. split; [congruence|tauto]. Qed.

Lemma rosterStep_quiet s s' : ghosts s' = ghosts s → rosterStep s s'.
Proof. intros H. unfold rosterStep, roster. by rewrite H. Qed.

Lemma rosterStep_map (f : GhostEntity.t → GhostEntity.t) s s' :
  (∀ g, badge (f g) = badge g) → (∀ g, ghostOK g → ghostOK (f g)) →
  ghosts s' = map f (ghosts s) → rosterStep s s'.
Proof.
  intros Hb Hok Hg. unfold rosterStep, roster. rewrite Hg. split.
  - rewrite map_map. apply map_ext. exact Hb.
  - intros H. change (map f ?l) with (f <$> l). apply Forall_fmap.
    eapply Forall_impl; [exact H|]. exact Hok.
Qed.

Lemma rosterStep_insert i g g' s s' :
  ghosts s !! i = Some g → badge g' = badge g → (ghostOK g → ghostOK g') →
  ghosts s' = <[i := g']> (ghosts s) → rosterStep s s'.
Proof.
  intros Hi Hb Hok Hg. unfold rosterStep, roster. rewrite Hg. split.
  - change (map badge ?l) with (badge <$> l). rewrite list_fmap_insert.
    apply list_insert_id. by rewrite list_lookup_fmap, Hi, Hb.
  - intros H. apply Forall_insert; [exact H|].
    apply Hok. by eapply (Forall_lookup_1 _ _ i).
Qed.

Lemma ghostOK_resetGhost i g : ghostOK g → ghostOK (resetGhost i g).
Proof.
  intros (Hs & Hn & _ & _). unfold ghostOK, resetGhost. cbn.
  split; [done|]. split; [done|]. split; [|done].
  unfold houseX. destruct (_ =? _)%nat; by vm_compute.
Qed.

Lemma rosterStep_resetPositions s : rosterStep s (resetPositions s).
Proof.
  unfold rosterStep, roster, resetPositions. cbn. split.
  - apply list_eq. intros i. change (map badge ?l) with (badge <$> l).
    rewrite !list_lookup_fmap, list_lookup_imap. by destruct (ghosts s !! i).
  - intros H. apply Forall_lookup. intros i g. rewrite list_lookup_imap.
    destruct (ghosts s !! i) as [g0|] eqn:Hi; [|done]. intros [= <-].
    apply ghostOK_resetGhost. by eapply (Forall_lookup_1 _ _ i).
Qed.

Lemma rosterStep_loseLife s : rosterStep s (loseLife s).
Proof.
  unfold loseLife. destruct (_ <=? 1); [by apply rosterStep_quiet|].
  apply (rosterStep_trans _ (resetPositions (emit (PlaySound DEATH) s)));
    [|by apply rosterStep_quiet].
  apply (rosterStep_trans _ (emit (PlaySound DEATH) s)); [by apply rosterStep_quiet|].
  apply rosterStep_resetPositions.
Qed.

Lemma ghostOK_moveGhost g : ghostOK g → ghostOK (moveGhost g).
Proof.
  intros (Hs & Hn & _ & Hd). unfold ghostOK.
  destruct (moveGhost_flags g) as (He & Hdy & _ & Ht). rewrite He, Hdy, Ht.
  unfold moveGhost. cbv zeta.
  split; [by destruct (GhostEntity.dir g)|]. split; [by destruct (GhostEntity.dir g)|].
  split; [|done]. cbn. apply wrapX_range.
Qed.

Lemma ghostOK_dyingStep g :
  GhostEntity.isDying g = true → ghostOK g → ghostOK (dyingStep g).
Proof.
  intros Hdy (Hs & Hn & Hx & Hd). destruct (Hd Hdy) as [He Ht].
  unfold ghostOK, dyingStep. cbn. destruct (_ <=? 0) eqn:H0; cbn.
  - split; [done|]. split; [done|]. split; [by vm_compute|done].
  - apply Z.leb_gt in H0. split; [done|]. split; [done|]. split; [done|].
    intros _. split; [done|lia].
Qed.

Section Roster.

Variable env : Env.

Lemma rosterStep_hitGhost p i g s :
  ghosts s !! i = Some g → rosterStep s (hitGhost p i g s).
Proof.
  intros Hi. unfold hitGhost.
  destruct (_ && _) eqn:Hc; [|apply rosterStep_refl].
  destruct (GhostEntity.isScared g); [|by apply rosterStep_quiet].
  apply (rosterStep_insert i g
           (GhostEntity.set_deathTimer 30
              (GhostEntity.set_isDying true (GhostEntity.set_isScared false g))));
    [exact Hi|done| |done].
  intros (Hs & Hn & Hx & Hd). unfold ghostOK. cbn.
  apply andb_prop in Hc as [Hc _]. apply andb_prop in Hc as [_ He].
  apply negb_true_iff in He. done.
Qed.

Lemma rosterStep_respawnGhost i s : rosterStep s (respawnGhost env i s).
Proof.
  unfold respawnGhost. destruct (ghosts s !! i) as [g|] eqn:Hi; [|apply rosterStep_refl].
  destruct (GhostEntity.isEaten g) eqn:He; [|apply rosterStep_refl].
  destruct (randomBelow _ _ _); [|by apply rosterStep_quiet].
  apply (rosterStep_insert i g (GhostEntity.set_isEaten false g));
    [exact Hi|done| |done].
  intros (Hs & Hn & Hx & Hd). unfold ghostOK. cbn.
  split; [done|]. split; [done|]. split; [done|].
  intros Hdy. destruct (Hd Hdy) as [He' _]. congruence.
Qed.

Lemma ghostOK_steerGhost g s : ghostOK g → ghostOK (steerGhost env g s).1.
Proof. unfold steerGhost. by destruct (isAligned _ _). Qed.

Lemma badge_steerGhost g s : badge (steerGhost env g s).1 = badge g.
Proof. unfold steerGhost. by destruct (isAligned _ _). Qed.

Lemma badge_moveGhost g : badge (moveGhost g) = badge g.
Proof. unfold moveGhost. by destruct (GhostEntity.dir g). Qed.

Lemma rosterStep_ghostStep p i s : rosterStep s (ghostStep env p i s).
Proof.
  unfold ghostStep. destruct (ghosts s !! i) as [g|] eqn:Hi; [|apply rosterStep_refl].
  destruct (GhostEntity.isDying g) eqn:Hd.
  - apply (rosterStep_insert i g (dyingStep g));
      [exact Hi| |by apply ghostOK_dyingStep|done].
    unfold dyingStep. cbn. by destruct (_ <=? 0).
  - cbv zeta. destruct (steerGhost_state env g s) as [n Hn]. rewrite Hn.
    set (gm := moveGhost (steerGhost env g s).1).
    eapply rosterStep_trans; [|apply rosterStep_respawnGhost].
    apply (rosterStep_trans _ (setGhost i gm (drawn n s))).
    + apply (rosterStep_insert i g gm); [exact Hi| | |done].
      * unfold gm. by rewrite badge_moveGhost, badge_steerGhost.
      * intros Hok. by apply ghostOK_moveGhost, ghostOK_steerGhost.
    + apply rosterStep_hitGhost. cbn. apply list_lookup_insert_eq.
      by eapply lookup_lt_Some.
Qed.

Lemma rosterStep_witchStep p i s : rosterStep s (witchStep env p i s).
Proof.
  unfold witchStep. destruct (witches s !! i) as [w|]; [|apply rosterStep_refl].
  destruct (_ && _); by apply rosterStep_quiet.
Qed.

Lemma rosterStep_tileEffect p s : rosterStep s (tileEffect env p s).
Proof.
  unfold tileEffect. cbv zeta.
  destruct (tileIs _ 2); [by apply rosterStep_quiet|].
  destruct (tileIs _ 3).
  { match goal with |- rosterStep s (respawnCandy env ?t) =>
      apply (rosterStep_trans _ t);
        [|apply rosterStep_quiet; by destruct (respawnCandy_frame env t) as [_ Hg]]
    end.
    apply (rosterStep_map scareGhost); [| |done].
    - intros g. unfold scareGhost. by destruct (negb _).
    - intros g Hok. unfold scareGhost. by destruct (negb _). }
  destruct (tileIs _ 6).
  { destruct (powerMode s =? 0).
    - by apply rosterStep_quiet.
    - cbn. destruct (0 <? wallsLeft s); by apply rosterStep_quiet. }
  destruct (tileIs _ 7); [by apply rosterStep_quiet|apply rosterStep_refl].
Qed.

Lemma rosterStep_update s : rosterStep s (update env s).
Proof.
  apply (update_phases env rosterStep rosterStep_refl rosterStep_trans).
  - intros s0. set (isAt := isAligned _ _).
    apply rosterStep_quiet. cbn.
    transitivity (ghosts (acceptNextDir isAt s0)).
    + unfold movePacman. repeat case_match; done.
    + unfold acceptNextDir. repeat case_match; done.
  - intros s0. unfold recoverLost.
    destruct (outOfBounds _); [apply rosterStep_resetPositions|apply rosterStep_refl].
  - apply rosterStep_tileEffect.
  - intros s0. unfold updatePowerMode. destruct (0 <? powerMode s0); [|apply rosterStep_refl].
    cbn. destruct (_ =? 0); [|by apply rosterStep_quiet].
    by apply (rosterStep_map (GhostEntity.set_isScared false)).
  - intros s0. by apply rosterStep_quiet.
  - intros s0. by apply rosterStep_quiet.
  - apply rosterStep_ghostStep.
  - intros s0. unfold checkWin. destruct (winReached _ _); by apply rosterStep_quiet.
  - intros q v s0. unfold bonusSpawn. repeat case_match; by apply rosterStep_quiet.
  - intros s0. unfold witchSpawn. repeat case_match; by apply rosterStep_quiet.
  - apply rosterStep_witchStep.
  - intros s0. by apply rosterStep_quiet.
  - intros s0. by apply rosterStep_quiet.
  - apply rosterStep_loseLife.
Qed.

End Roster.

Lemma ghostOK_initialGhosts : Forall ghostOK initialGhosts.
Proof.
  unfold initialGhosts, COLORS_ghosts. cbn.
  repeat (constructor; [by (split; [|split; [|split; [vm_compute|]]])|]). constructor.
Qed.

Lemma reachable_roster s :
  reachable s →
  ((ghosts s = [] ∧ gameState s ≠ PLAYING) ∨ roster s = COLORS_ghosts)
  ∧ Forall ghostOK (ghosts s).
Proof.
  induction 1 as [|env fuel s s' _ IH Hs|env fuel s s' _ IH Hs
                  |env s _ IH|d s _ IH|st s _ IH Hst].
  - split; [by left|constructor].
  - unfold startGame in Hs. destruct (initGame env fuel false _) as [s1|] eqn:Hi; [|done].
    injection Hs as <-. apply initGame_inv in Hi.
    assert (Hg : ghosts s1 = initialGhosts) by tauto.
    unfold roster. cbn. rewrite Hg. split; [by right|apply ghostOK_initialGhosts].
  - unfold nextStage in Hs. destruct (initGame env fuel true _) as [s1|] eqn:Hi; [|done].
    injection Hs as <-. apply initGame_inv in Hi.
    assert (Hg : ghosts s1 = initialGhosts) by tauto.
    unfold roster. cbn. rewrite Hg. split; [by right|apply ghostOK_initialGhosts].
  - destruct (rosterStep_update env s) as [Hr Hok]. destruct IH as [IH1 IH2].
    split; [|by apply Hok]. destruct IH1 as [[Hg Hp]|IH1].
    + left. by rewrite update_not_playing.
    + right. by rewrite Hr.
  - exact IH.
  - destruct IH as [[[Hg Hp]|IH1] IH2]; (split; [|done]); [left|right]; done.
Qed.

(** ** A ghost between two tile corners *)

Lemma holds_trans i s1 s2 s3 : holds i s1 s2 → holds i s2 s3 → holds i s1 s3.
Proof.
  intros [Hle1 H1] [Hle2 H2]. split; [lia|]. intros Heq.
  rewrite H2, H1 by lia. done.
Qed.

Lemma holds_quiet i s s' : ghosts s' = ghosts s → resets s' = resets s → holds i s s'.
Proof. intros Hg Hr. split; [lia|]. intros _. by rewrite Hg. Qed.

Lemma holds_insert i j g s s' :
  j ≠ i → ghosts s' = <[j := g]> (ghosts s) → resets s' = resets s → holds i s s'.
Proof.
  intros Hne Hg Hr. split; [lia|]. intros _. rewrite Hg.
  by rewrite list_lookup_insert_ne.
Qed.

Lemma holds_resetPositions i s : holds i s (resetPositions s).
Proof.
  assert (Hr : resets (resetPositions s) = S (resets s)) by reflexivity.
  split; [lia|]. intros Heq. lia.
Qed.

Lemma glide_unscare b g0 g g' : unscare g = unscare g0 → glide b g g' → glide b g0 g'.
Proof.
  intros Hu. unfold glide.
  assert (Hs : GhostEntity.set_isScared b g = GhostEntity.set_isScared b g0).
  { change (GhostEntity.set_isScared b (unscare g) = GhostEntity.set_isScared b (unscare g0)).
    by rewrite Hu. }
  rewrite Hs. apply (f_equal GhostEntity.dir) in Hu as Hd.
  apply (f_equal GhostEntity.speed) in Hu as Hv. cbn in Hd, Hv. rewrite Hd, Hv. done.
Qed.

Section Glide.

Variable env : Env.

(** The callback of the loop, for a ghost that is not dying and not on
    a tile corner: it moves on in its direction, whatever the maze
    holds. *)
Lemma ghostStep_glide p i s g :
  ghosts s !! i = Some g → GhostEntity.isDying g = false →
  isAligned (GhostEntity.x g) (GhostEntity.y g) = false →
  resets (ghostStep env p i s) = resets s →
  ∃ g', ghosts (ghostStep env p i s) !! i = Some g'
        ∧ glide (GhostEntity.isScared g) g g'.
Proof.
  intros Hi Hd Hal. rewrite (ghostStep_alive env p i s g Hi Hd). cbv zeta.
  unfold steerGhost. rewrite Hal. cbn [fst snd].
  assert (Hlen : (i < length (ghosts s))%nat) by by eapply lookup_lt_Some.
  assert (Hsame : GhostEntity.set_isScared (GhostEntity.isScared g) g = g) by by destruct g.
  set (gm := moveGhost g).
  destruct (moveGhost_flags g) as (He & Hdy & Hsc & Ht). fold gm in He, Hdy, Hsc, Ht.
  assert (Hdir : GhostEntity.dir gm = GhostEntity.dir g
                 ∧ GhostEntity.speed gm = GhostEntity.speed g).
  { unfold gm, moveGhost. cbv zeta. by destruct g as [x y [] n v c t sc ea dy dt]. }
  assert (Hgm : glide (GhostEntity.isScared g) g gm).
  { unfold glide. cbv zeta. rewrite Hsame. fold gm. destruct Hdir as [Hd1 Hd2].
    split; [done|]. split; [done|]. split; [done|]. split; [done|]. by intros _. }
  set (s1 := setGhost i gm s).
  intros Hr.
  assert (Hhit : ∃ g1, ghosts (hitGhost p i gm s1) !! i = Some g1
                       ∧ glide (GhostEntity.isScared g) g g1).
  { revert Hr.
    match goal with |- resets (respawnGhost env i ?t) = _ → _ =>
      destruct (respawnGhost_quiet env i t) as (_ & _ & _ & _ & Htr);
      unfold resets at 1; rewrite Htr end.
    fold (resets (hitGhost p i gm s1)).
    unfold hitGhost. destruct (_ && _) eqn:Hc.
    - destruct (GhostEntity.isScared gm) eqn:Hsm.
      + intros _. cbn. rewrite list_lookup_insert_eq by by rewrite length_insert.
        eexists. split; [done|]. unfold glide in *. cbn. rewrite Hsame in *.
        fold gm in Hgm |- *. destruct Hdir. done.
      + intros _. cbn. rewrite list_lookup_insert_eq by done. by exists gm.
    - intros _. cbn. rewrite list_lookup_insert_eq by done. by exists gm. }
  destruct Hhit as (g1 & Hg1 & Hgl1).
  unfold respawnGhost. fold s1. rewrite Hg1.
  destruct (GhostEntity.isEaten g1); [|by exists g1].
  destruct (randomBelow _ _ _); [|by exists g1].
  cbn. rewrite list_lookup_insert_eq by by eapply lookup_lt_Some.
  eexists. split; [done|]. exact Hgl1.
Qed.

Lemma resets_updateGhosts p s : (resets s ≤ resets (updateGhosts env p s))%nat.
Proof.
  unfold updateGhosts.
  apply (fold_left_rel (λ s s', (resets s ≤ resets s')%nat)
           (λ s i, ghostStep env p i s)).
  - done.
  - intros s1 s2 s3 H1 H2. lia.
  - intros s0 i. apply resets_ghostStep.
Qed.

Lemma holds_frame_after i p s :
  holds i s (updateWitches env p
               (witchSpawn env (bonusSpawn env (5 # 10000) 7
                  (bonusSpawn env (1 # 1000) 3 (checkWin s))))).
Proof. apply (frame_after env holds holds_trans holds_quiet). Qed.

(** A tick of the game in play moves a ghost that is not dying and not
    on a tile corner straight on, unless it resets the positions. *)
Lemma update_glide i s g :
  gameState s = PLAYING → ghosts s !! i = Some g → GhostEntity.isDying g = false →
  isAligned (GhostEntity.x g) (GhostEntity.y g) = false →
  resets (update env s) = resets s →
  ∃ g' b, ghosts (update env s) !! i = Some g' ∧ glide b g g'.
Proof.
  intros Hplay Hi Hd Hal. rewrite (update_playing env s Hplay).
  destruct (frame_runLives holds holds_trans holds_quiet holds_resetPositions
              i (tick env s)) as [HleL HL].
  revert HleL HL. rewrite tick_phases. cbv zeta. intros HleL HL.
  pose proof (keeps_frame_before env i s) as [HleB HB]. cbv zeta in HleB, HB.
  set (p := pacman (wrapPacman _)) in *.
  set (sB := updateFragments _) in *.
  destruct (holds_frame_after i p (updateGhosts env p sB)) as [HleA HA].
  set (s' := updateWitches env p _) in *.
  pose proof (resets_updateGhosts p sB) as HleG.
  intros Hr.
  destruct (HB ltac:(lia) g Hi) as (gB & HgB & HuB).
  assert (Hlen : (i < length (ghosts sB))%nat) by by eapply lookup_lt_Some.
  destruct (updateGhosts_split env holds holds_trans holds_quiet holds_insert
              i p sB Hlen) as (Hsplit & [Hle1 H1] & [Hle2 H2]).
  cbv zeta in Hsplit, Hle1, H1, Hle2, H2.
  set (s1 := fold_left _ (seq 0 i) sB) in *.
  pose proof (resets_ghostStep env p i s1) as Hle3.
  rewrite HL by lia. rewrite HA by lia. rewrite H2 by lia. rewrite <- H1 in HgB by lia.
  assert (HdB : GhostEntity.isDying gB = false).
  { by rewrite (unscare_isDying _ _ HuB). }
  assert (HalB : isAligned (GhostEntity.x gB) (GhostEntity.y gB) = false).
  { destruct (unscare_place _ _ HuB) as [-> ->]. done. }
  destruct (ghostStep_glide p i s1 gB HgB HdB HalB ltac:(lia)) as (g' & Hg' & Hgl).
  exists g', (GhostEntity.isScared gB). split; [done|].
  by apply (glide_unscare _ g gB).
Qed.

End Glide.

Lemma odd_unaligned x y : Z.odd y = true → isAligned x y = false.
Proof.
  intros Ho. unfold isAligned. apply andb_false_iff. right. apply Z.eqb_neq.
  intros Hr. apply Z.rem_divide in Hr; [|done]. destruct Hr as [q ->].
  rewrite Z.odd_mul in Ho. by rewrite andb_comm in Ho.
Qed.

Lemma wrapX_idem x : wrapX (wrapX x) = wrapX x.
Proof.
  unfold wrapX, CANVAS_WIDTH, TILE_SIZE, GRID_WIDTH.
  repeat (case_match; try lia).
Qed.

Lemma glide_vertical b g g' :
  GhostEntity.speed g = 2 →
  GhostEntity.dir g = UP ∨ GhostEntity.dir g = DOWN →
  glide b g g' →
  GhostEntity.isScared g' = false → GhostEntity.isDying g' = false →
  GhostEntity.y g' = GhostEntity.y g + ahead (GhostEntity.dir g)
  ∧ GhostEntity.x g' = wrapX (GhostEntity.x g)
  ∧ GhostEntity.dir g' = GhostEntity.dir g ∧ GhostEntity.speed g' = 2.
Proof.
  intros Hv Hd (Hx & Hy & Hdir & Hsp & Hb) Hs Hdy.
  rewrite Hx, Hy, Hdir, Hsp. rewrite <- (Hb Hdy), Hs.
  unfold moveGhost. cbn. rewrite Hv. by destruct Hd as [-> | ->].
Qed.

Lemma ghost_run envs i s g n :
  ghosts s !! i = Some g →
  GhostEntity.isDying g = false → GhostEntity.speed g = 2 →
  Z.odd (GhostEntity.y g) = true →
  GhostEntity.dir g = UP ∨ GhostEntity.dir g = DOWN →
  (∀ k, (k < n)%nat → cruising i (run envs k s) (run envs (S k) s)) →
  ∃ g', ghosts (run envs n s) !! i = Some g'
        ∧ GhostEntity.dir g' = GhostEntity.dir g
        ∧ GhostEntity.y g' = GhostEntity.y g + Z.of_nat n * ahead (GhostEntity.dir g)
        ∧ wrapX (GhostEntity.x g') = wrapX (GhostEntity.x g)
        ∧ GhostEntity.isDying g' = false ∧ GhostEntity.speed g' = 2.
Proof.
  intros Hi Hdy Hv Ho Hd. induction n as [|n IH]; intros Hrun.
  - exists g. cbn. repeat split; try done. lia.
  - destruct IH as (g1 & Hg1 & Hd1 & Hy1 & Hx1 & Hdy1 & Hv1).
    { intros k Hk. apply Hrun. lia. }
    destruct (Hrun n ltac:(lia)) as (Hplay & Hres & Hflags).
    change (run envs (S n) s) with (update (envs n) (run envs n s)) in *.
    assert (Ho1 : Z.odd (GhostEntity.y g1) = true).
    { rewrite Hy1. destruct Hd as [-> | ->]; cbn [ahead].
      - replace (GhostEntity.y g + Z.of_nat n * -2)
          with (GhostEntity.y g + 2 * (- Z.of_nat n)) by lia.
        by rewrite Z.odd_add_mul_2.
      - replace (GhostEntity.y g + Z.of_nat n * 2)
          with (GhostEntity.y g + 2 * Z.of_nat n) by lia.
        by rewrite Z.odd_add_mul_2. }
    destruct (update_glide (envs n) i (run envs n s) g1 Hplay Hg1 Hdy1
                (odd_unaligned _ _ Ho1) Hres) as (g2 & b & Hg2 & Hgl).
    destruct (Hflags g2 Hg2) as [Hs2 Hdy2].
    destruct (glide_vertical b g1 g2 Hv1 ltac:(by rewrite Hd1) Hgl Hs2 Hdy2)
      as (Hy2 & Hx2 & Hd2 & Hv2).
    exists g2. split; [done|]. split; [congruence|].
    split; [rewrite Hy2, Hy1, Hd1; lia|].
    split; [by rewrite Hx2, wrapX_idem|done].
Qed.

Lemma cruisingb_true i s s' : cruisingb i s s' = true → cruising i s s'.
Proof.
  unfold cruisingb, cruising. intros H.
  apply andb_prop in H as [H H3]. apply andb_prop in H as [H1 H2].
  apply bool_decide_eq_true in H1. apply Nat.eqb_eq in H2.
  split; [done|]. split; [done|]. intros g' Hg'. rewrite Hg' in H3.
  apply andb_prop in H3 as [Hs Hd]. by rewrite !negb_true_iff in Hs, Hd.
Qed.

Lemma reachable_demoAdrift : reachable demoAdrift.
Proof. unfold demoAdrift. apply (reachable_ticks 600). exact reachable_demoPowered. Qed.

(** X15.  In every reachable state there are no ghosts (no game was
    started) or the four ghosts of [COLORS.ghosts], in that order.
    Every ghost has speed 2, an [x] between [-TILE_SIZE] and
    [CANVAS_WIDTH], and, while it is dying, is not eaten and has a
    death timer between 1 and 30. *)
Theorem ghost_roster s :
  reachable s →
  ((ghosts s = [] ∧ gameState s ≠ PLAYING) ∨ roster s = COLORS_ghosts)
  ∧ Forall ghostOK (ghosts s).
Proof. exact (reachable_roster s). Qed.

Lemma ghost_roster_witness :
  ((ghosts demoAdrift = [] ∧ gameState demoAdrift ≠ PLAYING)
   ∨ roster demoAdrift = COLORS_ghosts)
  ∧ Forall ghostOK (ghosts demoAdrift).
Proof. exact (ghost_roster demoAdrift reachable_demoAdrift). Defined.

(** X16.  A ghost looks at the maze only on a tile corner.  In a tick
    of the game in play that does not reset the positions, a ghost that
    is not dying and not on a tile corner keeps its direction and makes
    one move straight on, at full or (scared) half speed, whatever the
    maze holds in front of it. *)
Theorem ghost_between_corners env i s g :
  gameState s = PLAYING → ghosts s !! i = Some g →
  GhostEntity.isDying g = false →
  isAligned (GhostEntity.x g) (GhostEntity.y g) = false →
  resets (update env s) = resets s →
  ∃ g' b, ghosts (update env s) !! i = Some g' ∧ glide b g g'.
Proof. exact (update_glide env i s g). Qed.

Lemma ghost_between_corners_witness :
  ∃ g' b, ghosts (update demoEnv demoAdrift) !! 0%nat = Some g'
          ∧ glide b (GhostEntity.mk 324 655 DOWN UP 2 "#ff0000" "cape" false false false 0) g'.
Proof.
  apply (ghost_between_corners demoEnv 0 demoAdrift
           (GhostEntity.mk 324 655 DOWN UP 2 "#ff0000" "cape" false false false 0));
    by vm_compute.
Defined.

(** X17.  A ghost of speed 2 that moves up or down with an odd [y]
    never reaches a tile corner again: as long as the game is in play,
    the positions are not reset and the ghost is neither scared nor
    dying after a tick, it goes on by 2 pixels per tick in the same
    direction, whatever the maze holds, also beyond the canvas. *)
Theorem ghost_adrift envs i s g n :
  ghosts s !! i = Some g →
  GhostEntity.isDying g = false → GhostEntity.speed g = 2 →
  Z.odd (GhostEntity.y g) = true →
  GhostEntity.dir g = UP ∨ GhostEntity.dir g = DOWN →
  (∀ k, (k < n)%nat → cruising i (run envs k s) (run envs (S k) s)) →
  ∃ g', ghosts (run envs n s) !! i = Some g'
        ∧ GhostEntity.dir g' = GhostEntity.dir g
        ∧ GhostEntity.y g' = GhostEntity.y g + Z.of_nat n * ahead (GhostEntity.dir g)
        ∧ wrapX (GhostEntity.x g') = wrapX (GhostEntity.x g).
Proof.
  intros Hi Hdy Hv Ho Hd Hrun.
  destruct (ghost_run envs i s g n Hi Hdy Hv Ho Hd Hrun)
    as (g' & Hg' & Hd' & Hy' & Hx' & _).
  by exists g'.
Qed.

(** In the first concrete run, when the power mode has ended, the
    first ghost is such a ghost: 60 ticks later it is below the
    canvas. *)
Lemma ghost_adrift_witness :
  reachable demoAdrift
  ∧ ∃ g', ghosts (run (λ _, demoEnv) 60 demoAdrift) !! 0%nat = Some g'
          ∧ GhostEntity.dir g' = DOWN
          ∧ GhostEntity.y g' = 655 + 60 * 2
          ∧ wrapX (GhostEntity.x g') = 324.
Proof.
  split; [exact reachable_demoAdrift|].
  assert (H : forallb (λ k, cruisingb 0 (run (λ _, demoEnv) k demoAdrift)
                              (run (λ _, demoEnv) (S k) demoAdrift)) (seq 0 60) = true)
    by (vm_compute; reflexivity).
  assert (H0 : ghosts demoAdrift !! 0%nat
               = Some (GhostEntity.mk 324 655 DOWN UP 2 "#ff0000" "cape"
                         false false false 0))
    by (vm_compute; reflexivity).
  exact (ghost_adrift (λ _, demoEnv) 0 demoAdrift
           (GhostEntity.mk 324 655 DOWN UP 2 "#ff0000" "cape" false false false 0) 60
           H0 eq_refl eq_refl eq_refl (or_intror eq_refl)
           (λ k Hk, cruisingb_true _ _ _
                      (proj1 (forallb_forall _ _) H k
                         (proj2 (in_seq _ _ _) (conj (Nat.le_0_l k) Hk))))).
Defined.

Lemma edible_setCell m x y c v :
  mazeBounded m → cellAt m x y = Some c →
  edible (setCell m x y v)
  = edible m + Z.b2z (v =? 2) + Z.b2z (v =? 3) - Z.b2z (c =? 2) - Z.b2z (c =? 3).
Proof.
  intros Hb Hc. unfold edible.
  rewrite (countTile_setCell m x y c v 2 Hb Hc), (countTile_setCell m x y c v 3 Hb Hc).
  lia.
Qed.

Lemma supplyStep_refl s : supplyStep s s.
Proof. split; [done|]. intros Hb. split; [done|lia]. Qed.

Lemma supplyStep_trans s1 s2 s3 : supplyStep s1 s2 → supplyStep s2 s3 → supplyStep s1 s3.
Proof.
  intros [Ht1 H1] [Ht2 H2]. split; [congruence|]. intros Hb.
  destruct (H1 Hb) as [Hb2 Hle1]. destruct (H2 Hb2) as [Hb3 Hle2]. split; [done|lia].
Qed.

Lemma supplyStep_quiet s s' :
  totalPellets s' = totalPellets s → eatenPellets s' = eatenPellets s →
  maze s' = maze s → supplyStep s s'.
Proof.
  intros Ht He Hm. split; [done|]. unfold supply. rewrite He, Hm.
  intros Hb. split; [done|lia].
Qed.

(** A cell [c] overwritten with [v], [n] more pellets counted as eaten. *)
Lemma supplyStep_setCell x y c v n s s' :
  totalPellets s' = totalPellets s → eatenPellets s' = eatenPellets s + n →
  maze s' = setCell (maze s) x y v → cellAt (maze s) x y = Some c →
  Z.b2z (c =? 2) + Z.b2z (c =? 3) ≤ n + Z.b2z (v =? 2) + Z.b2z (v =? 3) →
  supplyStep s s'.
Proof.
  intros Ht He Hm Hc Hn. split; [done|]. intros Hb. unfold supply. rewrite He, Hm.
  split; [by apply mazeBounded_setCell|].
  rewrite (edible_setCell _ x y c v Hb Hc). lia.
Qed.

Lemma supplyStep_core s s' : sameCore s s' → supplyStep s s'.
Proof. intros (Hm & _ & _ & He & Ht). by apply supplyStep_quiet. Qed.

Lemma supplyStep_resetPositions s : supplyStep s (resetPositions s).
Proof. by apply supplyStep_quiet. Qed.

Lemma supplyStep_loseLife s : supplyStep s (loseLife s).
Proof. unfold loseLife. destruct (_ <=? 1); by apply supplyStep_quiet. Qed.

Section Supply.

Variable env : Env.

Lemma respawnLoop_supply fuel : ∀ respawned attempts m k r,
  respawnLoop env fuel respawned attempts m k = Some r →
  mazeBounded m → mazeBounded r.1.1 ∧ edible m ≤ edible r.1.1.
Proof.
  induction fuel as [|fuel IH]; intros respawned attempts m k r; simpl.
  - destruct (_ && _); [done|]. intros [= <-] Hb. split; [done|]. cbn. lia.
  - destruct (_ && _); [|intros [= <-] Hb; split; [done|cbn; lia]].
    destruct (cellIs m _ _ 2 || cellIs m _ _ 0) eqn:Hc; [|apply IH].
    intros Hr Hb. apply IH in Hr; [|by apply mazeBounded_setCell].
    destruct Hr as [Hb' Hle]. split; [done|].
    etransitivity; [|exact Hle].
    apply orb_true_iff in Hc as [Hc|Hc]; apply cellIs_true in Hc;
      rewrite (edible_setCell _ _ _ _ 3 Hb Hc); cbn; lia.
Qed.

Lemma supplyStep_respawnCandy s : supplyStep s (respawnCandy env s).
Proof.
  unfold respawnCandy.
  destruct (respawnLoop env 100 false 0 (maze s) (rng s)) as [[[m k] n]|] eqn:Hr;
    [|apply supplyStep_refl].
  split; [done|]. intros Hb.
  destruct (respawnLoop_supply _ _ _ _ _ _ Hr Hb) as [Hb' Hle].
  unfold supply. cbn in *. split; [done|lia].
Qed.

Lemma supplyStep_tileEffect p s : supplyStep s (tileEffect env p s).
Proof.
  unfold tileEffect. cbv zeta.
  destruct (tileIs _ 2) eqn:H2.
  { apply tileIs_eq in H2.
    by apply (supplyStep_setCell (roundTile (Entity.x p)) (roundTile (Entity.y p)) 2 0 1). }
  destruct (tileIs _ 3) eqn:H3.
  { apply tileIs_eq in H3.
    match goal with |- supplyStep s (respawnCandy env ?t) =>
      apply (supplyStep_trans s t); [|apply supplyStep_respawnCandy] end.
    by apply (supplyStep_setCell (roundTile (Entity.x p)) (roundTile (Entity.y p)) 3 0 1). }
  destruct (tileIs _ 6) eqn:H6.
  { apply tileIs_eq in H6. destruct (powerMode s =? 0).
    - apply (supplyStep_trans s (setLives s)); [by apply supplyStep_quiet|].
      apply (supplyStep_setCell (roundTile (Entity.x p)) (roundTile (Entity.y p)) 6 0 0);
        try done; cbn; lia.
    - destruct (0 <? wallsLeft _);
        apply (supplyStep_setCell (roundTile (Entity.x p)) (roundTile (Entity.y p))
                 6 0 0); try done; cbn; lia. }
  destruct (tileIs _ 7) eqn:H7; [|apply supplyStep_refl].
  apply tileIs_eq in H7.
  apply (supplyStep_setCell (roundTile (Entity.x p)) (roundTile (Entity.y p)) 7 0 0);
    try done; cbn; lia.
Qed.

Lemma supplyStep_player s b :
  supplyStep s (wrapPacman (movePacman env b (acceptNextDir b s))).
Proof.
  apply (supplyStep_trans _ (movePacman env b (acceptNextDir b s)));
    [|by apply supplyStep_quiet].
  apply (supplyStep_trans _ (acceptNextDir b s)).
  { unfold acceptNextDir. repeat case_match; by apply supplyStep_quiet. }
  generalize (acceptNextDir b s). intros t. unfold movePacman.
  destruct (canMove t _ _ _); [|destruct (negb b); by apply supplyStep_quiet].
  cbn. destruct (_ && _); [|by apply supplyStep_quiet].
  destruct (cellIs _ _ _ 1) eqn:Hw; [|by apply supplyStep_quiet].
  apply cellIs_true in Hw. unfold breakWall.
  match type of Hw with cellAt _ ?x ?y = _ =>
    apply (supplyStep_setCell x y 1 0 0); try done; cbn; lia end.
Qed.

Lemma supplyStep_update s : supplyStep s (update env s).
Proof.
  apply (update_phases env supplyStep supplyStep_refl supplyStep_trans).
  - intros s0. apply supplyStep_player.
  - intros s0. apply supplyStep_core, sameCore_recoverLost.
  - apply supplyStep_tileEffect.
  - intros s0. unfold updatePowerMode. repeat case_match; by apply supplyStep_quiet.
  - intros s0. apply supplyStep_core, sameCore_updatePopups.
  - intros s0. apply supplyStep_core, sameCore_updateFragments.
  - intros p i s0. apply supplyStep_core, sameCore_ghostStep.
  - intros s0. apply supplyStep_core, sameCore_checkWin.
  - intros q v s0. unfold bonusSpawn.
    destruct (randomBelow _ _ _); [|by apply supplyStep_quiet].
    cbn. destruct (cellIs _ _ _ 0) eqn:Hc; [|by apply supplyStep_quiet].
    apply cellIs_true in Hc.
    match type of Hc with cellAt _ ?x ?y = _ =>
      apply (supplyStep_setCell x y 0 v 0); try done end.
    + cbn. lia.
    + cbn. destruct (v =? 2), (v =? 3); cbn; lia.
  - intros s0. apply supplyStep_core, sameCore_witchSpawn.
  - intros p i s0. apply supplyStep_core, sameCore_witchStep.
  - intros s0. by apply supplyStep_quiet.
  - intros s0. by apply supplyStep_quiet.
  - apply supplyStep_loseLife.
Qed.

End Supply.

Lemma reachable_supplyOK s : reachable s → supplyOK s.
Proof.
  induction 1 as [|env fuel s s' _ IH Hs|env fuel s s' _ IH Hs
                  |env s _ IH|d s _ IH|st s _ IH Hst].
  - split; [|split; [by vm_compute|done]].
    intros x y [c Hc]. unfold cellAt in Hc. cbn in Hc. by destruct (_ || _).
  - unfold startGame in Hs. destruct (initGame env fuel false _) as [s1|] eqn:Hi; [|done].
    injection Hs as <-.
    destruct (initialised_pellets env _ _ _ _ Hi) as (H69 & He & [Hlo _] & _).
    split; [by apply (initGame_bounded _ _ _ _ _ Hi)|]. unfold supply. cbn. split; [lia|done].
  - unfold nextStage in Hs. destruct (initGame env fuel true _) as [s1|] eqn:Hi; [|done].
    injection Hs as <-.
    destruct (initialised_pellets env _ _ _ _ Hi) as (H69 & He & [Hlo _] & _).
    split; [by apply (initGame_bounded _ _ _ _ _ Hi)|]. unfold supply. cbn. split; [lia|done].
  - destruct IH as (Hb & Hsup & Hplay). destruct (supplyStep_update env s) as [Ht Hstep].
    destruct (Hstep Hb) as [Hb' Hle]. split; [done|]. split; [lia|].
    intros Hp. rewrite Ht. apply Hplay.
    destruct (decide (gameState s = PLAYING)) as [|Hn]; [done|].
    by rewrite update_not_playing in Hp.
  - exact IH.
  - destruct IH as (Hb & Hsup & Hplay). split; [done|]. split; [done|]. by intros Hp.
Qed.

(** X18.  In every reachable state the pellets and candies eaten so
    far and those still in the maze together are at least
    [totalPellets - 3], which in a game in play is at least the 75% of
    [totalPellets] the win test asks for; and no tick lowers their
    sum: a pellet or candy leaves the maze only by being eaten. *)
Theorem pellet_supply s :
  reachable s →
  totalPellets s - 3 ≤ eatenPellets s + edible (maze s)
  ∧ (gameState s = PLAYING →
     3 * totalPellets s ≤ 4 * (eatenPellets s + edible (maze s)))
  ∧ ∀ env, eatenPellets s + edible (maze s)
           ≤ eatenPellets (update env s) + edible (maze (update env s)).
Proof.
  intros Hr. destruct (reachable_supplyOK s Hr) as (Hb & Hsup & Hplay).
  unfold supply in Hsup. split; [done|]. split.
  - intros Hp. apply Hplay in Hp. lia.
  - intros env. destruct (supplyStep_update env s) as [_ Hstep].
    by destruct (Hstep Hb) as [_ Hle].
Qed.

Lemma pellet_supply_witness :
  totalPellets demoAdrift - 3 ≤ eatenPellets demoAdrift + edible (maze demoAdrift)
  ∧ (gameState demoAdrift = PLAYING →
     3 * totalPellets demoAdrift
     ≤ 4 * (eatenPellets demoAdrift + edible (maze demoAdrift)))
  ∧ ∀ env, eatenPellets demoAdrift + edible (maze demoAdrift)
           ≤ eatenPellets (update env demoAdrift) + edible (maze (update env demoAdrift)).
Proof. exact (pellet_supply demoAdrift reachable_demoAdrift). Defined.
